(** * Notebook schema: fractional cell indices, rebalancing and materializers

    A shallow embedding of the schema module ([mod.ts]): the base-36
    fractional index algebra ([generateKeyBetween] and friends), the
    rebalancing planner, the cell operations built on them, and the
    materializers of the output events, run against an explicit model of
    the SQLite tables they write.

    JavaScript values are rendered as follows.  A string is a [string]
    (one [ascii] per code unit: every index character is ASCII); a
    [string | null | undefined] is an [option string]; a number that the
    code only uses as an integer is a [Z]; a thrown [Error] is the
    [Throw] case of [Result], carrying the message. *)

From Stdlib Require Import ZArith List String Ascii Bool Lia QArith.
From Stdlib Require Import DecimalString Permutation Sorted Qround.
Import ListNotations.

Local Open Scope string_scope.
Local Open Scope Z_scope.

(** ** Results of code that may throw *)

Inductive Result (A : Type) : Type :=
| Ok (value : A)
| Throw (message : string).

Arguments Ok {A} value.
Arguments Throw {A} message.

Definition bind {A B : Type} (r : Result A) (k : A -> Result B) : Result B :=
  match r with
  | Ok a => k a
  | Throw m => Throw m
  end.

Notation "x <- r ;; k" := (bind r (fun x => k))
  (at level 61, r at next level, right associativity).

Definition isOk {A : Type} (r : Result A) : bool :=
  match r with
  | Ok _ => true
  | Throw _ => false
  end.

(** ** The string primitives the code relies on *)

(** [s.length] *)
Definition len (s : string) : Z := Z.of_nat (String.length s).

(** [s[i]]: [None] is [undefined]. *)
Definition charAt (s : string) (i : Z) : option ascii :=
  if i <? 0 then None else String.get (Z.to_nat i) s.

(** [s.substring(from, to)]: both ends are clamped to [0 .. s.length] and
    swapped when they come in the wrong order. *)
Definition substring (s : string) (from to : Z) : string :=
  let clamp x := Z.max 0 (Z.min x (len s)) in
  let lo := Z.min (clamp from) (clamp to) in
  let hi := Z.max (clamp from) (clamp to) in
  String.substring (Z.to_nat lo) (Z.to_nat (hi - lo)) s.

(** [s.substring(from)] *)
Definition substringFrom (s : string) (from : Z) : string :=
  substring s from (len s).

(** Template-literal rendering of an integral number. *)
Definition Z_to_string (z : Z) : string :=
  NilZero.string_of_int (Z.to_int z).

Fixpoint repeat_nat (s : string) (n : nat) : string :=
  match n with
  | O => ""
  | S n' => s ++ repeat_nat s n'
  end.

(** [s.repeat(count)]; a negative count is a [RangeError]. *)
Definition repeat (s : string) (count : Z) : Result string :=
  if count <? 0 then Throw ("Invalid count value: " ++ Z_to_string count)
  else Ok (repeat_nat s (Z.to_nat count)).

Fixpoint indexOf_from (char : ascii) (s : string) (i : Z) : Z :=
  match s with
  | "" => -1
  | String d s' => if Ascii.eqb char d then i else indexOf_from char s' (i + 1)
  end.

(** [s.indexOf(char)] for a one-character [char]. *)
Definition indexOf (char : ascii) (s : string) : Z := indexOf_from char s 0.

(** [hay.includes(needle)] *)
Fixpoint includes (hay needle : string) : bool :=
  String.prefix needle hay ||
  match hay with
  | "" => false
  | String _ hay' => includes hay' needle
  end.

(** Truthiness of a [string | null | undefined]: [null], [undefined] and
    the empty string are falsy. *)
Definition truthy (s : option string) : bool :=
  match s with
  | Some (String _ _) => true
  | _ => false
  end.

(** [s || null] *)
Definition orNull (s : option string) : option string :=
  if truthy s then s else None.

(** [s || ""] *)
Definition orEmpty (s : option string) : string :=
  match s with
  | Some s => s
  | None => ""
  end.

(** [a < b] on strings is the code-unit lexicographic order. *)
Definition str_lt (a b : string) : bool := String.ltb a b.
Definition str_gt (a b : string) : bool := String.ltb b a.
Definition str_ge (a b : string) : bool := negb (String.ltb a b).

(** [i = 0; while (i < s.length && s[i] === c) i++] *)
Fixpoint firstNot (c : ascii) (s : string) : nat :=
  match s with
  | "" => O
  | String d s' => if Ascii.eqb d c then S (firstNot c s') else O
  end.

(** The same loop started at [j = start]. *)
Definition firstNotFrom (c : ascii) (s : string) (start : Z) : Z :=
  start + Z.of_nat (firstNot c (substringFrom s start)).

(** [i = n - 1; while (i >= 0 && s[i] === c) i--], with [n] positions
    still to visit. *)
Fixpoint lastNot (c : ascii) (s : string) (n : nat) : Z :=
  match n with
  | O => -1
  | S n' =>
      match String.get n' s with
      | Some d => if Ascii.eqb d c then lastNot c s n' else Z.of_nat n'
      | None => Z.of_nat n'
      end
  end.

(** [i = 0; while (i < a.length && i < b.length && a[i] === b[i]) i++] *)
Fixpoint firstDifference (a b : string) : nat :=
  match a, b with
  | String c a', String d b' =>
      if Ascii.eqb c d then S (firstDifference a' b') else O
  | _, _ => O
  end.

(** ** Index algebra *)

Definition BASE36_DIGITS : string := "0123456789abcdefghijklmnopqrstuvwxyz".
Definition BASE : Z := len BASE36_DIGITS.

Definition charToValue (char : ascii) : Result Z :=
  let index := indexOf char BASE36_DIGITS in
  if index =? -1 then Throw ("Invalid character: " ++ String char "")
  else Ok index.

(** [BASE36_DIGITS[value]!]: inside the range test the character always
    exists; were it [undefined], string concatenation would render it as
    such. *)
Definition valueToChar (value : Z) : Result string :=
  if (value <? 0) || (value >=? BASE)
  then Throw ("Value out of range: " ++ Z_to_string value)
  else match charAt BASE36_DIGITS value with
       | Some c => Ok (String c "")
       | None => Ok "undefined"
       end.

Definition invalidIndex (i : Z) (s : string) : string :=
  "Invalid index " ++ Z_to_string i ++ " for string " ++ s.

Definition generateKeyBefore (b : string) : Result string :=
  if String.eqb b "" then Ok "m"
  else
    let i := Z.of_nat (firstNot "0" b) in
    if i =? len b then Ok ("0" ++ b)
    else
      match charAt b i with
      | None => Throw (invalidIndex i b)
      | Some char =>
          val <- charToValue char ;;
          if (i =? 0) && (val >? 1) then valueToChar (val / 2)
          else
            let prefix := substring b 0 i in
            if val >? 1 then
              c <- valueToChar (val / 2) ;; Ok (prefix ++ c)
            else Ok (prefix ++ "0h")
      end.

Definition generateKeyAfter (a : string) : Result string :=
  if String.eqb a "" then Ok "m"
  else
    let i := lastNot "z" a (String.length a) in
    if i =? -1 then Ok (a ++ "h")
    else
      let prefix := substring a 0 i in
      match charAt a i with
      | None => Throw (invalidIndex i a)
      | Some char =>
          val <- charToValue char ;;
          if val <? BASE - 2 then
            c <- valueToChar (val + 1) ;; Ok (prefix ++ c)
          else Ok (a ++ "h")
      end.

(** The double-quote character of the message below. *)
Definition dquote : string := String "034"%char "".

Definition noStringBetween (a b : string) : string :=
  "No string exists between " ++ dquote ++ a ++ dquote ++ " and "
    ++ dquote ++ b ++ dquote ++ " in base36 encoding".

(** The block of [generateKeyBetween] under [if (i === a.length)]: [a] is
    a prefix of [b]. *)
Definition keyAfterPrefix (a b : string) (i : Z) : Result string :=
  match charAt b i with
  | None => Throw (invalidIndex i b)
  | Some nextChar =>
      nextVal <- charToValue nextChar ;;
      if nextVal >? 0 then
        let midVal := nextVal / 2 in
        if midVal >? 0 then
          c <- valueToChar midVal ;; Ok (a ++ c)
        else Ok (a ++ "0")
      else
        let noSpace := Throw (noStringBetween a b) in
        if len b >? i + 1 then
          let j := firstNotFrom "0" b i in
          let zeroCount := j - i in
          if (j =? len b) && (zeroCount >? 1) then
            zeros <- repeat "0" (zeroCount / 2) ;; Ok (a ++ zeros)
          else if j <? len b then
            zeros <- repeat "0" (j - i) ;;
            let prefix := a ++ zeros in
            match charAt b j with
            | None => Throw (invalidIndex j b)
            | Some nextChar =>
                nextVal <- charToValue nextChar ;;
                if nextVal >? 0 then
                  c <- valueToChar (nextVal / 2) ;; Ok (prefix ++ c)
                else noSpace
            end
          else noSpace
        else noSpace
  end.

(** The rest of [generateKeyBetween]: [a] and [b] both have a character
    at the first differing position [i]. *)
Definition keyAtDifference (a b : string) (i : Z) : Result string :=
  match charAt a i, charAt b i with
  | Some aChar, Some bChar =>
      aVal <- charToValue aChar ;;
      bVal <- charToValue bChar ;;
      if bVal - aVal >? 1 then
        let midVal := (aVal + bVal) / 2 in
        c <- valueToChar midVal ;;
        Ok (substring a 0 i ++ c ++ substringFrom a (i + 1))
      else if i <? len a - 1 then
        let prefix := substring a 0 (i + 1) in
        let remaining := substringFrom a (i + 1) in
        suffix <- generateKeyAfter remaining ;;
        Ok (prefix ++ suffix)
      else Ok (substring a 0 (i + 1) ++ "h")
  | _, _ =>
      Throw ("Invalid index " ++ Z_to_string i ++ " for strings "
               ++ a ++ " and " ++ b)
  end.

Definition generateKeyBetween (a b : option string) : Result string :=
  match truthy a, truthy b with
  | false, false => Ok "m"
  | false, true => generateKeyBefore (orEmpty b)
  | true, false => generateKeyAfter (orEmpty a)
  | true, true =>
      let a := orEmpty a in
      let b := orEmpty b in
      if str_ge a b then Throw ("Invalid range: " ++ a ++ " >= " ++ b)
      else
        let i := Z.of_nat (firstDifference a b) in
        if i =? len a then keyAfterPrefix a b i
        else if i =? len b then
          Throw ("Invalid case: b " ++ dquote ++ b ++ dquote
                   ++ " is a prefix of a " ++ dquote ++ a ++ dquote)
        else keyAtDifference a b i
  end.

(** ** Jitter

    A jitter provider is an object with hidden mutable state; its two
    methods are state transformers over that state.  [random()] yields a
    number (a rational here), [randomInt(max)] an integer.  Code that both
    draws from a provider and may throw lives in [Jit]. *)

Record JitterProvider (S : Type) : Type := {
  random : S -> Q * S;
  randomInt : Z -> S -> Z * S
}.

Arguments random {S} _ _.
Arguments randomInt {S} _ _ _.

Definition Jit (S A : Type) : Type := S -> Result A * S.

Definition ret {S A : Type} (a : A) : Jit S A := fun st => (Ok a, st).

Definition throw {S A : Type} (message : string) : Jit S A :=
  fun st => (Throw message, st).

Definition bindJ {S A B : Type} (m : Jit S A) (k : A -> Jit S B) : Jit S B :=
  fun st =>
    match m st with
    | (Ok a, st') => k a st'
    | (Throw message, st') => (Throw message, st')
    end.

Notation "x <~ m ;; k" := (bindJ m (fun x => k))
  (at level 61, m at next level, right associativity).

(** [try { body } catch (error) { handler(error.message) }] *)
Definition tryCatch {S A : Type} (body : Jit S A)
    (handler : string -> Jit S A) : Jit S A :=
  fun st =>
    match body st with
    | (Ok a, st') => (Ok a, st')
    | (Throw message, st') => handler message st'
    end.

(** The binary64 value of the literal [0.3]. *)
Definition jitterThreshold : Q := 5404319552844595 # 18014398509481984.

Definition Qltb (x y : Q) : bool := negb (Qle_bool y x).

Definition fractionalIndexBetween {S : Type} (a b : option string)
    (jitterProvider : JitterProvider S) : Jit S string :=
  fun st =>
    match generateKeyBetween a b with
    | Throw message => (Throw message, st)
    | Ok key =>
        let (r, st1) := random jitterProvider st in
        if Qltb r jitterThreshold && (len key <? 10) then
          let (n, st2) := randomInt jitterProvider BASE st1 in
          match valueToChar n with
          | Throw message => (Throw message, st2)
          | Ok suffix =>
              let candidate := key ++ suffix in
              let isValid :=
                (negb (truthy a) || str_gt candidate (orEmpty a))
                && (negb (truthy b) || str_lt candidate (orEmpty b)) in
              if isValid then (Ok candidate, st2) else (Ok key, st2)
          end
        else (Ok key, st1)
    end.

(** The body of the [for] loop of [generateFractionalIndices], run
    [count] times from [prev]. *)
Fixpoint generateLoop {S : Type} (count : nat) (prev b : option string)
    (jitterProvider : JitterProvider S) : Jit S (list string) :=
  match count with
  | O => ret []
  | S count' =>
      key <~ fractionalIndexBetween prev b jitterProvider ;;
      keys <~ generateLoop count' (Some key) b jitterProvider ;;
      ret (key :: keys)
  end.

Definition generateFractionalIndices {S : Type} (a b : option string) (n : Z)
    (jitterProvider : JitterProvider S) : Jit S (list string) :=
  if n <=? 0 then ret []
  else if n =? 1 then
    key <~ fractionalIndexBetween a b jitterProvider ;; ret [key]
  else generateLoop (Z.to_nat n) a b jitterProvider.

Definition isValidFractionalIndex (index : string) : bool :=
  if len index =? 0 then false
  else forallb (fun char => includes BASE36_DIGITS (String char ""))
         (list_ascii_of_string index).

(** ** Events and cell references *)

Inductive CellType : Type := code | markdown | sql | raw | ai.

Record CellReference : Type := {
  id : string;
  fractionalIndex : option string;
  cellType : CellType
}.

Record CellMovedArgs : Type := {
  moved_id : string;
  moved_fractionalIndex : string;
  moved_actorId : option string
}.

Record CellCreatedArgs : Type := {
  created_id : string;
  created_fractionalIndex : string;
  created_cellType : CellType;
  created_createdBy : string
}.

(** The events the cell operations emit: [events.cellMoved2] is
    [v2.CellMoved], [events.cellCreated2] is [v2.CellCreated]. *)
Inductive CellEvent : Type :=
| cellMoved2 (args : CellMovedArgs)
| cellCreated2 (args : CellCreatedArgs).

Record RebalanceResult : Type := {
  newIndices : list (string * string);
  events : list CellEvent
}.

(** [xs[i]] on an array. *)
Definition at_ {A : Type} (xs : list A) (i : Z) : option A :=
  if i <? 0 then None else nth_error xs (Z.to_nat i).

Definition lenL {A : Type} (xs : list A) : Z := Z.of_nat (List.length xs).

(** [xs.findIndex(p)] *)
Fixpoint findIndex_from {A : Type} (p : A -> bool) (xs : list A) (i : Z) : Z :=
  match xs with
  | [] => -1
  | x :: xs' => if p x then i else findIndex_from p xs' (i + 1)
  end.

Definition findIndex {A : Type} (p : A -> bool) (xs : list A) : Z :=
  findIndex_from p xs 0.

(** [[...xs].sort(compare)]: the sort is stable; [compare x y <= 0] keeps
    [x] before [y]. *)
Fixpoint insertSorted {A : Type} (compare : A -> A -> Z) (x : A)
    (xs : list A) : list A :=
  match xs with
  | [] => [x]
  | y :: xs' =>
      if compare x y <=? 0 then x :: y :: xs'
      else y :: insertSorted compare x xs'
  end.

Definition sort {A : Type} (compare : A -> A -> Z) (xs : list A) : list A :=
  fold_right (insertSorted compare) [] xs.

(** The comparator of [xs.sort()] on strings: code-unit order. *)
Definition defaultCompare (x y : string) : Z :=
  match String.compare x y with
  | Lt => -1
  | Eq => 0
  | Gt => 1
  end.

(** The provider [{ random: () => 0, randomInt: () => 0 }]. *)
Definition zeroJitter : JitterProvider unit := {|
  random := fun st => (0%Q, st);
  randomInt := fun _ st => (0, st)
|}.

Definition isCrowdingMessage (message : string) : bool :=
  includes message "No string exists between"
  || includes message "Invalid range".

(** One [try]/[catch] of [needsRebalancing]: does inserting between the
    two indices throw one of the two crowding errors? *)
Definition insertionThrows (current next : option string) : bool :=
  match fst (fractionalIndexBetween current next zeroJitter tt) with
  | Ok _ => false
  | Throw message => isCrowdingMessage message
  end.

Fixpoint anyAdjacentThrows (sortedCells : list CellReference) : bool :=
  match sortedCells with
  | current :: ((next :: _) as rest) =>
      (truthy (fractionalIndex current) && truthy (fractionalIndex next)
       && insertionThrows (fractionalIndex current) (fractionalIndex next))
      || anyAdjacentThrows rest
  | _ => false
  end.

(** ** Rebalancing planner and cell operations *)

Section Planner.

(** [x.localeCompare(y)] is the host's collation, and [s > null],
    [s < null] compare [ToNumber(s)] with zero: both belong to the
    JavaScript runtime and are taken as given. *)
Variable localeCompare : string -> string -> Z.
Variable gtNull : string -> bool.
Variable ltNull : string -> bool.

(** The state of the jitter providers in use. *)
Variable S : Type.

Definition byFractionalIndex (a b : CellReference) : Z :=
  localeCompare (orEmpty (fractionalIndex a)) (orEmpty (fractionalIndex b)).

Definition needsRebalancing (cells : list CellReference)
    (insertPosition : option Z) : bool :=
  if lenL cells <? 2 then false
  else
    let sortedCells := sort byFractionalIndex cells in
    if anyAdjacentThrows sortedCells then true
    else
      match insertPosition with
      | None => false
      | Some insertPosition =>
          let beforeCell :=
            if insertPosition >? 0 then at_ sortedCells (insertPosition - 1)
            else None in
          let afterCell :=
            if insertPosition <? lenL sortedCells
            then at_ sortedCells insertPosition
            else None in
          match beforeCell, afterCell with
          | Some beforeCell, Some afterCell =>
              insertionThrows (fractionalIndex beforeCell)
                (fractionalIndex afterCell)
          | _, _ => false
          end
      end.

(** The assignment loop of [rebalanceCellIndices] from position [i] on:
    the pairs pushed to [newIndices]. *)
Fixpoint assignIndices (sortedCells : list CellReference)
    (indices : list string) (bufferCells i : Z) : list (string * string) :=
  match sortedCells with
  | [] => []
  | cell :: rest =>
      let tail := assignIndices rest indices bufferCells (i + 1) in
      match at_ indices (i + bufferCells) with
      | None => tail
      | Some newIndex =>
          if negb (truthy (Some newIndex)) then tail
          else
            match fractionalIndex cell with
            | Some old =>
                if String.eqb old newIndex then tail
                else (id cell, newIndex) :: tail
            | None => (id cell, newIndex) :: tail
            end
      end
  end.

Definition rebalanceCellIndices (cells : list CellReference)
    (jitterProvider : JitterProvider S) (actorId : option string)
    (bufferCells : option Z) : Jit S RebalanceResult :=
  let actorId := match actorId with Some x => x | None => "system" end in
  let bufferCells := match bufferCells with Some x => x | None => 2 end in
  if lenL cells =? 0 then ret {| newIndices := []; events := [] |}
  else
    let sortedCells := sort byFractionalIndex cells in
    let totalPositions := lenL cells + bufferCells * 2 in
    indices <~
      generateFractionalIndices None None totalPositions jitterProvider ;;
    let assigned := assignIndices sortedCells indices bufferCells 0 in
    ret {| newIndices := assigned;
           events :=
             map (fun '(cellId, newIndex) =>
                    cellMoved2 {| moved_id := cellId;
                                  moved_fractionalIndex := newIndex;
                                  moved_actorId := Some actorId |})
                 assigned |}.

Definition calculateInsertionIndexAfterRebalancing (insertPosition : Z)
    (rebalanceResult : RebalanceResult)
    (jitterProvider : JitterProvider S) : Jit S string :=
  let newIndices :=
    sort defaultCompare (map snd (newIndices rebalanceResult)) in
  if insertPosition =? 0 then
    fractionalIndexBetween None (at_ newIndices 0) jitterProvider
  else if insertPosition >=? lenL newIndices then
    fractionalIndexBetween (at_ newIndices (lenL newIndices - 1)) None
      jitterProvider
  else
    fractionalIndexBetween (at_ newIndices (insertPosition - 1))
      (at_ newIndices insertPosition) jitterProvider.

(** Both [return] sites of [fractionalIndexBetweenWithFallback] set
    [index], so the field is a plain string here. *)
Record FallbackResult : Type := {
  fb_index : string;
  fb_needsRebalancing : bool;
  fb_rebalanceResult : option RebalanceResult
}.

Definition fractionalIndexBetweenWithFallback (a b : option string)
    (allCells : list CellReference) (insertPosition : option Z)
    (jitterProvider : JitterProvider S) : Jit S FallbackResult :=
  tryCatch
    (index <~ fractionalIndexBetween a b jitterProvider ;;
     ret {| fb_index := index;
            fb_needsRebalancing := false;
            fb_rebalanceResult := None |})
    (fun message =>
       if isCrowdingMessage message
          && (lenL allCells >? 0)
          && needsRebalancing allCells insertPosition
       then
         rebalanceResult <~
           rebalanceCellIndices allCells jitterProvider None None ;;
         let position :=
           match insertPosition with
           | Some p => p
           | None => lenL allCells
           end in
         insertionIndex <~
           calculateInsertionIndexAfterRebalancing position rebalanceResult
             jitterProvider ;;
         ret {| fb_index := insertionIndex;
                fb_needsRebalancing := true;
                fb_rebalanceResult := Some rebalanceResult |}
       else throw message).

(** [x > y] and [x < y] for a string [x] and a [string | null]. *)
Definition gt_key (x : string) (y : option string) : bool :=
  match y with
  | Some y => str_gt x y
  | None => gtNull x
  end.

Definition lt_key (x : string) (y : option string) : bool :=
  match y with
  | Some y => str_lt x y
  | None => ltNull x
  end.

(** [cell?.fractionalIndex || null] *)
Definition keyOf (cell : option CellReference) : option string :=
  match cell with
  | Some cell => orNull (fractionalIndex cell)
  | None => None
  end.

Definition isSome {A : Type} (x : option A) : bool :=
  match x with
  | Some _ => true
  | None => false
  end.

Definition moveCellBetween (cell : CellReference)
    (cellBefore cellAfter : option CellReference) (actorId : option string)
    (jitterProvider : JitterProvider S) : Jit S (option CellEvent) :=
  if negb (truthy (fractionalIndex cell)) then ret None
  else
    let index := orEmpty (fractionalIndex cell) in
    let previousKey := keyOf cellBefore in
    let nextKey := keyOf cellAfter in
    let alreadyThere :=
      match isSome cellBefore, isSome cellAfter with
      | true, true => gt_key index previousKey && lt_key index nextKey
      | false, true => lt_key index nextKey
      | true, false => gt_key index previousKey
      | false, false => false
      end in
    if alreadyThere then ret None
    else
      fractionalIndex <~
        fractionalIndexBetween previousKey nextKey jitterProvider ;;
      ret (Some (cellMoved2 {| moved_id := id cell;
                               moved_fractionalIndex := fractionalIndex;
                               moved_actorId := actorId |})).

Record MoveWithRebalancing : Type := {
  mw_moveEvent : option CellEvent;
  mw_rebalanceResult : option RebalanceResult;
  mw_needsRebalancing : bool
}.

Definition moveCellWithRebalancing (cell : CellReference)
    (cellBefore cellAfter : option CellReference)
    (allCells : list CellReference) (actorId : option string)
    (jitterProvider : JitterProvider S) : Jit S MoveWithRebalancing :=
  let actorId := match actorId with Some x => x | None => "user" end in
  moveEvent <~
    tryCatch
      (moveCellBetween cell cellBefore cellAfter (Some actorId)
         jitterProvider)
      (fun message =>
         if includes message "No string exists between" then ret None
         else throw message) ;;
  match moveEvent with
  | Some moveEvent =>
      ret {| mw_moveEvent := Some moveEvent;
             mw_rebalanceResult := None;
             mw_needsRebalancing := false |}
  | None =>
      if needsRebalancing allCells None then
        rebalanceResult <~
          rebalanceCellIndices allCells jitterProvider
            (Some (actorId ++ "-rebalance")) None ;;
        ret {| mw_moveEvent := None;
               mw_rebalanceResult := Some rebalanceResult;
               mw_needsRebalancing := true |}
      else
        ret {| mw_moveEvent := None;
               mw_rebalanceResult := None;
               mw_needsRebalancing := false |}
  end.

Record CellData : Type := {
  cd_id : string;
  cd_cellType : CellType;
  cd_createdBy : string
}.

Record CellOperationResult : Type := {
  co_events : list CellEvent;
  co_newCellId : string;
  co_needsRebalancing : bool;
  co_rebalanceCount : option Z
}.

(** The [insertPosition] / [targetPosition] computation shared by the
    two operations; [atEnd] is the value of the last branch. *)
Definition positionOf (cellBefore cellAfter : option CellReference)
    (allCells : list CellReference) (atEnd : Z) : Z :=
  match cellBefore, cellAfter with
  | Some cellBefore, _ =>
      findIndex (fun c => String.eqb (id c) (id cellBefore)) allCells + 1
  | None, Some cellAfter =>
      findIndex (fun c => String.eqb (id c) (id cellAfter)) allCells
  | None, None => atEnd
  end.

Definition createCellBetween (cellData : CellData)
    (cellBefore cellAfter : option CellReference)
    (allCells : list CellReference)
    (jitterProvider : JitterProvider S) : Jit S CellOperationResult :=
  let lastKey :=
    if negb (isSome cellBefore) && negb (isSome cellAfter)
       && (lenL allCells >? 0)
    then
      let sortedCells := sort byFractionalIndex allCells in
      match at_ sortedCells (lenL sortedCells - 1) with
      | Some lastCell =>
          if truthy (fractionalIndex lastCell)
          then Some (fractionalIndex lastCell)
          else None
      | None => None
      end
    else None in
  let previousKey :=
    match lastKey with
    | Some k => k
    | None => keyOf cellBefore
    end in
  let nextKey :=
    match lastKey with
    | Some _ => None
    | None => keyOf cellAfter
    end in
  let insertPosition :=
    positionOf cellBefore cellAfter allCells (lenL allCells) in
  result <~
    fractionalIndexBetweenWithFallback previousKey nextKey allCells
      (Some insertPosition) jitterProvider ;;
  let rebalanceEvents :=
    match fb_needsRebalancing result, fb_rebalanceResult result with
    | true, Some rebalanceResult => events rebalanceResult
    | _, _ => []
    end in
  let createEvent :=
    cellCreated2 {| created_id := cd_id cellData;
                    created_fractionalIndex := fb_index result;
                    created_cellType := cd_cellType cellData;
                    created_createdBy := cd_createdBy cellData |} in
  ret {| co_events := (rebalanceEvents ++ [createEvent])%list;
         co_newCellId := cd_id cellData;
         co_needsRebalancing := fb_needsRebalancing result;
         co_rebalanceCount :=
           match fb_rebalanceResult result with
           | Some rebalanceResult =>
               Some (lenL (newIndices rebalanceResult))
           | None => None
           end |}.

Record MoveOperationResult : Type := {
  mo_events : list CellEvent;
  mo_moved : bool;
  mo_needsRebalancing : bool;
  mo_rebalanceCount : option Z
}.

Definition notMoved : MoveOperationResult :=
  {| mo_events := []; mo_moved := false; mo_needsRebalancing := false;
     mo_rebalanceCount := None |}.

Definition moveCellBetweenWithRebalancing (cell : CellReference)
    (cellBefore cellAfter : option CellReference)
    (allCells : list CellReference) (actorId : option string)
    (jitterProvider : JitterProvider S) : Jit S MoveOperationResult :=
  if negb (truthy (fractionalIndex cell)) then ret notMoved
  else
    let targetPosition :=
      positionOf cellBefore cellAfter allCells (lenL allCells - 1) in
    let currentPosition :=
      findIndex (fun c => String.eqb (id c) (id cell)) allCells in
    if currentPosition =? targetPosition then ret notMoved
    else
      result <~
        moveCellWithRebalancing cell cellBefore cellAfter allCells
          (orNull actorId) jitterProvider ;;
      match mw_needsRebalancing result, mw_rebalanceResult result with
      | true, Some rebalanceResult =>
          ret {| mo_events := events rebalanceResult;
                 mo_moved := true;
                 mo_needsRebalancing := true;
                 mo_rebalanceCount :=
                   Some (lenL (newIndices rebalanceResult)) |}
      | _, _ =>
          match mw_moveEvent result with
          | Some moveEvent =>
              ret {| mo_events := [moveEvent];
                     mo_moved := true;
                     mo_needsRebalancing := false;
                     mo_rebalanceCount := None |}
          | None => ret notMoved
          end
      end.

End Planner.

Arguments rebalanceCellIndices localeCompare {S} cells jitterProvider actorId
  bufferCells _.
Arguments calculateInsertionIndexAfterRebalancing {S} insertPosition
  rebalanceResult jitterProvider _.
Arguments fractionalIndexBetweenWithFallback localeCompare {S} a b allCells
  insertPosition jitterProvider _.
Arguments moveCellBetween gtNull ltNull {S} cell cellBefore cellAfter actorId
  jitterProvider _.
Arguments moveCellWithRebalancing localeCompare gtNull ltNull {S} cell
  cellBefore cellAfter allCells actorId jitterProvider _.
Arguments createCellBetween localeCompare {S} cellData cellBefore cellAfter
  allCells jitterProvider _.
Arguments moveCellBetweenWithRebalancing localeCompare gtNull ltNull {S} cell
  cellBefore cellAfter allCells actorId jitterProvider _.

(** ** State tables and materializers of the output events *)

(** A value of schema [Schema.Any] is opaque; the materializers apply
    three coercions of the language to it: truthiness, [String(x)] and
    [JSON.stringify(x)]. *)
Class Coercions (Any : Type) : Type := {
  truthyAny : Any -> bool;
  toStr : Any -> string;
  JSON_stringify : Any -> option string
}.

Section Materializer.

Variable Any : Type.
Context {js : Coercions Any}.

Inductive MediaContainer : Type :=
| inline (data : Any) (metadata : option Any)
| artifact (artifactId : string) (metadata : option Any).

(** [Record<string, MediaContainer>] *)
Definition Representations : Type := list (string * MediaContainer).

(** [representations[mimeType]] *)
Fixpoint lookup (representations : Representations) (mimeType : string)
    : option MediaContainer :=
  match representations with
  | [] => None
  | (k, v) :: rest =>
      if String.eqb k mimeType then Some v else lookup rest mimeType
  end.

Inductive OutputType : Type :=
| multimedia_display | multimedia_result | terminal | markdown_output
| error_output.

Definition OutputType_eqb (x y : OutputType) : bool :=
  match x, y with
  | multimedia_display, multimedia_display
  | multimedia_result, multimedia_result
  | terminal, terminal
  | markdown_output, markdown_output
  | error_output, error_output => true
  | _, _ => false
  end.

Inductive StreamName : Type := stdout | stderr.

Record OutputRow : Type := {
  o_id : string;
  o_cellId : string;
  o_outputType : OutputType;
  o_position : Q;
  o_streamName : option StreamName;
  o_executionCount : option Z;
  o_displayId : option string;
  o_data : option string;
  o_artifactId : option string;
  o_mimeType : option string;
  o_metadata : option Any;
  o_representations : option Representations
}.

Record OutputDeltaRow : Type := {
  d_id : string;
  d_outputId : string;
  d_delta : string;
  d_sequenceNumber : Z
}.

Record PendingClearRow : Type := {
  pc_cellId : string;
  pc_clearedBy : string
}.

Record PresenceRow : Type := {
  p_userId : string;
  p_cellId : option string
}.

(** The tables these materializers read and write, each in row order. *)
Record State : Type := {
  outputs : list OutputRow;
  outputDeltas : list OutputDeltaRow;
  pendingClears : list PendingClearRow;
  presence : list PresenceRow
}.

(** [.where({...})] on [outputs]: the columns that are given must
    match; a [NULL] column matches no value. *)
Record OutputsWhere : Type := {
  w_id : option string;
  w_cellId : option string;
  w_displayId : option string;
  w_outputType : option OutputType
}.

Definition anyOutput : OutputsWhere :=
  {| w_id := None; w_cellId := None; w_displayId := None;
     w_outputType := None |}.

Definition given {A : Type} (eqb : A -> A -> bool) (wanted : option A)
    (actual : A) : bool :=
  match wanted with
  | Some v => eqb v actual
  | None => true
  end.

Definition givenNullable (wanted : option string) (actual : option string)
    : bool :=
  match wanted, actual with
  | Some v, Some x => String.eqb v x
  | Some _, None => false
  | None, _ => true
  end.

Definition matches (w : OutputsWhere) (row : OutputRow) : bool :=
  given String.eqb (w_id w) (o_id row)
  && given String.eqb (w_cellId w) (o_cellId row)
  && givenNullable (w_displayId w) (o_displayId row)
  && given OutputType_eqb (w_outputType w) (o_outputType row).

(** [.update({...})] on [outputs]: the columns that are given. *)
Record OutputsSet : Type := {
  set_data : option string;
  set_mimeType : option string;
  set_representations : option Representations
}.

Definition setColumns (u : OutputsSet) (row : OutputRow) : OutputRow :=
  {| o_id := o_id row;
     o_cellId := o_cellId row;
     o_outputType := o_outputType row;
     o_position := o_position row;
     o_streamName := o_streamName row;
     o_executionCount := o_executionCount row;
     o_displayId := o_displayId row;
     o_data :=
       match set_data u with Some d => Some d | None => o_data row end;
     o_artifactId := o_artifactId row;
     o_mimeType :=
       match set_mimeType u with
       | Some m => Some m
       | None => o_mimeType row
       end;
     o_metadata := o_metadata row;
     o_representations :=
       match set_representations u with
       | Some r => Some r
       | None => o_representations row
       end |}.

(** The operations a materializer returns. *)
Inductive TableOp : Type :=
| outputs_insert_replace (row : OutputRow)
    (* tables.outputs.insert(row).onConflict("id", "replace") *)
| outputs_delete (w : OutputsWhere)
    (* tables.outputs.delete().where(w) *)
| outputs_update (u : OutputsSet) (w : OutputsWhere)
    (* tables.outputs.update(u).where(w) *)
| pendingClears_insert_replace (row : PendingClearRow)
    (* tables.pendingClears.insert(row).onConflict("cellId", "replace") *)
| pendingClears_delete (cellId : string)
    (* tables.pendingClears.delete().where({ cellId }) *)
| outputDeltas_insert (row : OutputDeltaRow)
    (* tables.outputDeltas.insert(row) *)
| presence_insert_replace (row : PresenceRow).
    (* tables.presence.insert(row).onConflict("userId", "replace") *)

(** [ctx.query(tables.outputs.select().where(w))] *)
Definition selectOutputs (st : State) (w : OutputsWhere) : list OutputRow :=
  filter (matches w) (outputs st).

(** [ctx.query(tables.pendingClears.select().where({ cellId }).limit(1))[0]] *)
Definition selectPendingClear (st : State) (cellId : string)
    : option PendingClearRow :=
  find (fun row => String.eqb (pc_cellId row) cellId) (pendingClears st).

(** Running one operation.  An insert that replaces on conflict drops
    the row holding the key and adds the new one; a plain insert of a
    key already present violates the primary key. *)
Definition applyOp (op : TableOp) (st : State) : Result State :=
  match op with
  | outputs_insert_replace row =>
      Ok {| outputs :=
              (filter (fun r => negb (String.eqb (o_id r) (o_id row)))
                      (outputs st) ++ [row])%list;
            outputDeltas := outputDeltas st;
            pendingClears := pendingClears st;
            presence := presence st |}
  | outputs_delete w =>
      Ok {| outputs := filter (fun r => negb (matches w r)) (outputs st);
            outputDeltas := outputDeltas st;
            pendingClears := pendingClears st;
            presence := presence st |}
  | outputs_update u w =>
      Ok {| outputs :=
              map (fun r => if matches w r then setColumns u r else r)
                  (outputs st);
            outputDeltas := outputDeltas st;
            pendingClears := pendingClears st;
            presence := presence st |}
  | pendingClears_insert_replace row =>
      Ok {| outputs := outputs st;
            outputDeltas := outputDeltas st;
            pendingClears :=
              (filter (fun r =>
                         negb (String.eqb (pc_cellId r) (pc_cellId row)))
                      (pendingClears st) ++ [row])%list;
            presence := presence st |}
  | pendingClears_delete cellId =>
      Ok {| outputs := outputs st;
            outputDeltas := outputDeltas st;
            pendingClears :=
              filter (fun r => negb (String.eqb (pc_cellId r) cellId))
                     (pendingClears st);
            presence := presence st |}
  | outputDeltas_insert row =>
      if existsb (fun r => String.eqb (d_id r) (d_id row)) (outputDeltas st)
      then Throw "UNIQUE constraint failed: output_deltas.id"
      else
        Ok {| outputs := outputs st;
              outputDeltas := (outputDeltas st ++ [row])%list;
              pendingClears := pendingClears st;
              presence := presence st |}
  | presence_insert_replace row =>
      Ok {| outputs := outputs st;
            outputDeltas := outputDeltas st;
            pendingClears := pendingClears st;
            presence :=
              (filter (fun r =>
                         negb (String.eqb (p_userId r) (p_userId row)))
                      (presence st) ++ [row])%list |}
  end.

Fixpoint applyOps (ops : list TableOp) (st : State) : Result State :=
  match ops with
  | [] => Ok st
  | op :: rest => st' <- applyOp op st ;; applyOps rest st'
  end.

Definition defaultPreferredMimeTypes : list string :=
  [ "application/vnd.plotly.v1+json";
    "application/vnd.vegalite.v6+json";
    "application/vnd.vegalite.v5+json";
    "application/vnd.vegalite.v4+json";
    "application/vnd.vegalite.v3+json";
    "application/vnd.vegalite.v2+json";
    "application/vnd.vega.v5+json";
    "application/vnd.vega.v4+json";
    "application/vnd.vega.v3+json";
    "application/vnd.jupyter.widget-view+json";
    "application/vnd.jupyter.widget-state+json";
    "application/vnd.dataresource+json";
    "application/vdom.v1+json";
    "application/geo+json";
    "application/json";
    "application/javascript";
    "text/html";
    "image/svg+xml";
    "image/png";
    "image/jpeg";
    "image/gif";
    "text/latex";
    "text/markdown";
    "text/plain" ].

Fixpoint selectPrimaryRepresentation (representations : Representations)
    (preferredMimeTypes : list string) : option (string * MediaContainer) :=
  match preferredMimeTypes with
  | [] => None
  | mimeType :: rest =>
      match lookup representations mimeType with
      | Some container => Some (mimeType, container)
      | None => selectPrimaryRepresentation representations rest
      end
  end.

(** [container.type === "inline" ? String(container.data || "") : ""] *)
Definition primaryData (container : MediaContainer) : string :=
  match container with
  | inline data _ => if truthyAny data then toStr data else ""
  | artifact _ _ => ""
  end.

Definition displayWhere (displayId : string) : OutputsWhere :=
  {| w_id := None; w_cellId := None; w_displayId := Some displayId;
     w_outputType := Some multimedia_display |}.

Definition updateExistingDisplays (displayId : string)
    (representations : Representations) (st : State) : list TableOp :=
  let existingOutputs := selectOutputs st (displayWhere displayId) in
  if lenL existingOutputs =? 0 then []
  else
    match selectPrimaryRepresentation representations
            defaultPreferredMimeTypes with
    | None => []
    | Some (mimeType, container) =>
        [ outputs_update
            {| set_data := Some (primaryData container);
               set_mimeType := Some mimeType;
               set_representations := Some representations |}
            (displayWhere displayId) ]
    end.

Definition updatePresence (userId : string) (cellId : option string)
    : TableOp :=
  presence_insert_replace {| p_userId := userId; p_cellId := orNull cellId |}.

(** The events of the output system. *)
Inductive OutputEvent : Type :=
| MultimediaDisplayOutputAdded (id cellId : string) (position : Q)
    (representations : Representations) (displayId : option string)
| MultimediaDisplayOutputUpdated (displayId : string)
    (representations : Representations)
| MultimediaResultOutputAdded (id cellId : string) (position : Q)
    (representations : Representations) (executionCount : Z)
| TerminalOutputAdded (id cellId : string) (position : Q)
    (content : MediaContainer) (streamName : StreamName)
| TerminalOutputAppended (outputId : string) (content : MediaContainer)
| TerminalOutputAppended2 (id outputId delta : string) (sequenceNumber : Z)
| MarkdownOutputAdded (id cellId : string) (position : Q)
    (content : MediaContainer)
| MarkdownOutputAppended (outputId : string) (content : MediaContainer)
| MarkdownOutputAppended2 (id outputId delta : string) (sequenceNumber : Z)
| ErrorOutputAdded (id cellId : string) (position : Q)
    (content : MediaContainer)
| CellOutputsCleared (cellId : string) (wait : bool) (clearedBy : string).

Definition contentMetadata (content : MediaContainer) : option Any :=
  match content with
  | inline _ metadata => metadata
  | artifact _ metadata => metadata
  end.

Definition contentArtifactId (content : MediaContainer) : option string :=
  match content with
  | inline _ _ => None
  | artifact artifactId _ => Some artifactId
  end.

(** [content.type === "inline" ? String(content.data) : <otherwise>] *)
Definition contentString (content : MediaContainer)
    (otherwise : option string) : option string :=
  match content with
  | inline data _ => Some (toStr data)
  | artifact _ _ => otherwise
  end.

Definition resultPreferenceOrder : list string :=
  [ "text/html"; "image/png"; "image/jpeg"; "image/svg+xml";
    "application/json"; "text/plain" ].

Definition cellWhere (cellId : string) : OutputsWhere :=
  {| w_id := None; w_cellId := Some cellId; w_displayId := None;
     w_outputType := None |}.

Definition idWhere (outputId : string) : OutputsWhere :=
  {| w_id := Some outputId; w_cellId := None; w_displayId := None;
     w_outputType := None |}.

(** The check every output-add materializer starts with. *)
Definition pendingClearOps (cellId : string) (st : State) : list TableOp :=
  match selectPendingClear st cellId with
  | Some _ => [ outputs_delete (cellWhere cellId); pendingClears_delete cellId ]
  | None => []
  end.

(** [primaryRep ? f(primaryRep) : otherwise] for the two columns taken
    from the primary representation. *)
Definition primaryDataOf (primaryRep : option (string * MediaContainer))
    : string :=
  match primaryRep with
  | Some (_, container) => primaryData container
  | None => ""
  end.

Definition primaryMimeTypeOf (primaryRep : option (string * MediaContainer))
    : string :=
  match primaryRep with
  | Some (mimeType, _) => mimeType
  | None => "text/plain"
  end.

(** The row each output-add materializer inserts. *)
Definition displayRow (id cellId : string) (position : Q)
    (representations : Representations) (displayId : option string)
    : OutputRow :=
  let primaryRep :=
    selectPrimaryRepresentation representations defaultPreferredMimeTypes in
  {| o_id := id;
     o_cellId := cellId;
     o_outputType := multimedia_display;
     o_position := position;
     o_streamName := None;
     o_executionCount := None;
     o_displayId := orNull displayId;
     o_data := Some (primaryDataOf primaryRep);
     o_artifactId := None;
     o_mimeType := Some (primaryMimeTypeOf primaryRep);
     o_metadata := None;
     o_representations := Some representations |}.

Definition resultRow (id cellId : string) (position : Q)
    (representations : Representations) (executionCount : Z) : OutputRow :=
  let primaryRep :=
    selectPrimaryRepresentation representations resultPreferenceOrder in
  {| o_id := id;
     o_cellId := cellId;
     o_outputType := multimedia_result;
     o_position := position;
     o_streamName := None;
     o_executionCount := Some executionCount;
     o_displayId := None;
     o_data := Some (primaryDataOf primaryRep);
     o_artifactId := None;
     o_mimeType := Some (primaryMimeTypeOf primaryRep);
     o_metadata := None;
     o_representations := Some representations |}.

Definition terminalRow (id cellId : string) (position : Q)
    (content : MediaContainer) (streamName : StreamName) : OutputRow :=
  {| o_id := id;
     o_cellId := cellId;
     o_outputType := terminal;
     o_position := position;
     o_streamName := Some streamName;
     o_executionCount := None;
     o_displayId := None;
     o_data := contentString content None;
     o_artifactId := contentArtifactId content;
     o_mimeType := Some "text/plain";
     o_metadata := contentMetadata content;
     o_representations := None |}.

Definition markdownRow (id cellId : string) (position : Q)
    (content : MediaContainer) : OutputRow :=
  {| o_id := id;
     o_cellId := cellId;
     o_outputType := markdown_output;
     o_position := position;
     o_streamName := None;
     o_executionCount := None;
     o_displayId := None;
     o_data := contentString content None;
     o_artifactId := contentArtifactId content;
     o_mimeType := Some "text/markdown";
     o_metadata := contentMetadata content;
     o_representations := None |}.

Definition errorRow (id cellId : string) (position : Q)
    (content : MediaContainer) : OutputRow :=
  {| o_id := id;
     o_cellId := cellId;
     o_outputType := error_output;
     o_position := position;
     o_streamName := None;
     o_executionCount := None;
     o_displayId := None;
     o_data :=
       match content with
       | inline data _ => JSON_stringify data
       | artifact _ _ => None
       end;
     o_artifactId := contentArtifactId content;
     o_mimeType := Some "application/json";
     o_metadata := contentMetadata content;
     o_representations := None |}.

Definition appendedData (existingOutput : OutputRow)
    (content : MediaContainer) : string :=
  let newContent := orEmpty (contentString content (Some "")) in
  orEmpty (o_data existingOutput) ++ newContent.

(** The v1 append materializers (terminal and markdown share the body). *)
Definition appendOps (outputId : string) (content : MediaContainer)
    (st : State) : list TableOp :=
  match hd_error (selectOutputs st (idWhere outputId)) with
  | None => []
  | Some existingOutput =>
      [ outputs_update
          {| set_data := Some (appendedData existingOutput content);
             set_mimeType := None;
             set_representations := None |}
          (idWhere outputId) ]
  end.

Definition materialize (event : OutputEvent) (st : State) : list TableOp :=
  match event with
  | MultimediaDisplayOutputAdded id cellId position representations
      displayId =>
      (pendingClearOps cellId st
       ++ (if truthy displayId
           then updateExistingDisplays (orEmpty displayId) representations st
           else [])
       ++ [ outputs_insert_replace
              (displayRow id cellId position representations displayId) ])%list
  | MultimediaDisplayOutputUpdated displayId representations =>
      updateExistingDisplays displayId representations st
  | MultimediaResultOutputAdded id cellId position representations
      executionCount =>
      (pendingClearOps cellId st
       ++ [ outputs_insert_replace
              (resultRow id cellId position representations executionCount)
          ])%list
  | TerminalOutputAdded id cellId position content streamName =>
      (pendingClearOps cellId st
       ++ [ outputs_insert_replace
              (terminalRow id cellId position content streamName) ])%list
  | TerminalOutputAppended outputId content => appendOps outputId content st
  | MarkdownOutputAppended outputId content => appendOps outputId content st
  | TerminalOutputAppended2 id outputId delta sequenceNumber =>
      [ outputDeltas_insert
          {| d_id := id; d_outputId := outputId; d_delta := delta;
             d_sequenceNumber := sequenceNumber |} ]
  | MarkdownOutputAppended2 id outputId delta sequenceNumber =>
      [ outputDeltas_insert
          {| d_id := id; d_outputId := outputId; d_delta := delta;
             d_sequenceNumber := sequenceNumber |} ]
  | MarkdownOutputAdded id cellId position content =>
      (pendingClearOps cellId st
       ++ [ outputs_insert_replace (markdownRow id cellId position content)
          ])%list
  | ErrorOutputAdded id cellId position content =>
      (pendingClearOps cellId st
       ++ [ outputs_insert_replace (errorRow id cellId position content)
          ])%list
  | CellOutputsCleared cellId wait clearedBy =>
      ((if wait
        then [ pendingClears_insert_replace
                 {| pc_cellId := cellId; pc_clearedBy := clearedBy |} ]
        else [ outputs_delete (cellWhere cellId) ])
       ++ (if truthy (Some clearedBy)
           then [ updatePresence clearedBy (Some cellId) ]
           else []))%list
  end.

(** Committing an event: the operations its materializer returns for
    the current state, run in order. *)
Definition commit (event : OutputEvent) (st : State) : Result State :=
  applyOps (materialize event st) st.

Fixpoint commitAll (log : list OutputEvent) (st : State) : Result State :=
  match log with
  | [] => Ok st
  | event :: rest => st' <- commit event st ;; commitAll rest st'
  end.

(** The output rows of one cell. *)
Definition outputsOf (cellId : string) (st : State) : list OutputRow :=
  filter (fun r => String.eqb (o_cellId r) cellId) (outputs st).

End Materializer.

Arguments inline {Any} data metadata.
Arguments artifact {Any} artifactId metadata.
Arguments lookup {Any} representations mimeType.
Arguments matches {Any} w row.
Arguments setColumns {Any} u row.
Arguments outputs_insert_replace {Any} row.
Arguments outputs_delete {Any} w.
Arguments outputs_update {Any} u w.
Arguments pendingClears_insert_replace {Any} row.
Arguments pendingClears_delete {Any} cellId.
Arguments outputDeltas_insert {Any} row.
Arguments presence_insert_replace {Any} row.
Arguments selectOutputs {Any} st w.
Arguments selectPendingClear {Any} st cellId.
Arguments applyOp {Any} op st.
Arguments applyOps {Any} ops st.
Arguments selectPrimaryRepresentation {Any} representations preferredMimeTypes.
Arguments primaryData {Any js} container.
Arguments updateExistingDisplays {Any js} displayId representations st.
Arguments updatePresence {Any} userId cellId.
Arguments MultimediaDisplayOutputAdded {Any} id cellId position representations displayId.
Arguments MultimediaDisplayOutputUpdated {Any} displayId representations.
Arguments MultimediaResultOutputAdded {Any} id cellId position representations executionCount.
Arguments TerminalOutputAdded {Any} id cellId position content streamName.
Arguments TerminalOutputAppended {Any} outputId content.
Arguments TerminalOutputAppended2 {Any} id outputId delta sequenceNumber.
Arguments MarkdownOutputAdded {Any} id cellId position content.
Arguments MarkdownOutputAppended {Any} outputId content.
Arguments MarkdownOutputAppended2 {Any} id outputId delta sequenceNumber.
Arguments ErrorOutputAdded {Any} id cellId position content.
Arguments CellOutputsCleared {Any} cellId wait clearedBy.
Arguments pendingClearOps {Any} cellId st.
Arguments contentString {Any js} content otherwise.
Arguments displayRow {Any js} id cellId position representations displayId.
Arguments resultRow {Any js} id cellId position representations executionCount.
Arguments terminalRow {Any js} id cellId position content streamName.
Arguments markdownRow {Any js} id cellId position content.
Arguments errorRow {Any js} id cellId position content.
Arguments appendedData {Any js} existingOutput content.
Arguments appendOps {Any js} outputId content st.
Arguments materialize {Any js} event st.
Arguments commit {Any js} event st.
Arguments commitAll {Any js} log st.
Arguments outputsOf {Any} cellId st.
Arguments outputs {Any} s.
Arguments outputDeltas {Any} s.
Arguments pendingClears {Any} s.
Arguments presence {Any} s.
Arguments Build_State {Any} outputs outputDeltas pendingClears presence.
Arguments o_id {Any} o.
Arguments o_cellId {Any} o.
Arguments o_outputType {Any} o.
Arguments o_position {Any} o.
Arguments o_streamName {Any} o.
Arguments o_executionCount {Any} o.
Arguments o_displayId {Any} o.
Arguments o_data {Any} o.
Arguments o_artifactId {Any} o.
Arguments o_mimeType {Any} o.
Arguments o_metadata {Any} o.
Arguments o_representations {Any} o.
Arguments Build_OutputRow {Any}.
Arguments Build_OutputsSet {Any}.
Arguments set_data {Any} o.
Arguments set_mimeType {Any} o.
Arguments set_representations {Any} o.

(** ** Vocabulary of the statements *)

Definition base36 (c : ascii) : bool := negb (indexOf c BASE36_DIGITS =? -1).

Definition codeOf (c : ascii) : Z := Z.of_N (N_of_ascii c).

(** The character of value [v]. *)
Definition digit (v : Z) : ascii :=
  ascii_of_N (Z.to_N (if v <? 10 then v + 48 else v + 87)).

(** Every character of [s] belongs to the alphabet. *)
Fixpoint all36 (s : string) : bool :=
  match s with
  | "" => true
  | String c s' => base36 c && all36 s'
  end.

(** A valid index: accepted by [isValidFractionalIndex]. *)
Definition valid (s : string) : Prop := isValidFractionalIndex s = true.

(** [a < b] holds. *)
Definition slt (a b : string) : Prop := str_lt a b = true.

(** The first character of a string, if any. *)
Definition head (s : string) : option ascii :=
  match s with
  | "" => None
  | String c _ => Some c
  end.

(** A provider honours the contract of [randomInt]: the draw for [max]
    lies in [0 .. max). *)
Definition honoursRange {S : Type} (jitterProvider : JitterProvider S) : Prop :=
  forall (max : Z) (st : S),
    0 < max -> 0 <= fst (randomInt jitterProvider max st) < max.

(** The row with a given id, as [select().where({ id }).limit(1)[0]]
    finds it. *)
Definition outputById {Any : Type} (st : State Any) (outputId : string)
    : option (OutputRow Any) :=
  hd_error (selectOutputs st (idWhere outputId)).

(** A concrete [Schema.Any]: strings, with the coercions of the language
    on strings. *)
Definition stringCoercions : Coercions string := {|
  truthyAny := fun s => negb (String.eqb s "");
  toStr := fun s => s;
  JSON_stringify := fun s => Some s
|}.

(** The row an output-add event inserts; [None] for the other events. *)
Definition addedRow {Any : Type} {js : Coercions Any}
    (event : OutputEvent Any) : option (OutputRow Any) :=
  match event with
  | MultimediaDisplayOutputAdded id cellId position representations
      displayId =>
      Some (displayRow id cellId position representations displayId)
  | MultimediaResultOutputAdded id cellId position representations
      executionCount =>
      Some (resultRow id cellId position representations executionCount)
  | TerminalOutputAdded id cellId position content streamName =>
      Some (terminalRow id cellId position content streamName)
  | MarkdownOutputAdded id cellId position content =>
      Some (markdownRow id cellId position content)
  | ErrorOutputAdded id cellId position content =>
      Some (errorRow id cellId position content)
  | _ => None
  end.

(** The in-place updates an output-add event makes besides its insert:
    those of a display added with a [displayId]. *)
Definition displayUpdates {Any : Type} {js : Coercions Any}
    (event : OutputEvent Any) (st : State Any) : list (TableOp Any) :=
  match event with
  | MultimediaDisplayOutputAdded _ _ _ representations displayId =>
      if truthy displayId
      then updateExistingDisplays (orEmpty displayId) representations st
      else []
  | _ => []
  end.

(** What [updateExistingDisplays] does to a row, for given
    representations: a row of the display id takes the three columns of
    the primary representation, when there is one. *)
Definition displayed {Any : Type} {js : Coercions Any} (d : string)
    (representations : Representations Any) (r : OutputRow Any)
    : OutputRow Any :=
  match selectPrimaryRepresentation representations
          defaultPreferredMimeTypes with
  | Some (mimeType, container) =>
      if matches (displayWhere d) r
      then setColumns {| set_data := Some (primaryData container);
                         set_mimeType := Some mimeType;
                         set_representations := Some representations |} r
      else r
  | None => r
  end.

(** Operations that only update rows of [outputs] in place. *)
Definition onlyUpdates {Any : Type} (ops : list (TableOp Any)) : Prop :=
  Forall (fun op => exists u w, op = outputs_update u w) ops.

(** ** Sample states and events used to run the theorems *)

Definition emptyState : State string :=
  {| outputs := []; outputDeltas := []; pendingClears := []; presence := [] |}.

Definition sampleTerminal (id : string) : OutputEvent string :=
  TerminalOutputAdded id "cell-1" 0 (inline id None) stdout.

Definition sampleTerminalRow (id : string) : OutputRow string :=
  terminalRow (js := stringCoercions) id "cell-1" 0 (inline id None) stdout.

(** A cell holding the two outputs [P] and [Q]. *)
Definition stateWithPQ : State string :=
  {| outputs := [sampleTerminalRow "P"; sampleTerminalRow "Q"];
     outputDeltas := []; pendingClears := []; presence := [] |}.

Definition plainText (text : string) : Representations string :=
  [("text/plain", inline text None)].

Definition htmlText (text : string) : Representations string :=
  [("text/html", inline text None)].

(** Representations with no MIME type of the priority list. *)
Definition customOnly (text : string) : Representations string :=
  [("application/x-custom", inline text None)].

(** One display output of display id [d1], carrying [plainText "v1"]. *)
Definition stateWithDisplay : State string :=
  {| outputs :=
       [displayRow (js := stringCoercions) "o1" "cell-1" 0 (plainText "v1")
          (Some "d1")];
     outputDeltas := []; pendingClears := []; presence := [] |}.

(** ** Vocabulary of the cell operations *)

(** The cell has the non-empty index [s]. *)
Definition indexOfCell (c : CellReference) (s : string) : Prop :=
  fractionalIndex c = Some s /\ s <> "".

(** [index > key] and [index < key] for the key of a bound cell, as
    [moveCellBetween] tests them.  The key of a cell without index is
    [null], and how a string compares with [null] is the runtime's
    affair ([gtNull], [ltNull]). *)
Definition aboveBound (gtNull : string -> bool) (index : string)
    (bound : CellReference) : Prop :=
  match fractionalIndex bound with
  | Some (String c p) => slt (String c p) index
  | _ => gtNull index = true
  end.

Definition belowBound (ltNull : string -> bool) (index : string)
    (bound : CellReference) : Prop :=
  match fractionalIndex bound with
  | Some (String c n) => slt index (String c n)
  | _ => ltNull index = true
  end.

(** The bounds supplied already straddle [index]. *)
Definition inPlace (gtNull ltNull : string -> bool) (index : string)
    (cellBefore cellAfter : option CellReference) : Prop :=
  match cellBefore, cellAfter with
  | Some b, Some a => aboveBound gtNull index b /\ belowBound ltNull index a
  | None, Some a => belowBound ltNull index a
  | Some b, None => aboveBound gtNull index b
  | None, None => False
  end.

(** The [v2.CellMoved] event of a cell. *)
Definition movedEvent (cell : CellReference) (index : string)
    (actorId : option string) : CellEvent :=
  cellMoved2 {| moved_id := id cell;
                moved_fractionalIndex := index;
                moved_actorId := actorId |}.

(** The event is a [v2.CellMoved] of the given actor. *)
Definition movedBy (actor : string) (event : CellEvent) : Prop :=
  exists args, event = cellMoved2 args /\ moved_actorId args = Some actor.

(** Sample cells. *)
Definition sampleCell (name index : string) : CellReference :=
  {| id := name; fractionalIndex := Some index; cellType := code |}.

Definition crowdedCells : list CellReference :=
  [sampleCell "c1" "m"; sampleCell "c2" "m0"; sampleCell "c3" "m00"].

(** Four cells out of order, two of them with the same index. *)
Definition shuffledCells : list CellReference :=
  [sampleCell "c1" "z"; sampleCell "c2" "a"; sampleCell "c3" "m";
   sampleCell "c4" "a"].

Definition sampleCellData : CellData :=
  {| cd_id := "new"; cd_cellType := code; cd_createdBy := "alice" |}.

(** What moving [c3] between [c1] and [c2] of [crowdedCells] returns for
    the actor [test-user] under [zeroJitter]. *)
Definition crowdedMoveResult : MoveOperationResult :=
  {| mo_events :=
       [ cellMoved2 {| moved_id := "c1"; moved_fractionalIndex := "m110";
                       moved_actorId := Some "test-user-rebalance" |};
         cellMoved2 {| moved_id := "c2"; moved_fractionalIndex := "m1110";
                       moved_actorId := Some "test-user-rebalance" |};
         cellMoved2 {| moved_id := "c3"; moved_fractionalIndex := "m11110";
                       moved_actorId := Some "test-user-rebalance" |} ];
     mo_moved := true;
     mo_needsRebalancing := true;
     mo_rebalanceCount := Some 3 |}.

(** ** Vocabulary of the rebalancing *)

(** A cell with a new index. *)
Definition reindexed (c : CellReference) (index : string) : CellReference :=
  {| id := id c; fractionalIndex := Some index; cellType := cellType c |}.

(** The cells once the moves of a rebalance are applied: a cell named in
    [moves] takes its new index, as the [v2.CellMoved] materializer sets
    it; the others keep theirs. *)
Definition withNewIndices (moves : list (string * string))
    (cells : list CellReference) : list CellReference :=
  map (fun c =>
         match find (fun m => String.eqb (fst m) (id c)) moves with
         | Some m => reindexed c (snd m)
         | None => c
         end) cells.

(** The indices at positions [bufferCells .. bufferCells + count) of the
    generated ones. *)
Definition replacementIndices (keys : list string) (bufferCells : Z)
    (count : nat) : list string :=
  firstn count (skipn (Z.to_nat bufferCells) keys).

(** Cells paired in order with indices: the pairs whose index differs
    from the one the cell has. *)
Fixpoint reassigned (cs : list CellReference) (ks : list string)
    : list (string * string) :=
  match cs, ks with
  | c :: cs', k :: ks' =>
      match fractionalIndex c with
      | Some old =>
          if String.eqb old k then reassigned cs' ks'
          else (id c, k) :: reassigned cs' ks'
      | None => (id c, k) :: reassigned cs' ks'
      end
  | _, _ => []
  end.

(** Cells paired in order with indices, each cell taking its index. *)
Fixpoint retagged (cs : list CellReference) (ks : list string)
    : list CellReference :=
  match cs, ks with
  | c :: cs', k :: ks' => reindexed c k :: retagged cs' ks'
  | _, _ => []
  end.

(** Order of two cells by index, strict and not. *)
Definition cellLt (c1 c2 : CellReference) : Prop :=
  slt (orEmpty (fractionalIndex c1)) (orEmpty (fractionalIndex c2)).

Definition cellLe (c1 c2 : CellReference) : Prop :=
  ~ slt (orEmpty (fractionalIndex c2)) (orEmpty (fractionalIndex c1)).

(** The cell has a valid index. *)
Definition validCell (c : CellReference) : Prop :=
  exists k, fractionalIndex c = Some k /\ valid k.

(** [x] stands before [y] in the list. *)
Inductive precedes {A : Type} (x y : A) : list A -> Prop :=
| precedes_head (l : list A) : In y l -> precedes x y (x :: l)
| precedes_tail (z : A) (l : list A) : precedes x y l -> precedes x y (z :: l).

(** The host collation agrees with the code-unit order on valid
    indices. *)
Definition collatesIndices (localeCompare : string -> string -> Z) : Prop :=
  forall x y, valid x -> valid y ->
              (localeCompare x y <=? 0) = negb (str_lt y x).
(** ** Further functions of the index module *)

(** [initialFractionalIndex] *)
Definition initialFractionalIndex {S : Type}
    (jitterProvider : JitterProvider S) : Jit S string :=
  fractionalIndexBetween None None jitterProvider.

(** The [for] loop of [validateFractionalIndexOrder] over the entries
    from [validIndices[i - 1]] on. *)
Fixpoint inOrder (validIndices : list (option string)) : bool :=
  match validIndices with
  | prev :: ((curr :: _) as rest) =>
      if negb (truthy prev) || negb (truthy curr) then false
      else if str_ge (orEmpty prev) (orEmpty curr) then false
      else inOrder rest
  | _ => true
  end.

Definition validateFractionalIndexOrder (indices : list (option string))
    : bool :=
  let validIndices :=
    filter (fun idx => isValidFractionalIndex (orEmpty idx)) indices in
  inOrder validIndices.

(** The entries of a list of indices that are valid indices. *)
Fixpoint validEntries (indices : list (option string)) : list string :=
  match indices with
  | [] => []
  | Some s :: rest =>
      if isValidFractionalIndex s then s :: validEntries rest
      else validEntries rest
  | None :: rest => validEntries rest
  end.

(** There is room right above [a] below [k]: even [a] followed by [0],
    the least string above [a], lies below [k]. *)
Definition roomAbove (a k : string) : Prop := slt (a ++ "0") k.

(** The probe of [needsRebalancing] finds room between two cells. *)
Definition roomBetween (c1 c2 : CellReference) : Prop :=
  insertionThrows (fractionalIndex c1) (fractionalIndex c2) = false.

(** The [v2.CellMoved] events of a list of reassignments, as
    [rebalanceCellIndices] builds them. *)
Definition movedEvents (actorId : string) (moves : list (string * string))
    : list CellEvent :=
  map (fun '(cellId, newIndex) =>
         cellMoved2 {| moved_id := cellId;
                       moved_fractionalIndex := newIndex;
                       moved_actorId := Some actorId |})
      moves.

(** The reassignments a list of events carries: one per [v2.CellMoved]. *)
Definition movesOf (events : list CellEvent) : list (string * string) :=
  flat_map (fun event =>
              match event with
              | cellMoved2 args =>
                  [(moved_id args, moved_fractionalIndex args)]
              | cellCreated2 _ => []
              end) events.

(** Two indices in increasing order with a key between them. *)
Definition spaced (a b : string) : Prop := slt a b /\ b <> a ++ "0".

(** The index of a cell as a string, [""] when it has none. *)
Definition keyStr (c : CellReference) : string := orEmpty (fractionalIndex c).

(** The [v2.CellCreated] event of [createCellBetween] for an index. *)
Definition createdEvent (cellData : CellData) (index : string) : CellEvent :=
  cellCreated2 {| created_id := cd_id cellData;
                  created_fractionalIndex := index;
                  created_cellType := cd_cellType cellData;
                  created_createdBy := cd_createdBy cellData |}.

(** What creating a cell between [c1] and [c2] of [crowdedCells] returns
    under [zeroJitter]. *)
Definition crowdedCreateResult : CellOperationResult :=
  {| co_events :=
       [ cellMoved2 {| moved_id := "c1"; moved_fractionalIndex := "m110";
                       moved_actorId := Some "system" |};
         cellMoved2 {| moved_id := "c2"; moved_fractionalIndex := "m1110";
                       moved_actorId := Some "system" |};
         cellMoved2 {| moved_id := "c3"; moved_fractionalIndex := "m11110";
                       moved_actorId := Some "system" |};
         createdEvent sampleCellData "m110h0" ];
     co_newCellId := "new";
     co_needsRebalancing := true;
     co_rebalanceCount := Some 3 |}.

(** The cells of [crowdedCells], listed out of index order. *)
Definition unorderedCells : list CellReference :=
  [sampleCell "c3" "m00"; sampleCell "c1" "m"; sampleCell "c2" "m0"].
(** ** Vocabulary of the output tables *)

(** The four append events, v1 and v2. *)
Definition isAppend {Any : Type} (event : OutputEvent Any) : bool :=
  match event with
  | TerminalOutputAppended _ _ | TerminalOutputAppended2 _ _ _ _
  | MarkdownOutputAppended _ _ | MarkdownOutputAppended2 _ _ _ _ => true
  | _ => false
  end.

(** The two v2 append events, whose materializer is a plain insert. *)
Definition isDeltaAppend {Any : Type} (event : OutputEvent Any) : bool :=
  match event with
  | TerminalOutputAppended2 _ _ _ _ | MarkdownOutputAppended2 _ _ _ _ => true
  | _ => false
  end.

(** Every table holds at most one row per primary key. *)
Definition wellKeyed {Any : Type} (st : State Any) : Prop :=
  NoDup (map (fun r => o_id r) (outputs st)) /\
  NoDup (map d_id (outputDeltas st)) /\
  NoDup (map pc_cellId (pendingClears st)) /\
  NoDup (map p_userId (presence st)).

(** A state with a display output and a pending clear. *)
Definition stateWithPending : State string :=
  {| outputs :=
       [displayRow (js := stringCoercions) "o1" "cell-1" 0 (plainText "v1")
          (Some "d1");
        sampleTerminalRow "P"];
     outputDeltas := [];
     pendingClears := [{| pc_cellId := "cell-1"; pc_clearedBy := "user-1" |}];
     presence := [] |}.

(** What [updateExistingDisplays] does to one row once its operations
    run: the update it returns, if any, applied where it matches. *)
Definition displayUpdate {Any : Type} {js : Coercions Any}
    (displayId : string) (representations : Representations Any)
    (st : State Any) (row : OutputRow Any) : OutputRow Any :=
  match updateExistingDisplays displayId representations st with
  | outputs_update u w :: _ => if matches w row then setColumns u row else row
  | _ => row
  end.

(** The in-place update an output-add event makes to one row. *)
Definition addUpdate {Any : Type} {js : Coercions Any}
    (event : OutputEvent Any) (st : State Any) (row : OutputRow Any)
    : OutputRow Any :=
  match event with
  | MultimediaDisplayOutputAdded _ _ _ representations displayId =>
      if truthy displayId
      then displayUpdate (orEmpty displayId) representations st row
      else row
  | _ => row
  end.

(** ** The cells table and the materializers of the cell events

    The columns of [cells] these materializers write; the execution, SQL
    and AI columns, which they leave alone, are not modelled. *)

(** A [number] of an event, as far as [Math.floor(x).toString(36)] tells
    numbers apart: a finite value, which is a rational, one of the two
    infinities, or [NaN]. *)
Inductive JsNumber : Type :=
| finite (value : Q)
| infinity (negative : bool)
| NaN.

Record CellRow : Type := {
  c_id : string;
  c_cellType : CellType;
  c_source : string;
  c_fractionalIndex : option string;
  c_sourceVisible : bool;
  c_outputVisible : bool;
  c_aiContextVisible : bool;
  c_createdBy : string
}.

(** [.update({...})] on [cells]: the columns that are given. *)
Record CellsSet : Type := {
  cs_cellType : option CellType;
  cs_source : option string;
  cs_fractionalIndex : option string;
  cs_sourceVisible : option bool;
  cs_outputVisible : option bool;
  cs_aiContextVisible : option bool
}.

Definition noColumns : CellsSet :=
  {| cs_cellType := None; cs_source := None; cs_fractionalIndex := None;
     cs_sourceVisible := None; cs_outputVisible := None;
     cs_aiContextVisible := None |}.

Definition setCell (u : CellsSet) (row : CellRow) : CellRow :=
  {| c_id := c_id row;
     c_cellType :=
       match cs_cellType u with Some x => x | None => c_cellType row end;
     c_source :=
       match cs_source u with Some x => x | None => c_source row end;
     c_fractionalIndex :=
       match cs_fractionalIndex u with
       | Some x => Some x
       | None => c_fractionalIndex row
       end;
     c_sourceVisible :=
       match cs_sourceVisible u with
       | Some x => x
       | None => c_sourceVisible row
       end;
     c_outputVisible :=
       match cs_outputVisible u with
       | Some x => x
       | None => c_outputVisible row
       end;
     c_aiContextVisible :=
       match cs_aiContextVisible u with
       | Some x => x
       | None => c_aiContextVisible row
       end;
     c_createdBy := c_createdBy row |}.

Record CellTables : Type := {
  t_cells : list CellRow;
  t_presence : list PresenceRow
}.

Inductive CellsOp : Type :=
| cells_insert_ignore (row : CellRow)
    (* tables.cells.insert(row).onConflict("id", "ignore") *)
| cells_update (u : CellsSet) (id : string)
    (* tables.cells.update(u).where({ id }) *)
| cells_delete (id : string)
    (* tables.cells.delete().where({ id }) *)
| cells_presence (row : PresenceRow).
    (* tables.presence.insert(row).onConflict("userId", "replace") *)

(** The row [updatePresence(userId, cellId)] writes. *)
Definition presenceRow (userId : string) (cellId : option string)
    : PresenceRow :=
  {| p_userId := userId; p_cellId := orNull cellId |}.

(** The row an insert into [cells] creates from the columns the
    creation events give; the others take their defaults. *)
Definition newCellRow (id : string) (cellType : CellType)
    (fractionalIndex createdBy : string) : CellRow :=
  {| c_id := id;
     c_cellType := cellType;
     c_source := "";
     c_fractionalIndex := Some fractionalIndex;
     c_sourceVisible := true;
     c_outputVisible := true;
     c_aiContextVisible := true;
     c_createdBy := createdBy |}.

(** The digits of [n.toString(36)] for [n >= 0], most significant
    first, in front of [acc]. *)
Fixpoint digits36 (fuel : nat) (n : Z) (acc : string) : string :=
  match fuel with
  | O => acc
  | S fuel' =>
      let acc' := String (digit (n mod 36)) acc in
      if n / 36 =? 0 then acc' else digits36 fuel' (n / 36) acc'
  end.

(** [n.toString(36)] for an integer [n] below [2^53] in absolute value:
    the digits printed are those of the integer, after the sign. *)
Definition toString36 (n : Z) : string :=
  if n <? 0 then "-" ++ digits36 (S (Z.to_nat (Z.log2 (- n)))) (- n) ""
  else digits36 (S (Z.to_nat (Z.log2 n))) n "".

(** [Math.floor(position).toString(36)].  From [2^53] on, the digits a
    runtime prints are those its own conversion of the floating-point
    value produces, which are not the digits of the integer (V8 prints
    [1e21] as [5v1j4f4ds7c000]); they are the runtime's and are taken as
    given: [bigDigits]. *)
Definition floorToString36 (bigDigits : Z -> string) (position : JsNumber)
    : string :=
  match position with
  | finite value =>
      let n := Qfloor value in
      if Z.abs n <? 2 ^ 53 then toString36 n else bigDigits n
  | infinity negative => if negative then "-Infinity" else "Infinity"
  | NaN => "NaN"
  end.

(** ["a" + Math.floor(position).toString(36)] *)
Definition legacyIndex (bigDigits : Z -> string) (position : JsNumber)
    : string :=
  "a" ++ floorToString36 bigDigits position.

(** The cell events, v1 and v2. *)
Inductive CellTableEvent : Type :=
| CellCreated (id : string) (cellType : CellType) (position : JsNumber)
    (createdBy : string) (actorId : option string)
| CellCreated2 (args : CellCreatedArgs)
| CellSourceChanged (id source modifiedBy : string)
| CellTypeChanged (id : string) (cellType : CellType)
    (actorId : option string)
| CellDeleted (id : string) (actorId : option string)
| CellMoved (id : string) (newPosition : JsNumber) (actorId : option string)
| CellMoved2 (args : CellMovedArgs)
| CellSourceVisibilityToggled (id : string) (sourceVisible : bool)
    (actorId : option string)
| CellOutputVisibilityToggled (id : string) (outputVisible : bool)
    (actorId : option string)
| CellAiContextVisibilityToggled (id : string) (aiContextVisible : bool)
    (actorId : option string)
| PresenceSet (userId : string) (cellId : option string).

(** [if (actorId) ops.push(updatePresence(actorId, id))] *)
Definition presenceOfActor (actorId : option string) (id : string)
    : list CellsOp :=
  if truthy actorId then [cells_presence (presenceRow (orEmpty actorId) (Some id))]
  else [].

Definition materializeCell (bigDigits : Z -> string) (event : CellTableEvent)
    : list CellsOp :=
  match event with
  | CellCreated id cellType position createdBy actorId =>
      [ cells_insert_ignore
          (newCellRow id cellType (legacyIndex bigDigits position) createdBy);
        cells_presence
          (presenceRow (if truthy actorId then orEmpty actorId else createdBy)
             (Some id)) ]
  | CellCreated2 args =>
      [ cells_insert_ignore
          (newCellRow (created_id args) (created_cellType args)
             (created_fractionalIndex args) (created_createdBy args));
        cells_presence
          (presenceRow (created_createdBy args) (Some (created_id args))) ]
  | CellSourceChanged id source modifiedBy =>
      [ cells_update
          {| cs_cellType := None; cs_source := Some source;
             cs_fractionalIndex := None; cs_sourceVisible := None;
             cs_outputVisible := None; cs_aiContextVisible := None |} id;
        cells_presence (presenceRow modifiedBy (Some id)) ]
  | CellTypeChanged id cellType actorId =>
      (cells_update
         {| cs_cellType := Some cellType; cs_source := None;
            cs_fractionalIndex := None; cs_sourceVisible := None;
            cs_outputVisible := None; cs_aiContextVisible := None |} id
       :: presenceOfActor actorId id)
  | CellDeleted id actorId =>
      (cells_delete id :: presenceOfActor actorId id)
  | CellMoved id newPosition actorId =>
      (cells_update
         {| cs_cellType := None; cs_source := None;
            cs_fractionalIndex := Some (legacyIndex bigDigits newPosition);
            cs_sourceVisible := None; cs_outputVisible := None;
            cs_aiContextVisible := None |} id
       :: presenceOfActor actorId id)
  | CellMoved2 args =>
      (cells_update
         {| cs_cellType := None; cs_source := None;
            cs_fractionalIndex := Some (moved_fractionalIndex args);
            cs_sourceVisible := None; cs_outputVisible := None;
            cs_aiContextVisible := None |} (moved_id args)
       :: presenceOfActor (moved_actorId args) (moved_id args))
  | CellSourceVisibilityToggled id sourceVisible actorId =>
      (cells_update
         {| cs_cellType := None; cs_source := None;
            cs_fractionalIndex := None;
            cs_sourceVisible := Some sourceVisible;
            cs_outputVisible := None; cs_aiContextVisible := None |} id
       :: presenceOfActor actorId id)
  | CellOutputVisibilityToggled id outputVisible actorId =>
      (cells_update
         {| cs_cellType := None; cs_source := None;
            cs_fractionalIndex := None; cs_sourceVisible := None;
            cs_outputVisible := Some outputVisible;
            cs_aiContextVisible := None |} id
       :: presenceOfActor actorId id)
  | CellAiContextVisibilityToggled id aiContextVisible actorId =>
      (cells_update
         {| cs_cellType := None; cs_source := None;
            cs_fractionalIndex := None; cs_sourceVisible := None;
            cs_outputVisible := None;
            cs_aiContextVisible := Some aiContextVisible |} id
       :: presenceOfActor actorId id)
  | PresenceSet userId cellId => [ cells_presence (presenceRow userId cellId) ]
  end.

(** Running one operation on the two tables.  An insert that ignores
    conflicts does nothing when the key is present. *)
Definition applyCellsOp (op : CellsOp) (tables : CellTables) : CellTables :=
  match op with
  | cells_insert_ignore row =>
      {| t_cells :=
           if existsb (fun r => String.eqb (c_id r) (c_id row))
                (t_cells tables)
           then t_cells tables
           else (t_cells tables ++ [row])%list;
         t_presence := t_presence tables |}
  | cells_update u id =>
      {| t_cells :=
           map (fun r => if String.eqb (c_id r) id then setCell u r else r)
               (t_cells tables);
         t_presence := t_presence tables |}
  | cells_delete id =>
      {| t_cells :=
           filter (fun r => negb (String.eqb (c_id r) id)) (t_cells tables);
         t_presence := t_presence tables |}
  | cells_presence row =>
      {| t_cells := t_cells tables;
         t_presence :=
           (filter (fun r => negb (String.eqb (p_userId r) (p_userId row)))
                   (t_presence tables) ++ [row])%list |}
  end.

Definition commitCell (bigDigits : Z -> string) (event : CellTableEvent)
    (tables : CellTables) : CellTables :=
  fold_left (fun t op => applyCellsOp op t) (materializeCell bigDigits event)
    tables.

Definition commitCells (bigDigits : Z -> string) (log : list CellTableEvent)
    (tables : CellTables) : CellTables :=
  fold_left (fun t event => commitCell bigDigits event t) log tables.

(** The events the cell operations return, as events of the log. *)
Definition logged (event : CellEvent) : CellTableEvent :=
  match event with
  | cellMoved2 args => CellMoved2 args
  | cellCreated2 args => CellCreated2 args
  end.

(** The cells of the table as the cell operations see them. *)
Definition referenceOf (row : CellRow) : CellReference :=
  {| id := c_id row;
     fractionalIndex := c_fractionalIndex row;
     cellType := c_cellType row |}.

Definition referencesOf (tables : CellTables) : list CellReference :=
  map referenceOf (t_cells tables).

(** ** Notebook metadata *)

Record MetadataRow : Type := {
  m_key : string;
  m_value : string
}.

(** [tables.notebookMetadata.insert(row).onConflict("key", "replace")] *)
Definition setMetadata (row : MetadataRow) (records : list MetadataRow)
    : list MetadataRow :=
  (filter (fun r => negb (String.eqb (m_key r) (m_key row))) records
   ++ [row])%list.

(** The metadata events; of [v1.NotebookInitialized] the two metadata
    inserts (its third operation writes the [debug] table). *)
Inductive MetadataEvent : Type :=
| NotebookInitialized (id title ownerId : string)
| NotebookTitleChanged (title : string)
| NotebookMetadataSet (key value : string).

Definition materializeMetadata (event : MetadataEvent) : list MetadataRow :=
  match event with
  | NotebookInitialized _ title ownerId =>
      [ {| m_key := "title"; m_value := title |};
        {| m_key := "ownerId"; m_value := ownerId |} ]
  | NotebookTitleChanged title => [ {| m_key := "title"; m_value := title |} ]
  | NotebookMetadataSet key value => [ {| m_key := key; m_value := value |} ]
  end.

Definition commitMetadata (event : MetadataEvent)
    (records : list MetadataRow) : list MetadataRow :=
  fold_left (fun rs row => setMetadata row rs) (materializeMetadata event)
    records.

(** [getNotebookMetadata(metadataRecords, key, defaultValue)] *)
Definition getNotebookMetadata (metadataRecords : list MetadataRow)
    (key defaultValue : string) : string :=
  match find (fun r => String.eqb (m_key r) key) metadataRecords with
  | Some record => m_value record
  | None => defaultValue
  end.

Record NotebookInfo : Type := {
  title : string;
  ownerId : string;
  runtimeType : string;
  isPublic : bool
}.

Definition getNotebookInfo (metadataRecords : list MetadataRow)
    : NotebookInfo :=
  {| title := getNotebookMetadata metadataRecords "title" "Untitled";
     ownerId := getNotebookMetadata metadataRecords "ownerId" "anonymous";
     runtimeType :=
       getNotebookMetadata metadataRecords "runtimeType" "python3";
     isPublic :=
       String.eqb (getNotebookMetadata metadataRecords "isPublic" "false")
         "true" |}.

(** The sample tables below receive no v1 event, so the digits a runtime
    prints from [2^53] on play no part in them; this stands in for
    them. *)
Definition noBigDigits : Z -> string := fun _ => "".

(** A table of three crowded cells. *)
Definition crowdedTable : CellTables :=
  {| t_cells :=
       [newCellRow "c1" code "m" "alice"; newCellRow "c2" code "m0" "alice";
        newCellRow "c3" code "m00" "alice"];
     t_presence := [] |}.

(** The same three cells, stored out of index order. *)
Definition unorderedTable : CellTables :=
  {| t_cells :=
       [newCellRow "c3" code "m00" "alice"; newCellRow "c1" code "m" "alice";
        newCellRow "c2" code "m0" "alice"];
     t_presence := [] |}.

(** [createCellBetweenAndCommit] and [moveCellBetweenAndCommit], the
    store being the two tables: the events of the operation are
    committed one by one, and nothing is committed when it throws. *)
Definition createCellBetweenAndCommit (bigDigits : Z -> string)
    (localeCompare : string -> string -> Z)
    {S : Type} (store : CellTables) (cellData : CellData)
    (cellBefore cellAfter : option CellReference)
    (allCells : list CellReference) (jitterProvider : JitterProvider S)
    : Jit S (string * CellTables) :=
  result <~
    createCellBetween localeCompare cellData cellBefore cellAfter allCells
      jitterProvider ;;
  ret (co_newCellId result,
       commitCells bigDigits (map logged (co_events result)) store).

Definition moveCellBetweenAndCommit (bigDigits : Z -> string)
    (localeCompare : string -> string -> Z)
    (gtNull ltNull : string -> bool) {S : Type} (store : CellTables)
    (cell : CellReference) (cellBefore cellAfter : option CellReference)
    (allCells : list CellReference) (actorId : option string)
    (jitterProvider : JitterProvider S) : Jit S (bool * CellTables) :=
  result <~
    moveCellBetweenWithRebalancing localeCompare gtNull ltNull cell
      cellBefore cellAfter allCells actorId jitterProvider ;;
  ret (mo_moved result,
       commitCells bigDigits (map logged (mo_events result)) store).

(** ** MIME types ([types.ts]) *)

Definition TEXT_MIME_TYPES : list string :=
  [ "text/plain"; "text/html"; "text/markdown"; "text/latex" ].

Definition APPLICATION_MIME_TYPES : list string :=
  [ "application/json"; "application/javascript" ].

Definition AI_TOOL_MIME_TYPES : list string :=
  [ "application/vnd.anode.aitool+json";
    "application/vnd.anode.aitool.result+json" ].

Definition IMAGE_MIME_TYPES : list string :=
  [ "image/png"; "image/jpeg"; "image/svg+xml"; "image/gif" ].

Definition JUPYTER_MIME_TYPES : list string :=
  [ "application/vnd.jupyter.widget-state+json";
    "application/vnd.jupyter.widget-view+json";
    "application/vnd.plotly.v1+json";
    "application/vnd.dataresource+json";
    "application/vnd.vegalite.v2+json";
    "application/vnd.vegalite.v3+json";
    "application/vnd.vegalite.v4+json";
    "application/vnd.vegalite.v5+json";
    "application/vnd.vegalite.v6+json";
    "application/vnd.vega.v3+json";
    "application/vnd.vega.v4+json";
    "application/vnd.vega.v5+json";
    "application/geo+json";
    "application/vdom.v1+json" ].

Definition KNOWN_MIME_TYPES : list string :=
  (TEXT_MIME_TYPES ++ APPLICATION_MIME_TYPES ++ IMAGE_MIME_TYPES
   ++ JUPYTER_MIME_TYPES ++ AI_TOOL_MIME_TYPES)%list.

(** [xs.includes(x)] on an array of strings. *)
Definition includesString (xs : list string) (x : string) : bool :=
  existsb (fun y => String.eqb y x) xs.

Definition isTextMimeType (mimeType : string) : bool :=
  includesString TEXT_MIME_TYPES mimeType.

Definition isApplicationMimeType (mimeType : string) : bool :=
  includesString APPLICATION_MIME_TYPES mimeType.

Definition isImageMimeType (mimeType : string) : bool :=
  includesString IMAGE_MIME_TYPES mimeType.

Definition isJupyterMimeType (mimeType : string) : bool :=
  includesString JUPYTER_MIME_TYPES mimeType.

Definition isAiToolMimeType (mimeType : string) : bool :=
  includesString AI_TOOL_MIME_TYPES mimeType.

Definition isKnownMimeType (mimeType : string) : bool :=
  includesString KNOWN_MIME_TYPES mimeType.

(** [s.endsWith(suffix)] and [s.startsWith(prefix)] *)
Definition endsWith (s suffix : string) : bool :=
  (String.length suffix <=? String.length s)%nat
  && String.eqb
       (String.substring (String.length s - String.length suffix)
          (String.length suffix) s)
       suffix.

Definition startsWith (s prefix : string) : bool := String.prefix prefix s.

Definition isJsonMimeType (mimeType : string) : bool :=
  endsWith mimeType "+json" || String.eqb mimeType "application/json".

Definition isTextBasedMimeType (mimeType : string) : bool :=
  startsWith mimeType "text/"
  || String.eqb mimeType "application/javascript"
  || String.eqb mimeType "image/svg+xml".


(** * Proofs *)

(** ** Characters of the alphabet *)

Lemma indexOf_code (c : ascii) :
  indexOf c BASE36_DIGITS =
    if (48 <=? codeOf c) && (codeOf c <=? 57) then codeOf c - 48
    else if (97 <=? codeOf c) && (codeOf c <=? 122) then codeOf c - 87
    else -1.
Proof.
  destruct c as [[] [] [] [] [] [] [] []]; vm_compute; reflexivity.
Qed.

Lemma below_36_cases (P : Z -> Prop) :
  (forall n : nat, (n < 36)%nat -> P (Z.of_nat n)) ->
  forall v, 0 <= v < 36 -> P v.
Proof.
  intros H v Hv. rewrite <- (Z2Nat.id v) by lia. apply H. lia.
Qed.

Lemma digit_spec (v : Z) :
  0 <= v < 36 ->
  charAt BASE36_DIGITS v = Some (digit v) /\
  indexOf (digit v) BASE36_DIGITS = v.
Proof.
  revert v. apply below_36_cases. intros n Hn.
  do 36 (destruct n as [|n]; [vm_compute; split; reflexivity|]).
  lia.
Qed.

Lemma base36_range (c : ascii) :
  base36 c = true -> 0 <= indexOf c BASE36_DIGITS < 36.
Proof.
  unfold base36. rewrite indexOf_code.
  destruct ((48 <=? codeOf c) && (codeOf c <=? 57)) eqn:E1;
    [|destruct ((97 <=? codeOf c) && (codeOf c <=? 122)) eqn:E2];
    intros H; try discriminate; lia.
Qed.

Lemma charToValue_base36 (c : ascii) :
  base36 c = true -> charToValue c = Ok (indexOf c BASE36_DIGITS).
Proof.
  unfold base36, charToValue. cbv zeta.
  destruct (indexOf c BASE36_DIGITS =? -1); [discriminate | reflexivity].
Qed.

Lemma valueToChar_digit (v : Z) :
  0 <= v < 36 -> valueToChar v = Ok (String (digit v) "").
Proof.
  intros Hv. unfold valueToChar.
  replace ((v <? 0) || (v >=? BASE)) with false.
  - destruct (digit_spec v Hv) as [-> _]. reflexivity.
  - symmetry. apply orb_false_iff. change BASE with 36. split; lia.
Qed.

Lemma base36_digit (v : Z) : 0 <= v < 36 -> base36 (digit v) = true.
Proof.
  intros Hv. unfold base36. destruct (digit_spec v Hv) as [_ ->].
  apply negb_true_iff. lia.
Qed.

Lemma value_digit (v : Z) :
  0 <= v < 36 -> indexOf (digit v) BASE36_DIGITS = v.
Proof. intros Hv. apply (digit_spec v Hv). Qed.

(** The values order the characters as their codes do. *)
Lemma compare_base36 (c d : ascii) :
  base36 c = true -> base36 d = true ->
  Ascii.compare c d =
    (indexOf c BASE36_DIGITS ?= indexOf d BASE36_DIGITS).
Proof.
  unfold base36, Ascii.compare. rewrite !indexOf_code.
  rewrite <- (N2Z.inj_compare (N_of_ascii c) (N_of_ascii d)).
  fold (codeOf c) (codeOf d).
  destruct ((48 <=? codeOf c) && (codeOf c <=? 57)) eqn:C1;
    [|destruct ((97 <=? codeOf c) && (codeOf c <=? 122)) eqn:C2];
    (destruct ((48 <=? codeOf d) && (codeOf d <=? 57)) eqn:D1;
      [|destruct ((97 <=? codeOf d) && (codeOf d <=? 122)) eqn:D2]);
    intros Hc Hd; try discriminate;
    destruct (Z.compare_spec (codeOf c) (codeOf d));
    symmetry; first [apply Z.compare_eq_iff | apply Z.compare_lt_iff
                    | apply Z.compare_gt_iff]; lia.
Qed.

(** ** Strings: concatenation, order and positions *)

Lemma append_nil_r (s : string) : s ++ "" = s.
Proof. induction s; simpl; congruence. Qed.

Lemma append_assoc (a b c : string) : (a ++ b) ++ c = a ++ (b ++ c).
Proof. induction a; simpl; congruence. Qed.

Lemma length_append (a b : string) :
  String.length (a ++ b) = (String.length a + String.length b)%nat.
Proof. induction a; simpl; congruence. Qed.

Lemma len_append (a b : string) : len (a ++ b) = len a + len b.
Proof. unfold len. rewrite length_append. lia. Qed.

Lemma len_cons (c : ascii) (s : string) : len (String c s) = 1 + len s.
Proof. unfold len. cbn [String.length]. lia. Qed.

Lemma len_nonneg (s : string) : 0 <= len s.
Proof. unfold len. lia. Qed.

Lemma len_zero (s : string) : len s = 0 -> s = "".
Proof. destruct s; [reflexivity | unfold len; simpl; lia]. Qed.

Lemma ascii_compare_refl (c : ascii) : Ascii.compare c c = Eq.
Proof. apply N.compare_refl. Qed.

Lemma compare_app (p x y : string) :
  String.compare (p ++ x) (p ++ y) = String.compare x y.
Proof.
  induction p as [|c p IH]; simpl; [reflexivity|].
  rewrite ascii_compare_refl. exact IH.
Qed.

Lemma str_lt_app (p x y : string) : str_lt (p ++ x) (p ++ y) = str_lt x y.
Proof. unfold str_lt, String.ltb. rewrite compare_app. reflexivity. Qed.

Lemma lt_app (p x y : string) : slt x y -> slt (p ++ x) (p ++ y).
Proof. unfold slt. rewrite str_lt_app. trivial. Qed.

Lemma lt_app_nonempty (a x : string) : x <> "" -> slt a (a ++ x).
Proof.
  intros Hx. rewrite <- (append_nil_r a) at 1. apply lt_app.
  destruct x; [congruence | reflexivity].
Qed.

Lemma lt_head (c d : ascii) (x y : string) :
  Ascii.compare c d = Lt -> slt (String c x) (String d y).
Proof. intros H. unfold slt, str_lt, String.ltb. simpl. rewrite H. reflexivity. Qed.

Lemma lt_irrefl (a : string) : ~ slt a a.
Proof.
  unfold slt, str_lt, String.ltb.
  replace (String.compare a a) with Eq; [discriminate|].
  symmetry. rewrite <- (append_nil_r a). rewrite compare_app. reflexivity.
Qed.

Lemma lt_trans (a b c : string) : slt a b -> slt b c -> slt a c.
Proof.
  unfold slt, str_lt, String.ltb. revert b c.
  induction a as [|x a IH]; intros [|y b] [|z c]; simpl;
    try discriminate; try reflexivity.
  unfold Ascii.compare.
  destruct (N.compare_spec (N_of_ascii x) (N_of_ascii y)) as [E1|L1|G1];
    try discriminate;
    destruct (N.compare_spec (N_of_ascii y) (N_of_ascii z)) as [E2|L2|G2];
    try discriminate; intros H1 H2.
  - rewrite E1, E2, N.compare_refl. eapply IH; eassumption.
  - rewrite E1. apply N.compare_lt_iff in L2. rewrite L2. reflexivity.
  - rewrite <- E2. apply N.compare_lt_iff in L1. rewrite L1. reflexivity.
  - assert (L : (N_of_ascii x < N_of_ascii z)%N) by lia.
    apply N.compare_lt_iff in L. rewrite L. reflexivity.
Qed.

Lemma lt_nonempty (a k : string) : slt a k -> k <> "".
Proof.
  intros H ->. revert H. unfold slt, str_lt, String.ltb.
  destruct a; simpl; discriminate.
Qed.

Lemma lt_neq (a b : string) : slt a b -> a <> b.
Proof. intros H ->. exact (lt_irrefl _ H). Qed.

Lemma get_append (p x : string) (n : nat) :
  String.get (String.length p + n) (p ++ x) = String.get n x.
Proof. induction p; simpl; auto. Qed.

Lemma get_head (x : string) : String.get 0 x = head x.
Proof. destruct x; reflexivity. Qed.

Lemma charAt_append (p x : string) : charAt (p ++ x) (len p) = head x.
Proof.
  unfold charAt, len.
  destruct (Z.ltb_spec (Z.of_nat (String.length p)) 0); [lia|].
  rewrite Nat2Z.id, <- (Nat.add_0_r (String.length p)), get_append.
  apply get_head.
Qed.

Lemma charAt_append_cons (p : string) (c : ascii) (r : string) :
  charAt (p ++ String c r) (len p) = Some c.
Proof. apply charAt_append. Qed.

Lemma substring_0_length (s : string) :
  String.substring 0 (String.length s) s = s.
Proof. induction s; simpl; congruence. Qed.

Lemma substring_0_append (p x : string) :
  String.substring 0 (String.length p) (p ++ x) = p.
Proof. induction p; simpl; [destruct x; reflexivity | congruence]. Qed.

Lemma substring_skip_append (p x : string) (n : nat) :
  String.substring (String.length p) n (p ++ x) = String.substring 0 n x.
Proof. induction p; simpl; auto. Qed.

Lemma substring_inrange (s : string) (from to : Z) :
  0 <= from <= to -> to <= len s ->
  substring s from to =
    String.substring (Z.to_nat from) (Z.to_nat (to - from)) s.
Proof.
  intros H1 H2. unfold substring. cbv zeta.
  replace (Z.max 0 (Z.min from (len s))) with from by lia.
  replace (Z.max 0 (Z.min to (len s))) with to by lia.
  replace (Z.min from to) with from by lia.
  replace (Z.max from to) with to by lia.
  reflexivity.
Qed.

Lemma substring_prefix (p x : string) : substring (p ++ x) 0 (len p) = p.
Proof.
  pose proof (len_nonneg p). pose proof (len_nonneg x).
  rewrite substring_inrange by (rewrite ?len_append; lia).
  rewrite Z.sub_0_r. unfold len. rewrite Nat2Z.id. apply substring_0_append.
Qed.

Lemma substringFrom_append (p x : string) :
  substringFrom (p ++ x) (len p) = x.
Proof.
  pose proof (len_nonneg p). pose proof (len_nonneg x).
  unfold substringFrom.
  rewrite substring_inrange by (rewrite ?len_append; lia).
  rewrite len_append. replace (len p + len x - len p) with (len x) by lia.
  unfold len. rewrite !Nat2Z.id, substring_skip_append.
  apply substring_0_length.
Qed.

Lemma append_cons (p : string) (c : ascii) (r : string) :
  p ++ String c r = (p ++ String c "") ++ r.
Proof. rewrite append_assoc. reflexivity. Qed.

Lemma len_snoc (p : string) (c : ascii) : len (p ++ String c "") = len p + 1.
Proof. rewrite len_append. reflexivity. Qed.

(** ** The scanning loops *)

Lemma firstDifference_split (a b : string) :
  exists p a' b',
    a = p ++ a' /\ b = p ++ b' /\
    firstDifference a b = String.length p /\
    match a', b' with
    | String c _, String d _ => c <> d
    | _, _ => True
    end.
Proof.
  revert b. induction a as [|c a IH]; intros b.
  - exists "", "", b. simpl. auto.
  - destruct b as [|d b].
    + exists "", (String c a), "". simpl. auto.
    + simpl. destruct (Ascii.eqb_spec c d) as [->|Hne].
      * destruct (IH b) as (p & a' & b' & -> & -> & -> & H).
        exists (String d p), a', b'. simpl. auto.
      * exists "", (String c a), (String d b). simpl. auto.
Qed.

Lemma firstNot_split (c : ascii) (s : string) :
  exists r,
    s = repeat_nat (String c "") (firstNot c s) ++ r /\
    match r with
    | String d _ => d <> c
    | "" => True
    end.
Proof.
  induction s as [|d s IH].
  - exists "". simpl. auto.
  - simpl. destruct (Ascii.eqb_spec d c) as [->|Hne].
    + destruct IH as (r & Hs & Hr). exists r. simpl. split; [congruence|auto].
    + exists (String d s). simpl. auto.
Qed.

Lemma firstNot_repeat (c : ascii) (n : nat) (r : string) :
  match r with String d _ => d <> c | "" => True end ->
  firstNot c (repeat_nat (String c "") n ++ r) = n.
Proof.
  intros Hr. induction n as [|n IH]; simpl.
  - destruct r as [|d r]; [reflexivity|]. simpl.
    destruct (Ascii.eqb_spec d c); [contradiction | reflexivity].
  - rewrite Ascii.eqb_refl. congruence.
Qed.

Lemma length_repeat (c : ascii) (n : nat) :
  String.length (repeat_nat (String c "") n) = n.
Proof. induction n; simpl; congruence. Qed.

Lemma get_some (n : nat) (s : string) :
  (n < String.length s)%nat -> exists d, String.get n s = Some d.
Proof.
  revert n. induction s as [|c s IH]; intros n Hn; simpl in *; [lia|].
  destruct n; [eauto | apply IH; lia].
Qed.

Lemma get_split (n : nat) (s : string) (d : ascii) :
  String.get n s = Some d ->
  exists p r, s = p ++ String d r /\ String.length p = n.
Proof.
  revert n. induction s as [|c s IH]; intros n H; simpl in H; [discriminate|].
  destruct n.
  - injection H as ->. exists "", s. auto.
  - destruct (IH n H) as (p & r & -> & <-).
    exists (String c p), r. auto.
Qed.

Lemma lastNot_spec (c : ascii) (s : string) (n : nat) :
  (n <= String.length s)%nat ->
  lastNot c s n = -1 \/
  exists d, 0 <= lastNot c s n < Z.of_nat n /\
            String.get (Z.to_nat (lastNot c s n)) s = Some d /\ d <> c.
Proof.
  induction n as [|n IH]; intros Hn; simpl; [auto|].
  destruct (get_some n s) as (d & Hd); [lia|]. rewrite Hd.
  destruct (Ascii.eqb_spec d c) as [->|Hne].
  - destruct IH as [H|(e & H1 & H2 & H3)]; [lia|auto|].
    right. exists e. repeat split; auto; lia.
  - right. exists d. rewrite Nat2Z.id. repeat split; auto; lia.
Qed.

(** ** Validity *)

Lemma includes_base36 (c : ascii) :
  includes BASE36_DIGITS (String c "") = base36 c.
Proof.
  destruct c as [[] [] [] [] [] [] [] []]; vm_compute; reflexivity.
Qed.

Lemma all36_forallb (s : string) :
  forallb (fun char => includes BASE36_DIGITS (String char ""))
    (list_ascii_of_string s) = all36 s.
Proof.
  induction s as [|c s IH]; [reflexivity|].
  cbn [list_ascii_of_string forallb all36].
  rewrite includes_base36, IH. reflexivity.
Qed.

Lemma valid_iff (s : string) : valid s <-> s <> "" /\ all36 s = true.
Proof.
  unfold valid, isValidFractionalIndex. rewrite all36_forallb.
  destruct s as [|c s].
  - simpl. split; [discriminate | intros [H _]; congruence].
  - replace (len (String c s) =? 0) with false
      by (symmetry; apply Z.eqb_neq; unfold len; simpl; lia).
    split; [intros H; split; [discriminate | exact H] | intros [_ H]; exact H].
Qed.

Lemma all36_append (a b : string) : all36 (a ++ b) = all36 a && all36 b.
Proof. induction a; simpl; [reflexivity | rewrite IHa, andb_assoc; reflexivity]. Qed.

Lemma all36_digit (v : Z) : 0 <= v < 36 -> all36 (String (digit v) "") = true.
Proof. intros H. simpl. rewrite base36_digit by exact H. reflexivity. Qed.

Lemma all36_repeat_zero (n : nat) : all36 (repeat_nat "0" n) = true.
Proof. induction n; simpl; auto. Qed.

Lemma append_nonempty_r (a x : string) : x <> "" -> a ++ x <> "".
Proof. destruct a; simpl; [auto | discriminate]. Qed.

Lemma append_nonempty_l (a x : string) : a <> "" -> a ++ x <> "".
Proof. destruct a; simpl; [congruence | discriminate]. Qed.

(** A character strictly below or above another, by value. *)
Lemma compare_digit_lt (c : ascii) (v : Z) :
  base36 c = true -> 0 <= v < 36 -> indexOf c BASE36_DIGITS < v ->
  Ascii.compare c (digit v) = Lt.
Proof.
  intros Hc Hv Hlt.
  rewrite compare_base36, value_digit by auto using base36_digit.
  apply Z.compare_lt_iff. exact Hlt.
Qed.

Lemma compare_digit_gt (c : ascii) (v : Z) :
  base36 c = true -> 0 <= v < 36 -> v < indexOf c BASE36_DIGITS ->
  Ascii.compare (digit v) c = Lt.
Proof.
  intros Hc Hv Hlt.
  rewrite compare_base36, value_digit by auto using base36_digit.
  apply Z.compare_lt_iff. exact Hlt.
Qed.

Lemma value_zero (c : ascii) :
  base36 c = true -> indexOf c BASE36_DIGITS = 0 -> c = "0"%char.
Proof.
  intros Hc H0. apply Ascii.compare_eq_iff.
  rewrite compare_base36 by (auto; reflexivity).
  rewrite H0. reflexivity.
Qed.

(** ** [generateKeyAfter] *)

Lemma generateKeyAfter_spec (a : string) :
  a <> "" -> all36 a = true ->
  exists k, generateKeyAfter a = Ok k /\ slt a k /\ all36 k = true /\ k <> "".
Proof.
  intros Hne Ha. unfold generateKeyAfter.
  destruct (String.eqb_spec a "") as [|_]; [contradiction|]. cbv zeta.
  destruct (lastNot_spec "z" a (String.length a)) as [H|(d & Hr & Hg & _)];
    [lia| |].
  - rewrite H. simpl. exists (a ++ "h"). repeat split.
    + apply lt_app_nonempty. discriminate.
    + rewrite all36_append, Ha. reflexivity.
    + apply append_nonempty_r. discriminate.
  - remember (lastNot "z" a (String.length a)) as i eqn:Hi. clear Hi.
    destruct (Z.eqb_spec i (-1)) as [|_]; [lia|].
    destruct (get_split _ _ _ Hg) as (p & r & Hs & Hp).
    assert (Hlen : len p = i) by (unfold len; lia).
    subst i a. rewrite all36_append in Ha. simpl in Ha.
    apply andb_prop in Ha. destruct Ha as [Hp36 Ha].
    apply andb_prop in Ha. destruct Ha as [Hd Hr36].
    rewrite charAt_append_cons.
    rewrite (charToValue_base36 d Hd). cbn [bind].
    pose proof (base36_range d Hd) as Hv.
    change (BASE - 2) with 34.
    destruct (Z.ltb_spec (indexOf d BASE36_DIGITS) 34) as [Hlt|Hge].
    + rewrite valueToChar_digit by lia. cbn [bind].
      rewrite substring_prefix.
      exists (p ++ String (digit (indexOf d BASE36_DIGITS + 1)) "").
      repeat split.
      * apply lt_app, lt_head, compare_digit_lt; auto; lia.
      * rewrite all36_append, Hp36, all36_digit by lia. reflexivity.
      * apply append_nonempty_r. discriminate.
    + exists ((p ++ String d r) ++ "h"). repeat split.
      * apply lt_app_nonempty. discriminate.
      * rewrite !all36_append. simpl. rewrite Hp36, Hd, Hr36. reflexivity.
      * apply append_nonempty_r. discriminate.
Qed.

(** ** [generateKeyBefore] *)

Ltac zdiv := Z.div_mod_to_equations; lia.

Lemma value_zero_char : indexOf "0"%char BASE36_DIGITS = 0.
Proof. reflexivity. Qed.

Lemma base36_zero : base36 "0" = true.
Proof. reflexivity. Qed.

Lemma value_nonzero (d : ascii) :
  base36 d = true -> d <> "0"%char -> 1 <= indexOf d BASE36_DIGITS < 36.
Proof.
  intros Hd Hne. pose proof (base36_range d Hd).
  destruct (Z.eq_dec (indexOf d BASE36_DIGITS) 0) as [E|]; [|lia].
  elim Hne. apply value_zero; assumption.
Qed.

(** On a bound with a character other than [0], the key returned is a
    valid index below the bound. *)
Lemma generateKeyBefore_spec (b : string) :
  all36 b = true -> (firstNot "0" b < String.length b)%nat ->
  exists k, generateKeyBefore b = Ok k /\ slt k b /\ all36 k = true /\ k <> "".
Proof.
  intros Hb Hn. unfold generateKeyBefore.
  destruct (String.eqb_spec b "") as [->|_]; [simpl in Hn; lia|]. cbv zeta.
  destruct (firstNot_split "0" b) as (r & Hs & Hr).
  remember (firstNot "0" b) as n eqn:En. clear En.
  remember (repeat_nat "0" n) as zs eqn:Ez.
  assert (Hlen : Z.of_nat n = len zs)
    by (subst zs; unfold len; rewrite length_repeat; reflexivity).
  assert (Hz36 : all36 zs = true) by (subst zs; apply all36_repeat_zero).
  destruct r as [|d r].
  { subst b. rewrite length_append in Hn. simpl in Hn. unfold len in Hlen. lia. }
  subst b. rewrite Hlen. clear Hn.
  rewrite all36_append in Hb. simpl in Hb.
  apply andb_prop in Hb. destruct Hb as [_ Hb].
  apply andb_prop in Hb. destruct Hb as [Hd Hr36].
  pose proof (len_nonneg zs) as Hzs.
  destruct (Z.eqb_spec (len zs) (len (zs ++ String d r))) as [E|_].
  { rewrite len_append in E. unfold len in E. simpl in E. lia. }
  rewrite charAt_append_cons, (charToValue_base36 d Hd). cbn [bind].
  pose proof (value_nonzero d Hd Hr) as Hv.
  remember (indexOf d BASE36_DIGITS) as v eqn:Ev.
  assert (Hhalf : 0 <= v / 2 < v) by zdiv.
  destruct (Z.eqb_spec (len zs) 0) as [E0|N0];
    destruct (Z.gtb_spec v 1) as [G1|L1]; simpl andb; cbv iota.
  - rewrite valueToChar_digit by lia.
    exists (String (digit (v / 2)) ""). repeat split.
    + rewrite (len_zero zs E0). simpl. apply lt_head.
      apply compare_digit_gt; auto; lia.
    + apply all36_digit. lia.
    + discriminate.
  - rewrite substring_prefix.
    exists (zs ++ "0h"). repeat split.
    + apply lt_app, lt_head. rewrite compare_base36 by auto using base36_zero.
      rewrite value_zero_char, <- Ev. apply Z.compare_lt_iff. lia.
    + rewrite all36_append, Hz36. reflexivity.
    + apply append_nonempty_r. discriminate.
  - rewrite valueToChar_digit by lia. cbn [bind]. rewrite substring_prefix.
    exists (zs ++ String (digit (v / 2)) ""). repeat split.
    + apply lt_app, lt_head. apply compare_digit_gt; auto; lia.
    + rewrite all36_append, Hz36, all36_digit by lia. reflexivity.
    + apply append_nonempty_r. discriminate.
  - rewrite substring_prefix.
    exists (zs ++ "0h"). repeat split.
    + apply lt_app, lt_head. rewrite compare_base36 by auto using base36_zero.
      rewrite value_zero_char, <- Ev. apply Z.compare_lt_iff. lia.
    + rewrite all36_append, Hz36. reflexivity.
    + apply append_nonempty_r. discriminate.
Qed.

(** ** [generateKeyBetween] *)

Lemma truthy_nonempty (s : string) : s <> "" -> truthy (Some s) = true.
Proof. destruct s; [congruence | reflexivity]. Qed.

Lemma str_ge_lt (a b : string) : slt a b -> str_ge a b = false.
Proof. unfold slt, str_lt, str_ge. intros ->. reflexivity. Qed.

Lemma firstDifference_app (p x y : string) :
  firstDifference (p ++ x) (p ++ y)
  = (String.length p + firstDifference x y)%nat.
Proof.
  induction p as [|c p IH]; simpl; [reflexivity|].
  rewrite Ascii.eqb_refl, IH. reflexivity.
Qed.

Lemma firstDifference_prefix (a x : string) :
  firstDifference a (a ++ x) = String.length a.
Proof.
  rewrite <- (append_nil_r a) at 1. rewrite firstDifference_app.
  simpl. lia.
Qed.

Lemma firstDifference_heads (c d : ascii) (x y : string) :
  c <> d -> firstDifference (String c x) (String d y) = O.
Proof. intros H. simpl. destruct (Ascii.eqb_spec c d); [contradiction | reflexivity]. Qed.

Lemma generateKeyBetween_prefix (a x : string) :
  a <> "" -> x <> "" ->
  generateKeyBetween (Some a) (Some (a ++ x))
  = keyAfterPrefix a (a ++ x) (len a).
Proof.
  intros Ha Hx. unfold generateKeyBetween.
  rewrite (truthy_nonempty a Ha).
  rewrite (truthy_nonempty (a ++ x)) by (apply append_nonempty_l; exact Ha).
  cbn [orEmpty]. cbv zeta.
  rewrite str_ge_lt by (apply lt_app_nonempty; exact Hx).
  rewrite firstDifference_prefix. fold (len a).
  rewrite Z.eqb_refl. reflexivity.
Qed.

Lemma generateKeyBetween_difference (p : string) (c d : ascii) (x y : string) :
  Ascii.compare c d = Lt ->
  generateKeyBetween (Some (p ++ String c x)) (Some (p ++ String d y))
  = keyAtDifference (p ++ String c x) (p ++ String d y) (len p).
Proof.
  intros Hcd. unfold generateKeyBetween.
  rewrite !truthy_nonempty by (apply append_nonempty_r; discriminate).
  cbn [orEmpty]. cbv zeta.
  rewrite str_ge_lt by (apply lt_app, lt_head; exact Hcd).
  assert (Hne : c <> d).
  { intros ->. rewrite ascii_compare_refl in Hcd. discriminate. }
  rewrite firstDifference_app, firstDifference_heads by exact Hne.
  rewrite Nat.add_0_r. fold (len p).
  pose proof (len_nonneg x). pose proof (len_nonneg y).
  rewrite !len_append.
  rewrite !len_cons.
  destruct (Z.eqb_spec (len p) (len p + (1 + len x))); [lia|].
  destruct (Z.eqb_spec (len p) (len p + (1 + len y))); [lia|].
  reflexivity.
Qed.

Lemma substring_upto (p : string) (c : ascii) (x : string) :
  substring (p ++ String c x) 0 (len p + 1) = p ++ String c "".
Proof. rewrite append_cons, <- (len_snoc p c). apply substring_prefix. Qed.

Lemma substringFrom_after (p : string) (c : ascii) (x : string) :
  substringFrom (p ++ String c x) (len p + 1) = x.
Proof. rewrite append_cons, <- (len_snoc p c). apply substringFrom_append. Qed.

Lemma value_lt (c d : ascii) :
  base36 c = true -> base36 d = true -> Ascii.compare c d = Lt ->
  indexOf c BASE36_DIGITS < indexOf d BASE36_DIGITS.
Proof.
  intros Hc Hd H. rewrite compare_base36 in H by assumption.
  apply Z.compare_lt_iff. exact H.
Qed.

(** The branch at a differing character: it always returns, the key lies
    strictly between the bounds, and with room between the two
    characters it is the prefix, the midpoint character and the rest of
    [a]. *)
Lemma keyAtDifference_spec (p : string) (c d : ascii) (x y : string) :
  all36 p = true -> base36 c = true -> all36 x = true -> base36 d = true ->
  Ascii.compare c d = Lt ->
  exists k,
    keyAtDifference (p ++ String c x) (p ++ String d y) (len p) = Ok k /\
    slt (p ++ String c x) k /\ slt k (p ++ String d y) /\ all36 k = true /\
    (indexOf d BASE36_DIGITS - indexOf c BASE36_DIGITS > 1 ->
     k = p ++ String
               (digit ((indexOf c BASE36_DIGITS + indexOf d BASE36_DIGITS) / 2))
               x).
Proof.
  intros Hp Hc Hx Hd Hcd. unfold keyAtDifference.
  rewrite !charAt_append_cons.
  rewrite (charToValue_base36 c Hc), (charToValue_base36 d Hd). cbn [bind].
  pose proof (base36_range c Hc) as Rc. pose proof (base36_range d Hd) as Rd.
  pose proof (value_lt c d Hc Hd Hcd) as Hlt.
  remember (indexOf c BASE36_DIGITS) as av eqn:Eav.
  remember (indexOf d BASE36_DIGITS) as bv eqn:Ebv.
  destruct (Z.gtb_spec (bv - av) 1) as [Hroom|Hadj].
  - assert (Hmid : av < (av + bv) / 2 < bv) by zdiv.
    rewrite valueToChar_digit by lia. cbn [bind].
    rewrite substring_prefix, substringFrom_after. simpl append.
    exists (p ++ String (digit ((av + bv) / 2)) x). repeat split.
    + apply lt_app, lt_head. subst av. apply compare_digit_lt; auto; lia.
    + apply lt_app, lt_head. subst bv. apply compare_digit_gt; auto; lia.
    + rewrite all36_append. simpl. rewrite Hp, Hx, base36_digit by lia.
      reflexivity.
  - rewrite len_append, len_cons, substring_upto, substringFrom_after.
    pose proof (len_nonneg x) as Lx.
    destruct (Z.ltb_spec (len p) (len p + (1 + len x) - 1)) as [Hmore|Hlast].
    + assert (Hxne : x <> "") by (intros ->; unfold len in Hmore; simpl in Hmore; lia).
      destruct (generateKeyAfter_spec x Hxne Hx) as (s & -> & Hs & Hs36 & _).
      cbn [bind]. exists ((p ++ String c "") ++ s). repeat split.
      * rewrite append_cons. apply lt_app. exact Hs.
      * rewrite append_assoc. simpl append. apply lt_app, lt_head. exact Hcd.
      * rewrite !all36_append. simpl. rewrite Hp, Hc, Hs36. reflexivity.
      * intros. lia.
    + assert (Hx0 : x = "") by (apply len_zero; lia). subst x.
      exists ((p ++ String c "") ++ "h"). repeat split.
      * apply lt_app_nonempty. discriminate.
      * rewrite append_assoc. simpl append. apply lt_app, lt_head. exact Hcd.
      * rewrite !all36_append. simpl. rewrite Hp, Hc. reflexivity.
      * intros. lia.
Qed.

Lemma repeat_ok (s : string) (n : Z) :
  0 <= n -> repeat s n = Ok (repeat_nat s (Z.to_nat n)).
Proof.
  intros H. unfold repeat. destruct (Z.ltb_spec n 0); [lia | reflexivity].
Qed.

Lemma repeat_nat_add (s : string) (m k : nat) :
  repeat_nat s (m + k) = repeat_nat s m ++ repeat_nat s k.
Proof.
  induction m as [|m IH]; simpl; [reflexivity|].
  rewrite IH, append_assoc. reflexivity.
Qed.

Lemma repeat_nat_nonempty (n : nat) : (0 < n)%nat -> repeat_nat "0" n <> "".
Proof. destruct n; [lia | discriminate]. Qed.

Lemma repeat_nat_lt (m n : nat) :
  (m < n)%nat -> slt (repeat_nat "0" m) (repeat_nat "0" n).
Proof.
  intros H. replace n with (m + (n - m))%nat by lia.
  rewrite repeat_nat_add. apply lt_app_nonempty, repeat_nat_nonempty. lia.
Qed.

Lemma charToValue_zero : charToValue "0" = Ok 0.
Proof. reflexivity. Qed.

(** [b] is [a] followed by a single [0]: nothing fits in between. *)
Lemma keyAfterPrefix_adjacent (a : string) :
  keyAfterPrefix a (a ++ "0") (len a) = Throw (noStringBetween a (a ++ "0")).
Proof.
  unfold keyAfterPrefix.
  rewrite charAt_append_cons, charToValue_zero. cbn [bind]. cbv zeta.
  change (0 >? 0) with false. cbv iota.
  rewrite len_snoc.
  destruct (Z.gtb_spec (len a + 1) (len a + 1)); [lia | reflexivity].
Qed.

(** [b] continues after [a] with a character other than [0]. *)
Lemma keyAfterPrefix_nonzero (a : string) (d : ascii) (r : string) :
  all36 a = true -> base36 d = true -> d <> "0"%char ->
  exists k,
    keyAfterPrefix a (a ++ String d r) (len a) = Ok k /\
    slt a k /\ slt k (a ++ String d r) /\ all36 k = true.
Proof.
  intros Ha Hd Hne. unfold keyAfterPrefix.
  rewrite charAt_append_cons, (charToValue_base36 d Hd). cbn [bind].
  pose proof (value_nonzero d Hd Hne) as Hv.
  remember (indexOf d BASE36_DIGITS) as v eqn:Ev.
  destruct (Z.gtb_spec v 0) as [_|]; [|lia]. cbv zeta.
  assert (Hhalf : 0 <= v / 2 < v) by zdiv.
  destruct (Z.gtb_spec (v / 2) 0) as [Hpos|Hzero].
  - rewrite valueToChar_digit by lia. cbn [bind].
    exists (a ++ String (digit (v / 2)) ""). repeat split.
    + apply lt_app_nonempty. discriminate.
    + apply lt_app, lt_head. apply compare_digit_gt; auto; lia.
    + rewrite all36_append, Ha, all36_digit by lia. reflexivity.
  - exists (a ++ "0"). repeat split.
    + apply lt_app_nonempty. discriminate.
    + apply lt_app, lt_head. rewrite compare_base36 by auto using base36_zero.
      rewrite value_zero_char, <- Ev. apply Z.compare_lt_iff. lia.
    + rewrite all36_append, Ha. reflexivity.
Qed.

(** [b] continues after [a] with [z + 1] zeros and then [r], which does
    not start with [0]; there is more than the single zero. *)
Lemma keyAfterPrefix_zeros (a : string) (z : nat) (r : string) :
  all36 a = true -> all36 r = true ->
  match r with String e _ => e <> "0"%char | "" => True end ->
  ~ (z = O /\ r = "") ->
  exists k,
    keyAfterPrefix a (a ++ String "0" (repeat_nat "0" z ++ r)) (len a) = Ok k /\
    slt a k /\ slt k (a ++ String "0" (repeat_nat "0" z ++ r)) /\
    all36 k = true.
Proof.
  intros Ha Hr Hhead Hmore.
  change (String "0" (repeat_nat "0" z ++ r))
    with (repeat_nat "0" (S z) ++ r).
  remember (repeat_nat "0" (S z)) as zs eqn:Ezs.
  assert (Hzlen : len zs = Z.of_nat (S z))
    by (subst zs; unfold len; rewrite length_repeat; reflexivity).
  assert (Hz36 : all36 zs = true) by (subst zs; apply all36_repeat_zero).
  assert (Hscan : firstNotFrom "0" (a ++ zs ++ r) (len a)
                  = len a + Z.of_nat (S z)).
  { unfold firstNotFrom. rewrite substringFrom_append. subst zs.
    rewrite firstNot_repeat by exact Hhead. reflexivity. }
  assert (Hfirst : charAt (a ++ zs ++ r) (len a) = Some "0"%char).
  { subst zs. apply charAt_append_cons. }
  unfold keyAfterPrefix. rewrite Hfirst, charToValue_zero. cbn [bind].
  cbv zeta. change (0 >? 0) with false. cbv iota.
  rewrite Hscan, !len_append, Hzlen.
  pose proof (len_nonneg a) as La. pose proof (len_nonneg r) as Lr.
  replace (len a + Z.of_nat (S z) - len a) with (Z.of_nat (S z)) by lia.
  destruct r as [|e r].
  - assert (Hz : (1 <= z)%nat) by (destruct z; [elim Hmore; auto | lia]).
    change (len "") with 0.
    destruct (Z.gtb_spec (len a + (Z.of_nat (S z) + 0)) (len a + 1));
      [|lia].
    destruct (Z.eqb_spec (len a + Z.of_nat (S z))
                (len a + (Z.of_nat (S z) + 0))); [|lia].
    destruct (Z.gtb_spec (Z.of_nat (S z)) 1); [|lia]. simpl andb. cbv iota.
    assert (Hm : 1 <= Z.of_nat (S z) / 2 <= Z.of_nat z) by zdiv.
    rewrite repeat_ok by lia. cbn [bind].
    exists (a ++ repeat_nat "0" (Z.to_nat (Z.of_nat (S z) / 2))).
    repeat split.
    + apply lt_app_nonempty, repeat_nat_nonempty. lia.
    + apply lt_app. rewrite append_nil_r. subst zs.
      apply repeat_nat_lt. lia.
    + rewrite all36_append, Ha, all36_repeat_zero. reflexivity.
  - rewrite len_cons. pose proof (len_nonneg r) as Lr'.
    destruct (Z.gtb_spec (len a + (Z.of_nat (S z) + (1 + len r)))
                (len a + 1)); [|lia].
    destruct (Z.eqb_spec (len a + Z.of_nat (S z))
                (len a + (Z.of_nat (S z) + (1 + len r)))); [lia|].
    simpl andb. cbv iota.
    destruct (Z.ltb_spec (len a + Z.of_nat (S z))
                (len a + (Z.of_nat (S z) + (1 + len r)))); [|lia].
    rewrite repeat_ok by lia. rewrite Nat2Z.id, <- Ezs. cbn [bind].
    simpl in Hr. apply andb_prop in Hr. destruct Hr as [He Hr].
    replace (charAt (a ++ zs ++ String e r) (len a + Z.of_nat (S z)))
      with (Some e).
    2:{ rewrite <- Hzlen, <- len_append, <- append_assoc.
        symmetry. apply charAt_append_cons. }
    rewrite (charToValue_base36 e He). cbn [bind].
    pose proof (value_nonzero e He Hhead) as Hv.
    remember (indexOf e BASE36_DIGITS) as v eqn:Ev.
    destruct (Z.gtb_spec v 0); [|lia].
    assert (Hhalf : 0 <= v / 2 < v) by zdiv.
    rewrite valueToChar_digit by lia. cbn [bind].
    exists ((a ++ zs) ++ String (digit (v / 2)) ""). repeat split.
    + rewrite append_assoc. apply lt_app_nonempty, append_nonempty_r.
      discriminate.
    + rewrite <- (append_assoc a zs (String e r)). apply lt_app, lt_head.
      apply compare_digit_gt; auto; lia.
    + rewrite !all36_append, Ha, Hz36, all36_digit by lia. reflexivity.
Qed.

Lemma append_inv_l (p x y : string) : p ++ x = p ++ y -> x = y.
Proof. induction p; simpl; intros H; [exact H | injection H; auto]. Qed.

Lemma valid_all36 (s : string) : valid s -> all36 s = true.
Proof. intros H. apply valid_iff in H. tauto. Qed.

Lemma valid_nonempty (s : string) : valid s -> s <> "".
Proof. intros H. apply valid_iff in H. tauto. Qed.

Lemma lt_cases (p a' b' : string) :
  slt (p ++ a') (p ++ b') ->
  (a' = "" /\ exists d r, b' = String d r) \/
  (exists c x d y, a' = String c x /\ b' = String d y /\
                   (c = d \/ Ascii.compare c d = Lt)).
Proof.
  unfold slt. rewrite str_lt_app. unfold str_lt, String.ltb.
  destruct a' as [|c x], b' as [|d y]; simpl; try discriminate.
  - intros _. left. eauto.
  - destruct (Ascii.compare c d) eqn:E; try discriminate; intros _; right;
      exists c, x, d, y; repeat split; auto.
    left. apply Ascii.compare_eq_iff. exact E.
Qed.

(** On valid bounds [a < b], [generateKeyBetween] throws exactly when [b]
    is [a] followed by a single [0]; otherwise it returns a valid index
    strictly between the two. *)
Lemma generateKeyBetween_spec (a b : string) :
  valid a -> valid b -> slt a b ->
  (b = a ++ "0" ->
   generateKeyBetween (Some a) (Some b) = Throw (noStringBetween a b)) /\
  (b <> a ++ "0" ->
   exists k, generateKeyBetween (Some a) (Some b) = Ok k /\
             slt a k /\ slt k b /\ valid k).
Proof.
  intros Va Vb Hlt.
  pose proof (valid_all36 a Va) as Ha. pose proof (valid_all36 b Vb) as Hb.
  pose proof (valid_nonempty a Va) as Na.
  destruct (firstDifference_split a b) as (p & a' & b' & Ea & Eb & _ & Hd).
  subst a b.
  destruct (lt_cases p a' b' Hlt)
    as [(-> & d & r & ->) | (c & x & d & y & -> & -> & Hcd)].
  - rewrite append_nil_r in *.
    rewrite generateKeyBetween_prefix by (auto; discriminate).
    rewrite all36_append in Hb. simpl in Hb. rewrite Ha in Hb. simpl in Hb.
    apply andb_prop in Hb. destruct Hb as [Hd36 Hr].
    destruct (ascii_dec d "0") as [->|Hnz].
    + destruct (firstNot_split "0" r) as (r2 & Er & Hr2).
      remember (firstNot "0" r) as z eqn:Ez. clear Ez.
      destruct (Nat.eq_dec z 0) as [->|Hz];
        [destruct r2 as [|e r2]|].
      * simpl in Er. subst r. split; [intros _|congruence].
        apply keyAfterPrefix_adjacent.
      * split.
        { intros E. apply append_inv_l in E. subst r. discriminate. }
        intros _. subst r. simpl in Hr.
        destruct (keyAfterPrefix_zeros p 0 (String e r2))
          as (k & Hk & H1 & H2 & H3); auto; [intros [_ ?]; discriminate|].
        exists k. repeat split; auto.
        apply valid_iff. split; [eapply lt_nonempty; eassumption | auto].
      * split.
        { intros E. apply append_inv_l in E. subst r.
          destruct z; [congruence | discriminate]. }
        intros _. subst r.
        rewrite all36_append, all36_repeat_zero in Hr. simpl in Hr.
        destruct (keyAfterPrefix_zeros p z r2)
          as (k & Hk & H1 & H2 & H3); auto; [intros [? _]; contradiction|].
        exists k. repeat split; auto.
        apply valid_iff. split; [eapply lt_nonempty; eassumption | auto].
    + split.
      { intros E. apply append_inv_l in E. congruence. }
      intros _.
      destruct (keyAfterPrefix_nonzero p d r) as (k & Hk & H1 & H2 & H3); auto.
      exists k. repeat split; auto.
      apply valid_iff. split; [eapply lt_nonempty; eassumption | auto].
  - destruct Hcd as [->|Hcd]; [elim Hd; reflexivity|].
    rewrite generateKeyBetween_difference by exact Hcd.
    rewrite all36_append in Ha, Hb. simpl in Ha, Hb.
    apply andb_prop in Ha. destruct Ha as [Hp Ha].
    apply andb_prop in Ha. destruct Ha as [Hc Hx].
    rewrite Hp in Hb. simpl in Hb.
    apply andb_prop in Hb. destruct Hb as [Hd36 Hy].
    split.
    { intros E. rewrite append_assoc in E. apply append_inv_l in E.
      simpl in E. injection E as E _. subst d.
      rewrite ascii_compare_refl in Hcd. discriminate. }
    intros _.
    destruct (keyAtDifference_spec p c d x y)
      as (k & Hk & H1 & H2 & H3 & _); auto.
    exists k. repeat split; auto.
    apply valid_iff. split; [eapply lt_nonempty; eassumption | auto].
Qed.

(** ** The jittered wrapper *)

Lemma valueToChar_inv (n : Z) (s : string) :
  valueToChar n = Ok s -> 0 <= n < 36 /\ s = String (digit n) "".
Proof.
  unfold valueToChar. change BASE with 36.
  destruct (Z.ltb_spec n 0); [discriminate|].
  destruct (Z.geb_spec n 36); [discriminate|]. simpl orb. cbv iota.
  intros Hres. assert (Hn : 0 <= n < 36) by lia. split; [exact Hn|].
  destruct (digit_spec n Hn) as [E _]. rewrite E in Hres. congruence.
Qed.

(** Whatever the provider draws, a key returned by the wrapper is the
    plain key or that key with one more alphabet character, accepted
    only inside the bounds. *)
Lemma fractionalIndexBetween_cases {S : Type} (a b : option string)
    (jp : JitterProvider S) (st st' : S) (k : string) :
  fractionalIndexBetween a b jp st = (Ok k, st') ->
  exists key,
    generateKeyBetween a b = Ok key /\
    (k = key \/
     exists n, 0 <= n < 36 /\ k = key ++ String (digit n) "" /\
               (truthy a = true -> slt (orEmpty a) k) /\
               (truthy b = true -> slt k (orEmpty b))).
Proof.
  unfold fractionalIndexBetween.
  destruct (generateKeyBetween a b) as [key|m]; [|discriminate].
  destruct (random jp st) as [r st1].
  destruct (Qltb r jitterThreshold && (len key <? 10)).
  - destruct (randomInt jp BASE st1) as [n st2].
    destruct (valueToChar n) as [suffix|m] eqn:En; [|discriminate].
    apply valueToChar_inv in En. destruct En as [Hn ->].
    destruct ((negb (truthy a) || str_gt (key ++ String (digit n) "") (orEmpty a))
              && (negb (truthy b) || str_lt (key ++ String (digit n) "") (orEmpty b)))
      eqn:Ev; intros H; injection H as <- _; exists key;
      (split; [reflexivity|]); [right | left; reflexivity].
    exists n. apply andb_prop in Ev. destruct Ev as [E1 E2].
    repeat split; try lia.
    + intros Ta. rewrite Ta in E1. exact E1.
    + intros Tb. rewrite Tb in E2. exact E2.
  - intros H. injection H as <- _. exists key. auto.
Qed.

Lemma fractionalIndexBetween_returns {S : Type} (a b : option string)
    (jp : JitterProvider S) (st : S) (key : string) :
  honoursRange jp -> generateKeyBetween a b = Ok key ->
  exists k st', fractionalIndexBetween a b jp st = (Ok k, st').
Proof.
  intros Hjp Hkey. unfold fractionalIndexBetween. rewrite Hkey.
  destruct (random jp st) as [r st1].
  destruct (Qltb r jitterThreshold && (len key <? 10)); [|eauto].
  pose proof (Hjp BASE st1 eq_refl) as Hn.
  destruct (randomInt jp BASE st1) as [n st2]. simpl in Hn.
  rewrite valueToChar_digit by (change BASE with 36 in Hn; lia).
  destruct (_ && _); eauto.
Qed.

Lemma valid_snoc_digit (key : string) (n : Z) :
  valid key -> 0 <= n < 36 -> valid (key ++ String (digit n) "").
Proof.
  intros Hk Hn. apply valid_iff in Hk. destruct Hk as [Hne H36].
  apply valid_iff. split; [apply append_nonempty_l; exact Hne|].
  rewrite all36_append, H36, all36_digit by exact Hn. reflexivity.
Qed.

(** Under any provider, a key the wrapper returns for valid bounds
    [a < b] is a valid index strictly between them. *)
Lemma fractionalIndexBetween_sound {S : Type} (a b : string)
    (jp : JitterProvider S) (st st' : S) (k : string) :
  valid a -> valid b -> slt a b ->
  fractionalIndexBetween (Some a) (Some b) jp st = (Ok k, st') ->
  slt a k /\ slt k b /\ valid k.
Proof.
  intros Va Vb Hlt Hk.
  destruct (generateKeyBetween_spec a b Va Vb Hlt) as [Hthrow Hok].
  apply fractionalIndexBetween_cases in Hk.
  destruct Hk as (key & Hkey & Hcase).
  assert (Hne : b <> a ++ "0").
  { intros E. rewrite (Hthrow E) in Hkey. discriminate. }
  destruct (Hok Hne) as (key' & Hkey' & H1 & H2 & H3).
  rewrite Hkey' in Hkey. injection Hkey as ->.
  destruct Hcase as [->|(n & Hn & -> & Ha & Hb)]; [auto|].
  repeat split.
  - apply Ha, truthy_nonempty, valid_nonempty, Va.
  - apply Hb, truthy_nonempty, valid_nonempty, Vb.
  - apply valid_snoc_digit; assumption.
Qed.

(** ** Claims on the index algebra *)

(** C1 (as amended).  For valid indices [a < b] where [b] is not [a]
    followed by a single [0], [generateKeyBetween] returns a valid index
    strictly between them, and when [b] is [a] followed by [0] it
    throws the no-string error.  The jittered wrapper
    [fractionalIndexBetween], under any jitter provider, only ever
    returns valid indices strictly between the bounds, and it does
    return whenever the provider keeps [randomInt] in range. *)
Theorem between_valid_bounds (a b : string) :
  valid a -> valid b -> slt a b ->
  (b = a ++ "0" ->
   generateKeyBetween (Some a) (Some b) = Throw (noStringBetween a b)) /\
  (b <> a ++ "0" ->
   (exists k, generateKeyBetween (Some a) (Some b) = Ok k /\
              slt a k /\ slt k b /\ valid k) /\
   (forall (S : Type) (jp : JitterProvider S) (st : S),
      honoursRange jp ->
      exists k st', fractionalIndexBetween (Some a) (Some b) jp st = (Ok k, st'))) /\
  (forall (S : Type) (jp : JitterProvider S) (st st' : S) (k : string),
     fractionalIndexBetween (Some a) (Some b) jp st = (Ok k, st') ->
     slt a k /\ slt k b /\ valid k).
Proof.
  intros Va Vb Hlt.
  destruct (generateKeyBetween_spec a b Va Vb Hlt) as [Hthrow Hok].
  split; [exact Hthrow|]. split.
  - intros Hne. destruct (Hok Hne) as (key & Hkey & H1 & H2 & H3).
    split; [eauto|]. intros S jp st Hjp.
    eapply fractionalIndexBetween_returns; eassumption.
  - intros S jp st st' k Hk.
    exact (fractionalIndexBetween_sound a b jp st st' k Va Vb Hlt Hk).
Qed.

(** C1, the claim as stated fails: [a] and [a0] are valid with
    [a < a0], and no key is returned. *)
Lemma between_valid_bounds_not_total :
  ~ (forall a b : string,
       valid a -> valid b -> slt a b ->
       exists k, generateKeyBetween (Some a) (Some b) = Ok k /\
                 slt a k /\ slt k b /\ valid k).
Proof.
  intros H.
  destruct (H "a" "a0" eq_refl eq_refl eq_refl) as (k & Hk & _).
  vm_compute in Hk. discriminate.
Qed.

Lemma between_valid_bounds_witness :
  (exists k, generateKeyBetween (Some "a") (Some "c") = Ok k /\
             slt "a" k /\ slt k "c" /\ valid k).
Proof.
  apply (between_valid_bounds "a" "c");
    [reflexivity | reflexivity | reflexivity | discriminate].
Defined.

Lemma head_cons_inv (s : string) (c : ascii) :
  head s = Some c -> exists x, s = String c x.
Proof. destruct s; simpl; intros H; [discriminate | injection H as ->; eauto]. Qed.

(** C5 (as amended).  For valid [a < b] that both have a character at
    the first differing position [i], of values [aVal] and [bVal] with
    [bVal - aVal > 1], [generateKeyBetween] returns [a[0..i]], then the
    midpoint character, then the rest of [a] after position [i]. *)
Theorem between_midpoint_keeps_rest (a b : string) (aChar bChar : ascii) :
  valid a -> valid b -> slt a b ->
  charAt a (Z.of_nat (firstDifference a b)) = Some aChar ->
  charAt b (Z.of_nat (firstDifference a b)) = Some bChar ->
  indexOf bChar BASE36_DIGITS - indexOf aChar BASE36_DIGITS > 1 ->
  exists midChar,
    valueToChar
      ((indexOf aChar BASE36_DIGITS + indexOf bChar BASE36_DIGITS) / 2)
      = Ok midChar /\
    charToValue aChar = Ok (indexOf aChar BASE36_DIGITS) /\
    charToValue bChar = Ok (indexOf bChar BASE36_DIGITS) /\
    generateKeyBetween (Some a) (Some b)
      = Ok (substring a 0 (Z.of_nat (firstDifference a b)) ++ midChar
              ++ substringFrom a (Z.of_nat (firstDifference a b) + 1)).
Proof.
  intros Va Vb Hlt Hca Hcb Hroom.
  pose proof (valid_all36 a Va) as Ha. pose proof (valid_all36 b Vb) as Hb.
  destruct (firstDifference_split a b) as (p & a' & b' & Ea & Eb & Ei & Hd).
  rewrite Ei in *. fold (len p) in *. subst a b.
  rewrite charAt_append in Hca, Hcb.
  destruct (head_cons_inv _ _ Hca) as (x & ->).
  destruct (head_cons_inv _ _ Hcb) as (y & ->).
  destruct (lt_cases _ _ _ Hlt)
    as [(E & _) | (c & x' & d & y' & E1 & E2 & Hcd)]; [discriminate|].
  injection E1 as <- <-. injection E2 as <- <-.
  destruct Hcd as [->|Hcd]; [elim Hd; reflexivity|].
  rewrite all36_append in Ha, Hb. simpl in Ha, Hb.
  apply andb_prop in Ha. destruct Ha as [Hp Ha].
  apply andb_prop in Ha. destruct Ha as [Hc Hx].
  rewrite Hp in Hb. simpl in Hb.
  apply andb_prop in Hb. destruct Hb as [Hd36 Hy].
  pose proof (base36_range aChar Hc). pose proof (base36_range bChar Hd36).
  exists (String (digit ((indexOf aChar BASE36_DIGITS
                          + indexOf bChar BASE36_DIGITS) / 2)) "").
  split; [apply valueToChar_digit; zdiv|].
  split; [apply charToValue_base36; exact Hc|].
  split; [apply charToValue_base36; exact Hd36|].
  rewrite generateKeyBetween_difference by exact Hcd.
  destruct (keyAtDifference_spec p aChar bChar x y)
    as (k & -> & _ & _ & _ & Hk); auto.
  rewrite (Hk Hroom), substring_prefix, substringFrom_after. reflexivity.
Qed.

(** C5, the claim as stated fails: between [a5] and [d] the characters
    at position 0 have values 10 and 13, and the key returned is [b5],
    not the prefix followed by the midpoint character alone. *)
Lemma between_midpoint_alone_fails :
  ~ (forall (a b : string) (aChar bChar : ascii) (aVal bVal : Z)
            (midChar : string),
       valid a -> valid b -> slt a b ->
       charAt a (Z.of_nat (firstDifference a b)) = Some aChar ->
       charAt b (Z.of_nat (firstDifference a b)) = Some bChar ->
       charToValue aChar = Ok aVal -> charToValue bChar = Ok bVal ->
       bVal - aVal > 1 ->
       valueToChar ((aVal + bVal) / 2) = Ok midChar ->
       generateKeyBetween (Some a) (Some b)
       = Ok (substring a 0 (Z.of_nat (firstDifference a b)) ++ midChar)).
Proof.
  intros H.
  specialize (H "a5" "d" "a"%char "d"%char 10 13 "b"
                eq_refl eq_refl eq_refl eq_refl eq_refl eq_refl eq_refl
                eq_refl eq_refl).
  vm_compute in H. discriminate.
Qed.

Lemma between_midpoint_keeps_rest_witness :
  exists midChar,
    valueToChar ((indexOf "a" BASE36_DIGITS + indexOf "d" BASE36_DIGITS) / 2)
      = Ok midChar /\
    charToValue "a" = Ok (indexOf "a" BASE36_DIGITS) /\
    charToValue "d" = Ok (indexOf "d" BASE36_DIGITS) /\
    generateKeyBetween (Some "a5") (Some "d")
      = Ok (substring "a5" 0 (Z.of_nat (firstDifference "a5" "d")) ++ midChar
              ++ substringFrom "a5" (Z.of_nat (firstDifference "a5" "d") + 1)).
Proof.
  apply (between_midpoint_keeps_rest "a5" "d" "a" "d");
    reflexivity.
Defined.

(** C4, at the failing input.  [00] is a valid index, yet
    [generateKeyBefore] returns [000], which sorts after it; the valid
    index [0] lies below [00]. *)
Theorem generateKeyBefore_zeros_not_below :
  valid "00" /\ generateKeyBefore "00" = Ok "000" /\
  slt "00" "000" /\ valid "0" /\ slt "0" "00".
Proof. repeat split; reflexivity. Qed.

(** Every bound made of zeros only behaves that way. *)
Lemma generateKeyBefore_all_zeros (n : nat) :
  (0 < n)%nat ->
  generateKeyBefore (repeat_nat "0" n) = Ok ("0" ++ repeat_nat "0" n) /\
  slt (repeat_nat "0" n) ("0" ++ repeat_nat "0" n).
Proof.
  intros Hn. split.
  - unfold generateKeyBefore.
    destruct (String.eqb_spec (repeat_nat "0" n) "") as [E|_].
    { elim (repeat_nat_nonempty n Hn E). }
    cbv zeta.
    replace (firstNot "0" (repeat_nat "0" n)) with n.
    + unfold len. rewrite length_repeat, Z.eqb_refl. reflexivity.
    + rewrite <- (append_nil_r (repeat_nat "0" n)).
      symmetry. apply (firstNot_repeat "0" n ""). exact I.
  - change ("0" ++ repeat_nat "0" n) with (repeat_nat "0" (S n)).
    apply repeat_nat_lt. lia.
Qed.

(** The other part of C4 holds: [generateKeyAfter] returns a valid index
    above any valid index. *)
Lemma generateKeyAfter_above (a : string) :
  valid a -> exists k, generateKeyAfter a = Ok k /\ slt a k /\ valid k.
Proof.
  intros Va. apply valid_iff in Va. destruct Va as [Hne H36].
  destruct (generateKeyAfter_spec a Hne H36) as (k & Hk & H1 & H2 & H3).
  exists k. repeat split; auto. apply valid_iff. auto.
Qed.

(** And so does [generateKeyBefore] on every valid bound that is not
    made of zeros only. *)
Lemma generateKeyBefore_below (b : string) :
  valid b -> (firstNot "0" b < String.length b)%nat ->
  exists k, generateKeyBefore b = Ok k /\ slt k b /\ valid k.
Proof.
  intros Vb Hn. apply valid_iff in Vb. destruct Vb as [Hne H36].
  destruct (generateKeyBefore_spec b H36 Hn) as (k & Hk & H1 & H2 & H3).
  exists k. repeat split; auto. apply valid_iff. auto.
Qed.

(** ** Materializers *)

Section MaterializerFacts.

Variable Any : Type.
Context {js : Coercions Any}.

Lemma filter_map_comm {A : Type} (p : A -> bool) (g : A -> A) (l : list A) :
  (forall x, p (g x) = p x) -> filter p (map g l) = map g (filter p l).
Proof.
  intros Hp. induction l as [|x l IH]; simpl; [reflexivity|].
  rewrite Hp. destruct (p x); simpl; congruence.
Qed.


Lemma matches_setColumns (w : OutputsWhere) (u : OutputsSet Any)
    (r : OutputRow Any) :
  matches w (setColumns u r) = matches w r.
Proof. reflexivity. Qed.

Lemma matches_idWhere (outputId : string) (r : OutputRow Any) :
  matches (idWhere outputId) r = String.eqb outputId (o_id r).
Proof.
  unfold matches, idWhere. simpl. rewrite !andb_true_r. reflexivity.
Qed.

Lemma matches_cellWhere (cellId : string) (r : OutputRow Any) :
  matches (cellWhere cellId) r = String.eqb cellId (o_cellId r).
Proof. unfold matches, cellWhere. simpl. rewrite !andb_true_r. reflexivity. Qed.


(** C10.  The v2 append materializers never look at the state: for
    [v2.TerminalOutputAppended] and [v2.MarkdownOutputAppended] alike
    the only operation is the insert of the delta row.  Committing it
    adds the row to [output_deltas] whether or not [outputs] holds a row
    of id [outputId] (only a delta id already present makes the insert
    fail), and [outputs] is left as it is, so a delta may point at no
    output. *)
Theorem appended_v2_inserts_unconditionally (id outputId delta : string)
    (sequenceNumber : Z) (st : State Any) :
  let row := {| d_id := id; d_outputId := outputId; d_delta := delta;
                d_sequenceNumber := sequenceNumber |} in
  let inserted :=
    if existsb (fun r => String.eqb (d_id r) id) (outputDeltas st)
    then Throw "UNIQUE constraint failed: output_deltas.id"
    else Ok {| outputs := outputs st;
               outputDeltas := (outputDeltas st ++ [row])%list;
               pendingClears := pendingClears st;
               presence := presence st |} in
  materialize (TerminalOutputAppended2 id outputId delta sequenceNumber) st
    = [outputDeltas_insert row] /\
  materialize (MarkdownOutputAppended2 id outputId delta sequenceNumber) st
    = [outputDeltas_insert row] /\
  commit (TerminalOutputAppended2 id outputId delta sequenceNumber) st
    = inserted /\
  commit (MarkdownOutputAppended2 id outputId delta sequenceNumber) st
    = inserted.
Proof.
  cbv zeta. unfold commit. cbn [materialize applyOps applyOp d_id].
  repeat split;
    destruct (existsb (fun r => String.eqb (d_id r) id) (outputDeltas st));
    reflexivity.
Qed.



(** *** Committing an output-add event *)

Lemma applyOps_app (ops1 ops2 : list (TableOp Any)) (st : State Any) :
  applyOps (ops1 ++ ops2)%list st
  = (st' <- applyOps ops1 st ;; applyOps ops2 st').
Proof.
  revert st. induction ops1 as [|op ops1 IH]; intros st; simpl; [reflexivity|].
  destruct (applyOp op st) as [st1|m]; simpl; [apply IH | reflexivity].
Qed.

Lemma state_eta (st : State Any) :
  st = {| outputs := outputs st; outputDeltas := outputDeltas st;
          pendingClears := pendingClears st; presence := presence st |}.
Proof. destruct st; reflexivity. Qed.

Lemma filter_negb_find_none {A : Type} (p : A -> bool) (l : list A) :
  find p l = None -> filter (fun x => negb (p x)) l = l.
Proof.
  induction l as [|x l IH]; simpl; [reflexivity|].
  destruct (p x); simpl; [discriminate | intros H; rewrite IH by exact H; reflexivity].
Qed.

Lemma find_filter_negb {A : Type} (p : A -> bool) (l : list A) :
  find p (filter (fun x => negb (p x)) l) = None.
Proof.
  induction l as [|x l IH]; simpl; [reflexivity|].
  destruct (p x) eqn:E; simpl; [exact IH | rewrite E; exact IH].
Qed.

Lemma applyOps_pendingClearOps (cellId : string) (st : State Any) :
  applyOps (pendingClearOps cellId st) st
  = Ok {| outputs :=
            if isSome (selectPendingClear st cellId)
            then filter (fun r => negb (String.eqb cellId (o_cellId r)))
                        (outputs st)
            else outputs st;
          outputDeltas := outputDeltas st;
          pendingClears :=
            filter (fun r => negb (String.eqb (pc_cellId r) cellId))
                   (pendingClears st);
          presence := presence st |}.
Proof.
  unfold pendingClearOps.
  destruct (selectPendingClear st cellId) as [row|] eqn:E; simpl.
  - do 2 f_equal. apply filter_ext. intros r. rewrite matches_cellWhere.
    reflexivity.
  - unfold selectPendingClear in E.
    rewrite (filter_negb_find_none _ _ E). f_equal. apply state_eta.
Qed.

Lemma applyOps_updates (ups : list (TableOp Any)) (st : State Any) :
  onlyUpdates ups ->
  exists upd : OutputRow Any -> OutputRow Any,
    (forall r, o_id (upd r) = o_id r /\ o_cellId (upd r) = o_cellId r) /\
    (ups = [] -> forall r, upd r = r) /\
    applyOps ups st
    = Ok {| outputs := map upd (outputs st);
            outputDeltas := outputDeltas st;
            pendingClears := pendingClears st;
            presence := presence st |}.
Proof.
  intros H. revert st. induction H as [|op ups (u & w & ->) _ IH]; intros st.
  - exists (fun r => r). repeat split. simpl. rewrite map_id.
    f_equal. apply state_eta.
  - simpl.
    destruct (IH {| outputs :=
                      map (fun r => if matches w r then setColumns u r else r)
                          (outputs st);
                    outputDeltas := outputDeltas st;
                    pendingClears := pendingClears st;
                    presence := presence st |})
      as (upd & Hpres & _ & Happ).
    exists (fun r => upd (if matches w r then setColumns u r else r)).
    split; [|split; [discriminate|]].
    + intros r. destruct (Hpres (if matches w r then setColumns u r else r))
        as [H1 H2].
      rewrite H1, H2. destruct (matches w r); split; reflexivity.
    + rewrite Happ. cbn [outputs outputDeltas pendingClears presence].
      rewrite map_map. reflexivity.
Qed.

Lemma updateExistingDisplays_only (displayId : string)
    (representations : Representations Any) (st : State Any) :
  onlyUpdates (updateExistingDisplays displayId representations st).
Proof.
  unfold updateExistingDisplays, onlyUpdates.
  destruct (lenL _ =? 0); [constructor|].
  destruct (selectPrimaryRepresentation _ _) as [[mimeType container]|];
    [|constructor].
  constructor; [eauto | constructor].
Qed.

Lemma displayUpdates_only (event : OutputEvent Any) (st : State Any) :
  onlyUpdates (displayUpdates event st).
Proof.
  destruct event; simpl; try constructor.
  destruct (truthy displayId); [apply updateExistingDisplays_only | constructor].
Qed.

Lemma materialize_add (event : OutputEvent Any) (row : OutputRow Any)
    (st : State Any) :
  addedRow event = Some row ->
  materialize event st
  = (pendingClearOps (o_cellId row) st
     ++ displayUpdates event st ++ [outputs_insert_replace row])%list.
Proof.
  destruct event; simpl; intros H; try discriminate; injection H as <-;
    reflexivity.
Qed.

(** The state an output-add event leaves: the rows of the cell go if a
    clear was pending, the pending clear goes, rows a display update
    reaches are updated in place, and the new row replaces any row of
    its id. *)
Lemma commit_add (event : OutputEvent Any) (row : OutputRow Any)
    (st : State Any) :
  addedRow event = Some row ->
  exists upd : OutputRow Any -> OutputRow Any,
    (forall r, o_id (upd r) = o_id r /\ o_cellId (upd r) = o_cellId r) /\
    (displayUpdates event st = [] -> forall r, upd r = r) /\
    commit event st
    = Ok {| outputs :=
              (filter (fun r => negb (String.eqb (o_id r) (o_id row)))
                 (map upd
                    (if isSome (selectPendingClear st (o_cellId row))
                     then filter
                            (fun r =>
                               negb (String.eqb (o_cellId row) (o_cellId r)))
                            (outputs st)
                     else outputs st))
               ++ [row])%list;
            outputDeltas := outputDeltas st;
            pendingClears :=
              filter (fun r => negb (String.eqb (pc_cellId r) (o_cellId row)))
                     (pendingClears st);
            presence := presence st |}.
Proof.
  intros Hrow. unfold commit. rewrite (materialize_add event row st Hrow).
  rewrite applyOps_app, applyOps_pendingClearOps. cbn [bind].
  rewrite applyOps_app.
  match goal with
  | |- context [applyOps (displayUpdates event st) ?s] =>
      destruct (applyOps_updates (displayUpdates event st) s
                  (displayUpdates_only event st))
        as (upd & Hpres & Hid & Happ)
  end.
  exists upd. split; [exact Hpres|]. split; [exact Hid|].
  rewrite Happ. reflexivity.
Qed.


Lemma filter_none {A : Type} (p : A -> bool) (l : list A) :
  (forall x, In x l -> p x = false) -> filter p l = [].
Proof.
  induction l as [|x l IH]; simpl; intros H; [reflexivity|].
  rewrite (H x) by auto. apply IH. auto.
Qed.

Lemma filter_filter_comm {A : Type} (p q : A -> bool) (l : list A) :
  filter p (filter q l) = filter q (filter p l).
Proof.
  induction l as [|x l IH]; simpl; [reflexivity|].
  destruct (q x) eqn:Q, (p x) eqn:P; simpl; rewrite ?Q, ?P, IH; reflexivity.
Qed.

Lemma find_after_filter {A : Type} (p : A -> bool) (l : list A) (x : A) :
  p x = true -> find p (filter (fun y => negb (p y)) l ++ [x])%list = Some x.
Proof.
  intros Hx. induction l as [|y l IH]; simpl; [rewrite Hx; reflexivity|].
  destruct (p y) eqn:E; simpl; [exact IH | rewrite E; exact IH].
Qed.

(** C2.  Pending-clear protocol, for any two output-add events [X] and
    [Y] into the cell, inserting rows of different ids.  Committing
    [CellOutputsCleared] with [wait = true] alone leaves [outputs] (and
    [output_deltas]) as they were and puts the one pending-clear row of
    the cell in place of any earlier one.  The materializer of the next
    add then first deletes the outputs of the cell and the pending clear
    and inserts its row last; after it the cell holds that row only and
    no clear is pending.  After the second add the outputs of the cell
    are the rows of [X] and [Y], in that order: exactly the inserted
    rows, unless [Y] is a display update reaching [X] in place. *)
Theorem pending_clear_protocol (cellId clearedBy : string)
    (X Y : OutputEvent Any) (rowX rowY : OutputRow Any) (st : State Any) :
  addedRow X = Some rowX -> addedRow Y = Some rowY ->
  o_cellId rowX = cellId -> o_cellId rowY = cellId ->
  o_id rowX <> o_id rowY ->
  exists st1 st2 st3,
    commit (CellOutputsCleared cellId true clearedBy) st = Ok st1 /\
    outputs st1 = outputs st /\
    outputDeltas st1 = outputDeltas st /\
    pendingClears st1
    = (filter (fun r => negb (String.eqb (pc_cellId r) cellId))
         (pendingClears st)
       ++ [{| pc_cellId := cellId; pc_clearedBy := clearedBy |}])%list /\
    materialize X st1
    = (outputs_delete (cellWhere cellId) :: pendingClears_delete cellId
       :: displayUpdates X st1 ++ [outputs_insert_replace rowX])%list /\
    commit X st1 = Ok st2 /\
    outputsOf cellId st2 = [rowX] /\
    selectPendingClear st2 cellId = None /\
    commit Y st2 = Ok st3 /\
    commitAll [CellOutputsCleared cellId true clearedBy; X; Y] st = Ok st3 /\
    map (fun r => o_id r) (outputsOf cellId st3) = [o_id rowX; o_id rowY] /\
    (displayUpdates Y st2 = [] -> outputsOf cellId st3 = [rowX; rowY]).
Proof.
  intros HX HY HcX HcY Hids.
  set (pending := {| pc_cellId := cellId; pc_clearedBy := clearedBy |}).
  set (st1 := {| outputs := outputs st;
                 outputDeltas := outputDeltas st;
                 pendingClears :=
                   (filter (fun r => negb (String.eqb (pc_cellId r) cellId))
                      (pendingClears st) ++ [pending])%list;
                 presence :=
                   if truthy (Some clearedBy)
                   then (filter (fun r => negb (String.eqb (p_userId r)
                                                  clearedBy))
                           (presence st)
                         ++ [{| p_userId := clearedBy;
                                p_cellId := orNull (Some cellId) |}])%list
                   else presence st |}).
  assert (H1 : commit (CellOutputsCleared cellId true clearedBy) st = Ok st1).
  { unfold commit, st1. cbn [materialize].
    destruct (truthy (Some clearedBy)); reflexivity. }
  assert (Hp1 : selectPendingClear st1 cellId = Some pending).
  { unfold selectPendingClear, st1. cbn [pendingClears].
    apply (find_after_filter (fun r => String.eqb (pc_cellId r) cellId)).
    apply String.eqb_refl. }
  destruct (commit_add X rowX st1 HX) as (updX & HpresX & _ & H2).
  rewrite HcX, Hp1 in H2. cbn [isSome] in H2.
  match type of H2 with _ = Ok ?s => set (st2 := s) in * end.
  assert (Ho2 : outputsOf cellId st2 = [rowX]).
  { unfold outputsOf, st2. cbn [outputs]. rewrite filter_app.
    cbn [filter]. rewrite HcX, String.eqb_refl.
    rewrite filter_none; [reflexivity|].
    intros r Hr. apply filter_In in Hr. destruct Hr as [Hr _].
    apply in_map_iff in Hr. destruct Hr as (r0 & <- & Hr0).
    apply filter_In in Hr0. destruct Hr0 as [_ Hne].
    destruct (HpresX r0) as [_ ->].
    rewrite String.eqb_sym. apply negb_true_iff. exact Hne. }
  assert (Hp2 : selectPendingClear st2 cellId = None).
  { unfold selectPendingClear, st2. cbn [pendingClears].
    apply (find_filter_negb (fun r => String.eqb (pc_cellId r) cellId)). }
  destruct (commit_add Y rowY st2 HY) as (updY & HpresY & HidY & H3).
  rewrite HcY, Hp2 in H3. cbn [isSome] in H3.
  match type of H3 with _ = Ok ?s => set (st3 := s) in * end.
  assert (Ho3 : outputsOf cellId st3 = [updY rowX; rowY]).
  { unfold outputsOf, st3. cbn [outputs]. rewrite filter_app.
    cbn [filter]. rewrite HcY, String.eqb_refl.
    rewrite filter_filter_comm, filter_map_comm
      by (intros r; destruct (HpresY r) as [_ ->]; reflexivity).
    fold (outputsOf cellId st2). rewrite Ho2. cbn [map filter].
    destruct (HpresY rowX) as [-> _].
    destruct (String.eqb_spec (o_id rowX) (o_id rowY)); [contradiction|].
    reflexivity. }
  exists st1, st2, st3.
  split; [exact H1|]. split; [reflexivity|]. split; [reflexivity|].
  split; [reflexivity|]. split.
  { rewrite (materialize_add X rowX st1 HX), HcX.
    unfold pendingClearOps. rewrite Hp1. reflexivity. }
  split; [exact H2|]. split; [exact Ho2|]. split; [exact Hp2|].
  split; [exact H3|]. split.
  { cbn [commitAll]. rewrite H1. cbn [bind]. rewrite H2. cbn [bind].
    rewrite H3. reflexivity. }
  split.
  - rewrite Ho3. cbn [map]. destruct (HpresY rowX) as [-> _]. reflexivity.
  - intros Hnone. rewrite Ho3, (HidY Hnone). reflexivity.
Qed.


(** *** Display ids *)

Lemma matches_displayWhere (d : string) (r : OutputRow Any) :
  matches (displayWhere d) r
  = givenNullable (Some d) (o_displayId r)
    && OutputType_eqb multimedia_display (o_outputType r).
Proof. reflexivity. Qed.

Lemma updateExistingDisplays_some (d mimeType : string)
    (representations : Representations Any) (container : MediaContainer Any)
    (st : State Any) :
  selectOutputs st (displayWhere d) <> [] ->
  selectPrimaryRepresentation representations defaultPreferredMimeTypes
  = Some (mimeType, container) ->
  updateExistingDisplays d representations st
  = [ outputs_update
        {| set_data := Some (primaryData container);
           set_mimeType := Some mimeType;
           set_representations := Some representations |}
        (displayWhere d) ].
Proof.
  intros Hne Hprim. unfold updateExistingDisplays. rewrite Hprim.
  destruct (selectOutputs st (displayWhere d)) as [|r l]; [congruence|].
  unfold lenL. cbn [List.length].
  destruct (Z.eqb_spec (Z.of_nat (S (List.length l))) 0); [lia | reflexivity].
Qed.

Lemma filter_all {A : Type} (p : A -> bool) (l : list A) :
  (forall x, In x l -> p x = true) -> filter p l = l.
Proof.
  induction l as [|x l IH]; simpl; intros H; [reflexivity|].
  rewrite (H x) by auto. f_equal. apply IH. auto.
Qed.

Lemma outputById_none (st : State Any) (id : string) (r : OutputRow Any) :
  outputById st id = None -> In r (outputs st) ->
  String.eqb (o_id r) id = false.
Proof.
  unfold outputById, selectOutputs. intros Hnone Hin.
  destruct (String.eqb (o_id r) id) eqn:E; [|reflexivity].
  assert (Hf : In r (filter (matches (idWhere id)) (outputs st))).
  { apply filter_In. split; [exact Hin|]. rewrite matches_idWhere.
    rewrite String.eqb_sym. exact E. }
  destruct (filter (matches (idWhere id)) (outputs st)); [elim Hf | discriminate].
Qed.

Lemma updateExistingDisplays_none (d : string)
    (representations : Representations Any) (st : State Any) :
  selectPrimaryRepresentation representations defaultPreferredMimeTypes = None ->
  updateExistingDisplays d representations st = [].
Proof.
  intros Hprim. unfold updateExistingDisplays. rewrite Hprim.
  destruct (_ =? _); reflexivity.
Qed.

Lemma displayed_matches (d : string) (representations : Representations Any)
    (r : OutputRow Any) :
  matches (displayWhere d) (displayed d representations r)
  = matches (displayWhere d) r.
Proof.
  unfold displayed.
  destruct (selectPrimaryRepresentation _ _) as [[mimeType container]|];
    [|reflexivity].
  destruct (matches (displayWhere d) r) eqn:E;
    [rewrite matches_setColumns|]; exact E.
Qed.

Lemma displayed_id (d : string) (representations : Representations Any)
    (r : OutputRow Any) :
  o_id (displayed d representations r) = o_id r.
Proof.
  unfold displayed.
  destruct (selectPrimaryRepresentation _ _) as [[mimeType container]|];
    [|reflexivity].
  destruct (matches (displayWhere d) r); reflexivity.
Qed.

Lemma commit_display_update (d : string)
    (representations : Representations Any) (st : State Any) :
  selectOutputs st (displayWhere d) <> [] ->
  commit (MultimediaDisplayOutputUpdated d representations) st
  = Ok {| outputs := map (displayed d representations) (outputs st);
          outputDeltas := outputDeltas st;
          pendingClears := pendingClears st;
          presence := presence st |}.
Proof.
  intros Hne. unfold commit. cbn [materialize]. unfold displayed.
  destruct (selectPrimaryRepresentation representations
              defaultPreferredMimeTypes) as [[mimeType container]|] eqn:E.
  - rewrite (updateExistingDisplays_some d mimeType representations container
               st Hne E).
    reflexivity.
  - rewrite (updateExistingDisplays_none d representations st E).
    cbn [applyOps]. rewrite map_id. destruct st; reflexivity.
Qed.

(** C3 (as amended).  On a state with no clear pending for the cell and
    no output of the new id, where some [multimedia_display] output has
    the non-empty display id [d]: committing
    [MultimediaDisplayOutputAdded] with display id [d] and
    representations [R2] inserts one row, so there is one more row of
    display id [d] than before, and committing
    [MultimediaDisplayOutputUpdated] with [d] and [R3] after that
    inserts nothing and keeps the ids; the ids after the add are those
    before it followed by the new one.  When [R2] holds a MIME type of
    the priority list the add updates the existing rows in place: all
    rows of display id [d] carry [R2] after it; and when [R3] holds one,
    all of them carry [R3] after the update.  When [R2] holds no MIME
    type of the list, the add leaves the existing rows as they are and
    only appends its row; when [R3] holds none, the update changes
    nothing at all. *)
Theorem display_add_then_update (id cellId d : string) (position : Q)
    (R2 R3 : Representations Any) (st : State Any) :
  d <> "" ->
  selectPendingClear st cellId = None ->
  outputById st id = None ->
  selectOutputs st (displayWhere d) <> [] ->
  exists st1 st2,
    commit (MultimediaDisplayOutputAdded id cellId position R2 (Some d)) st
    = Ok st1 /\
    List.length (outputs st1) = S (List.length (outputs st)) /\
    map (fun r => o_id r) (outputs st1)
    = (map (fun r => o_id r) (outputs st) ++ [id])%list /\
    List.length (selectOutputs st1 (displayWhere d))
    = S (List.length (selectOutputs st (displayWhere d))) /\
    commit (MultimediaDisplayOutputUpdated d R3) st1 = Ok st2 /\
    map (fun r => o_id r) (outputs st2) = map (fun r => o_id r) (outputs st1) /\
    List.length (selectOutputs st2 (displayWhere d))
    = List.length (selectOutputs st1 (displayWhere d)) /\
    (selectPrimaryRepresentation R2 defaultPreferredMimeTypes <> None ->
     Forall (fun r => o_representations r = Some R2)
       (selectOutputs st1 (displayWhere d))) /\
    (selectPrimaryRepresentation R3 defaultPreferredMimeTypes <> None ->
     Forall (fun r => o_representations r = Some R3)
       (selectOutputs st2 (displayWhere d))) /\
    (selectPrimaryRepresentation R2 defaultPreferredMimeTypes = None ->
     outputs st1
     = (outputs st ++ [displayRow id cellId position R2 (Some d)])%list /\
     outputDeltas st1 = outputDeltas st /\
     pendingClears st1 = pendingClears st /\
     presence st1 = presence st) /\
    (selectPrimaryRepresentation R3 defaultPreferredMimeTypes = None ->
     st2 = st1).
Proof.
  intros Hd Hpend Hfresh Hsome.
  set (row := displayRow id cellId position R2 (Some d)).
  assert (Hrow : matches (displayWhere d) row = true).
  { unfold row. rewrite matches_displayWhere.
    cbn [displayRow o_displayId o_outputType].
    unfold orNull. rewrite (truthy_nonempty d Hd). cbn.
    rewrite String.eqb_refl. reflexivity. }
  set (st1 := {| outputs := (map (displayed d R2) (outputs st) ++ [row])%list;
                 outputDeltas := outputDeltas st;
                 pendingClears := pendingClears st;
                 presence := presence st |}).
  assert (Hkeep : filter (fun r => negb (String.eqb (o_id r) (o_id row)))
                    (map (displayed d R2) (outputs st))
                  = map (displayed d R2) (outputs st)).
  { apply filter_all. intros r Hr. apply in_map_iff in Hr.
    destruct Hr as (r0 & <- & Hr0). apply negb_true_iff.
    rewrite displayed_id. change (o_id row) with id.
    exact (outputById_none st id r0 Hfresh Hr0). }
  assert (H1 : commit (MultimediaDisplayOutputAdded id cellId position R2
                         (Some d)) st = Ok st1).
  { unfold commit. cbn [materialize]. unfold pendingClearOps.
    rewrite Hpend, (truthy_nonempty d Hd). cbn [orEmpty app].
    fold row. unfold st1. rewrite <- Hkeep. unfold displayed.
    destruct (selectPrimaryRepresentation R2 defaultPreferredMimeTypes)
      as [[mime2 cont2]|] eqn:E2.
    - rewrite (updateExistingDisplays_some d mime2 R2 cont2 st Hsome E2).
      reflexivity.
    - rewrite (updateExistingDisplays_none d R2 st E2).
      cbn [app applyOps applyOp bind]. rewrite map_id. reflexivity. }
  assert (Hsel1 : selectOutputs st1 (displayWhere d)
                  = (map (displayed d R2) (selectOutputs st (displayWhere d))
                     ++ [row])%list).
  { unfold selectOutputs, st1. cbn [outputs].
    rewrite filter_app, (filter_map_comm _ _ _ (displayed_matches d R2)).
    cbn [filter]. rewrite Hrow. reflexivity. }
  assert (Hne1 : selectOutputs st1 (displayWhere d) <> []).
  { rewrite Hsel1. intros E. apply app_eq_nil in E. destruct E; discriminate. }
  pose proof (commit_display_update d R3 st1 Hne1) as H2.
  match type of H2 with _ = Ok ?s => set (st2 := s) in * end.
  assert (Hsel2 : selectOutputs st2 (displayWhere d)
                  = map (displayed d R3) (selectOutputs st1 (displayWhere d))).
  { unfold selectOutputs at 1, st2. cbn [outputs].
    apply (filter_map_comm _ _ _ (displayed_matches d R3)). }
  exists st1, st2.
  split; [exact H1|]. split.
  { unfold st1. cbn [outputs]. rewrite length_app, length_map. simpl. lia. }
  split.
  { unfold st1. cbn [outputs]. rewrite map_app, map_map. cbn [map].
    f_equal. apply map_ext. intros r. apply displayed_id. }
  split.
  { rewrite Hsel1, length_app, length_map. simpl. lia. }
  split; [exact H2|]. split.
  { unfold st2. cbn [outputs]. rewrite map_map. apply map_ext.
    intros r. apply displayed_id. }
  split.
  { rewrite Hsel2. apply length_map. }
  split; [|split; [|split]].
  - intros Hlisted. rewrite Hsel1. apply Forall_app.
    split; [|repeat constructor].
    apply Forall_forall. intros r Hr. apply in_map_iff in Hr.
    destruct Hr as (r0 & <- & Hr0). unfold selectOutputs in Hr0.
    apply filter_In in Hr0. destruct Hr0 as [_ Hm]. unfold displayed.
    destruct (selectPrimaryRepresentation R2 defaultPreferredMimeTypes)
      as [[mime2 cont2]|]; [|congruence].
    rewrite Hm. reflexivity.
  - intros Hlisted. rewrite Hsel2. apply Forall_forall. intros r Hr.
    apply in_map_iff in Hr. destruct Hr as (r0 & <- & Hr0).
    unfold selectOutputs in Hr0.
    apply filter_In in Hr0. destruct Hr0 as [_ Hm]. unfold displayed.
    destruct (selectPrimaryRepresentation R3 defaultPreferredMimeTypes)
      as [[mime3 cont3]|]; [|congruence].
    rewrite Hm. reflexivity.
  - intros Hnone. unfold st1. cbn [outputs outputDeltas pendingClears presence].
    repeat split. f_equal. unfold displayed. rewrite Hnone. apply map_id.
  - intros Hnone. unfold st2, displayed. rewrite Hnone, map_id.
    destruct st1; reflexivity.
Qed.

End MaterializerFacts.

Lemma pending_clear_protocol_witness :
  exists st3,
    commitAll (js := stringCoercions)
      [CellOutputsCleared "cell-1" true "user-1"; sampleTerminal "X";
       sampleTerminal "Y"] stateWithPQ = Ok st3 /\
    outputsOf "cell-1" st3 = [sampleTerminalRow "X"; sampleTerminalRow "Y"].
Proof.
  destruct (pending_clear_protocol string (js := stringCoercions)
              "cell-1" "user-1" (sampleTerminal "X") (sampleTerminal "Y")
              (sampleTerminalRow "X") (sampleTerminalRow "Y") stateWithPQ
              eq_refl eq_refl eq_refl eq_refl ltac:(discriminate))
    as (st1 & st2 & st3 & _ & _ & _ & _ & _ & _ & _ & _ & _ & Hall & _ & Hrows).
  exists st3. split; [exact Hall | apply Hrows; reflexivity].
Defined.

(** C3, the claim as stated fails: with representations that hold no
    MIME type of the priority list, the add inserts its row and leaves
    the existing display of the same display id with its old
    representations. *)
Lemma display_add_unlisted_keeps_old :
  ~ (forall (id cellId d : string) (position : Q)
            (R2 : Representations string) (st : State string),
       d <> "" ->
       selectPendingClear st cellId = None ->
       outputById st id = None ->
       selectOutputs st (displayWhere d) <> [] ->
       exists st1,
         commit (js := stringCoercions)
           (MultimediaDisplayOutputAdded id cellId position R2 (Some d)) st
         = Ok st1 /\
         List.length (selectOutputs st1 (displayWhere d)) = 2%nat /\
         Forall (fun r => o_representations r = Some R2)
           (selectOutputs st1 (displayWhere d))).
Proof.
  intros H.
  destruct (H "o2" "cell-1" "d1" 0%Q (customOnly "v2") stateWithDisplay
              ltac:(discriminate) eq_refl eq_refl ltac:(discriminate))
    as (st1 & Hc & _ & Hall).
  vm_compute in Hc. injection Hc as <-.
  vm_compute in Hall. inversion Hall as [|r l Hr _]. discriminate Hr.
Qed.

Lemma display_add_then_update_witness :
  exists st1 st2,
    commit (js := stringCoercions)
      (MultimediaDisplayOutputAdded "o2" "cell-1" 0 (plainText "v2")
         (Some "d1")) stateWithDisplay = Ok st1 /\
    List.length (outputs st1) = 2%nat /\
    List.length (selectOutputs st1 (displayWhere "d1")) = 2%nat /\
    Forall (fun r => o_representations r = Some (plainText "v2"))
      (selectOutputs st1 (displayWhere "d1")) /\
    commit (js := stringCoercions)
      (MultimediaDisplayOutputUpdated "d1" (htmlText "v3")) st1 = Ok st2 /\
    map (fun r => o_id r) (outputs st2) = map (fun r => o_id r) (outputs st1) /\
    List.length (selectOutputs st2 (displayWhere "d1"))
    = List.length (selectOutputs st1 (displayWhere "d1")) /\
    Forall (fun r => o_representations r = Some (htmlText "v3"))
      (selectOutputs st2 (displayWhere "d1")).
Proof.
  destruct (display_add_then_update string (js := stringCoercions)
              "o2" "cell-1" "d1" 0 (plainText "v2") (htmlText "v3")
              stateWithDisplay)
    as (st1 & st2 & H1 & Hlen & _ & Hsel & H2 & Hids & Hsel2 & HR2 & HR3 & _);
    [discriminate | reflexivity | reflexivity | discriminate |].
  exists st1, st2.
  repeat split; try assumption; [apply HR2 | apply HR3]; discriminate.
Defined.

(** C3 with representations outside the priority list: the display
    [o1] of [stateWithDisplay] keeps [plainText "v1"] through an add and
    an update that both carry [application/x-custom] only. *)
Lemma display_unlisted_leaves_rows :
  exists st1,
    commit (js := stringCoercions)
      (MultimediaDisplayOutputAdded "o2" "cell-1" 0 (customOnly "v2")
         (Some "d1")) stateWithDisplay = Ok st1 /\
    map (fun r => (o_id r, o_representations r)) (outputs st1)
    = [("o1", Some (plainText "v1")); ("o2", Some (customOnly "v2"))] /\
    commit (js := stringCoercions)
      (MultimediaDisplayOutputUpdated "d1" (customOnly "v3")) st1 = Ok st1.
Proof. eexists. repeat split. Qed.

(** C10 on the empty state: the delta row is stored although no output
    has the id it points at. *)
Lemma appended_v2_orphan :
  commit (js := stringCoercions)
    (TerminalOutputAppended2 "delta-1" "no-such-output" "text" 0) emptyState
  = Ok {| outputs := [];
          outputDeltas :=
            [{| d_id := "delta-1"; d_outputId := "no-such-output";
                d_delta := "text"; d_sequenceNumber := 0 |}];
          pendingClears := []; presence := [] |}.
Proof. reflexivity. Qed.

(** C9 on the empty state: nothing to append to, nothing changes. *)
Lemma terminalOutputAppended_v1_unknown :
  materialize (js := stringCoercions)
    (TerminalOutputAppended "no-such-output" (inline "text" None)) emptyState
  = [] /\
  commit (js := stringCoercions)
    (TerminalOutputAppended "no-such-output" (inline "text" None)) emptyState
  = Ok emptyState.
Proof. split; reflexivity. Qed.

(** C9 on a stored row: appending the inline text [-more] to the output
    [P] of [stateWithPQ], whose data is [P], leaves it with [P-more]. *)
Lemma terminalOutputAppended_v1_appends :
  exists st',
    commit (js := stringCoercions)
      (TerminalOutputAppended "P" (inline "-more" None)) stateWithPQ
    = Ok st' /\
    map (fun r => (o_id r, o_data r)) (outputs st')
    = [("P", Some "P-more"); ("Q", Some "Q")].
Proof. eexists. split; reflexivity. Qed.

(** ** Cell operations *)

Section PlannerFacts.

Variable localeCompare : string -> string -> Z.
Variable gtNull : string -> bool.
Variable ltNull : string -> bool.
Variable S : Type.

Lemma keyOf_indexed (c : CellReference) (s : string) :
  indexOfCell c s -> keyOf (Some c) = Some s.
Proof.
  intros [E Hne]. unfold keyOf, orNull. rewrite E.
  rewrite (truthy_nonempty s Hne). reflexivity.
Qed.

Lemma not_lt_str_lt (a b : string) : ~ slt a b -> str_lt a b = false.
Proof. unfold slt. destruct (str_lt a b); [intros H; elim H; reflexivity | reflexivity]. Qed.

(** *** Who the rebalancing moves are attributed to *)

Lemma rebalanceCellIndices_actor (cells : list CellReference)
    (jp : JitterProvider S) (actorId : option string) (bufferCells : option Z)
    (st st' : S) (result : RebalanceResult) :
  rebalanceCellIndices localeCompare cells jp actorId bufferCells st
  = (Ok result, st') ->
  Forall (movedBy match actorId with Some x => x | None => "system" end)
    (events result).
Proof.
  unfold rebalanceCellIndices. cbv zeta.
  destruct (lenL cells =? 0).
  - unfold ret. intros H. injection H as <- _. constructor.
  - unfold bindJ, ret.
    destruct (generateFractionalIndices None None _ jp st)
      as [[indices|message] st1]; intros H; [|discriminate].
    injection H as <- _. cbn [events].
    apply Forall_forall. intros e He. apply in_map_iff in He.
    destruct He as ([cellId newIndex] & <- & _).
    eexists. split; reflexivity.
Qed.

Lemma moveCellWithRebalancing_actor (cell : CellReference)
    (cellBefore cellAfter : option CellReference)
    (allCells : list CellReference) (actorId : option string)
    (jp : JitterProvider S) (st st' : S) (result : MoveWithRebalancing) :
  moveCellWithRebalancing localeCompare gtNull ltNull cell cellBefore
    cellAfter allCells actorId jp st = (Ok result, st') ->
  forall rebalanceResult,
    mw_rebalanceResult result = Some rebalanceResult ->
    Forall (movedBy (match actorId with Some x => x | None => "user" end
                     ++ "-rebalance"))
      (events rebalanceResult).
Proof.
  unfold moveCellWithRebalancing. cbv zeta. unfold bindJ at 1.
  destruct (tryCatch _ _ st) as [[moveEvent|message] st1]; [|discriminate].
  destruct moveEvent as [moveEvent|].
  - unfold ret. intros H. injection H as <- _. discriminate.
  - destruct (needsRebalancing localeCompare allCells None).
    + unfold bindJ, ret.
      destruct (rebalanceCellIndices localeCompare allCells jp _ None st1)
        as [[rr|message] st2] eqn:Er; intros H; [|discriminate].
      injection H as <- _. cbn [mw_rebalanceResult].
      intros rebalanceResult E. injection E as <-.
      exact (rebalanceCellIndices_actor _ _ _ _ _ _ _ Er).
    + unfold ret. intros H. injection H as <- _. discriminate.
Qed.

(** C7 (as amended).  When [moveCellBetweenWithRebalancing] rebalances,
    every event it returns is a [v2.CellMoved] whose actor is the
    supplied actor id followed by [-rebalance] (the actor being [user]
    when none, or an empty one, is supplied).  [createCellBetween] takes
    no actor id: every [v2.CellMoved] among its events has the actor
    [system]. *)
Theorem rebalance_moves_actor (cell : CellReference) (cellData : CellData)
    (cellBefore cellAfter : option CellReference)
    (allCells : list CellReference) (actorId : option string)
    (jp : JitterProvider S) (st : S) :
  (forall result st',
     moveCellBetweenWithRebalancing localeCompare gtNull ltNull cell
       cellBefore cellAfter allCells actorId jp st = (Ok result, st') ->
     mo_needsRebalancing result = true ->
     Forall (movedBy (match orNull actorId with Some x => x | None => "user" end
                      ++ "-rebalance"))
       (mo_events result)) /\
  (forall result st',
     createCellBetween localeCompare cellData cellBefore cellAfter allCells
       jp st = (Ok result, st') ->
     forall args, In (cellMoved2 args) (co_events result) ->
                  moved_actorId args = Some "system").
Proof.
  split.
  - intros result st'. unfold moveCellBetweenWithRebalancing.
    destruct (negb (truthy (fractionalIndex cell))).
    { unfold ret. intros H. injection H as <- _. discriminate. }
    cbv zeta. destruct (_ =? _).
    { unfold ret. intros H. injection H as <- _. discriminate. }
    unfold bindJ.
    destruct (moveCellWithRebalancing localeCompare gtNull ltNull cell
                cellBefore cellAfter allCells (orNull actorId) jp st)
      as [[r|message] st1] eqn:Er; [|discriminate].
    pose proof (moveCellWithRebalancing_actor _ _ _ _ _ _ _ _ _ Er) as Hact.
    destruct (mw_needsRebalancing r);
      [destruct (mw_rebalanceResult r) as [rr|] eqn:Err|].
    + unfold ret. intros H _. injection H as <- _. cbn [mo_events].
      apply Hact. reflexivity.
    + destruct (mw_moveEvent r); unfold ret; intros H; injection H as <- _;
        discriminate.
    + destruct (mw_moveEvent r); unfold ret; intros H; injection H as <- _;
        discriminate.
  - intros result st'. unfold createCellBetween. cbv zeta. unfold bindJ at 1.
    destruct (fractionalIndexBetweenWithFallback localeCompare _ _ allCells
                _ jp st) as [[fb|message] st1] eqn:Ef; [|discriminate].
    unfold ret. intros H. injection H as <- _. cbn [co_events].
    intros args Hin. apply in_app_or in Hin. destruct Hin as [Hin|Hin].
    + unfold fractionalIndexBetweenWithFallback, tryCatch in Ef.
      unfold bindJ at 1 in Ef.
      destruct (fractionalIndexBetween _ _ jp st) as [[index|msg] st2].
      * unfold ret in Ef. injection Ef as <- _. destruct Hin.
      * destruct (isCrowdingMessage msg && (lenL allCells >? 0)
                  && needsRebalancing localeCompare allCells _);
          [|unfold throw in Ef; discriminate].
        unfold bindJ at 1 in Ef.
        destruct (rebalanceCellIndices localeCompare allCells jp None None st2)
          as [[rr|msg2] st3] eqn:Er; [|discriminate].
        unfold bindJ, ret in Ef.
        destruct (calculateInsertionIndexAfterRebalancing _ rr jp st3)
          as [[idx|msg3] st4]; [|discriminate].
        injection Ef as <- _. cbn [fb_needsRebalancing fb_rebalanceResult] in Hin.
        pose proof (rebalanceCellIndices_actor _ _ _ _ _ _ _ Er) as Hact.
        rewrite Forall_forall in Hact.
        destruct (Hact _ Hin) as (args' & E & Ha). injection E as <-. exact Ha.
    + destruct Hin as [Hin|[]]. discriminate.
Qed.

End PlannerFacts.

(** C7, the claim as stated fails for [createCellBetween]: creating a
    cell between the cells at [m] and [m0] rebalances, and the moves
    carry the actor [system], not the creator followed by [-rebalance]. *)
Lemma createCellBetween_moves_by_system :
  ~ (forall (cellData : CellData) (cellBefore cellAfter : option CellReference)
            (allCells : list CellReference) (result : CellOperationResult)
            (st' : unit) (args : CellMovedArgs),
       createCellBetween defaultCompare cellData cellBefore cellAfter allCells
         zeroJitter tt = (Ok result, st') ->
       co_needsRebalancing result = true ->
       In (cellMoved2 args) (co_events result) ->
       moved_actorId args = Some (cd_createdBy cellData ++ "-rebalance")).
Proof.
  intros H.
  remember (createCellBetween defaultCompare sampleCellData
              (Some (sampleCell "c1" "m")) (Some (sampleCell "c2" "m0"))
              [sampleCell "c1" "m"; sampleCell "c2" "m0"] zeroJitter tt)
    as run eqn:Erun.
  pose proof Erun as Eval. vm_compute in Eval.
  rewrite Erun in Eval.
  specialize (H _ _ _ _ _ _
                {| moved_id := "c1"; moved_fractionalIndex := "m110";
                   moved_actorId := Some "system" |} Eval eq_refl
                (or_introl eq_refl)).
  discriminate H.
Qed.

Lemma rebalance_moves_actor_witness :
  Forall (movedBy (match orNull (Some "test-user") with
                   | Some x => x
                   | None => "user"
                   end ++ "-rebalance"))
    (mo_events crowdedMoveResult).
Proof.
  destruct (rebalance_moves_actor defaultCompare (fun _ => false)
              (fun _ => false) unit (sampleCell "c3" "m00") sampleCellData
              (Some (sampleCell "c1" "m")) (Some (sampleCell "c2" "m0"))
              crowdedCells (Some "test-user") zeroJitter tt)
    as [Hmove _].
  apply (Hmove crowdedMoveResult tt); vm_compute; reflexivity.
Defined.

(** ** Generated indices *)

Lemma fractionalIndexBetween_open_end {S : Type} (prev : option string)
    (jp : JitterProvider S) (st : S) :
  honoursRange jp ->
  (forall p, prev = Some p -> valid p) ->
  exists k st',
    fractionalIndexBetween prev None jp st = (Ok k, st') /\
    valid k /\ (forall p, prev = Some p -> slt p k).
Proof.
  intros Hjp Hprev.
  assert (Hkey : exists key,
             generateKeyBetween prev None = Ok key /\ valid key /\
             (forall p, prev = Some p -> slt p key)).
  { destruct prev as [p|].
    - pose proof (Hprev p eq_refl) as Vp.
      destruct (generateKeyAfter_above p Vp) as (key & Hk & H1 & H2).
      exists key. unfold generateKeyBetween.
      rewrite (truthy_nonempty p (valid_nonempty p Vp)). cbn [truthy orEmpty].
      repeat split; auto. intros p' E. injection E as <-. exact H1.
    - exists "m". repeat split; try reflexivity. discriminate. }
  destruct Hkey as (key & Hkey & Vkey & Hlt).
  destruct (fractionalIndexBetween_returns prev None jp st key Hjp Hkey)
    as (k & st' & Hk).
  exists k, st'. split; [exact Hk|].
  apply fractionalIndexBetween_cases in Hk.
  destruct Hk as (key' & Hkey' & Hcase).
  rewrite Hkey in Hkey'. injection Hkey' as <-.
  destruct Hcase as [->|(n & Hn & -> & Ha & _)]; [auto|].
  split; [apply valid_snoc_digit; assumption|].
  intros p ->. apply Ha. apply truthy_nonempty, valid_nonempty.
  apply Hprev. reflexivity.
Qed.

Lemma generateLoop_spec {S : Type} (count : nat) (prev : option string)
    (jp : JitterProvider S) (st : S) :
  honoursRange jp ->
  (forall p, prev = Some p -> valid p) ->
  exists keys st',
    generateLoop count prev None jp st = (Ok keys, st') /\
    List.length keys = count /\
    Forall valid keys /\
    StronglySorted slt keys /\
    (forall p, prev = Some p -> Forall (slt p) keys).
Proof.
  intros Hjp. revert prev st.
  induction count as [|count IH]; intros prev st Hprev.
  - exists [], st. repeat split; constructor.
  - destruct (fractionalIndexBetween_open_end prev jp st Hjp Hprev)
      as (k & st1 & Hk & Vk & Hlt).
    destruct (IH (Some k) st1) as (keys & st2 & Hks & Hlen & Hval & Hsort & Hall).
    { intros p E. injection E as <-. exact Vk. }
    exists (k :: keys), st2. cbn [generateLoop]. unfold bindJ, ret.
    rewrite Hk, Hks. repeat split.
    + simpl. congruence.
    + constructor; assumption.
    + constructor; [exact Hsort | apply Hall; reflexivity].
    + intros p E. constructor; [apply Hlt; exact E|].
      eapply Forall_impl; [|apply Hall; reflexivity].
      intros x Hx. eapply lt_trans; [apply Hlt; exact E | exact Hx].
Qed.

(** With no bounds, [generateFractionalIndices] returns [n] valid
    indices in strictly increasing order. *)
Lemma generateFractionalIndices_spec {S : Type} (n : Z)
    (jp : JitterProvider S) (st : S) :
  honoursRange jp ->
  exists keys st',
    generateFractionalIndices None None n jp st = (Ok keys, st') /\
    List.length keys = Z.to_nat n /\
    Forall valid keys /\
    StronglySorted slt keys.
Proof.
  intros Hjp. unfold generateFractionalIndices.
  destruct (Z.leb_spec n 0).
  - exists [], st. replace (Z.to_nat n) with O by lia.
    repeat split; constructor.
  - destruct (Z.eqb_spec n 1) as [->|Hn].
    + destruct (fractionalIndexBetween_open_end None jp st Hjp)
        as (k & st1 & Hk & Vk & _); [discriminate|].
      exists [k], st1. unfold bindJ, ret. rewrite Hk.
      repeat split; repeat constructor. exact Vk.
    + destruct (generateLoop_spec (Z.to_nat n) None jp st Hjp)
        as (keys & st1 & Hks & Hlen & Hval & Hsort & _); [discriminate|].
      exists keys, st1. auto.
Qed.

(** ** Rebalancing *)

Lemma skipn_cons_inv {A : Type} (m : nat) (l : list A) (k : A) (r : list A) :
  skipn m l = k :: r -> nth_error l m = Some k /\ skipn (S m) l = r.
Proof.
  revert l. induction m as [|m IH]; intros [|x l] H; simpl in H;
    try discriminate.
  - injection H as -> ->. auto.
  - apply IH in H. exact H.
Qed.

Lemma assignIndices_reassigned (keys : list string) (bufferCells : Z)
    (cs : list CellReference) (j : nat) :
  0 <= bufferCells -> Forall valid keys ->
  (List.length cs
   <= List.length (skipn (j + Z.to_nat bufferCells) keys))%nat ->
  assignIndices cs keys bufferCells (Z.of_nat j)
  = reassigned cs (skipn (j + Z.to_nat bufferCells) keys).
Proof.
  intros HB Hval. revert j.
  induction cs as [|c cs IH]; intros j Hlen; [reflexivity|].
  destruct (skipn (j + Z.to_nat bufferCells) keys) as [|k rest] eqn:Erest;
    [simpl in Hlen; lia|].
  destruct (skipn_cons_inv _ _ _ _ Erest) as [Hnth Hrest].
  cbn [assignIndices reassigned]. cbv zeta.
  assert (Hat : at_ keys (Z.of_nat j + bufferCells) = Some k).
  { unfold at_. destruct (Z.ltb_spec (Z.of_nat j + bufferCells) 0); [lia|].
    replace (Z.to_nat (Z.of_nat j + bufferCells))
      with (j + Z.to_nat bufferCells)%nat by lia.
    exact Hnth. }
  rewrite Hat.
  assert (Vk : valid k).
  { rewrite Forall_forall in Hval. apply Hval.
    eapply nth_error_In. exact Hnth. }
  rewrite (truthy_nonempty k (valid_nonempty k Vk)). cbn [negb].
  replace (Z.of_nat j + 1) with (Z.of_nat (S j)) by lia.
  rewrite IH by (cbn [plus]; rewrite Hrest; simpl in Hlen; lia).
  cbn [plus]. rewrite Hrest. reflexivity.
Qed.

Lemma reassigned_ids (cs : list CellReference) (ks : list string)
    (m : string * string) :
  In m (reassigned cs ks) -> In (fst m) (map id cs).
Proof.
  revert ks. induction cs as [|c cs IH]; intros [|k ks] H;
    try (destruct H; fail).
  cbn [reassigned] in H. cbn [map].
  destruct (fractionalIndex c) as [old|];
    [destruct (String.eqb old k)|];
    try (destruct H as [<-|H]; [left; reflexivity|]);
    right; eapply IH; exact H.
Qed.

Lemma find_none_ids (moves : list (string * string)) (name : string) :
  (forall m, In m moves -> fst m <> name) ->
  find (fun m => String.eqb (fst m) name) moves = None.
Proof.
  induction moves as [|m moves IH]; intros H; simpl; [reflexivity|].
  destruct (String.eqb_spec (fst m) name) as [E|_].
  - elim (H m); [left; reflexivity | exact E].
  - apply IH. intros m' Hm'. apply H. right. exact Hm'.
Qed.

Lemma find_app_none {A : Type} (p : A -> bool) (l1 l2 : list A) :
  find p l1 = None -> find p (l1 ++ l2)%list = find p l2.
Proof.
  induction l1 as [|x l1 IH]; simpl; [reflexivity|].
  destruct (p x); [discriminate | exact IH].
Qed.

Lemma reindexed_same (c : CellReference) (k : string) :
  fractionalIndex c = Some k -> reindexed c k = c.
Proof. destruct c; simpl; intros ->; reflexivity. Qed.

(** Applying the reassignments to the very cells they were computed for
    gives each cell the index paired with it. *)
Lemma withNewIndices_reassigned (cs : list CellReference) (ks : list string)
    (pre : list (string * string)) :
  NoDup (map id cs) ->
  (forall m, In m pre -> ~ In (fst m) (map id cs)) ->
  (List.length cs <= List.length ks)%nat ->
  withNewIndices (pre ++ reassigned cs ks)%list cs = retagged cs ks.
Proof.
  revert ks pre. induction cs as [|c cs IH]; intros ks pre Hnd Hpre Hlen;
    [reflexivity|].
  destruct ks as [|k ks]; [simpl in Hlen; lia|].
  cbn [map] in Hnd. apply NoDup_cons_iff in Hnd. destruct Hnd as [Hc Hnd].
  assert (Hpre_c : find (fun m => String.eqb (fst m) (id c)) pre = None).
  { apply find_none_ids. intros m Hm E. apply (Hpre m Hm). left.
    symmetry. exact E. }
  assert (Htail_c : forall ks',
             find (fun m => String.eqb (fst m) (id c)) (reassigned cs ks')
             = None).
  { intros ks'. apply find_none_ids. intros m Hm E. apply Hc.
    rewrite <- E. eapply reassigned_ids. exact Hm. }
  unfold withNewIndices. cbn [map retagged]. f_equal.
  - rewrite find_app_none by exact Hpre_c. cbn [reassigned].
    destruct (fractionalIndex c) as [old|] eqn:Eold;
      [destruct (String.eqb_spec old k) as [->|Hne]|].
    + rewrite Htail_c. symmetry. apply reindexed_same. exact Eold.
    + cbn [find fst]. rewrite String.eqb_refl. reflexivity.
    + cbn [find fst]. rewrite String.eqb_refl. reflexivity.
  - assert (Hsplit : exists hd,
               (pre ++ reassigned (c :: cs) (k :: ks))%list
               = ((pre ++ hd) ++ reassigned cs ks)%list /\
               forall m, In m hd -> fst m = id c).
    { cbn [reassigned].
      destruct (fractionalIndex c) as [old|];
        [destruct (String.eqb old k)|].
      - exists []. rewrite app_nil_r. split; [reflexivity | intros m []].
      - exists [(id c, k)]. rewrite <- app_assoc. split; [reflexivity|].
        intros m [<-|[]]. reflexivity.
      - exists [(id c, k)]. rewrite <- app_assoc. split; [reflexivity|].
        intros m [<-|[]]. reflexivity. }
    destruct Hsplit as (hd & -> & Hhd).
    apply (IH ks (pre ++ hd)%list Hnd).
    + intros m Hm Hin. apply in_app_or in Hm. destruct Hm as [Hm|Hm].
      * apply (Hpre m Hm). right. exact Hin.
      * apply Hc. rewrite <- (Hhd m Hm). exact Hin.
    + simpl in Hlen. lia.
Qed.

(** *** The order on indices is total *)

Lemma lt_total (a b : string) : slt a b \/ a = b \/ slt b a.
Proof.
  unfold slt, str_lt, String.ltb.
  destruct (String.compare a b) eqn:E.
  - right. left. apply String.compare_eq_iff. exact E.
  - left. reflexivity.
  - right. right. rewrite String.compare_antisym, E. reflexivity.
Qed.

Lemma lt_asym (a b : string) : slt a b -> ~ slt b a.
Proof. intros H1 H2. exact (lt_irrefl a (lt_trans a b a H1 H2)). Qed.

Lemma not_lt_trans (a b c : string) : ~ slt b a -> ~ slt c b -> ~ slt c a.
Proof.
  intros Hab Hbc Hca.
  destruct (lt_total a b) as [H|[->|H]]; [|contradiction|contradiction].
  exact (Hbc (lt_trans c a b Hca H)).
Qed.

(** *** The stable sort *)

Lemma insertSorted_perm {A : Type} (compare : A -> A -> Z) (x : A)
    (l : list A) :
  Permutation (insertSorted compare x l) (x :: l).
Proof.
  induction l as [|y l IH]; simpl; [apply Permutation_refl|].
  destruct (compare x y <=? 0); [apply Permutation_refl|].
  eapply Permutation_trans; [apply perm_skip; exact IH | apply perm_swap].
Qed.

Lemma sort_perm {A : Type} (compare : A -> A -> Z) (l : list A) :
  Permutation (sort compare l) l.
Proof.
  induction l as [|x l IH]; simpl; [constructor|].
  eapply Permutation_trans; [apply insertSorted_perm|].
  apply perm_skip. exact IH.
Qed.

Lemma StronglySorted_app_inv {A : Type} (R : A -> A -> Prop) (l1 l2 : list A) :
  StronglySorted R (l1 ++ l2) -> StronglySorted R l1 /\ StronglySorted R l2.
Proof.
  induction l1 as [|x l1 IH]; simpl; intros H; [split; [constructor | exact H]|].
  apply StronglySorted_inv in H. destruct H as [H Hall].
  destruct (IH H) as [H1 H2]. split; [|exact H2].
  constructor; [exact H1|]. apply Forall_app in Hall. tauto.
Qed.

Lemma StronglySorted_skipn {A : Type} (R : A -> A -> Prop) (n : nat)
    (l : list A) :
  StronglySorted R l -> StronglySorted R (skipn n l).
Proof.
  intros H. rewrite <- (firstn_skipn n l) in H.
  apply StronglySorted_app_inv in H. tauto.
Qed.

Lemma StronglySorted_firstn {A : Type} (R : A -> A -> Prop) (n : nat)
    (l : list A) :
  StronglySorted R l -> StronglySorted R (firstn n l).
Proof.
  intros H. rewrite <- (firstn_skipn n l) in H.
  apply StronglySorted_app_inv in H. tauto.
Qed.

(** A strictly sorted list is the only sorted arrangement of its
    elements. *)
Lemma sorted_perm_unique {A : Type} (Rlt Rle : A -> A -> Prop)
    (l1 l2 : list A) :
  (forall x y, Rlt x y -> Rle y x -> False) ->
  StronglySorted Rlt l1 -> StronglySorted Rle l2 -> Permutation l1 l2 ->
  l1 = l2.
Proof.
  intros Hno. revert l2.
  induction l1 as [|t ts IH]; intros l2 H1 H2 Hperm.
  - apply Permutation_nil in Hperm. congruence.
  - destruct l2 as [|u us].
    { apply Permutation_sym, Permutation_nil in Hperm. discriminate. }
    apply StronglySorted_inv in H1. destruct H1 as [H1 Ht].
    apply StronglySorted_inv in H2. destruct H2 as [H2 Hu].
    rewrite Forall_forall in Ht, Hu.
    assert (E : t = u).
    { assert (Hin_t : In t (u :: us))
        by (eapply Permutation_in; [exact Hperm | left; reflexivity]).
      destruct Hin_t as [E|Hin_t]; [congruence|].
      assert (Hin_u : In u (t :: ts))
        by (eapply Permutation_in;
            [apply Permutation_sym; exact Hperm | left; reflexivity]).
      destruct Hin_u as [E|Hin_u]; [exact E|].
      elim (Hno t u (Ht u Hin_u) (Hu t Hin_t)). }
    subst u. f_equal. apply IH; try assumption.
    eapply Permutation_cons_inv. exact Hperm.
Qed.

Section SortByIndex.

Variable localeCompare : string -> string -> Z.
Hypothesis collates : collatesIndices localeCompare.

Lemma byFractionalIndex_le (c1 c2 : CellReference) :
  validCell c1 -> validCell c2 ->
  (byFractionalIndex localeCompare c1 c2 <=? 0) = true <-> cellLe c1 c2.
Proof.
  intros (k1 & E1 & V1) (k2 & E2 & V2).
  unfold byFractionalIndex, cellLe. rewrite E1, E2. cbn [orEmpty].
  rewrite (collates k1 k2 V1 V2). unfold slt.
  destruct (str_lt k2 k1); simpl; split; congruence.
Qed.

Lemma insertSorted_sorted (x : CellReference) (l : list CellReference) :
  validCell x -> Forall validCell l -> StronglySorted cellLe l ->
  StronglySorted cellLe (insertSorted (byFractionalIndex localeCompare) x l).
Proof.
  intros Vx. induction l as [|y l IH]; intros Vl Hs.
  - simpl. repeat constructor.
  - apply Forall_cons_iff in Vl. destruct Vl as [Vy Vl].
    apply StronglySorted_inv in Hs. destruct Hs as [Hs Hy].
    cbn [insertSorted].
    destruct (byFractionalIndex localeCompare x y <=? 0) eqn:E.
    + apply (byFractionalIndex_le x y Vx Vy) in E.
      constructor; [constructor; assumption|].
      constructor; [exact E|].
      eapply Forall_impl; [|exact Hy]. intros z Hz.
      unfold cellLe in *. eapply not_lt_trans; eassumption.
    + constructor; [apply IH; assumption|].
      eapply Permutation_Forall;
        [apply Permutation_sym, insertSorted_perm|].
      constructor; [|exact Hy].
      unfold cellLe. intros Hlt.
      assert (Hle : cellLe x y).
      { unfold cellLe. apply lt_asym. exact Hlt. }
      apply (byFractionalIndex_le x y Vx Vy) in Hle. congruence.
Qed.

Lemma sort_sorted (l : list CellReference) :
  Forall validCell l ->
  StronglySorted cellLe (sort (byFractionalIndex localeCompare) l).
Proof.
  induction l as [|x l IH]; intros Vl; [constructor|].
  apply Forall_cons_iff in Vl. destruct Vl as [Vx Vl].
  cbn [sort fold_right]. apply insertSorted_sorted; [exact Vx | | apply IH; exact Vl].
  eapply Permutation_Forall; [apply Permutation_sym, sort_perm | exact Vl].
Qed.

End SortByIndex.

(** *** Cells retagged with increasing indices *)

Lemma retagged_In (cs : list CellReference) (ks : list string)
    (x : CellReference) :
  In x (retagged cs ks) -> exists k, In k ks /\ fractionalIndex x = Some k.
Proof.
  revert ks. induction cs as [|c cs IH]; intros [|k ks] H; try (destruct H; fail).
  destruct H as [<-|H].
  - exists k. split; [left; reflexivity | reflexivity].
  - destruct (IH ks H) as (k' & Hk' & E). exists k'. split; [right|]; assumption.
Qed.

Lemma retagged_sorted (cs : list CellReference) (ks : list string) :
  StronglySorted slt ks -> StronglySorted cellLt (retagged cs ks).
Proof.
  revert ks. induction cs as [|c cs IH]; intros [|k ks] H; try constructor.
  - apply StronglySorted_inv in H. apply IH. tauto.
  - apply StronglySorted_inv in H. destruct H as [_ Hk].
    rewrite Forall_forall in Hk. apply Forall_forall. intros x Hx.
    destruct (retagged_In cs ks x Hx) as (k' & Hk' & E).
    unfold cellLt. rewrite E. cbn. apply Hk. exact Hk'.
Qed.

Lemma retagged_valid (cs : list CellReference) (ks : list string) :
  Forall valid ks -> Forall validCell (retagged cs ks).
Proof.
  intros Hv. apply Forall_forall. intros x Hx.
  destruct (retagged_In cs ks x Hx) as (k & Hk & E).
  exists k. split; [exact E|]. rewrite Forall_forall in Hv. auto.
Qed.

Lemma retagged_ids (cs : list CellReference) (ks : list string) :
  (List.length cs <= List.length ks)%nat ->
  map id (retagged cs ks) = map id cs.
Proof.
  revert ks. induction cs as [|c cs IH]; intros [|k ks] H; simpl in *;
    try reflexivity; try lia.
  f_equal. apply IH. lia.
Qed.

Lemma retagged_indices (cs : list CellReference) (ks : list string) :
  map fractionalIndex (retagged cs ks)
  = map Some (firstn (List.length cs) ks).
Proof.
  revert ks. induction cs as [|c cs IH]; intros [|k ks]; simpl;
    try reflexivity.
  f_equal. apply IH.
Qed.

Lemma Forall_firstn_skipn {A : Type} (P : A -> Prop) (n m : nat) (l : list A) :
  Forall P l -> Forall P (firstn n (skipn m l)).
Proof.
  intros H. rewrite <- (firstn_skipn m l) in H. apply Forall_app in H.
  destruct H as [_ H]. rewrite <- (firstn_skipn n (skipn m l)) in H.
  apply Forall_app in H. tauto.
Qed.

(** *** The order of the cells, read without the sort *)

Lemma precedes_nth {A : Type} (l : list A) (i j : nat) (x y : A) :
  (i < j)%nat -> nth_error l i = Some x -> nth_error l j = Some y ->
  precedes x y l.
Proof.
  revert i j. induction l as [|z l IH]; intros i j Hij Hi Hj.
  - destruct i; discriminate.
  - destruct j as [|j]; [lia|]. cbn [nth_error] in Hj.
    destruct i as [|i]; cbn [nth_error] in Hi.
    + injection Hi as ->. apply precedes_head.
      eapply nth_error_In. exact Hj.
    + apply precedes_tail. apply (IH i j); [lia | assumption | assumption].
Qed.

Lemma precedes_map {A B : Type} (f : A -> B) (l : list A) (x y : A) :
  precedes x y l -> precedes (f x) (f y) (map f l).
Proof.
  induction 1 as [l Hin|z l _ IH]; cbn [map].
  - apply precedes_head. apply in_map. exact Hin.
  - apply precedes_tail. exact IH.
Qed.

Lemma precedes_sorted {A : Type} (R : A -> A -> Prop) (l : list A) (x y : A) :
  StronglySorted R l -> precedes x y l -> R x y.
Proof.
  intros Hs Hp. induction Hp as [l Hin|z l _ IH].
  - apply StronglySorted_inv in Hs. destruct Hs as [_ Hall].
    rewrite Forall_forall in Hall. apply Hall. exact Hin.
  - apply StronglySorted_inv in Hs. apply IH. tauto.
Qed.

(** An insertion leaves the elements already there in their order, and
    puts the new one before every element it does not compare above. *)
Lemma insertSorted_keeps {A : Type} (compare : A -> A -> Z) (x c d : A)
    (l : list A) :
  precedes c d l -> precedes c d (insertSorted compare x l).
Proof.
  induction 1 as [l Hin|z l Hp IH]; cbn [insertSorted].
  - destruct (compare x c <=? 0).
    + apply precedes_tail, precedes_head. exact Hin.
    + apply precedes_head.
      eapply Permutation_in;
        [apply Permutation_sym, insertSorted_perm | right; exact Hin].
  - destruct (compare x z <=? 0).
    + apply precedes_tail, precedes_tail. exact Hp.
    + apply precedes_tail. exact IH.
Qed.

Lemma insertSorted_first {A : Type} (compare : A -> A -> Z) (x d : A)
    (l : list A) :
  In d l -> (compare x d <=? 0) = true ->
  precedes x d (insertSorted compare x l).
Proof.
  intros Hin Hle. induction l as [|y l IH]; [destruct Hin|].
  cbn [insertSorted]. destruct (compare x y <=? 0) eqn:E.
  - apply precedes_head. exact Hin.
  - apply precedes_tail. destruct Hin as [->|Hin]; [congruence|].
    apply IH. exact Hin.
Qed.

(** The sort is stable: two elements the comparator does not put out of
    order keep the order they have in the list. *)
Lemma sort_stable {A : Type} (compare : A -> A -> Z) (l : list A) (c d : A) :
  precedes c d l -> (compare c d <=? 0) = true ->
  precedes c d (sort compare l).
Proof.
  intros Hp Hle. induction Hp as [l Hin|z l _ IH]; cbn [sort fold_right].
  - apply insertSorted_first; [|exact Hle].
    eapply Permutation_in; [apply Permutation_sym, sort_perm | exact Hin].
  - apply insertSorted_keeps. exact IH.
Qed.

(** In a list sorted by index, a cell with a smaller index stands before
    one with a larger index. *)
Lemma sorted_precedes (l : list CellReference) (x y : CellReference) :
  StronglySorted cellLe l -> In x l -> In y l -> cellLt x y ->
  precedes x y l.
Proof.
  intros Hs Hx Hy Hlt. induction l as [|z l IH]; [destruct Hx|].
  apply StronglySorted_inv in Hs. destruct Hs as [Hs Hall].
  rewrite Forall_forall in Hall.
  destruct Hx as [->|Hx].
  - apply precedes_head. destruct Hy as [->|Hy]; [|exact Hy].
    elim (lt_irrefl _ Hlt).
  - destruct Hy as [->|Hy].
    + elim (Hall x Hx). exact Hlt.
    + apply precedes_tail. apply IH; assumption.
Qed.

(** The reassignments computed on the sorted cells, applied to the cells
    as they are listed: of two cells the one with the smaller old index
    takes the smaller new index, and two cells with the same old index
    take new indices in the order of the list. *)
Lemma reassigned_keeps_order (localeCompare : string -> string -> Z)
    (cells : list CellReference) (ks : list string) :
  collatesIndices localeCompare ->
  Forall validCell cells ->
  NoDup (map id cells) ->
  StronglySorted slt ks ->
  (List.length cells <= List.length ks)%nat ->
  forall (i j : nat) (c d c' d' : CellReference),
    (i < j)%nat ->
    nth_error cells i = Some c -> nth_error cells j = Some d ->
    nth_error
      (withNewIndices
         (reassigned (sort (byFractionalIndex localeCompare) cells) ks) cells)
      i = Some c' ->
    nth_error
      (withNewIndices
         (reassigned (sort (byFractionalIndex localeCompare) cells) ks) cells)
      j = Some d' ->
    id c' = id c /\ id d' = id d /\
    (cellLe c d -> cellLt c' d') /\
    (cellLt d c -> cellLt d' c').
Proof.
  intros Hcol Hval Hnd Hks Hlen i j c d c' d' Hij Hc Hd.
  set (sorted := sort (byFractionalIndex localeCompare) cells).
  assert (Hperm : Permutation sorted cells) by apply sort_perm.
  set (moves := reassigned sorted ks).
  set (f := fun c : CellReference =>
              match find (fun m => String.eqb (fst m) (id c)) moves with
              | Some m => reindexed c (snd m)
              | None => c
              end).
  change (withNewIndices moves cells) with (map f cells).
  assert (Hids : forall x, id (f x) = id x)
    by (intros x; unfold f; destruct (find _ moves); reflexivity).
  assert (Hnew : StronglySorted cellLt (map f sorted)).
  { change (map f sorted) with (withNewIndices ([] ++ moves)%list sorted).
    unfold moves. rewrite withNewIndices_reassigned.
    - apply retagged_sorted. exact Hks.
    - eapply Permutation_NoDup; [|exact Hnd].
      apply Permutation_map, Permutation_sym, Hperm.
    - intros m [].
    - rewrite (Permutation_length Hperm). exact Hlen. }
  assert (Hmove : forall x y, precedes x y sorted -> cellLt (f x) (f y)).
  { intros x y Hp. apply (precedes_sorted cellLt (map f sorted)); [exact Hnew|].
    apply precedes_map. exact Hp. }
  rewrite Forall_forall in Hval.
  pose proof (nth_error_In _ _ Hc) as Hcin.
  pose proof (nth_error_In _ _ Hd) as Hdin.
  intros Hc' Hd'.
  rewrite nth_error_map, Hc in Hc'. rewrite nth_error_map, Hd in Hd'.
  cbn [option_map] in Hc', Hd'. injection Hc' as <-. injection Hd' as <-.
  split; [apply Hids|]. split; [apply Hids|]. split.
  - intros Hle. apply Hmove. apply sort_stable.
    + exact (precedes_nth cells i j c d Hij Hc Hd).
    + apply (byFractionalIndex_le localeCompare Hcol c d); auto.
  - intros Hlt. apply Hmove. apply sorted_precedes.
    + apply (sort_sorted localeCompare Hcol). apply Forall_forall. exact Hval.
    + eapply Permutation_in; [apply Permutation_sym, Hperm | exact Hdin].
    + eapply Permutation_in; [apply Permutation_sym, Hperm | exact Hcin].
    + exact Hlt.
Qed.

(** C6 (as amended).  Rebalancing keeps the relative order of the
    cells.  For a non-empty list of cells with valid indices and
    distinct ids, a buffer that is not negative, a jitter provider that
    keeps [randomInt] in range and a host collation that orders valid
    indices as their code units do, [rebalanceCellIndices] returns; the
    replacement indices, those at positions
    [bufferCells .. bufferCells + |cells|) of the generated ones, are
    valid and strictly increasing.  The cells sorted by their old
    indices are the cells in an order in which no index is below an
    earlier one; the cells sorted by their new indices are the updated
    cells in strictly increasing order of index; and the two are, id by
    id, the same sequence, the second carrying the replacement indices.
    Read on the list as it is given: every cell keeps its id; of two
    cells, the one with the smaller old index takes the smaller new
    index; and two cells with the same old index take their new indices
    in the order of the list. *)
Theorem rebalance_preserves_order (localeCompare : string -> string -> Z)
    (S : Type) (cells : list CellReference) (jp : JitterProvider S)
    (actorId : option string) (bufferCells : option Z) (st : S) :
  collatesIndices localeCompare ->
  honoursRange jp ->
  cells <> [] ->
  Forall validCell cells ->
  NoDup (map id cells) ->
  0 <= match bufferCells with Some x => x | None => 2 end ->
  exists result st' keys,
    rebalanceCellIndices localeCompare cells jp actorId bufferCells st
    = (Ok result, st') /\
    generateFractionalIndices None None
      (lenL cells + match bufferCells with Some x => x | None => 2 end * 2)
      jp st = (Ok keys, st') /\
    let replacement :=
      replacementIndices keys
        match bufferCells with Some x => x | None => 2 end
        (List.length cells) in
    let sortedBefore := sort (byFractionalIndex localeCompare) cells in
    let after := withNewIndices (newIndices result) cells in
    let sortedAfter := sort (byFractionalIndex localeCompare) after in
    StronglySorted slt replacement /\
    Forall valid replacement /\
    List.length replacement = List.length cells /\
    Permutation sortedBefore cells /\
    StronglySorted cellLe sortedBefore /\
    Permutation sortedAfter after /\
    StronglySorted cellLt sortedAfter /\
    map id sortedAfter = map id sortedBefore /\
    map fractionalIndex sortedAfter = map Some replacement /\
    List.length after = List.length cells /\
    forall (i j : nat) (c d c' d' : CellReference),
      (i < j)%nat ->
      nth_error cells i = Some c -> nth_error cells j = Some d ->
      nth_error after i = Some c' -> nth_error after j = Some d' ->
      id c' = id c /\ id d' = id d /\
      (cellLe c d -> cellLt c' d') /\
      (cellLt d c -> cellLt d' c').
Proof.
  intros Hcol Hjp Hne Hvalid Hnd HB.
  remember (match bufferCells with Some x => x | None => 2 end) as B eqn:EB.
  destruct (generateFractionalIndices_spec (lenL cells + B * 2) jp st Hjp)
    as (keys & st1 & Hgen & Hlen & Hval & Hsort).
  set (sorted := sort (byFractionalIndex localeCompare) cells).
  assert (Hperm : Permutation sorted cells) by apply sort_perm.
  assert (Hslen : List.length sorted = List.length cells)
    by (apply Permutation_length; exact Hperm).
  set (rest := skipn (Z.to_nat B) keys).
  assert (Hrlen : List.length rest
                  = (List.length cells + Z.to_nat B)%nat).
  { unfold rest. rewrite length_skipn, Hlen. unfold lenL. lia. }
  assert (Hassign : assignIndices sorted keys B 0 = reassigned sorted rest).
  { apply (assignIndices_reassigned keys B sorted 0 HB Hval).
    cbn [plus]. fold rest. lia. }
  set (result := {| newIndices := reassigned sorted rest;
                    events :=
                      map (fun '(cellId, newIndex) =>
                             cellMoved2
                               {| moved_id := cellId;
                                  moved_fractionalIndex := newIndex;
                                  moved_actorId :=
                                    Some match actorId with
                                         | Some x => x
                                         | None => "system"
                                         end |})
                          (reassigned sorted rest) |}).
  exists result, st1, keys.
  split.
  { unfold rebalanceCellIndices. cbv zeta. rewrite <- EB.
    destruct (Z.eqb_spec (lenL cells) 0) as [E|_].
    { destruct cells; [congruence | unfold lenL in E; simpl in E; lia]. }
    unfold bindJ, ret. rewrite Hgen. fold sorted. rewrite Hassign.
    reflexivity. }
  split; [exact Hgen|]. cbv zeta.
  assert (Hrepl : replacementIndices keys B (List.length cells)
                  = firstn (List.length sorted) rest)
    by (unfold replacementIndices, rest; rewrite Hslen; reflexivity).
  split; [apply StronglySorted_firstn, StronglySorted_skipn, Hsort|].
  split; [apply Forall_firstn_skipn, Hval|].
  split.
  { unfold replacementIndices. fold rest. rewrite length_firstn, Hrlen. lia. }
  split; [exact Hperm|].
  split; [apply (sort_sorted localeCompare Hcol); exact Hvalid|].
  split; [apply sort_perm|].
  assert (Hmoved : withNewIndices (newIndices result) sorted
                   = retagged sorted rest).
  { apply (withNewIndices_reassigned sorted rest []).
    - eapply Permutation_NoDup; [|exact Hnd].
      apply Permutation_map, Permutation_sym, Hperm.
    - intros m [].
    - lia. }
  assert (Hperm' : Permutation (retagged sorted rest)
                     (sort (byFractionalIndex localeCompare)
                        (withNewIndices (newIndices result) cells))).
  { rewrite <- Hmoved. apply Permutation_sym.
    eapply Permutation_trans; [apply sort_perm|].
    unfold withNewIndices. apply Permutation_map, Permutation_sym, Hperm. }
  assert (Hrvalid : Forall validCell (retagged sorted rest)).
  { apply retagged_valid. unfold rest.
    rewrite <- (firstn_skipn (Z.to_nat B) keys) in Hval.
    apply Forall_app in Hval. tauto. }
  assert (Hrsorted : StronglySorted cellLt (retagged sorted rest))
    by apply retagged_sorted, StronglySorted_skipn, Hsort.
  assert (Heq : retagged sorted rest
                = sort (byFractionalIndex localeCompare)
                    (withNewIndices (newIndices result) cells)).
  { apply (sorted_perm_unique cellLt cellLe).
    - intros x y Hxy Hyx. exact (Hyx Hxy).
    - exact Hrsorted.
    - apply (sort_sorted localeCompare Hcol).
      eapply Permutation_Forall; [|exact Hrvalid].
      rewrite <- Hmoved. unfold withNewIndices.
      apply Permutation_map. exact Hperm.
    - exact Hperm'. }
  rewrite <- Heq.
  split; [exact Hrsorted|].
  split; [apply retagged_ids; lia|].
  split; [rewrite retagged_indices, Hrepl; reflexivity|].
  split; [unfold withNewIndices; apply length_map|].
  cbn [newIndices result].
  apply (reassigned_keeps_order localeCompare cells rest Hcol Hvalid Hnd).
  - apply StronglySorted_skipn, Hsort.
  - lia.
Qed.

Lemma defaultCompare_collates : collatesIndices defaultCompare.
Proof.
  intros x y _ _. unfold defaultCompare, str_lt, String.ltb.
  rewrite (String.compare_antisym x y).
  destruct (String.compare y x); reflexivity.
Qed.

Lemma zeroJitter_honoursRange : honoursRange zeroJitter.
Proof. intros max st Hmax. simpl. lia. Qed.

(** C6, the claim as stated fails: with a negative [bufferCells] the
    positions of the buffer run off the generated indices.  For the
    cells [x], [y], [z] and a buffer of [-1] one index is generated and
    only the second cell takes it; it now sorts first. *)
Lemma rebalance_negative_buffer_reorders :
  ~ (forall (cells : list CellReference) (bufferCells : option Z),
       cells <> [] -> Forall validCell cells ->
       exists result st',
         rebalanceCellIndices defaultCompare cells zeroJitter None bufferCells
           tt = (Ok result, st') /\
         map id (sort (byFractionalIndex defaultCompare)
                   (withNewIndices (newIndices result) cells))
         = map id (sort (byFractionalIndex defaultCompare) cells)).
Proof.
  intros H.
  destruct (H [sampleCell "c1" "x"; sampleCell "c2" "y"; sampleCell "c3" "z"]
              (Some (-1)))
    as (result & st' & Hrun & Hids).
  - discriminate.
  - repeat constructor; eexists; (split; [reflexivity|]); reflexivity.
  - vm_compute in Hrun. injection Hrun as <- _.
    vm_compute in Hids. discriminate Hids.
Qed.

Lemma rebalance_preserves_order_witness :
  exists result st',
    rebalanceCellIndices defaultCompare shuffledCells zeroJitter None None tt
    = (Ok result, st') /\
    map id (sort (byFractionalIndex defaultCompare) shuffledCells)
    = ["c2"; "c4"; "c3"; "c1"] /\
    map id (sort (byFractionalIndex defaultCompare)
              (withNewIndices (newIndices result) shuffledCells))
    = ["c2"; "c4"; "c3"; "c1"] /\
    forall (i j : nat) (c d c' d' : CellReference),
      (i < j)%nat ->
      nth_error shuffledCells i = Some c ->
      nth_error shuffledCells j = Some d ->
      nth_error (withNewIndices (newIndices result) shuffledCells) i
      = Some c' ->
      nth_error (withNewIndices (newIndices result) shuffledCells) j
      = Some d' ->
      id c' = id c /\ id d' = id d /\
      (cellLe c d -> cellLt c' d') /\
      (cellLt d c -> cellLt d' c').
Proof.
  destruct (rebalance_preserves_order defaultCompare unit shuffledCells
              zeroJitter None None tt defaultCompare_collates
              zeroJitter_honoursRange)
    as (result & st' & keys & Hrun & _ & _ & _ & _ & _ & _ & _ & _ & Hids & _
        & _ & Horder).
  - discriminate.
  - repeat constructor; eexists; (split; [reflexivity|]); reflexivity.
  - repeat constructor; simpl; intuition discriminate.
  - simpl. lia.
  - exists result, st'. split; [exact Hrun|]. split; [reflexivity|].
    split; [rewrite Hids; reflexivity | exact Horder].
Defined.

(** ** Moving a cell *)

Lemma generateKeyBetween_disorder (a b : string) :
  a <> "" -> b <> "" -> ~ slt a b ->
  generateKeyBetween (Some a) (Some b)
  = Throw ("Invalid range: " ++ a ++ " >= " ++ b).
Proof.
  intros Ha Hb Hge. unfold generateKeyBetween.
  rewrite (truthy_nonempty a Ha), (truthy_nonempty b Hb). cbn [orEmpty].
  cbv zeta. unfold str_ge. fold (str_lt a b).
  rewrite (not_lt_str_lt a b Hge). reflexivity.
Qed.

(** With only a next key, valid and not made of zeros only, the wrapper
    returns a valid index below it. *)
Lemma fractionalIndexBetween_open_start {S : Type} (next : string)
    (jp : JitterProvider S) (st : S) :
  honoursRange jp -> valid next ->
  (firstNot "0" next < String.length next)%nat ->
  exists k st',
    fractionalIndexBetween None (Some next) jp st = (Ok k, st') /\
    valid k /\ slt k next.
Proof.
  intros Hjp Vn Hnz.
  pose proof (truthy_nonempty next (valid_nonempty next Vn)) as Tn.
  destruct (generateKeyBefore_below next Vn Hnz) as (key & Hkey & Hlt & Vkey).
  assert (Hgen : generateKeyBetween None (Some next) = Ok key)
    by (unfold generateKeyBetween; rewrite Tn; exact Hkey).
  destruct (fractionalIndexBetween_returns None (Some next) jp st key Hjp Hgen)
    as (k & st' & Hk).
  exists k, st'. split; [exact Hk|].
  apply fractionalIndexBetween_cases in Hk.
  destruct Hk as (key' & Hkey' & Hcase).
  rewrite Hgen in Hkey'. injection Hkey' as <-.
  destruct Hcase as [->|(n & Hn & -> & _ & Hb)]; [auto|].
  split; [apply valid_snoc_digit; assumption | apply Hb; exact Tn].
Qed.

(** With two valid keys in order that leave room, it returns a valid
    index strictly between them. *)
Lemma fractionalIndexBetween_closed {S : Type} (p n : string)
    (jp : JitterProvider S) (st : S) :
  honoursRange jp -> valid p -> valid n -> slt p n -> n <> p ++ "0" ->
  exists k st',
    fractionalIndexBetween (Some p) (Some n) jp st = (Ok k, st') /\
    slt p k /\ slt k n /\ valid k.
Proof.
  intros Hjp Vp Vn Hlt Hroom.
  destruct (generateKeyBetween_spec p n Vp Vn Hlt) as [_ Hok].
  destruct (Hok Hroom) as (key & Hkey & _).
  destruct (fractionalIndexBetween_returns (Some p) (Some n) jp st key Hjp
              Hkey) as (k & st' & Hk).
  exists k, st'. split; [exact Hk|].
  exact (fractionalIndexBetween_sound p n jp st st' k Vp Vn Hlt Hk).
Qed.

Section MoveFacts.

Variable gtNull : string -> bool.
Variable ltNull : string -> bool.
Variable S : Type.

Lemma gt_key_bound (index : string) (b : CellReference) :
  gt_key gtNull index (keyOf (Some b)) = true <-> aboveBound gtNull index b.
Proof.
  unfold aboveBound, keyOf, orNull.
  destruct (fractionalIndex b) as [[|c p]|]; cbn [truthy gt_key];
    reflexivity.
Qed.

Lemma lt_key_bound (index : string) (a : CellReference) :
  lt_key ltNull index (keyOf (Some a)) = true <-> belowBound ltNull index a.
Proof.
  unfold belowBound, keyOf, orNull.
  destruct (fractionalIndex a) as [[|c n]|]; cbn [truthy lt_key];
    reflexivity.
Qed.

(** The test [moveCellBetween] makes before it computes an index. *)
Lemma alreadyThere_inPlace (index : string)
    (cellBefore cellAfter : option CellReference) :
  match isSome cellBefore, isSome cellAfter with
  | true, true =>
      gt_key gtNull index (keyOf cellBefore)
      && lt_key ltNull index (keyOf cellAfter)
  | false, true => lt_key ltNull index (keyOf cellAfter)
  | true, false => gt_key gtNull index (keyOf cellBefore)
  | false, false => false
  end = true
  <-> inPlace gtNull ltNull index cellBefore cellAfter.
Proof.
  destruct cellBefore as [b|], cellAfter as [a|]; cbn [isSome inPlace].
  - rewrite andb_true_iff, gt_key_bound, lt_key_bound. reflexivity.
  - apply gt_key_bound.
  - apply lt_key_bound.
  - split; [discriminate | contradiction].
Qed.

Lemma moveCellBetween_otherwise (cell : CellReference)
    (cellBefore cellAfter : option CellReference) (actorId : option string)
    (jp : JitterProvider S) (st : S) (index : string) :
  indexOfCell cell index ->
  ~ inPlace gtNull ltNull index cellBefore cellAfter ->
  moveCellBetween gtNull ltNull cell cellBefore cellAfter actorId jp st
  = match fractionalIndexBetween (keyOf cellBefore) (keyOf cellAfter) jp st with
    | (Ok index', st') => (Ok (Some (movedEvent cell index' actorId)), st')
    | (Throw message, st') => (Throw message, st')
    end.
Proof.
  intros [E Hne] Hout. unfold moveCellBetween.
  rewrite E, (truthy_nonempty index Hne). cbn [negb orEmpty]. cbv zeta.
  pose proof (alreadyThere_inPlace index cellBefore cellAfter) as Hiff.
  destruct (match isSome cellBefore, isSome cellAfter with
            | true, true =>
                gt_key gtNull index (keyOf cellBefore)
                && lt_key ltNull index (keyOf cellAfter)
            | false, true => lt_key ltNull index (keyOf cellAfter)
            | true, false => gt_key gtNull index (keyOf cellBefore)
            | false, false => false
            end).
  - elim Hout. apply Hiff. reflexivity.
  - unfold bindJ, ret.
    destruct (fractionalIndexBetween (keyOf cellBefore) (keyOf cellAfter) jp st)
      as [[index'|message] st']; reflexivity.
Qed.

Lemma inPlace_indexed (index p n : string) (b a : CellReference) :
  fractionalIndex b = Some p -> fractionalIndex a = Some n ->
  p <> "" -> n <> "" ->
  (inPlace gtNull ltNull index (Some b) (Some a)
   <-> slt p index /\ slt index n) /\
  (inPlace gtNull ltNull index (Some b) None <-> slt p index) /\
  (inPlace gtNull ltNull index None (Some a) <-> slt index n).
Proof.
  intros Eb Ea Np Nn. cbn [inPlace]. unfold aboveBound, belowBound.
  rewrite Eb, Ea. destruct p as [|c p]; [congruence|].
  destruct n as [|d n]; [congruence|]. repeat split; tauto.
Qed.

(** C8 (as amended).  [moveCellBetween] returns [null], drawing nothing
    from the jitter provider, when the cell has no index and when the
    bounds supplied already straddle its index (a bound cell without
    index counting as [null] in the comparison).  Otherwise it is
    [fractionalIndexBetween] on the two bound keys: an index returned
    becomes the [v2.CellMoved] event of the cell, an error thrown is
    thrown on.  With valid bound indices that makes, for a cell that is
    not in place already and a provider that keeps [randomInt] in range:
    between two bounds in order that leave room, an event whose index is
    valid and strictly between them (and under any provider an event
    returned has such an index); between two bounds where the second is
    the first followed by a single [0], or that are out of order, an
    error and no event; after [cellBefore] alone, an event whose index
    is valid and above its index; before [cellAfter] alone, its index
    having a character other than [0], an event whose index is valid
    and below its index; with no bound at all, an event with a valid
    index. *)
Theorem moveCellBetween_spec (cell : CellReference)
    (cellBefore cellAfter : option CellReference) (actorId : option string)
    (jp : JitterProvider S) (st : S) :
  (truthy (fractionalIndex cell) = false ->
   moveCellBetween gtNull ltNull cell cellBefore cellAfter actorId jp st
   = (Ok None, st)) /\
  (forall index,
     indexOfCell cell index ->
     inPlace gtNull ltNull index cellBefore cellAfter ->
     moveCellBetween gtNull ltNull cell cellBefore cellAfter actorId jp st
     = (Ok None, st)) /\
  (forall index,
     indexOfCell cell index ->
     ~ inPlace gtNull ltNull index cellBefore cellAfter ->
     moveCellBetween gtNull ltNull cell cellBefore cellAfter actorId jp st
     = match fractionalIndexBetween (keyOf cellBefore) (keyOf cellAfter)
               jp st with
       | (Ok index', st') => (Ok (Some (movedEvent cell index' actorId)), st')
       | (Throw message, st') => (Throw message, st')
       end) /\
  (forall b a p n event st',
     cellBefore = Some b -> cellAfter = Some a ->
     fractionalIndex b = Some p -> fractionalIndex a = Some n ->
     valid p -> valid n -> slt p n ->
     moveCellBetween gtNull ltNull cell cellBefore cellAfter actorId jp st
     = (Ok (Some event), st') ->
     exists index',
       event = movedEvent cell index' actorId /\
       slt p index' /\ slt index' n /\ valid index') /\
  (forall index b a p n,
     indexOfCell cell index ->
     cellBefore = Some b -> cellAfter = Some a ->
     fractionalIndex b = Some p -> fractionalIndex a = Some n ->
     valid p -> valid n ->
     ~ (slt p index /\ slt index n) ->
     (slt p n -> n <> p ++ "0" -> honoursRange jp ->
      exists index' st',
        moveCellBetween gtNull ltNull cell cellBefore cellAfter actorId jp st
        = (Ok (Some (movedEvent cell index' actorId)), st') /\
        slt p index' /\ slt index' n /\ valid index') /\
     (n = p ++ "0" ->
      moveCellBetween gtNull ltNull cell cellBefore cellAfter actorId jp st
      = (Throw (noStringBetween p n), st)) /\
     (~ slt p n ->
      moveCellBetween gtNull ltNull cell cellBefore cellAfter actorId jp st
      = (Throw ("Invalid range: " ++ p ++ " >= " ++ n), st))) /\
  (forall index b p,
     indexOfCell cell index ->
     cellBefore = Some b -> cellAfter = None ->
     fractionalIndex b = Some p -> valid p ->
     ~ slt p index -> honoursRange jp ->
     exists index' st',
       moveCellBetween gtNull ltNull cell cellBefore cellAfter actorId jp st
       = (Ok (Some (movedEvent cell index' actorId)), st') /\
       slt p index' /\ valid index') /\
  (forall index a n,
     indexOfCell cell index ->
     cellBefore = None -> cellAfter = Some a ->
     fractionalIndex a = Some n -> valid n ->
     (firstNot "0" n < String.length n)%nat ->
     ~ slt index n -> honoursRange jp ->
     exists index' st',
       moveCellBetween gtNull ltNull cell cellBefore cellAfter actorId jp st
       = (Ok (Some (movedEvent cell index' actorId)), st') /\
       slt index' n /\ valid index') /\
  (forall index,
     indexOfCell cell index ->
     cellBefore = None -> cellAfter = None -> honoursRange jp ->
     exists index' st',
       moveCellBetween gtNull ltNull cell cellBefore cellAfter actorId jp st
       = (Ok (Some (movedEvent cell index' actorId)), st') /\
       valid index').
Proof.
  split; [|split; [|split; [|split; [|split; [|split; [|split]]]]]].
  - intros H. unfold moveCellBetween. rewrite H. reflexivity.
  - intros index [E Hne] Hin. unfold moveCellBetween.
    rewrite E, (truthy_nonempty index Hne). cbn [negb orEmpty]. cbv zeta.
    apply alreadyThere_inPlace in Hin. rewrite Hin. reflexivity.
  - intros index. apply moveCellBetween_otherwise.
  - intros b a p n event st' -> -> Eb Ea Vp Vn Hlt.
    pose proof (valid_nonempty p Vp) as Np.
    pose proof (valid_nonempty n Vn) as Nn.
    unfold moveCellBetween.
    destruct (truthy (fractionalIndex cell)); cbn [negb];
      [|unfold ret; intros H; discriminate].
    cbv zeta.
    rewrite (keyOf_indexed b p (conj Eb Np)), (keyOf_indexed a n (conj Ea Nn)).
    cbn [isSome].
    destruct (gt_key gtNull (orEmpty (fractionalIndex cell)) (Some p)
              && lt_key ltNull (orEmpty (fractionalIndex cell)) (Some n));
      [unfold ret; intros H; discriminate|].
    unfold bindJ, ret.
    destruct (fractionalIndexBetween (Some p) (Some n) jp st)
      as [[index'|message] st1] eqn:Ek; intros H; [|discriminate].
    injection H as <- <-. exists index'. split; [reflexivity|].
    exact (fractionalIndexBetween_sound p n jp st st1 index' Vp Vn Hlt Ek).
  - intros index b a p n Hcell -> -> Eb Ea Vp Vn Hout.
    pose proof (valid_nonempty p Vp) as Np.
    pose proof (valid_nonempty n Vn) as Nn.
    destruct (inPlace_indexed index p n b a Eb Ea Np Nn) as (Hboth & _ & _).
    rewrite (moveCellBetween_otherwise cell (Some b) (Some a) actorId jp st
               index Hcell) by (rewrite Hboth; exact Hout).
    rewrite (keyOf_indexed b p (conj Eb Np)), (keyOf_indexed a n (conj Ea Nn)).
    split; [|split].
    + intros Hlt Hroom Hjp.
      destruct (fractionalIndexBetween_closed p n jp st Hjp Vp Vn Hlt Hroom)
        as (k & st' & Hk & Hprops).
      exists k, st'. rewrite Hk. split; [reflexivity | exact Hprops].
    + intros Hzero.
      assert (Hlt : slt p n) by (rewrite Hzero; apply lt_app_nonempty; discriminate).
      destruct (generateKeyBetween_spec p n Vp Vn Hlt) as [Hthrow _].
      unfold fractionalIndexBetween. rewrite (Hthrow Hzero). reflexivity.
    + intros Hge. unfold fractionalIndexBetween.
      rewrite (generateKeyBetween_disorder p n Np Nn Hge). reflexivity.
  - intros index b p Hcell -> -> Eb Vp Hout Hjp.
    pose proof (valid_nonempty p Vp) as Np.
    destruct (inPlace_indexed index p p b b Eb Eb Np Np) as (_ & Hone & _).
    rewrite (moveCellBetween_otherwise cell (Some b) None actorId jp st
               index Hcell) by (rewrite Hone; exact Hout).
    rewrite (keyOf_indexed b p (conj Eb Np)). cbn [keyOf].
    destruct (fractionalIndexBetween_open_end (Some p) jp st Hjp)
      as (k & st' & Hk & Vk & Hlt).
    { intros p' E. injection E as <-. exact Vp. }
    exists k, st'. rewrite Hk.
    split; [reflexivity|]. split; [apply Hlt; reflexivity | exact Vk].
  - intros index a n Hcell -> -> Ea Vn Hnz Hout Hjp.
    pose proof (valid_nonempty n Vn) as Nn.
    destruct (inPlace_indexed index n n a a Ea Ea Nn Nn) as (_ & _ & Hone).
    rewrite (moveCellBetween_otherwise cell None (Some a) actorId jp st
               index Hcell) by (rewrite Hone; exact Hout).
    rewrite (keyOf_indexed a n (conj Ea Nn)). cbn [keyOf].
    destruct (fractionalIndexBetween_open_start n jp st Hjp Vn Hnz)
      as (k & st' & Hk & Vk & Hlt).
    exists k, st'. rewrite Hk. split; [reflexivity|]. split; assumption.
  - intros index Hcell -> -> Hjp.
    rewrite (moveCellBetween_otherwise cell None None actorId jp st
               index Hcell) by (intros []).
    cbn [keyOf].
    destruct (fractionalIndexBetween_open_end None jp st Hjp)
      as (k & st' & Hk & Vk & _); [discriminate|].
    exists k, st'. rewrite Hk. split; [reflexivity | exact Vk].
Qed.

End MoveFacts.

(** C8, the claim as stated fails: a cell at [z] asked to move between
    the cells at [a] and [a0] is not in place, and no event comes back:
    the call throws. *)
Lemma moveCellBetween_may_throw :
  ~ (forall (cell b a : CellReference) (index p n : string)
            (actorId : option string),
       indexOfCell cell index ->
       fractionalIndex b = Some p -> fractionalIndex a = Some n ->
       valid p -> valid n -> slt p n ->
       ~ (slt p index /\ slt index n) ->
       exists index' st',
         moveCellBetween (fun _ => false) (fun _ => false) cell (Some b)
           (Some a) actorId zeroJitter tt
         = (Ok (Some (movedEvent cell index' actorId)), st') /\
         slt p index' /\ slt index' n).
Proof.
  intros H.
  assert (Hc : indexOfCell (sampleCell "c" "z") "z")
    by (split; [reflexivity | discriminate]).
  assert (Hout : ~ (slt "a" "z" /\ slt "z" "a0"))
    by (intros [_ Hz]; vm_compute in Hz; discriminate).
  destruct (H (sampleCell "c" "z") (sampleCell "b" "a") (sampleCell "a" "a0")
              "z" "a" "a0" None Hc eq_refl eq_refl eq_refl eq_refl eq_refl
              Hout)
    as (index' & st' & Hm & _).
  vm_compute in Hm. discriminate.
Qed.

Lemma moveCellBetween_spec_witness :
  (exists index' st',
     moveCellBetween (fun _ => false) (fun _ => false) (sampleCell "c" "z")
       (Some (sampleCell "b" "a")) (Some (sampleCell "a" "m")) None
       zeroJitter tt
     = (Ok (Some (movedEvent (sampleCell "c" "z") index' None)), st') /\
     slt "a" index' /\ slt index' "m" /\ valid index') /\
  moveCellBetween (fun _ => false) (fun _ => false) (sampleCell "c" "z")
    (Some (sampleCell "b" "a")) (Some (sampleCell "a" "a0")) None
    zeroJitter tt
  = (Throw (noStringBetween "a" "a0"), tt) /\
  (exists index' st',
     moveCellBetween (fun _ => false) (fun _ => false) (sampleCell "c" "b")
       (Some (sampleCell "b" "m")) None None zeroJitter tt
     = (Ok (Some (movedEvent (sampleCell "c" "b") index' None)), st') /\
     slt "m" index' /\ valid index') /\
  (exists index' st',
     moveCellBetween (fun _ => false) (fun _ => false) (sampleCell "c" "z")
       None (Some (sampleCell "a" "m")) None zeroJitter tt
     = (Ok (Some (movedEvent (sampleCell "c" "z") index' None)), st') /\
     slt index' "m" /\ valid index').
Proof.
  assert (Hz : indexOfCell (sampleCell "c" "z") "z")
    by (split; [reflexivity | discriminate]).
  assert (Hb : indexOfCell (sampleCell "c" "b") "b")
    by (split; [reflexivity | discriminate]).
  split; [|split; [|split]].
  - destruct (moveCellBetween_spec (fun _ => false) (fun _ => false) unit
                (sampleCell "c" "z") (Some (sampleCell "b" "a"))
                (Some (sampleCell "a" "m")) None zeroJitter tt)
      as (_ & _ & _ & _ & H5 & _).
    destruct (H5 "z" (sampleCell "b" "a") (sampleCell "a" "m") "a" "m" Hz
                eq_refl eq_refl eq_refl eq_refl eq_refl eq_refl)
      as (Hmove & _ & _).
    + intros [_ Hlt]. discriminate Hlt.
    + apply Hmove; [reflexivity | discriminate
                    | exact zeroJitter_honoursRange].
  - destruct (moveCellBetween_spec (fun _ => false) (fun _ => false) unit
                (sampleCell "c" "z") (Some (sampleCell "b" "a"))
                (Some (sampleCell "a" "a0")) None zeroJitter tt)
      as (_ & _ & _ & _ & H5 & _).
    destruct (H5 "z" (sampleCell "b" "a") (sampleCell "a" "a0") "a" "a0" Hz
                eq_refl eq_refl eq_refl eq_refl eq_refl eq_refl)
      as (_ & Hthrow & _).
    + intros [_ Hlt]. discriminate Hlt.
    + apply Hthrow. reflexivity.
  - destruct (moveCellBetween_spec (fun _ => false) (fun _ => false) unit
                (sampleCell "c" "b") (Some (sampleCell "b" "m")) None None
                zeroJitter tt)
      as (_ & _ & _ & _ & _ & H6 & _).
    apply (H6 "b" (sampleCell "b" "m") "m" Hb eq_refl eq_refl eq_refl eq_refl);
      [intros Hlt; discriminate Hlt | exact zeroJitter_honoursRange].
  - destruct (moveCellBetween_spec (fun _ => false) (fun _ => false) unit
                (sampleCell "c" "z") None (Some (sampleCell "a" "m")) None
                zeroJitter tt)
      as (_ & _ & _ & _ & _ & _ & H7 & _).
    apply (H7 "z" (sampleCell "a" "m") "m" Hz eq_refl eq_refl eq_refl eq_refl);
      [simpl; lia | intros Hlt; discriminate Hlt
      | exact zeroJitter_honoursRange].
Defined.
(** * Further properties of the code *)

(** ** The alphabet *)

(** X1.  [charToValue] and [valueToChar] are inverse to each other on
    the alphabet and throw outside it: a character has a value exactly
    when it may occur in a valid index, [valueToChar] gives the
    character back, a number has a character exactly when it lies in
    [0 .. 36), and the values order the characters as string comparison
    does. *)
Theorem alphabet_round_trip :
  (forall c,
     match charToValue c with
     | Ok v => 0 <= v < BASE /\ valueToChar v = Ok (String c "") /\
               isValidFractionalIndex (String c "") = true
     | Throw message =>
         message = "Invalid character: " ++ String c "" /\
         isValidFractionalIndex (String c "") = false
     end) /\
  (forall v,
     match valueToChar v with
     | Ok s => 0 <= v < BASE /\
               exists c, s = String c "" /\ charToValue c = Ok v
     | Throw message =>
         (v < 0 \/ BASE <= v) /\
         message = "Value out of range: " ++ Z_to_string v
     end) /\
  (forall c d v w,
     charToValue c = Ok v /\ charToValue d = Ok w ->
     (v < w <-> slt (String c "") (String d ""))).
Proof.
  change BASE with 36. split; [|split].
  - intros c. unfold charToValue. cbv zeta.
    assert (Hv : isValidFractionalIndex (String c "") = base36 c).
    { unfold isValidFractionalIndex.
      change (len (String c "") =? 0) with false. cbv iota.
      rewrite all36_forallb. simpl. apply andb_true_r. }
    rewrite Hv. unfold base36.
    destruct (Z.eqb_spec (indexOf c BASE36_DIGITS) (-1)) as [E|N].
    + split; reflexivity.
    + assert (Hc : base36 c = true)
        by (unfold base36; apply negb_true_iff, Z.eqb_neq; exact N).
      pose proof (base36_range c Hc) as Hr.
      split; [exact Hr|]. split; [|reflexivity].
      rewrite valueToChar_digit by exact Hr. do 2 f_equal.
      apply Ascii.compare_eq_iff.
      rewrite compare_base36 by auto using base36_digit.
      rewrite value_digit by exact Hr. apply Z.compare_refl.
  - intros v. unfold valueToChar. change BASE with 36.
    destruct (Z.ltb_spec v 0); [split; [lia | reflexivity]|].
    destruct (Z.geb_spec v 36); [split; [lia | reflexivity]|].
    simpl orb. cbv iota. assert (Hv : 0 <= v < 36) by lia.
    destruct (digit_spec v Hv) as [-> Hi].
    split; [exact Hv|]. exists (digit v). split; [reflexivity|].
    rewrite charToValue_base36 by (apply base36_digit; exact Hv).
    rewrite Hi. reflexivity.
  - intros c d v w [Hc Hd]. unfold charToValue in Hc, Hd. cbv zeta in Hc, Hd.
    destruct (Z.eqb_spec (indexOf c BASE36_DIGITS) (-1)) as [|Nc];
      [discriminate|].
    destruct (Z.eqb_spec (indexOf d BASE36_DIGITS) (-1)) as [|Nd];
      [discriminate|].
    injection Hc as <-. injection Hd as <-.
    assert (Bc : base36 c = true)
      by (unfold base36; apply negb_true_iff, Z.eqb_neq; exact Nc).
    assert (Bd : base36 d = true)
      by (unfold base36; apply negb_true_iff, Z.eqb_neq; exact Nd).
    unfold slt, str_lt, String.ltb. cbn [String.compare].
    rewrite (compare_base36 c d Bc Bd).
    destruct (Z.compare_spec (indexOf c BASE36_DIGITS)
                (indexOf d BASE36_DIGITS));
      split; intros H'; try lia; try reflexivity; discriminate.
Qed.

(** ** Room next to an open-ended key *)

Lemma generateKeyAfter_room (a : string) :
  a <> "" -> all36 a = true ->
  exists k, generateKeyAfter a = Ok k /\ roomAbove a k.
Proof.
  intros Hne Ha. unfold generateKeyAfter, roomAbove.
  destruct (String.eqb_spec a "") as [|_]; [contradiction|]. cbv zeta.
  destruct (lastNot_spec "z" a (String.length a)) as [H|(d & Hr & Hg & _)];
    [lia| |].
  - rewrite H. simpl. exists (a ++ "h"). split; [reflexivity|].
    apply lt_app. reflexivity.
  - remember (lastNot "z" a (String.length a)) as i eqn:Hi. clear Hi.
    destruct (Z.eqb_spec i (-1)) as [|_]; [lia|].
    destruct (get_split _ _ _ Hg) as (p & r & Hs & Hp).
    assert (Hlen : len p = i) by (unfold len; lia).
    subst i a. rewrite all36_append in Ha. simpl in Ha.
    apply andb_prop in Ha. destruct Ha as [Hp36 Ha].
    apply andb_prop in Ha. destruct Ha as [Hd Hr36].
    rewrite charAt_append_cons.
    rewrite (charToValue_base36 d Hd). cbn [bind].
    pose proof (base36_range d Hd) as Hv.
    change (BASE - 2) with 34.
    destruct (Z.ltb_spec (indexOf d BASE36_DIGITS) 34) as [Hlt|Hge].
    + rewrite valueToChar_digit by lia. cbn [bind].
      rewrite substring_prefix.
      exists (p ++ String (digit (indexOf d BASE36_DIGITS + 1)) "").
      split; [reflexivity|]. rewrite append_assoc.
      apply lt_app. cbn [append]. apply lt_head, compare_digit_lt; auto; lia.
    + exists ((p ++ String d r) ++ "h"). split; [reflexivity|].
      apply lt_app. reflexivity.
Qed.

Lemma roomAbove_lt (a k : string) : roomAbove a k -> slt a k.
Proof.
  intros H. eapply lt_trans; [|exact H]. apply lt_app_nonempty. discriminate.
Qed.

Lemma roomAbove_trans (a k k' : string) :
  roomAbove a k -> slt k k' -> roomAbove a k'.
Proof. intros H1 H2. exact (lt_trans _ _ _ H1 H2). Qed.

Lemma roomAbove_not_adjacent (a k : string) : roomAbove a k -> k <> a ++ "0".
Proof. intros H E. subst k. exact (lt_irrefl _ H). Qed.

(** X2.  [generateKeyAfter] on a valid index [a] returns a valid index
    above [a] that leaves room: it lies above [a] followed by [0] too,
    so that a key between [a] and the result always exists, and
    [generateKeyBetween] finds one. *)
Theorem generateKeyAfter_leaves_room (a : string) :
  valid a ->
  exists k,
    generateKeyAfter a = Ok k /\ valid k /\ slt a k /\ roomAbove a k /\
    exists mid,
      generateKeyBetween (Some a) (Some k) = Ok mid /\
      slt a mid /\ slt mid k /\ valid mid.
Proof.
  intros Va. pose proof Va as Va'. apply valid_iff in Va'.
  destruct Va' as [Hne H36].
  destruct (generateKeyAfter_spec a Hne H36) as (k & Hk & Hlt & Hk36 & Hkne).
  destruct (generateKeyAfter_room a Hne H36) as (k' & Hk' & Hroom).
  rewrite Hk in Hk'. injection Hk' as <-.
  assert (Vk : valid k) by (apply valid_iff; auto).
  exists k. repeat split; auto.
  destruct (generateKeyBetween_spec a k Va Vk Hlt) as [_ Hok].
  apply Hok, roomAbove_not_adjacent, Hroom.
Qed.

Lemma generateKeyAfter_leaves_room_witness :
  exists k,
    generateKeyAfter "az" = Ok k /\ valid k /\ slt "az" k /\
    roomAbove "az" k /\
    exists mid,
      generateKeyBetween (Some "az") (Some k) = Ok mid /\
      slt "az" mid /\ slt mid k /\ valid mid.
Proof. apply (generateKeyAfter_leaves_room "az"). reflexivity. Defined.

Lemma generateKeyBefore_room (b : string) :
  all36 b = true -> (firstNot "0" b < String.length b)%nat ->
  exists k, generateKeyBefore b = Ok k /\ forall x, slt (k ++ x) b.
Proof.
  intros Hb Hn. unfold generateKeyBefore.
  destruct (String.eqb_spec b "") as [->|_]; [simpl in Hn; lia|]. cbv zeta.
  destruct (firstNot_split "0" b) as (r & Hs & Hr).
  remember (firstNot "0" b) as n eqn:En. clear En.
  remember (repeat_nat "0" n) as zs eqn:Ez.
  assert (Hlen : Z.of_nat n = len zs)
    by (subst zs; unfold len; rewrite length_repeat; reflexivity).
  destruct r as [|d r].
  { subst b. rewrite length_append in Hn. simpl in Hn. unfold len in Hlen. lia. }
  subst b. rewrite Hlen. clear Hn.
  rewrite all36_append in Hb. simpl in Hb.
  apply andb_prop in Hb. destruct Hb as [_ Hb].
  apply andb_prop in Hb. destruct Hb as [Hd Hr36].
  pose proof (len_nonneg zs) as Hzs.
  destruct (Z.eqb_spec (len zs) (len (zs ++ String d r))) as [E|_].
  { rewrite len_append in E. unfold len in E. simpl in E. lia. }
  rewrite charAt_append_cons, (charToValue_base36 d Hd). cbn [bind].
  pose proof (value_nonzero d Hd Hr) as Hv.
  remember (indexOf d BASE36_DIGITS) as v eqn:Ev.
  assert (Hhalf : 0 <= v / 2 < v) by zdiv.
  assert (Hzero : forall x, slt ((zs ++ "0h") ++ x) (zs ++ String d r)).
  { intros x. rewrite append_assoc. apply lt_app. cbn [append].
    apply lt_head. rewrite compare_base36 by auto using base36_zero.
    rewrite value_zero_char, <- Ev. apply Z.compare_lt_iff. lia. }
  assert (Hmid : forall x, slt ((zs ++ String (digit (v / 2)) "") ++ x)
                             (zs ++ String d r)).
  { intros x. rewrite append_assoc. apply lt_app. cbn [append].
    apply lt_head. subst v. apply compare_digit_gt; auto; lia. }
  destruct (Z.eqb_spec (len zs) 0) as [E0|N0];
    destruct (Z.gtb_spec v 1) as [G1|L1]; simpl andb; cbv iota.
  - rewrite valueToChar_digit by lia.
    exists (String (digit (v / 2)) ""). split; [reflexivity|].
    intros x. specialize (Hmid x). rewrite (len_zero zs E0) in Hmid |- *.
    exact Hmid.
  - rewrite substring_prefix. exists (zs ++ "0h"). auto.
  - rewrite valueToChar_digit by lia. cbn [bind]. rewrite substring_prefix.
    exists (zs ++ String (digit (v / 2)) ""). auto.
  - rewrite substring_prefix. exists (zs ++ "0h"). auto.
Qed.

(** X3.  [generateKeyBefore] on a valid bound [b] that has a character
    other than [0] returns a valid index below [b], and so far below
    that every extension of it is still below [b]: a key between the
    result and [b] always exists, and [generateKeyBetween] finds one. *)
Theorem generateKeyBefore_leaves_room (b : string) :
  valid b -> (firstNot "0" b < String.length b)%nat ->
  exists k,
    generateKeyBefore b = Ok k /\ valid k /\ slt k b /\
    (forall x, slt (k ++ x) b) /\
    exists mid,
      generateKeyBetween (Some k) (Some b) = Ok mid /\
      slt k mid /\ slt mid b /\ valid mid.
Proof.
  intros Vb Hn. pose proof Vb as Vb'. apply valid_iff in Vb'.
  destruct Vb' as [Hne H36].
  destruct (generateKeyBefore_spec b H36 Hn) as (k & Hk & Hlt & Hk36 & Hkne).
  destruct (generateKeyBefore_room b H36 Hn) as (k' & Hk' & Hroom).
  rewrite Hk in Hk'. injection Hk' as <-.
  assert (Vk : valid k) by (apply valid_iff; auto).
  exists k. repeat split; auto.
  destruct (generateKeyBetween_spec k b Vk Vb Hlt) as [_ Hok].
  apply Hok. intros E. apply (lt_irrefl b). rewrite E at 1. apply Hroom.
Qed.

Lemma generateKeyBefore_leaves_room_witness :
  exists k,
    generateKeyBefore "001" = Ok k /\ valid k /\ slt k "001" /\
    (forall x, slt (k ++ x) "001") /\
    exists mid,
      generateKeyBetween (Some k) (Some "001") = Ok mid /\
      slt k mid /\ slt mid "001" /\ valid mid.
Proof.
  apply (generateKeyBefore_leaves_room "001"); [reflexivity | simpl; lia].
Defined.

(** ** Bounds out of order *)

Lemma includes_prefix (p x : string) : includes (p ++ x) p = true.
Proof.
  assert (H : String.prefix p (p ++ x) = true)
    by (induction p as [|c p IH]; simpl;
        [destruct x; reflexivity
        | destruct (Ascii.ascii_dec c c); [exact IH | congruence]]).
  destruct (p ++ x); simpl in *; rewrite H; reflexivity.
Qed.

Lemma invalidRange_crowding (a b : string) :
  isCrowdingMessage ("Invalid range: " ++ a ++ " >= " ++ b) = true.
Proof.
  unfold isCrowdingMessage. apply orb_true_iff. right.
  apply (includes_prefix "Invalid range" (": " ++ a ++ " >= " ++ b)).
Qed.

(** X4.  Bounds that are not in order are refused: for two non-empty
    strings with [a >= b] (equal ones included, whatever their
    characters), [generateKeyBetween] throws the invalid-range error
    naming both, the jittered wrapper throws the same error without
    drawing from the jitter provider, and the probe of
    [needsRebalancing] counts the pair as crowded. *)
Theorem between_rejects_disorder (S : Type) (a b : string)
    (jp : JitterProvider S) (st : S) :
  a <> "" -> b <> "" -> ~ slt a b ->
  generateKeyBetween (Some a) (Some b)
  = Throw ("Invalid range: " ++ a ++ " >= " ++ b) /\
  fractionalIndexBetween (Some a) (Some b) jp st
  = (Throw ("Invalid range: " ++ a ++ " >= " ++ b), st) /\
  insertionThrows (Some a) (Some b) = true.
Proof.
  intros Ha Hb Hge.
  pose proof (generateKeyBetween_disorder a b Ha Hb Hge) as Hthrow.
  split; [exact Hthrow|]. split.
  - unfold fractionalIndexBetween. rewrite Hthrow. reflexivity.
  - unfold insertionThrows, fractionalIndexBetween. rewrite Hthrow.
    cbn [fst]. apply invalidRange_crowding.
Qed.

Lemma between_rejects_disorder_witness :
  generateKeyBetween (Some "m") (Some "m")
  = Throw ("Invalid range: " ++ "m" ++ " >= " ++ "m") /\
  fractionalIndexBetween (Some "m") (Some "m") zeroJitter tt
  = (Throw ("Invalid range: " ++ "m" ++ " >= " ++ "m"), tt) /\
  insertionThrows (Some "m") (Some "m") = true.
Proof.
  apply (between_rejects_disorder unit "m" "m" zeroJitter tt);
    [discriminate | discriminate | apply lt_irrefl].
Defined.

(** ** Validation of a list of indices *)

Lemma invalid_empty : isValidFractionalIndex "" = false.
Proof. reflexivity. Qed.

Lemma filter_validEntries (indices : list (option string)) :
  filter (fun idx => isValidFractionalIndex (orEmpty idx)) indices
  = map Some (validEntries indices).
Proof.
  induction indices as [|[s|] rest IH]; cbn [filter validEntries orEmpty].
  - reflexivity.
  - destruct (isValidFractionalIndex s); [cbn [map]; f_equal|]; exact IH.
  - rewrite invalid_empty. exact IH.
Qed.

Lemma validEntries_valid (indices : list (option string)) :
  Forall valid (validEntries indices).
Proof.
  induction indices as [|[s|] rest IH]; cbn [validEntries]; auto.
  destruct (isValidFractionalIndex s) eqn:E; auto.
Qed.

Lemma validEntries_all (keys : list string) :
  Forall valid keys -> validEntries (map Some keys) = keys.
Proof.
  induction 1 as [|k keys Hk _ IH]; cbn [map validEntries]; [reflexivity|].
  rewrite Hk, IH. reflexivity.
Qed.

Lemma slt_transitive : Relations_1.Transitive slt.
Proof. intros a b c. apply lt_trans. Qed.

Lemma inOrder_step (prev curr : option string)
    (rest : list (option string)) :
  inOrder (prev :: curr :: rest)
  = if negb (truthy prev) || negb (truthy curr) then false
    else if str_ge (orEmpty prev) (orEmpty curr) then false
    else inOrder (curr :: rest).
Proof. reflexivity. Qed.

Lemma inOrder_sorted (keys : list string) :
  Forall valid keys ->
  (inOrder (map Some keys) = true <-> StronglySorted slt keys).
Proof.
  intros Hval.
  assert (H : inOrder (map Some keys) = true <-> Sorted slt keys).
  { induction Hval as [|x keys Hx Hval IH]; [split; auto|].
    destruct keys as [|y keys].
    - split; intros _; [repeat constructor | reflexivity].
    - change (map Some (x :: y :: keys))
        with (Some x :: Some y :: map Some keys).
      rewrite inOrder_step. cbn [orEmpty].
      rewrite (truthy_nonempty x (valid_nonempty x Hx)).
      rewrite (truthy_nonempty y (valid_nonempty y (Forall_inv Hval))).
      cbn [negb orb]. unfold str_ge. fold (str_lt x y).
      change (Some y :: map Some keys) with (map Some (y :: keys)).
      destruct (str_lt x y) eqn:E; cbn [negb].
      + rewrite IH. split.
        * intros Hs. constructor; [exact Hs | constructor; exact E].
        * intros Hs. inversion Hs. assumption.
      + split; [discriminate|]. intros Hs. inversion Hs as [|? ? _ Hhd].
        inversion Hhd as [|? ? Hxy]. unfold slt in Hxy. congruence. }
  rewrite H. split.
  - apply Sorted_StronglySorted, slt_transitive.
  - apply StronglySorted_Sorted.
Qed.

(** X5.  [validateFractionalIndexOrder] accepts a list exactly when its
    valid entries, taken in order, are strictly increasing: [null],
    empty and ill-formed entries are dropped before the comparison and
    never make the validation fail. *)
Theorem validateFractionalIndexOrder_spec (indices : list (option string)) :
  validateFractionalIndexOrder indices = true
  <-> StronglySorted slt (validEntries indices).
Proof.
  unfold validateFractionalIndexOrder. cbv zeta.
  rewrite filter_validEntries.
  apply inOrder_sorted, validEntries_valid.
Qed.

(** ** Generated indices leave room *)

Lemma generateKeyBetween_after (p : string) :
  valid p -> generateKeyBetween (Some p) None = generateKeyAfter p.
Proof.
  intros Vp. unfold generateKeyBetween.
  rewrite (truthy_nonempty p (valid_nonempty p Vp)). reflexivity.
Qed.

Lemma fractionalIndexBetween_open_room {S : Type} (p : string)
    (jp : JitterProvider S) (st st' : S) (k : string) :
  valid p ->
  fractionalIndexBetween (Some p) None jp st = (Ok k, st') ->
  roomAbove p k.
Proof.
  intros Vp Hk. apply fractionalIndexBetween_cases in Hk.
  destruct Hk as (key & Hkey & Hcase).
  rewrite (generateKeyBetween_after p Vp) in Hkey.
  pose proof Vp as Vp'. apply valid_iff in Vp'. destruct Vp' as [Hne H36].
  destruct (generateKeyAfter_room p Hne H36) as (key' & Hkey' & Hroom).
  rewrite Hkey in Hkey'. injection Hkey' as <-.
  destruct Hcase as [->|(n & _ & -> & _)]; [exact Hroom|].
  eapply roomAbove_trans; [exact Hroom|].
  apply lt_app_nonempty. discriminate.
Qed.

Lemma generateLoop_room {S : Type} (count : nat) (prev : option string)
    (jp : JitterProvider S) (st : S) :
  honoursRange jp ->
  (forall p, prev = Some p -> valid p) ->
  exists keys st',
    generateLoop count prev None jp st = (Ok keys, st') /\
    List.length keys = count /\
    Forall valid keys /\
    StronglySorted roomAbove keys /\
    (forall p, prev = Some p -> Forall (roomAbove p) keys).
Proof.
  intros Hjp. revert prev st.
  induction count as [|count IH]; intros prev st Hprev.
  - exists [], st. repeat split; constructor.
  - destruct (fractionalIndexBetween_open_end prev jp st Hjp Hprev)
      as (k & st1 & Hk & Vk & _).
    destruct (IH (Some k) st1) as (keys & st2 & Hks & Hlen & Hval & Hsort & Hall).
    { intros p E. injection E as <-. exact Vk. }
    exists (k :: keys), st2. cbn [generateLoop]. unfold bindJ, ret.
    rewrite Hk, Hks. repeat split.
    + simpl. congruence.
    + constructor; assumption.
    + constructor; [exact Hsort | apply Hall; reflexivity].
    + intros p E. subst prev.
      pose proof (fractionalIndexBetween_open_room p jp st st1 k
                    (Hprev p eq_refl) Hk) as Hroom.
      constructor; [exact Hroom|].
      eapply Forall_impl; [|apply Hall; reflexivity].
      intros x Hx. eapply roomAbove_trans; [exact Hroom|].
      apply roomAbove_lt. exact Hx.
Qed.

Lemma generateFractionalIndices_room {S : Type} (n : Z)
    (jp : JitterProvider S) (st : S) :
  honoursRange jp ->
  exists keys st',
    generateFractionalIndices None None n jp st = (Ok keys, st') /\
    List.length keys = Z.to_nat n /\
    Forall valid keys /\
    StronglySorted roomAbove keys.
Proof.
  intros Hjp. unfold generateFractionalIndices.
  destruct (Z.leb_spec n 0).
  - exists [], st. replace (Z.to_nat n) with O by lia.
    repeat split; constructor.
  - destruct (Z.eqb_spec n 1) as [->|Hn].
    + destruct (fractionalIndexBetween_open_end None jp st Hjp)
        as (k & st1 & Hk & Vk & _); [discriminate|].
      exists [k], st1. unfold bindJ, ret. rewrite Hk.
      repeat split; repeat constructor. exact Vk.
    + destruct (generateLoop_room (Z.to_nat n) None jp st Hjp)
        as (keys & st1 & Hks & Hlen & Hval & Hsort & _); [discriminate|].
      exists keys, st1. auto.
Qed.

Lemma StronglySorted_impl {A : Type} (R1 R2 : A -> A -> Prop) (l : list A) :
  (forall x y, R1 x y -> R2 x y) -> StronglySorted R1 l -> StronglySorted R2 l.
Proof.
  intros Himp. induction 1 as [|x l _ IH Hall]; constructor; [exact IH|].
  eapply Forall_impl; [|exact Hall]. intros y. apply Himp.
Qed.

(** Any two keys of a list with room, taken in order, admit an insertion. *)
Lemma room_insertion (a k : string) :
  valid a -> valid k -> roomAbove a k ->
  exists mid,
    generateKeyBetween (Some a) (Some k) = Ok mid /\
    slt a mid /\ slt mid k /\ valid mid.
Proof.
  intros Va Vk Hroom.
  destruct (generateKeyBetween_spec a k Va Vk (roomAbove_lt a k Hroom))
    as [_ Hok].
  apply Hok, roomAbove_not_adjacent, Hroom.
Qed.

(** X6.  With no bounds and a jitter provider that keeps [randomInt] in
    range, [generateFractionalIndices] returns [n] indices (none for
    [n <= 0]); they are valid, pass [validateFractionalIndexOrder], and
    are never crowded: between any two of them, taken in order,
    [generateKeyBetween] returns a valid index strictly between. *)
Theorem generateFractionalIndices_open (S : Type) (n : Z)
    (jp : JitterProvider S) (st : S) :
  honoursRange jp ->
  exists keys st',
    generateFractionalIndices None None n jp st = (Ok keys, st') /\
    lenL keys = Z.max 0 n /\
    Forall valid keys /\
    validateFractionalIndexOrder (map Some keys) = true /\
    forall i j a k,
      (i < j)%nat -> nth_error keys i = Some a -> nth_error keys j = Some k ->
      exists mid,
        generateKeyBetween (Some a) (Some k) = Ok mid /\
        slt a mid /\ slt mid k /\ valid mid.
Proof.
  intros Hjp.
  destruct (generateFractionalIndices_room n jp st Hjp)
    as (keys & st' & Hgen & Hlen & Hval & Hroom).
  exists keys, st'. split; [exact Hgen|].
  split; [unfold lenL; lia|]. split; [exact Hval|]. split.
  - unfold validateFractionalIndexOrder. cbv zeta.
    rewrite filter_validEntries.
    apply (inOrder_sorted _ (validEntries_valid _)).
    rewrite (validEntries_all keys Hval).
    apply (StronglySorted_impl roomAbove slt); [apply roomAbove_lt | exact Hroom].
  - intros i j a k Hij Hi Hj.
    rewrite Forall_forall in Hval.
    apply room_insertion.
    + eapply Hval, nth_error_In, Hi.
    + eapply Hval, nth_error_In, Hj.
    + clear Hgen Hlen Hval. revert i j Hij Hi Hj.
      induction Hroom as [|x l _ IH Hall]; intros i j Hij Hi Hj.
      * destruct i; discriminate.
      * destruct j as [|j]; [lia|]. cbn [nth_error] in Hj.
        destruct i as [|i]; cbn [nth_error] in Hi.
        -- injection Hi as <-. rewrite Forall_forall in Hall.
           eapply Hall, nth_error_In, Hj.
        -- apply (IH i j); [lia | exact Hi | exact Hj].
Qed.

Lemma generateFractionalIndices_open_witness :
  exists keys st',
    generateFractionalIndices None None 3 zeroJitter tt = (Ok keys, st') /\
    lenL keys = Z.max 0 3 /\
    Forall valid keys /\
    validateFractionalIndexOrder (map Some keys) = true /\
    forall i j a k,
      (i < j)%nat -> nth_error keys i = Some a -> nth_error keys j = Some k ->
      exists mid,
        generateKeyBetween (Some a) (Some k) = Ok mid /\
        slt a mid /\ slt mid k /\ valid mid.
Proof.
  apply (generateFractionalIndices_open unit 3 zeroJitter tt).
  apply zeroJitter_honoursRange.
Defined.

(** X7.  Under a provider that keeps [randomInt] in range,
    [initialFractionalIndex] returns the middle key [m], alone or
    followed by one character of the alphabet: a valid index, with room
    below it and above it for [generateKeyBefore] and
    [generateKeyAfter]. *)
Theorem initialFractionalIndex_spec (S : Type) (jp : JitterProvider S)
    (st : S) :
  honoursRange jp ->
  exists k st',
    initialFractionalIndex jp st = (Ok k, st') /\
    (k = "m" \/ exists n, 0 <= n < 36 /\ k = "m" ++ String (digit n) "") /\
    valid k /\
    (exists below, generateKeyBefore k = Ok below /\ slt below k /\ valid below) /\
    (exists above, generateKeyAfter k = Ok above /\ slt k above /\ valid above).
Proof.
  intros Hjp. unfold initialFractionalIndex.
  destruct (fractionalIndexBetween_open_end None jp st Hjp)
    as (k & st' & Hk & Vk & _); [discriminate|].
  exists k, st'. split; [exact Hk|].
  apply fractionalIndexBetween_cases in Hk.
  destruct Hk as (key & Hkey & Hcase). injection Hkey as <-.
  assert (Hshape : k = "m" \/
                   exists n, 0 <= n < 36 /\ k = "m" ++ String (digit n) "").
  { destruct Hcase as [->|(n & Hn & -> & _)]; [left; reflexivity|].
    right. exists n. auto. }
  split; [exact Hshape|]. split; [exact Vk|]. split.
  - apply generateKeyBefore_below; [exact Vk|].
    destruct Hshape as [->|(n & _ & ->)]; simpl; lia.
  - apply generateKeyAfter_above. exact Vk.
Qed.

Lemma initialFractionalIndex_spec_witness :
  exists k st',
    initialFractionalIndex zeroJitter tt = (Ok k, st') /\
    (k = "m" \/ exists n, 0 <= n < 36 /\ k = "m" ++ String (digit n) "") /\
    valid k /\
    (exists below, generateKeyBefore k = Ok below /\ slt below k /\ valid below) /\
    (exists above, generateKeyAfter k = Ok above /\ slt k above /\ valid above).
Proof.
  apply (initialFractionalIndex_spec unit zeroJitter tt).
  apply zeroJitter_honoursRange.
Defined.

(** ** The crowding probe *)

Lemma noStringBetween_crowding (a b : string) :
  isCrowdingMessage (noStringBetween a b) = true.
Proof.
  unfold isCrowdingMessage. apply orb_true_iff. left.
  apply (includes_prefix "No string exists between"
           (" " ++ dquote ++ a ++ dquote ++ " and " ++ dquote ++ b ++ dquote
              ++ " in base36 encoding")).
Qed.

Lemma insertionThrows_ok (a b : option string) (key : string) :
  generateKeyBetween a b = Ok key -> insertionThrows a b = false.
Proof.
  intros Hkey. unfold insertionThrows.
  destruct (fractionalIndexBetween_returns a b zeroJitter tt key
              zeroJitter_honoursRange Hkey) as (k & st' & ->).
  reflexivity.
Qed.

Lemma insertionThrows_room (a k : string) :
  valid a -> valid k -> roomAbove a k -> insertionThrows (Some a) (Some k) = false.
Proof.
  intros Va Vk Hroom.
  destruct (room_insertion a k Va Vk Hroom) as (mid & Hmid & _).
  exact (insertionThrows_ok _ _ _ Hmid).
Qed.

Lemma insertionThrows_crowded (a b : string) :
  valid a -> valid b -> insertionThrows (Some a) (Some b) = true ->
  ~ slt a b \/ b = a ++ "0".
Proof.
  intros Va Vb Hthrows.
  destruct (str_lt a b) eqn:Hlt; [|left; unfold slt; congruence].
  right.
  destruct (generateKeyBetween_spec a b Va Vb Hlt) as [_ Hok].
  destruct (String.string_dec b (a ++ "0")) as [E|N]; [exact E|].
  destruct (Hok N) as (k & Hk & _).
  rewrite (insertionThrows_ok _ _ _ Hk) in Hthrows. discriminate.
Qed.

Lemma insertionThrows_room_inv (a b : string) :
  valid a -> valid b -> insertionThrows (Some a) (Some b) = false ->
  slt a b /\ b <> a ++ "0".
Proof.
  intros Va Vb Hfalse.
  destruct (str_lt a b) eqn:Hlt.
  - split; [exact Hlt|]. intros E.
    destruct (generateKeyBetween_spec a b Va Vb Hlt) as [Hthrow _].
    unfold insertionThrows, fractionalIndexBetween in Hfalse.
    rewrite (Hthrow E) in Hfalse. cbn [fst] in Hfalse.
    rewrite noStringBetween_crowding in Hfalse. discriminate.
  - assert (Hge : ~ slt a b) by (unfold slt; congruence).
    unfold insertionThrows, fractionalIndexBetween in Hfalse.
    rewrite (generateKeyBetween_disorder a b (valid_nonempty a Va)
               (valid_nonempty b Vb) Hge) in Hfalse.
    cbn [fst] in Hfalse. rewrite invalidRange_crowding in Hfalse.
    discriminate.
Qed.

(** X8.  What the probe of [needsRebalancing] detects.  For two valid
    indices, inserting between them (as the probe does, with the jitter
    switched off) fails with one of the two crowding errors exactly when
    they are not in strictly increasing order, or the second is the
    first followed by a single [0]. *)
Theorem insertionThrows_spec (a b : string) :
  valid a -> valid b ->
  (insertionThrows (Some a) (Some b) = true
   <-> (~ slt a b \/ b = a ++ "0")).
Proof.
  intros Va Vb. split; [apply insertionThrows_crowded; assumption|].
  intros Hcrowded.
  destruct (insertionThrows (Some a) (Some b)) eqn:E; [reflexivity|].
  destruct (insertionThrows_room_inv a b Va Vb E) as [Hlt Hne].
  destruct Hcrowded; contradiction.
Qed.

Lemma insertionThrows_spec_witness :
  insertionThrows (Some "m") (Some "m0") = true
  <-> (~ slt "m" "m0" \/ "m0" = "m" ++ "0").
Proof. apply (insertionThrows_spec "m" "m0"); reflexivity. Defined.

(** ** A rebalance as a whole *)

Lemma retagged_room (cs : list CellReference) (ks : list string) :
  Forall valid ks -> StronglySorted roomAbove ks ->
  StronglySorted roomBetween (retagged cs ks).
Proof.
  revert ks. induction cs as [|c cs IH]; intros [|k ks] Hv H; try constructor.
  - apply StronglySorted_inv in H. apply Forall_cons_iff in Hv.
    apply IH; tauto.
  - apply StronglySorted_inv in H. destruct H as [_ Hk].
    apply Forall_cons_iff in Hv. destruct Hv as [Vk Hv].
    rewrite Forall_forall in Hk, Hv. apply Forall_forall. intros x Hx.
    destruct (retagged_In cs ks x Hx) as (k' & Hk' & E).
    unfold roomBetween. rewrite E. cbn [reindexed fractionalIndex].
    apply insertionThrows_room; auto.
Qed.

Lemma anyAdjacentThrows_step (current next : CellReference)
    (rest : list CellReference) :
  anyAdjacentThrows (current :: next :: rest)
  = (truthy (fractionalIndex current) && truthy (fractionalIndex next)
     && insertionThrows (fractionalIndex current) (fractionalIndex next))
    || anyAdjacentThrows (next :: rest).
Proof. reflexivity. Qed.

Lemma anyAdjacentThrows_room (l : list CellReference) :
  StronglySorted roomBetween l -> anyAdjacentThrows l = false.
Proof.
  induction 1 as [|c l _ IH Hall]; [reflexivity|].
  destruct l as [|n rest]; [reflexivity|].
  rewrite anyAdjacentThrows_step, IH.
  apply Forall_inv in Hall. unfold roomBetween in Hall. rewrite Hall.
  rewrite !andb_false_r. reflexivity.
Qed.

Lemma StronglySorted_nth {A : Type} (R : A -> A -> Prop) (l : list A)
    (i j : nat) (x y : A) :
  StronglySorted R l -> (i < j)%nat ->
  nth_error l i = Some x -> nth_error l j = Some y -> R x y.
Proof.
  intros Hs. revert i j. induction Hs as [|z l _ IH Hall]; intros i j Hij Hi Hj.
  - destruct i; discriminate.
  - destruct j as [|j]; [lia|]. cbn [nth_error] in Hj.
    destruct i as [|i]; cbn [nth_error] in Hi.
    + injection Hi as <-. rewrite Forall_forall in Hall.
      eapply Hall, nth_error_In, Hj.
    + apply (IH i j); [lia | exact Hi | exact Hj].
Qed.

Lemma needsRebalancing_room (localeCompare : string -> string -> Z)
    (cells : list CellReference) (insertPosition : option Z) :
  StronglySorted roomBetween (sort (byFractionalIndex localeCompare) cells) ->
  needsRebalancing localeCompare cells insertPosition = false.
Proof.
  intros Hs. unfold needsRebalancing.
  destruct (lenL cells <? 2); [reflexivity|]. cbv zeta.
  rewrite (anyAdjacentThrows_room _ Hs).
  destruct insertPosition as [p|]; [|reflexivity].
  remember (sort (byFractionalIndex localeCompare) cells) as sorted.
  destruct (Z.gtb_spec p 0) as [Hp|]; [|reflexivity].
  destruct (at_ sorted (p - 1)) as [beforeCell|] eqn:Eb; [|reflexivity].
  destruct (p <? lenL sorted); [|reflexivity].
  destruct (at_ sorted p) as [afterCell|] eqn:Ea; [|reflexivity].
  unfold at_ in Eb, Ea.
  destruct (Z.ltb_spec (p - 1) 0); [discriminate|].
  destruct (Z.ltb_spec p 0); [discriminate|].
  apply (StronglySorted_nth roomBetween sorted (Z.to_nat (p - 1)) (Z.to_nat p));
    [exact Hs | lia | exact Eb | exact Ea].
Qed.

(** What [rebalanceCellIndices] computes: the indices generated, the
    reassignments, and the cells in their order afterwards. *)
Lemma rebalance_outcome (localeCompare : string -> string -> Z) (S : Type)
    (cells : list CellReference) (jp : JitterProvider S)
    (actorId : option string) (bufferCells : option Z) (st : S) :
  collatesIndices localeCompare ->
  honoursRange jp ->
  cells <> [] ->
  NoDup (map id cells) ->
  0 <= match bufferCells with Some x => x | None => 2 end ->
  exists st' keys,
    let sorted := sort (byFractionalIndex localeCompare) cells in
    let rest :=
      skipn (Z.to_nat match bufferCells with Some x => x | None => 2 end)
        keys in
    let moves := reassigned sorted rest in
    rebalanceCellIndices localeCompare cells jp actorId bufferCells st
    = (Ok {| newIndices := moves;
             events :=
               movedEvents
                 match actorId with Some x => x | None => "system" end
                 moves |}, st') /\
    Forall valid keys /\
    StronglySorted roomAbove keys /\
    (List.length cells <= List.length rest)%nat /\
    sort (byFractionalIndex localeCompare) (withNewIndices moves cells)
    = retagged sorted rest.
Proof.
  intros Hcol Hjp Hne Hnd HB.
  remember (match bufferCells with Some x => x | None => 2 end) as B eqn:EB.
  destruct (generateFractionalIndices_room (lenL cells + B * 2) jp st Hjp)
    as (keys & st1 & Hgen & Hlen & Hval & Hroom).
  assert (Hsort : StronglySorted slt keys)
    by (apply (StronglySorted_impl roomAbove slt);
        [apply roomAbove_lt | exact Hroom]).
  exists st1, keys. cbv zeta.
  set (sorted := sort (byFractionalIndex localeCompare) cells).
  assert (Hperm : Permutation sorted cells) by apply sort_perm.
  assert (Hslen : List.length sorted = List.length cells)
    by (apply Permutation_length; exact Hperm).
  set (rest := skipn (Z.to_nat B) keys).
  assert (Hrlen : List.length rest
                  = (List.length cells + Z.to_nat B)%nat).
  { unfold rest. rewrite length_skipn, Hlen. unfold lenL. lia. }
  assert (Hassign : assignIndices sorted keys B 0 = reassigned sorted rest).
  { apply (assignIndices_reassigned keys B sorted 0 HB Hval).
    cbn [plus]. fold rest. lia. }
  split.
  { unfold rebalanceCellIndices. cbv zeta. rewrite <- EB.
    destruct (Z.eqb_spec (lenL cells) 0) as [E|_].
    { destruct cells; [congruence | unfold lenL in E; simpl in E; lia]. }
    unfold bindJ, ret. rewrite Hgen. fold sorted. rewrite Hassign.
    reflexivity. }
  split; [exact Hval|]. split; [exact Hroom|]. split; [lia|].
  assert (Hmoved : withNewIndices (reassigned sorted rest) sorted
                   = retagged sorted rest).
  { apply (withNewIndices_reassigned sorted rest []).
    - eapply Permutation_NoDup; [|exact Hnd].
      apply Permutation_map, Permutation_sym, Hperm.
    - intros m [].
    - lia. }
  assert (Hperm' : Permutation (retagged sorted rest)
                     (sort (byFractionalIndex localeCompare)
                        (withNewIndices (reassigned sorted rest) cells))).
  { rewrite <- Hmoved. apply Permutation_sym.
    eapply Permutation_trans; [apply sort_perm|].
    unfold withNewIndices. apply Permutation_map, Permutation_sym, Hperm. }
  assert (Hvalid : Forall validCell (retagged sorted rest)).
  { apply retagged_valid. unfold rest.
    rewrite <- (firstn_skipn (Z.to_nat B) keys) in Hval.
    apply Forall_app in Hval. tauto. }
  symmetry. apply (sorted_perm_unique cellLt cellLe).
  - intros x y Hxy Hyx. exact (Hyx Hxy).
  - apply retagged_sorted, StronglySorted_skipn, Hsort.
  - apply (sort_sorted localeCompare Hcol).
    eapply Permutation_Forall; [|exact Hvalid].
    rewrite <- Hmoved. unfold withNewIndices.
    apply Permutation_map. exact Hperm.
  - exact Hperm'.
Qed.

(** X9.  A rebalance restores room everywhere.  For a non-empty list of
    cells with distinct ids (under the conditions of a rebalance: a
    buffer that is not negative, [randomInt] in range, a collation that
    orders valid indices as their code units do),
    [rebalanceCellIndices] returns, and once its reassignments are
    applied to the cells [needsRebalancing] is false for the list as a
    whole and for every insert position. *)
Theorem rebalance_restores_room (localeCompare : string -> string -> Z)
    (S : Type) (cells : list CellReference) (jp : JitterProvider S)
    (actorId : option string) (bufferCells : option Z) (st : S) :
  collatesIndices localeCompare ->
  honoursRange jp ->
  cells <> [] ->
  NoDup (map id cells) ->
  0 <= match bufferCells with Some x => x | None => 2 end ->
  exists result st',
    rebalanceCellIndices localeCompare cells jp actorId bufferCells st
    = (Ok result, st') /\
    forall insertPosition,
      needsRebalancing localeCompare
        (withNewIndices (newIndices result) cells) insertPosition = false.
Proof.
  intros Hcol Hjp Hne Hnd HB.
  destruct (rebalance_outcome localeCompare S cells jp actorId bufferCells st
              Hcol Hjp Hne Hnd HB)
    as (st' & keys & Hrun & Hval & Hroom & _ & Hsorted).
  eexists. exists st'. split; [exact Hrun|].
  intros insertPosition. apply needsRebalancing_room.
  cbn [newIndices]. rewrite Hsorted.
  apply retagged_room.
  - rewrite <- (firstn_skipn
                  (Z.to_nat match bufferCells with Some x => x | None => 2 end)
                  keys) in Hval.
    apply Forall_app in Hval. tauto.
  - apply StronglySorted_skipn, Hroom.
Qed.

Lemma rebalance_restores_room_witness :
  exists result st',
    rebalanceCellIndices defaultCompare crowdedCells zeroJitter None None tt
    = (Ok result, st') /\
    forall insertPosition,
      needsRebalancing defaultCompare
        (withNewIndices (newIndices result) crowdedCells) insertPosition
      = false.
Proof.
  apply (rebalance_restores_room defaultCompare unit crowdedCells zeroJitter
           None None tt defaultCompare_collates zeroJitter_honoursRange).
  - discriminate.
  - repeat constructor; simpl; intuition discriminate.
  - simpl. lia.
Defined.

Lemma reassigned_NoDup (cs : list CellReference) (ks : list string) :
  NoDup (map id cs) -> NoDup (map fst (reassigned cs ks)).
Proof.
  revert ks. induction cs as [|c cs IH]; intros [|k ks] Hnd;
    try (cbn; constructor).
  cbn [map] in Hnd. apply NoDup_cons_iff in Hnd. destruct Hnd as [Hc Hnd].
  assert (Hfresh : ~ In (id c) (map fst (reassigned cs ks))).
  { intros Hin. apply in_map_iff in Hin. destruct Hin as (m & E & Hm).
    apply Hc. rewrite <- E. eapply reassigned_ids. exact Hm. }
  cbn [reassigned].
  destruct (fractionalIndex c) as [old|];
    [destruct (String.eqb old k)|]; cbn [map fst];
    try (constructor; [exact Hfresh|]); apply IH; exact Hnd.
Qed.

Lemma reassigned_changed (cs : list CellReference) (ks : list string)
    (name k : string) :
  In (name, k) (reassigned cs ks) ->
  In k ks /\
  exists c, In c cs /\ id c = name /\ fractionalIndex c <> Some k.
Proof.
  revert ks. induction cs as [|c cs IH]; intros [|k' ks] H;
    try (destruct H; fail).
  cbn [reassigned] in H.
  assert (Htail : In (name, k) (reassigned cs ks) ->
                  In k (k' :: ks) /\
                  exists c0, In c0 (c :: cs) /\ id c0 = name /\
                             fractionalIndex c0 <> Some k).
  { intros Hin. destruct (IH ks Hin) as (Hk & c0 & Hc0 & E & Hne).
    split; [right; exact Hk|]. exists c0. split; [right; exact Hc0|]. auto. }
  destruct (fractionalIndex c) as [old|] eqn:Eold;
    [destruct (String.eqb_spec old k') as [->|Hne]|].
  - auto.
  - destruct H as [E|H]; [|auto]. injection E as <- <-.
    split; [left; reflexivity|]. exists c. split; [left; reflexivity|].
    split; [reflexivity|]. congruence.
  - destruct H as [E|H]; [|auto]. injection E as <- <-.
    split; [left; reflexivity|]. exists c. split; [left; reflexivity|].
    split; [reflexivity|]. congruence.
Qed.

Lemma reassigned_length (cs : list CellReference) (ks : list string) :
  (List.length (reassigned cs ks) <= List.length cs)%nat.
Proof.
  revert ks. induction cs as [|c cs IH]; intros [|k ks]; cbn [reassigned];
    try (simpl; lia).
  specialize (IH ks).
  destruct (fractionalIndex c) as [old|];
    [destruct (String.eqb old k)|]; simpl; lia.
Qed.

(** X10.  What a rebalance emits.  Under the conditions of a rebalance
    (see X9), [rebalanceCellIndices] returns one [v2.CellMoved] event
    per reassignment, in the same order and carrying its id and index;
    no cell is reassigned twice; every reassignment names a cell of the
    list and gives it a valid index other than the one it had, so a
    cell whose index is already the one computed for it gets no event;
    and there are at most as many events as cells. *)
Theorem rebalance_moves_changed_cells_once
    (localeCompare : string -> string -> Z) (S : Type)
    (cells : list CellReference) (jp : JitterProvider S)
    (actorId : option string) (bufferCells : option Z) (st : S) :
  collatesIndices localeCompare ->
  honoursRange jp ->
  cells <> [] ->
  NoDup (map id cells) ->
  0 <= match bufferCells with Some x => x | None => 2 end ->
  exists result st',
    rebalanceCellIndices localeCompare cells jp actorId bufferCells st
    = (Ok result, st') /\
    events result
    = movedEvents match actorId with Some x => x | None => "system" end
        (newIndices result) /\
    NoDup (map fst (newIndices result)) /\
    (forall name k,
       In (name, k) (newIndices result) ->
       valid k /\
       exists c, In c cells /\ id c = name /\ fractionalIndex c <> Some k) /\
    lenL (events result) <= lenL cells.
Proof.
  intros Hcol Hjp Hne Hnd HB.
  destruct (rebalance_outcome localeCompare S cells jp actorId bufferCells st
              Hcol Hjp Hne Hnd HB)
    as (st' & keys & Hrun & Hval & _ & _ & _).
  assert (Hperm : Permutation (sort (byFractionalIndex localeCompare) cells)
                    cells) by apply sort_perm.
  eexists. exists st'. split; [exact Hrun|]. cbn [events newIndices].
  split; [reflexivity|]. split; [|split].
  - apply reassigned_NoDup. eapply Permutation_NoDup; [|exact Hnd].
    apply Permutation_map, Permutation_sym, Hperm.
  - intros name k Hin. apply reassigned_changed in Hin.
    destruct Hin as (Hk & c & Hc & E & Hchg). split.
    + rewrite Forall_forall in Hval. apply Hval.
      rewrite <- (firstn_skipn
                    (Z.to_nat match bufferCells with Some x => x | None => 2 end)
                    keys).
      apply in_or_app. right. exact Hk.
    + exists c. split; [|auto]. eapply Permutation_in; [exact Hperm | exact Hc].
  - unfold movedEvents, lenL. rewrite length_map.
    pose proof (reassigned_length (sort (byFractionalIndex localeCompare) cells)
                  (skipn (Z.to_nat match bufferCells with
                                   | Some x => x | None => 2 end) keys)).
    rewrite (Permutation_length Hperm) in H. lia.
Qed.

Lemma rebalance_moves_changed_cells_once_witness :
  exists result st',
    rebalanceCellIndices defaultCompare crowdedCells zeroJitter
      (Some "alice") None tt = (Ok result, st') /\
    events result
    = movedEvents "alice" (newIndices result) /\
    NoDup (map fst (newIndices result)) /\
    (forall name k,
       In (name, k) (newIndices result) ->
       valid k /\
       exists c, In c crowdedCells /\ id c = name /\
                 fractionalIndex c <> Some k) /\
    lenL (events result) <= lenL crowdedCells.
Proof.
  apply (rebalance_moves_changed_cells_once defaultCompare unit crowdedCells
           zeroJitter (Some "alice") None tt defaultCompare_collates
           zeroJitter_honoursRange).
  - discriminate.
  - repeat constructor; simpl; intuition discriminate.
  - simpl. lia.
Defined.

(** ** Appending a cell *)

Lemma le_lt_trans (a b c : string) : ~ slt b a -> slt b c -> slt a c.
Proof.
  intros Hle Hlt. destruct (lt_total a b) as [H|[->|H]];
    [eapply lt_trans; eassumption | exact Hlt | contradiction].
Qed.

Lemma sorted_last (l : list CellReference) :
  StronglySorted cellLe l -> l <> [] ->
  exists x, nth_error l (List.length l - 1) = Some x /\
            Forall (fun c => cellLe c x) l.
Proof.
  induction 1 as [|z l _ IH Hall]; intros Hne; [congruence|].
  destruct l as [|y l'].
  - exists z. split; [reflexivity|]. constructor; [|constructor].
    unfold cellLe. apply lt_irrefl.
  - destruct IH as (x & Hx & Hle); [discriminate|].
    exists x. split.
    + simpl in Hx |- *. rewrite Nat.sub_0_r in Hx. exact Hx.
    + constructor; [|exact Hle]. rewrite Forall_forall in Hall.
      apply Hall. eapply nth_error_In. exact Hx.
Qed.

(** Appending never rebalances.  With neither neighbour given and every
    cell of [allCells] carrying a valid index, [createCellBetween]
    returns a single [v2.CellCreated] event for the new cell, reports no
    rebalancing, and the index of that event is a valid index above the
    index of every cell of the list, whatever the order in which the
    list is given. *)
Lemma createCellBetween_at_end (localeCompare : string -> string -> Z)
    (S : Type) (cellData : CellData) (allCells : list CellReference)
    (jp : JitterProvider S) (st : S) :
  collatesIndices localeCompare ->
  honoursRange jp ->
  Forall validCell allCells ->
  exists index st',
    createCellBetween localeCompare cellData None None allCells jp st
    = (Ok {| co_events :=
               [cellCreated2
                  {| created_id := cd_id cellData;
                     created_fractionalIndex := index;
                     created_cellType := cd_cellType cellData;
                     created_createdBy := cd_createdBy cellData |}];
             co_newCellId := cd_id cellData;
             co_needsRebalancing := false;
             co_rebalanceCount := None |}, st') /\
    valid index /\
    Forall (fun c => slt (orEmpty (fractionalIndex c)) index) allCells.
Proof.
  intros Hcol Hjp Hval.
  assert (Hrun : forall prev,
             (forall p, prev = Some p -> valid p) ->
             exists index st',
               (result <~
                  fractionalIndexBetweenWithFallback localeCompare prev None
                    allCells
                    (Some (positionOf None None allCells (lenL allCells)))
                    jp ;;
                ret {| co_events :=
                         ((match fb_needsRebalancing result,
                                 fb_rebalanceResult result with
                           | true, Some rebalanceResult =>
                               events rebalanceResult
                           | _, _ => []
                           end)
                          ++ [cellCreated2
                                {| created_id := cd_id cellData;
                                   created_fractionalIndex := fb_index result;
                                   created_cellType := cd_cellType cellData;
                                   created_createdBy :=
                                     cd_createdBy cellData |}])%list;
                       co_newCellId := cd_id cellData;
                       co_needsRebalancing := fb_needsRebalancing result;
                       co_rebalanceCount :=
                         match fb_rebalanceResult result with
                         | Some rebalanceResult =>
                             Some (lenL (newIndices rebalanceResult))
                         | None => None
                         end |}) st
               = (Ok {| co_events :=
                          [cellCreated2
                             {| created_id := cd_id cellData;
                                created_fractionalIndex := index;
                                created_cellType := cd_cellType cellData;
                                created_createdBy := cd_createdBy cellData |}];
                        co_newCellId := cd_id cellData;
                        co_needsRebalancing := false;
                        co_rebalanceCount := None |}, st') /\
               valid index /\ (forall p, prev = Some p -> slt p index)).
  { intros prev Hprev.
    destruct (fractionalIndexBetween_open_end prev jp st Hjp Hprev)
      as (k & st' & Hk & Vk & Hlt).
    exists k, st'. split; [|auto].
    unfold bindJ at 1, fractionalIndexBetweenWithFallback, tryCatch.
    unfold bindJ at 1. rewrite Hk. reflexivity. }
  unfold createCellBetween. cbv zeta. cbn [isSome negb andb keyOf].
  destruct (Z.gtb_spec (lenL allCells) 0) as [Hpos|Hzero].
  - set (sorted := sort (byFractionalIndex localeCompare) allCells).
    assert (Hperm : Permutation sorted allCells) by apply sort_perm.
    assert (Hsorted : StronglySorted cellLe sorted)
      by (apply (sort_sorted localeCompare Hcol); exact Hval).
    destruct (sorted_last sorted Hsorted) as (lastCell & Hlast & Hle).
    { intros E. rewrite E in Hperm. apply Permutation_nil in Hperm.
      subst allCells. unfold lenL in Hpos. simpl in Hpos. lia. }
    assert (Hat : at_ sorted (lenL sorted - 1) = Some lastCell).
    { unfold at_, lenL.
      assert (0 < Z.of_nat (List.length sorted)).
      { rewrite (Permutation_length Hperm). exact Hpos. }
      destruct (Z.ltb_spec (Z.of_nat (List.length sorted) - 1) 0); [lia|].
      replace (Z.to_nat (Z.of_nat (List.length sorted) - 1))
        with (List.length sorted - 1)%nat by lia.
      exact Hlast. }
    rewrite Hat.
    assert (Vlast : validCell lastCell).
    { rewrite Forall_forall in Hval. apply Hval.
      eapply Permutation_in; [exact Hperm|].
      eapply nth_error_In. exact Hlast. }
    destruct Vlast as (k & Ek & Vk).
    rewrite Ek, (truthy_nonempty k (valid_nonempty k Vk)).
    destruct (Hrun (Some k)) as (index & st' & Hres & Vi & Hlt).
    { intros p E. injection E as <-. exact Vk. }
    exists index, st'. split; [exact Hres|]. split; [exact Vi|].
    apply Forall_forall. intros c Hc.
    assert (Hc' : In c sorted)
      by (eapply Permutation_in; [apply Permutation_sym, Hperm | exact Hc]).
    rewrite Forall_forall in Hle. specialize (Hle c Hc').
    unfold cellLe in Hle. rewrite Ek in Hle. cbn [orEmpty] in Hle.
    eapply le_lt_trans; [exact Hle | apply Hlt; reflexivity].
  - destruct (Hrun None) as (index & st' & Hres & Vi & _); [discriminate|].
    exists index, st'. split; [exact Hres|]. split; [exact Vi|].
    destruct allCells; [constructor | unfold lenL in Hzero; simpl in Hzero; lia].
Qed.


(** ** The fallback, once it rebalances *)

Lemma generateFractionalIndices_head {S : Type} (n : Z)
    (jp : JitterProvider S) (st st' : S) (k : string) (keys : list string) :
  generateFractionalIndices None None n jp st = (Ok (k :: keys), st') ->
  exists st1, fractionalIndexBetween None None jp st = (Ok k, st1).
Proof.
  unfold generateFractionalIndices.
  destruct (n <=? 0); [discriminate|].
  destruct (n =? 1).
  - unfold bindJ, ret.
    destruct (fractionalIndexBetween None None jp st) as [[k0|m] st1];
      [|discriminate].
    intros H. injection H as <- _ _. eauto.
  - destruct (Z.to_nat n) as [|count]; [discriminate|].
    cbn [generateLoop]. unfold bindJ, ret.
    destruct (fractionalIndexBetween None None jp st) as [[k0|m] st1];
      [|discriminate].
    destruct (generateLoop count (Some k0) None jp st1) as [[ks|m] st2];
      [|discriminate].
    intros H. injection H as <- _ _. eauto.
Qed.

(** No generated index lies below the middle key. *)
Lemma generateFractionalIndices_floor {S : Type} (n : Z)
    (jp : JitterProvider S) (st st' : S) (keys : list string) :
  generateFractionalIndices None None n jp st = (Ok keys, st') ->
  StronglySorted slt keys ->
  Forall (fun k => ~ slt k "m") keys.
Proof.
  intros Hgen Hsort. destruct keys as [|k keys]; [constructor|].
  destruct (generateFractionalIndices_head n jp st st' k keys Hgen)
    as (st1 & Hk).
  apply fractionalIndexBetween_cases in Hk.
  destruct Hk as (key & Hkey & Hcase). injection Hkey as <-.
  assert (Hfloor : ~ slt k "m").
  { destruct Hcase as [->|(d & _ & -> & _)]; [apply lt_irrefl|].
    apply lt_asym. apply lt_app_nonempty. discriminate. }
  constructor; [exact Hfloor|].
  apply StronglySorted_inv in Hsort. destruct Hsort as [_ Hall].
  eapply Forall_impl; [|exact Hall].
  intros x Hx Hxm. apply Hfloor. eapply lt_trans; eassumption.
Qed.

Lemma floor_not_zeros (k : string) :
  valid k -> ~ slt k "m" -> (firstNot "0" k < String.length k)%nat.
Proof.
  intros Vk Hfloor. destruct k as [|c r]; [elim (valid_nonempty _ Vk); reflexivity|].
  cbn [firstNot String.length].
  destruct (Ascii.eqb_spec c "0") as [->|_]; [|lia].
  elim Hfloor. reflexivity.
Qed.

Lemma generateKeyBetween_before (k : string) :
  valid k -> generateKeyBetween None (Some k) = generateKeyBefore k.
Proof.
  intros Vk. unfold generateKeyBetween.
  rewrite (truthy_nonempty k (valid_nonempty k Vk)). reflexivity.
Qed.

Lemma fractionalIndexBetween_valid {S : Type} (a b : option string)
    (jp : JitterProvider S) (st : S) (key : string) :
  honoursRange jp -> generateKeyBetween a b = Ok key -> valid key ->
  exists k st', fractionalIndexBetween a b jp st = (Ok k, st') /\ valid k.
Proof.
  intros Hjp Hkey Vkey.
  destruct (fractionalIndexBetween_returns a b jp st key Hjp Hkey)
    as (k & st' & Hk).
  exists k, st'. split; [exact Hk|].
  apply fractionalIndexBetween_cases in Hk.
  destruct Hk as (key' & Hkey' & Hcase).
  rewrite Hkey in Hkey'. injection Hkey' as <-.
  destruct Hcase as [->|(n & Hn & -> & _)]; [exact Vkey|].
  apply valid_snoc_digit; assumption.
Qed.

Lemma reassigned_snd_sorted (R : string -> string -> Prop)
    (cs : list CellReference) (ks : list string) :
  StronglySorted R ks -> StronglySorted R (map snd (reassigned cs ks)).
Proof.
  revert ks. induction cs as [|c cs IH]; intros [|k ks] Hs;
    try (cbn; constructor).
  apply StronglySorted_inv in Hs. destruct Hs as [Hs Hall].
  assert (Hrest : Forall (R k) (map snd (reassigned cs ks))).
  { rewrite Forall_forall in Hall. apply Forall_forall. intros x Hx.
    apply in_map_iff in Hx. destruct Hx as ([name k'] & <- & Hin).
    apply reassigned_changed in Hin. apply Hall. tauto. }
  cbn [reassigned].
  destruct (fractionalIndex c) as [old|];
    [destruct (String.eqb old k)|]; cbn [map snd];
    try (constructor; [|exact Hrest]); apply IH; exact Hs.
Qed.

Lemma reassigned_snd_Forall (P : string -> Prop)
    (cs : list CellReference) (ks : list string) :
  Forall P ks -> Forall P (map snd (reassigned cs ks)).
Proof.
  intros H. rewrite Forall_forall in H. apply Forall_forall. intros x Hx.
  apply in_map_iff in Hx. destruct Hx as ([name k'] & <- & Hin).
  apply reassigned_changed in Hin. apply H. tauto.
Qed.

(** Sorting strings that are already in increasing order changes
    nothing. *)
Lemma sort_increasing (l : list string) :
  StronglySorted slt l -> sort defaultCompare l = l.
Proof.
  induction 1 as [|x l _ IH Hall]; [reflexivity|].
  cbn [sort fold_right]. fold (sort defaultCompare l). rewrite IH.
  destruct l as [|y l']; [reflexivity|].
  cbn [insertSorted]. apply Forall_inv in Hall.
  unfold defaultCompare. unfold slt, str_lt, String.ltb in Hall.
  destruct (String.compare x y); try discriminate. reflexivity.
Qed.

Lemma at_In {A : Type} (l : list A) (i : Z) (x : A) :
  at_ l i = Some x -> In x l.
Proof.
  unfold at_. destruct (i <? 0); [discriminate|]. apply nth_error_In.
Qed.

Lemma calculateInsertionIndex_returns {S : Type} (position : Z)
    (rr : RebalanceResult) (jp : JitterProvider S) (st : S) :
  honoursRange jp ->
  StronglySorted roomAbove (map snd (newIndices rr)) ->
  Forall valid (map snd (newIndices rr)) ->
  Forall (fun k => ~ slt k "m") (map snd (newIndices rr)) ->
  exists k st',
    calculateInsertionIndexAfterRebalancing position rr jp st = (Ok k, st') /\
    valid k.
Proof.
  intros Hjp Hroom Hval Hfloor. unfold calculateInsertionIndexAfterRebalancing.
  cbv zeta.
  rewrite (sort_increasing (map snd (newIndices rr)))
    by (apply (StronglySorted_impl roomAbove slt);
        [apply roomAbove_lt | exact Hroom]).
  remember (map snd (newIndices rr)) as L eqn:EL. clear EL.
  rewrite Forall_forall in Hval, Hfloor.
  assert (Hopen : forall prev,
             (forall p, prev = Some p -> In p L) ->
             exists k st',
               fractionalIndexBetween prev None jp st = (Ok k, st') /\ valid k).
  { intros prev Hprev.
    destruct (fractionalIndexBetween_open_end prev jp st Hjp)
      as (k & st' & Hk & Vk & _); [|eauto].
    intros p E. apply Hval, Hprev, E. }
  destruct (position =? 0).
  - destruct (at_ L 0) as [k|] eqn:Ek; [|apply Hopen; discriminate].
    apply at_In in Ek.
    destruct (generateKeyBefore_below k (Hval k Ek)
                (floor_not_zeros k (Hval k Ek) (Hfloor k Ek)))
      as (key & Hkey & _ & Vkey).
    apply (fractionalIndexBetween_valid None (Some k) jp st key Hjp);
      [|exact Vkey].
    rewrite (generateKeyBetween_before k (Hval k Ek)). exact Hkey.
  - destruct (position >=? lenL L).
    + apply Hopen. intros p E. eapply at_In. exact E.
    + destruct (at_ L (position - 1)) as [a|] eqn:Ea.
      * destruct (at_ L position) as [k|] eqn:Ek.
        -- unfold at_ in Ea, Ek.
           destruct (Z.ltb_spec (position - 1) 0); [discriminate|].
           destruct (Z.ltb_spec position 0); [discriminate|].
           assert (Hr : roomAbove a k).
           { apply (StronglySorted_nth roomAbove L
                      (Z.to_nat (position - 1)) (Z.to_nat position));
               [exact Hroom | lia | exact Ea | exact Ek]. }
           apply nth_error_In in Ea, Ek.
           destruct (room_insertion a k (Hval a Ea) (Hval k Ek) Hr)
             as (mid & Hmid & _ & _ & Vmid).
           exact (fractionalIndexBetween_valid _ _ jp st mid Hjp Hmid Vmid).
        -- apply Hopen. intros p E. injection E as <-. eapply at_In. exact Ea.
      * destruct (at_ L position) as [k|] eqn:Ek; [|apply Hopen; discriminate].
        apply at_In in Ek.
        destruct (generateKeyBefore_below k (Hval k Ek)
                    (floor_not_zeros k (Hval k Ek) (Hfloor k Ek)))
          as (key & Hkey & _ & Vkey).
        apply (fractionalIndexBetween_valid None (Some k) jp st key Hjp);
          [|exact Vkey].
        rewrite (generateKeyBetween_before k (Hval k Ek)). exact Hkey.
Qed.

(** [rebalanceCellIndices] returns on any non-empty list of cells. *)
Lemma rebalance_runs (localeCompare : string -> string -> Z) (S : Type)
    (cells : list CellReference) (jp : JitterProvider S)
    (actorId : option string) (st : S) :
  honoursRange jp ->
  cells <> [] ->
  exists rr st',
    rebalanceCellIndices localeCompare cells jp actorId None st
    = (Ok rr, st') /\
    StronglySorted roomAbove (map snd (newIndices rr)) /\
    Forall valid (map snd (newIndices rr)) /\
    Forall (fun k => ~ slt k "m") (map snd (newIndices rr)).
Proof.
  intros Hjp Hne.
  destruct (generateFractionalIndices_room (lenL cells + 2 * 2) jp st Hjp)
    as (keys & st1 & Hgen & Hlen & Hval & Hroom).
  assert (Hsort : StronglySorted slt keys)
    by (apply (StronglySorted_impl roomAbove slt);
        [apply roomAbove_lt | exact Hroom]).
  pose proof (generateFractionalIndices_floor _ jp st st1 keys Hgen Hsort)
    as Hfloor.
  set (sorted := sort (byFractionalIndex localeCompare) cells).
  assert (Hslen : List.length sorted = List.length cells)
    by (apply Permutation_length, sort_perm).
  set (rest := skipn (Z.to_nat 2) keys).
  assert (Hassign : assignIndices sorted keys 2 0 = reassigned sorted rest).
  { apply (assignIndices_reassigned keys 2 sorted 0); [lia | exact Hval|].
    cbn [plus]. fold rest. unfold rest. rewrite length_skipn, Hlen.
    unfold lenL. lia. }
  eexists. exists st1. split.
  { unfold rebalanceCellIndices. cbv zeta.
    destruct (Z.eqb_spec (lenL cells) 0) as [E|_].
    { destruct cells; [congruence | unfold lenL in E; simpl in E; lia]. }
    unfold bindJ, ret. rewrite Hgen. fold sorted. rewrite Hassign.
    reflexivity. }
  cbn [newIndices].
  assert (Hskip : forall P : string -> Prop, Forall P keys -> Forall P rest).
  { intros P H. rewrite <- (firstn_skipn (Z.to_nat 2) keys) in H.
    apply Forall_app in H. tauto. }
  split; [apply reassigned_snd_sorted, StronglySorted_skipn, Hroom|].
  split; apply reassigned_snd_Forall, Hskip; assumption.
Qed.

(** X12.  The outcome of [fractionalIndexBetweenWithFallback], under a
    provider that keeps [randomInt] in range.  When the plain insertion
    returns, the result is its index and no rebalancing.  When it throws
    a crowding error, the list is not empty and [needsRebalancing]
    holds, the fallback always returns: it rebalances the list and the
    index it gives for the new cell is valid.  In every other case the
    error of the plain insertion is thrown on unchanged. *)
Theorem fallback_outcome (localeCompare : string -> string -> Z) (S : Type)
    (a b : option string) (allCells : list CellReference)
    (insertPosition : option Z) (jp : JitterProvider S) (st : S) :
  honoursRange jp ->
  match fractionalIndexBetween a b jp st with
  | (Ok index, st1) =>
      fractionalIndexBetweenWithFallback localeCompare a b allCells
        insertPosition jp st
      = (Ok {| fb_index := index; fb_needsRebalancing := false;
               fb_rebalanceResult := None |}, st1)
  | (Throw message, st1) =>
      if isCrowdingMessage message && (lenL allCells >? 0)
         && needsRebalancing localeCompare allCells insertPosition
      then
        exists rr st2 index st3,
          rebalanceCellIndices localeCompare allCells jp None None st1
          = (Ok rr, st2) /\
          fractionalIndexBetweenWithFallback localeCompare a b allCells
            insertPosition jp st
          = (Ok {| fb_index := index; fb_needsRebalancing := true;
                   fb_rebalanceResult := Some rr |}, st3) /\
          valid index
      else
        fractionalIndexBetweenWithFallback localeCompare a b allCells
          insertPosition jp st
        = (Throw message, st1)
  end.
Proof.
  intros Hjp.
  destruct (fractionalIndexBetween a b jp st) as [[index|message] st1]
    eqn:Eplain;
    cbv beta delta [fractionalIndexBetweenWithFallback tryCatch bindJ ret throw];
    rewrite Eplain; [reflexivity|].
  destruct (isCrowdingMessage message && (lenL allCells >? 0)
            && needsRebalancing localeCompare allCells insertPosition)
    eqn:Econd; [|reflexivity].
  apply andb_prop in Econd. destruct Econd as [Econd _].
  apply andb_prop in Econd. destruct Econd as [_ Hlen].
  assert (Hne : allCells <> [])
    by (intros ->; unfold lenL in Hlen; simpl in Hlen; discriminate).
  destruct (rebalance_runs localeCompare S allCells jp None st1 Hjp Hne)
    as (rr & st2 & Hrr & Hroom & Hval & Hfloor).
  destruct (calculateInsertionIndex_returns
              match insertPosition with Some p => p | None => lenL allCells end
              rr jp st2 Hjp Hroom Hval Hfloor)
    as (index & st3 & Hidx & Vidx).
  exists rr, st2, index, st3. split; [exact Hrr|]. split; [|exact Vidx].
  rewrite Hrr. cbv beta iota zeta. rewrite Hidx. reflexivity.
Qed.

Lemma fallback_outcome_witness :
  exists rr st2 index st3,
    rebalanceCellIndices defaultCompare crowdedCells zeroJitter None None tt
    = (Ok rr, st2) /\
    fractionalIndexBetweenWithFallback defaultCompare (Some "m") (Some "m0")
      crowdedCells (Some 1) zeroJitter tt
    = (Ok {| fb_index := index; fb_needsRebalancing := true;
             fb_rebalanceResult := Some rr |}, st3) /\
    valid index.
Proof.
  exact (fallback_outcome defaultCompare unit (Some "m") (Some "m0")
           crowdedCells (Some 1) zeroJitter tt zeroJitter_honoursRange).
Defined.

(** ** A move that rebalances *)

Lemma movesOf_movedEvents (actorId : string) (moves : list (string * string)) :
  movesOf (movedEvents actorId moves) = moves.
Proof.
  induction moves as [|[name k] moves IH]; [reflexivity|].
  cbn [movedEvents map movesOf flat_map app moved_id moved_fractionalIndex].
  f_equal. exact IH.
Qed.

(** A call of [moveCellBetween] that returns no event has drawn nothing
    from the jitter provider. *)
Lemma moveCellBetween_quiet (gtNull ltNull : string -> bool) (S : Type)
    (cell : CellReference) (cellBefore cellAfter : option CellReference)
    (actorId : option string) (jp : JitterProvider S) (st st' : S)
    (outcome : Result (option CellEvent)) :
  honoursRange jp ->
  moveCellBetween gtNull ltNull cell cellBefore cellAfter actorId jp st
  = (outcome, st') ->
  (forall event, outcome <> Ok (Some event)) ->
  st' = st.
Proof.
  intros Hjp. unfold moveCellBetween.
  destruct (negb (truthy (fractionalIndex cell)));
    [unfold ret; intros H _; injection H as _ <-; reflexivity|].
  cbv zeta.
  destruct (match isSome cellBefore, isSome cellAfter with
            | true, true => _ | true, false => _
            | false, true => _ | false, false => _ end);
    [unfold ret; intros H _; injection H as _ <-; reflexivity|].
  unfold bindJ, ret.
  destruct (fractionalIndexBetween (keyOf cellBefore) (keyOf cellAfter) jp st)
    as [[index|message] st1] eqn:Ek; intros H Hnone; injection H as <- <-.
  - elim (Hnone _ eq_refl).
  - revert Ek. unfold fractionalIndexBetween.
    destruct (generateKeyBetween (keyOf cellBefore) (keyOf cellAfter))
      as [key|m]; [|intros H; injection H as _ <-; reflexivity].
    destruct (random jp st) as [r st2].
    destruct (Qltb r jitterThreshold && (len key <? 10)); [|discriminate].
    pose proof (Hjp BASE st2 eq_refl) as Hn.
    destruct (randomInt jp BASE st2) as [n st3]. simpl in Hn.
    rewrite valueToChar_digit by (change BASE with 36 in Hn; lia).
    destruct (_ && _); discriminate.
Qed.

Lemma moveCellWithRebalancing_rebalance
    (localeCompare : string -> string -> Z) (gtNull ltNull : string -> bool)
    (S : Type) (cell : CellReference)
    (cellBefore cellAfter : option CellReference)
    (allCells : list CellReference) (actorId : option string)
    (jp : JitterProvider S) (st st' : S) (result : MoveWithRebalancing)
    (rr : RebalanceResult) :
  honoursRange jp ->
  moveCellWithRebalancing localeCompare gtNull ltNull cell cellBefore
    cellAfter allCells actorId jp st = (Ok result, st') ->
  mw_rebalanceResult result = Some rr ->
  allCells <> [] /\
  rebalanceCellIndices localeCompare allCells jp
    (Some (match actorId with Some x => x | None => "user" end
           ++ "-rebalance")) None st = (Ok rr, st').
Proof.
  intros Hjp. unfold moveCellWithRebalancing. cbv zeta. unfold bindJ at 1.
  destruct (tryCatch _ _ st) as [[moveEvent|message] st1] eqn:Etry;
    [|discriminate].
  destruct moveEvent as [moveEvent|].
  - unfold ret. intros H. injection H as <- _. discriminate.
  - assert (Est : st1 = st).
    { revert Etry. unfold tryCatch.
      destruct (moveCellBetween gtNull ltNull cell cellBefore cellAfter _ jp st)
        as [[event|message] st2] eqn:Emove.
      - intros H. injection H as -> <-.
        apply (moveCellBetween_quiet _ _ _ _ _ _ _ _ _ _ _ Hjp Emove).
        discriminate.
      - destruct (includes message "No string exists between");
          [|unfold throw; discriminate].
        unfold ret. intros H. injection H as <-.
        apply (moveCellBetween_quiet _ _ _ _ _ _ _ _ _ _ _ Hjp Emove).
        discriminate. }
    subst st1.
    destruct (needsRebalancing localeCompare allCells None) eqn:En.
    + unfold bindJ, ret.
      destruct (rebalanceCellIndices localeCompare allCells jp _ None st)
        as [[rr'|message] st2] eqn:Er; intros H; [|discriminate].
      injection H as <- <-. cbn [mw_rebalanceResult].
      intros E. injection E as <-. split; [|reflexivity].
      intros ->. discriminate En.
    + unfold ret. intros H. injection H as <- _. discriminate.
Qed.

(** X13.  A move that rebalances does not move.  When
    [moveCellBetweenWithRebalancing] reports [needsRebalancing] (cells
    with valid indices and distinct ids, [randomInt] in range, the
    collation ordering valid indices as their code units do), it
    reports [moved] as well, but the events it returns are exactly those
    of [rebalanceCellIndices] on [allCells], run from the same state of
    the jitter provider for the actor followed by [-rebalance]: no event
    carries the cell to the place asked for.  Once the events are
    applied every cell has a valid index, and the cells, the one to be
    moved included, stand in the order they had: of two cells the one
    with the smaller old index has the smaller new index, and two cells
    with the same old index take theirs in the order of [allCells]. *)
Theorem move_that_rebalances_keeps_order
    (localeCompare : string -> string -> Z) (gtNull ltNull : string -> bool)
    (S : Type) (cell : CellReference)
    (cellBefore cellAfter : option CellReference)
    (allCells : list CellReference) (actorId : option string)
    (jp : JitterProvider S) (st st' : S) (result : MoveOperationResult) :
  collatesIndices localeCompare ->
  honoursRange jp ->
  Forall validCell allCells ->
  NoDup (map id allCells) ->
  moveCellBetweenWithRebalancing localeCompare gtNull ltNull cell cellBefore
    cellAfter allCells actorId jp st = (Ok result, st') ->
  mo_needsRebalancing result = true ->
  let after := withNewIndices (movesOf (mo_events result)) allCells in
  mo_moved result = true /\
  mo_rebalanceCount result = Some (lenL (mo_events result)) /\
  (exists rebalanced,
     rebalanceCellIndices localeCompare allCells jp
       (Some (match orNull actorId with Some x => x | None => "user" end
              ++ "-rebalance")) None st = (Ok rebalanced, st') /\
     mo_events result = events rebalanced) /\
  Forall validCell after /\
  map id (sort (byFractionalIndex localeCompare) after)
  = map id (sort (byFractionalIndex localeCompare) allCells) /\
  forall (i j : nat) (c d c' d' : CellReference),
    (i < j)%nat ->
    nth_error allCells i = Some c -> nth_error allCells j = Some d ->
    nth_error after i = Some c' -> nth_error after j = Some d' ->
    id c' = id c /\ id d' = id d /\
    (cellLe c d -> cellLt c' d') /\
    (cellLt d c -> cellLt d' c').
Proof.
  intros Hcol Hjp Hvalid Hnd. unfold moveCellBetweenWithRebalancing.
  destruct (negb (truthy (fractionalIndex cell))).
  { unfold ret. intros H. injection H as <- _. discriminate. }
  cbv zeta. destruct (_ =? _).
  { unfold ret. intros H. injection H as <- _. discriminate. }
  unfold bindJ.
  destruct (moveCellWithRebalancing localeCompare gtNull ltNull cell
              cellBefore cellAfter allCells (orNull actorId) jp st)
    as [[r|message] st1] eqn:Er; [|discriminate].
  destruct (mw_needsRebalancing r);
    [destruct (mw_rebalanceResult r) as [rr|] eqn:Err|].
  - unfold ret. intros H _. injection H as <- <-.
    cbn [mo_events mo_moved mo_rebalanceCount].
    destruct (moveCellWithRebalancing_rebalance _ _ _ _ _ _ _ _ _ _ _ _ _ _
                Hjp Er Err) as (Hne & Hrr).
    destruct (rebalance_outcome localeCompare S allCells jp
                (Some (match orNull actorId with Some x => x | None => "user" end
                       ++ "-rebalance")) None st Hcol Hjp Hne Hnd)
      as (st2 & keys & Hrun & Hkeys & Hroom & Hlen & Hsorted); [lia|].
    cbv zeta in Hrun, Hsorted, Hlen. rewrite Hrr in Hrun.
    assert (Hn : newIndices rr
                 = reassigned (sort (byFractionalIndex localeCompare) allCells)
                     (skipn (Z.to_nat 2) keys))
      by (injection Hrun as E _; rewrite E; reflexivity).
    assert (He : events rr
                 = movedEvents
                     (match orNull actorId with Some x => x | None => "user" end
                      ++ "-rebalance") (newIndices rr))
      by (injection Hrun as E _; rewrite E; reflexivity).
    assert (Hrest : Forall valid (skipn (Z.to_nat 2) keys)).
    { rewrite <- (firstn_skipn (Z.to_nat 2) keys) in Hkeys.
      apply Forall_app in Hkeys. tauto. }
    rewrite He, movesOf_movedEvents, Hn.
    split; [reflexivity|]. split.
    { unfold movedEvents, lenL. rewrite length_map. reflexivity. }
    split.
    { exists rr. split; [exact Hrr|]. rewrite He, Hn. reflexivity. }
    split.
    { eapply Permutation_Forall; [apply sort_perm|].
      rewrite Hsorted. apply retagged_valid. exact Hrest. }
    split.
    { rewrite Hsorted. apply retagged_ids.
      rewrite (Permutation_length (sort_perm _ allCells)). exact Hlen. }
    apply (reassigned_keeps_order localeCompare allCells _ Hcol Hvalid Hnd);
      [|exact Hlen].
    apply StronglySorted_skipn.
    apply (StronglySorted_impl roomAbove slt);
      [apply roomAbove_lt | exact Hroom].
  - destruct (mw_moveEvent r); unfold ret; intros H; injection H as <- _;
      discriminate.
  - destruct (mw_moveEvent r); unfold ret; intros H; injection H as <- _;
      discriminate.
Qed.

Lemma move_that_rebalances_keeps_order_witness :
  let after := withNewIndices (movesOf (mo_events crowdedMoveResult))
                 unorderedCells in
  mo_moved crowdedMoveResult = true /\
  mo_rebalanceCount crowdedMoveResult
  = Some (lenL (mo_events crowdedMoveResult)) /\
  (exists rebalanced,
     rebalanceCellIndices defaultCompare unorderedCells zeroJitter
       (Some "test-user-rebalance") None tt = (Ok rebalanced, tt) /\
     mo_events crowdedMoveResult = events rebalanced) /\
  Forall validCell after /\
  map id (sort (byFractionalIndex defaultCompare) after)
  = map id (sort (byFractionalIndex defaultCompare) unorderedCells) /\
  forall (i j : nat) (c d c' d' : CellReference),
    (i < j)%nat ->
    nth_error unorderedCells i = Some c ->
    nth_error unorderedCells j = Some d ->
    nth_error after i = Some c' -> nth_error after j = Some d' ->
    id c' = id c /\ id d' = id d /\
    (cellLe c d -> cellLt c' d') /\
    (cellLt d c -> cellLt d' c').
Proof.
  apply (move_that_rebalances_keeps_order defaultCompare (fun _ => false)
           (fun _ => false) unit (sampleCell "c3" "m00")
           (Some (sampleCell "c1" "m")) (Some (sampleCell "c2" "m0"))
           unorderedCells (Some "test-user") zeroJitter tt tt
           crowdedMoveResult defaultCompare_collates zeroJitter_honoursRange).
  - repeat constructor; eexists; (split; [reflexivity|]); reflexivity.
  - repeat constructor; simpl; intuition discriminate.
  - vm_compute. reflexivity.
  - reflexivity.
Defined.

(** ** When a list of cells needs rebalancing *)

(** No valid index lies strictly between [k] and [k] followed by [0]. *)
Lemma no_index_between (k s : string) :
  all36 s = true -> slt k s -> slt s (k ++ "0") -> False.
Proof.
  unfold slt, str_lt, String.ltb.
  revert s. induction k as [|a k IH]; intros [|c r] H36; cbn [all36] in H36;
    cbn [append String.compare]; intros H1 H2; try discriminate.
  - apply andb_prop in H36. destruct H36 as [Hc _].
    rewrite (compare_base36 c "0" Hc base36_zero), value_zero_char in H2.
    pose proof (base36_range c Hc). revert H2.
    destruct (Z.compare_spec (indexOf c BASE36_DIGITS) 0);
      [destruct r; discriminate | lia | discriminate].
  - apply andb_prop in H36. destruct H36 as [_ Hr].
    rewrite (Ascii.compare_antisym a c) in H1. revert H1 H2.
    destruct (Ascii.compare c a); cbn [CompOpp]; try discriminate.
    apply (IH r Hr).
Qed.

Lemma validCell_key (c : CellReference) :
  validCell c -> fractionalIndex c = Some (keyStr c) /\ valid (keyStr c).
Proof. intros (k & E & Vk). unfold keyStr. rewrite E. auto. Qed.

Lemma anyAdjacentThrows_spaced (l : list CellReference) :
  Forall validCell l ->
  anyAdjacentThrows l = false -> Sorted spaced (map keyStr l).
Proof.
  induction 1 as [|x l Vx Vl IH]; intros Hany; [constructor|].
  destruct l as [|y l']; [repeat constructor|].
  rewrite anyAdjacentThrows_step in Hany.
  apply orb_false_iff in Hany. destruct Hany as [Hxy Hrest].
  cbn [map]. constructor; [apply IH; exact Hrest|]. constructor.
  destruct (validCell_key x Vx) as [Ex Vkx].
  destruct (validCell_key y (Forall_inv Vl)) as [Ey Vky].
  rewrite Ex, Ey in Hxy.
  rewrite (truthy_nonempty _ (valid_nonempty _ Vkx)) in Hxy.
  rewrite (truthy_nonempty _ (valid_nonempty _ Vky)) in Hxy.
  cbn [andb] in Hxy.
  destruct (insertionThrows_room_inv (keyStr x) (keyStr y) Vkx Vky Hxy).
  split; assumption.
Qed.

Lemma anyAdjacentThrows_pair (l : list CellReference) :
  Forall validCell l ->
  anyAdjacentThrows l = true ->
  exists pre x y post,
    l = (pre ++ x :: y :: post)%list /\
    (~ slt (keyStr x) (keyStr y) \/ keyStr y = keyStr x ++ "0").
Proof.
  induction 1 as [|x l Vx Vl IH]; intros Hany; [discriminate|].
  destruct l as [|y l']; [discriminate|].
  rewrite anyAdjacentThrows_step in Hany.
  apply orb_true_iff in Hany. destruct Hany as [Hxy|Hrest].
  - exists [], x, y, l'. split; [reflexivity|].
    destruct (validCell_key x Vx) as [Ex Vkx].
    destruct (validCell_key y (Forall_inv Vl)) as [Ey Vky].
    rewrite Ex, Ey in Hxy.
    apply andb_prop in Hxy. destruct Hxy as [_ Hxy].
    apply (insertionThrows_crowded (keyStr x) (keyStr y) Vkx Vky Hxy).
  - destruct (IH Hrest) as (pre & x' & y' & post & E & Hc).
    exists (x :: pre), x', y', post. split; [|exact Hc].
    rewrite E. reflexivity.
Qed.

Lemma spaced_sorted (ks : list string) :
  Forall valid ks -> Sorted spaced ks ->
  StronglySorted slt ks /\
  forall k, In k ks -> In (k ++ "0") ks -> False.
Proof.
  intros Hval Hs.
  assert (Hstrict : StronglySorted slt ks).
  { apply Sorted_StronglySorted; [apply slt_transitive|].
    clear Hval. induction Hs as [|x l _ IH Hhd]; constructor; [exact IH|].
    destruct Hhd as [|y l' [Hxy _]]; constructor. exact Hxy. }
  split; [exact Hstrict|].
  clear Hstrict. induction Hs as [|x l Hs IH Hhd]; intros k Hk Hk0;
    [destruct Hk|].
  apply Forall_cons_iff in Hval. destruct Hval as [Vx Vl].
  assert (Hl : StronglySorted slt (x :: l)).
  { apply Sorted_StronglySorted; [apply slt_transitive|].
    constructor.
    - clear - Hs. induction Hs as [|z l _ IH Hhd]; constructor; [exact IH|].
      destruct Hhd as [|y l' [Hxy _]]; constructor. exact Hxy.
    - destruct Hhd as [|y l' [Hxy _]]; constructor. exact Hxy. }
  apply StronglySorted_inv in Hl. destruct Hl as [Hl Hx].
  rewrite Forall_forall in Hx.
  assert (Hk_lt : slt k (k ++ "0")) by (apply lt_app_nonempty; discriminate).
  destruct Hk as [<-|Hk], Hk0 as [E|Hk0].
  - apply (lt_irrefl x). rewrite E at 2. exact Hk_lt.
  - destruct Hhd as [|y l' [Hxy Hne]]; [destruct Hk0|].
    destruct Hk0 as [E|Hk0]; [congruence|].
    apply StronglySorted_inv in Hl. destruct Hl as [_ Hy].
    rewrite Forall_forall in Hy.
    apply (no_index_between x y);
      [apply valid_all36, (Forall_inv Vl) | exact Hxy | apply Hy; exact Hk0].
  - apply (lt_asym k (k ++ "0") Hk_lt). rewrite <- E. apply Hx. exact Hk.
  - apply (IH Vl k Hk Hk0).
Qed.

Lemma increasing_NoDup (ks : list string) :
  StronglySorted slt ks -> NoDup (map Some ks).
Proof.
  induction 1 as [|x l _ IH Hall]; cbn [map]; constructor; [|exact IH].
  intros Hin. apply in_map_iff in Hin. destruct Hin as (y & E & Hy).
  injection E as ->. rewrite Forall_forall in Hall.
  exact (lt_irrefl x (Hall x Hy)).
Qed.

Lemma needsRebalancing_false_inv (localeCompare : string -> string -> Z)
    (cells : list CellReference) :
  collatesIndices localeCompare ->
  Forall validCell cells ->
  needsRebalancing localeCompare cells None = false ->
  NoDup (map fractionalIndex cells) /\
  forall c1 c2 k,
    In c1 cells -> In c2 cells ->
    fractionalIndex c1 = Some k ->
    fractionalIndex c2 = Some (k ++ "0") -> False.
Proof.
  intros Hcol Hval.
  set (sorted := sort (byFractionalIndex localeCompare) cells).
  assert (Hperm : Permutation sorted cells) by apply sort_perm.
  assert (Hsval : Forall validCell sorted)
    by (eapply Permutation_Forall; [apply Permutation_sym, Hperm | exact Hval]).
  assert (Hkeys : forall l, Forall validCell l ->
                            map fractionalIndex l = map Some (map keyStr l)).
  { intros l Hl. rewrite map_map. apply map_ext_in. intros c Hc.
    rewrite Forall_forall in Hl. apply (validCell_key c (Hl c Hc)). }
  unfold needsRebalancing. destruct (Z.ltb_spec (lenL cells) 2) as [Hlen|_].
  - intros _. destruct cells as [|c [|c' cells']];
      [| |unfold lenL in Hlen; simpl in Hlen; lia].
    + split; [constructor|]. intros c1 c2 k [].
    + split; [repeat constructor; intros []|].
      intros c1 c2 k [<-|[]] [<-|[]] E1 E2. rewrite E1 in E2.
      injection E2 as E2. apply (lt_irrefl k). rewrite E2 at 2.
      apply lt_app_nonempty. discriminate.
  - cbv zeta. fold sorted.
    destruct (anyAdjacentThrows sorted) eqn:Hany; [discriminate|]. intros _.
    pose proof (anyAdjacentThrows_spaced sorted Hsval Hany) as Hsp.
    assert (Hkval : Forall valid (map keyStr sorted)).
    { apply Forall_forall. intros k Hk. apply in_map_iff in Hk.
      destruct Hk as (c & <- & Hc). rewrite Forall_forall in Hsval.
      apply (validCell_key c (Hsval c Hc)). }
    destruct (spaced_sorted _ Hkval Hsp) as [Hstrict Hno]. split.
    + eapply Permutation_NoDup; [apply Permutation_map; exact Hperm|].
      rewrite (Hkeys sorted Hsval). apply increasing_NoDup, Hstrict.
    + intros c1 c2 k H1 H2 E1 E2. apply (Hno k).
      * apply in_map_iff. exists c1. split.
        -- unfold keyStr. rewrite E1. reflexivity.
        -- eapply Permutation_in; [apply Permutation_sym, Hperm | exact H1].
      * apply in_map_iff. exists c2. split.
        -- unfold keyStr. rewrite E2. reflexivity.
        -- eapply Permutation_in; [apply Permutation_sym, Hperm | exact H2].
Qed.

(** X14.  When a list of cells needs rebalancing.  For cells that all
    carry valid indices (under a collation ordering valid indices as
    their code units do), [needsRebalancing] without an insert position
    holds exactly when two cells share an index, or the index of one
    cell is that of another followed by a single [0]. *)
Theorem needsRebalancing_spec (localeCompare : string -> string -> Z)
    (cells : list CellReference) :
  collatesIndices localeCompare ->
  Forall validCell cells ->
  (needsRebalancing localeCompare cells None = true
   <-> (~ NoDup (map fractionalIndex cells) \/
        exists c1 c2 k,
          In c1 cells /\ In c2 cells /\
          fractionalIndex c1 = Some k /\
          fractionalIndex c2 = Some (k ++ "0"))).
Proof.
  intros Hcol Hval.
  set (sorted := sort (byFractionalIndex localeCompare) cells).
  assert (Hperm : Permutation sorted cells) by apply sort_perm.
  assert (Hsval : Forall validCell sorted)
    by (eapply Permutation_Forall; [apply Permutation_sym, Hperm | exact Hval]).
  assert (Hsorted : StronglySorted cellLe sorted)
    by (apply (sort_sorted localeCompare Hcol); exact Hval).
  pose proof (needsRebalancing_false_inv localeCompare cells Hcol Hval)
    as Hfalse.
  split.
  - unfold needsRebalancing. destruct (lenL cells <? 2); [discriminate|].
    cbv zeta. fold sorted.
    destruct (anyAdjacentThrows sorted) eqn:Hany; [|discriminate]. intros _.
    destruct (anyAdjacentThrows_pair sorted Hsval Hany)
      as (pre & x & y & post & E & Hc).
    assert (Hx : In x sorted) by (rewrite E; apply in_or_app; right; left; reflexivity).
    assert (Hy : In y sorted)
      by (rewrite E; apply in_or_app; right; right; left; reflexivity).
    rewrite Forall_forall in Hsval.
    destruct (validCell_key x (Hsval x Hx)) as [Ex Vkx].
    destruct (validCell_key y (Hsval y Hy)) as [Ey Vky].
    destruct Hc as [Hge|Hadj].
    + left. intros Hnd.
      assert (Hnd' : NoDup (map fractionalIndex sorted))
        by (eapply Permutation_NoDup;
            [apply Permutation_map, Permutation_sym, Hperm | exact Hnd]).
      assert (Heq : keyStr x = keyStr y).
      { rewrite E in Hsorted. apply StronglySorted_app_inv in Hsorted.
        destruct Hsorted as [_ Hs]. apply StronglySorted_inv in Hs.
        destruct Hs as [_ Hall]. apply Forall_inv in Hall.
        unfold cellLe in Hall. fold (keyStr x) (keyStr y) in Hall.
        destruct (lt_total (keyStr x) (keyStr y)) as [H|[H|H]];
          [contradiction | exact H | contradiction]. }
      rewrite E, map_app in Hnd'. cbn [map] in Hnd'.
      apply NoDup_remove_2 in Hnd'. apply Hnd'.
      apply in_or_app. right. left. rewrite Ex, Ey, Heq. reflexivity.
    + right. exists x, y, (keyStr x).
      repeat split; try (eapply Permutation_in; [exact Hperm|]; assumption).
      * exact Ex.
      * rewrite Ey, Hadj. reflexivity.
  - intros Hrhs.
    destruct (needsRebalancing localeCompare cells None) eqn:En;
      [reflexivity|].
    destruct (Hfalse eq_refl) as [Hnd Hno].
    destruct Hrhs as [Hdup|(c1 & c2 & k & H1 & H2 & E1 & E2)];
      [elim (Hdup Hnd) | elim (Hno c1 c2 k H1 H2 E1 E2)].
Qed.

Lemma needsRebalancing_spec_witness :
  needsRebalancing defaultCompare crowdedCells None = true
  <-> (~ NoDup (map fractionalIndex crowdedCells) \/
       exists c1 c2 k,
         In c1 crowdedCells /\ In c2 crowdedCells /\
         fractionalIndex c1 = Some k /\
         fractionalIndex c2 = Some (k ++ "0")).
Proof.
  apply (needsRebalancing_spec defaultCompare crowdedCells
           defaultCompare_collates).
  repeat constructor; eexists; (split; [reflexivity|]); reflexivity.
Defined.

(** ** Creating a cell between two cells *)

Lemma needsRebalancing_position (localeCompare : string -> string -> Z)
    (cells : list CellReference) (insertPosition : option Z) :
  needsRebalancing localeCompare cells None = true ->
  needsRebalancing localeCompare cells insertPosition = true.
Proof.
  unfold needsRebalancing. destruct (lenL cells <? 2); [discriminate|].
  cbv zeta. destruct (anyAdjacentThrows _); [reflexivity | discriminate].
Qed.

(** X15.  Creating a cell between two cells of the list always works.
    Let every cell of [allCells] carry a valid index, and let
    [cellBefore] and [cellAfter] be two of them with indices [p < n]
    (the collation ordering valid indices as their code units do,
    [randomInt] in range).  Then [createCellBetween] returns, its last
    event is the [v2.CellCreated] of the new cell, and the index of that
    event is valid.  Unless [n] is [p] followed by a single [0] that
    event is the only one, nothing is rebalanced, and the index lies
    strictly between [p] and [n]; when [n] is [p] followed by [0] the
    list is rebalanced first, and the events of the rebalance precede
    the creation. *)
Theorem createCellBetween_between (localeCompare : string -> string -> Z)
    (S : Type) (cellData : CellData) (b a : CellReference) (p n : string)
    (allCells : list CellReference) (jp : JitterProvider S) (st : S) :
  collatesIndices localeCompare ->
  honoursRange jp ->
  Forall validCell allCells ->
  In b allCells -> In a allCells ->
  fractionalIndex b = Some p -> fractionalIndex a = Some n ->
  slt p n ->
  exists result index st',
    createCellBetween localeCompare cellData (Some b) (Some a) allCells jp st
    = (Ok result, st') /\
    co_newCellId result = cd_id cellData /\
    valid index /\
    (n <> p ++ "0" ->
     co_events result = [createdEvent cellData index] /\
     co_needsRebalancing result = false /\
     co_rebalanceCount result = None /\
     slt p index /\ slt index n) /\
    (n = p ++ "0" ->
     co_needsRebalancing result = true /\
     exists rr st1,
       rebalanceCellIndices localeCompare allCells jp None None st
       = (Ok rr, st1) /\
       co_events result
       = (events rr ++ [createdEvent cellData index])%list /\
       co_rebalanceCount result = Some (lenL (newIndices rr))).
Proof.
  intros Hcol Hjp Hval Hb Ha Ep En Hlt.
  assert (Vp : valid p).
  { rewrite Forall_forall in Hval. destruct (Hval b Hb) as (k & E & Vk).
    congruence. }
  assert (Vn : valid n).
  { rewrite Forall_forall in Hval. destruct (Hval a Ha) as (k & E & Vk).
    congruence. }
  assert (Kb : keyOf (Some b) = Some p)
    by (apply keyOf_indexed; split; [exact Ep | apply valid_nonempty, Vp]).
  assert (Ka : keyOf (Some a) = Some n)
    by (apply keyOf_indexed; split; [exact En | apply valid_nonempty, Vn]).
  unfold createCellBetween. cbv zeta. cbn [isSome negb andb].
  rewrite Kb, Ka.
  destruct (generateKeyBetween_spec p n Vp Vn Hlt) as [Hthrow Hok].
  destruct (String.string_dec n (p ++ "0")) as [Eadj|Nadj].
  - (* crowded: the fallback rebalances *)
    assert (Hplain : fractionalIndexBetween (Some p) (Some n) jp st
                     = (Throw (noStringBetween p n), st))
      by (unfold fractionalIndexBetween; rewrite (Hthrow Eadj); reflexivity).
    assert (Hne : allCells <> []) by (intros E; rewrite E in Hb; destruct Hb).
    assert (Hlen : (lenL allCells >? 0) = true).
    { destruct allCells; [congruence|]. unfold lenL. simpl. reflexivity. }
    assert (Hneeds : forall pos,
               needsRebalancing localeCompare allCells pos = true).
    { intros pos. apply needsRebalancing_position.
      destruct (needsRebalancing localeCompare allCells None) eqn:E;
        [reflexivity|].
      destruct (needsRebalancing_false_inv localeCompare allCells Hcol Hval E)
        as [_ Hno].
      elim (Hno b a p Hb Ha Ep). rewrite En, Eadj. reflexivity. }
    destruct (rebalance_runs localeCompare S allCells jp None st Hjp Hne)
      as (rr & st1 & Hrr & Hroom & Hvalid & Hfloor).
    destruct (calculateInsertionIndex_returns
                (positionOf (Some b) (Some a) allCells (lenL allCells))
                rr jp st1 Hjp Hroom Hvalid Hfloor)
      as (index & st2 & Hidx & Vidx).
    eexists. exists index, st2. split.
    { cbv beta delta [fractionalIndexBetweenWithFallback tryCatch bindJ ret
                        throw].
      rewrite Hplain. cbv beta iota.
      rewrite noStringBetween_crowding, Hlen, Hneeds.
      cbv beta iota delta [andb].
      rewrite Hrr. cbv beta iota zeta. rewrite Hidx. reflexivity. }
    cbn [co_newCellId co_events co_needsRebalancing co_rebalanceCount
         fb_needsRebalancing fb_rebalanceResult fb_index].
    split; [reflexivity|]. split; [exact Vidx|]. split; [congruence|].
    intros _. split; [reflexivity|]. exists rr, st1. auto.
  - destruct (Hok Nadj) as (key & Hkey & _).
    destruct (fractionalIndexBetween_returns (Some p) (Some n) jp st key Hjp
                Hkey) as (index & st1 & Hidx).
    destruct (fractionalIndexBetween_sound p n jp st st1 index Vp Vn Hlt Hidx)
      as (H1 & H2 & Vidx).
    eexists. exists index, st1. split.
    { cbv beta delta [fractionalIndexBetweenWithFallback tryCatch bindJ ret
                        throw].
      rewrite Hidx. reflexivity. }
    cbn [co_newCellId co_events co_needsRebalancing co_rebalanceCount
         fb_needsRebalancing fb_rebalanceResult fb_index app].
    split; [reflexivity|]. split; [exact Vidx|]. split; [|congruence].
    intros _. auto.
Qed.

Lemma createCellBetween_between_witness :
  exists result index st',
    createCellBetween defaultCompare sampleCellData
      (Some (sampleCell "c1" "m")) (Some (sampleCell "c2" "m0")) crowdedCells
      zeroJitter tt
    = (Ok result, st') /\
    co_newCellId result = cd_id sampleCellData /\
    valid index /\
    ("m0" <> "m" ++ "0" ->
     co_events result = [createdEvent sampleCellData index] /\
     co_needsRebalancing result = false /\
     co_rebalanceCount result = None /\
     slt "m" index /\ slt index "m0") /\
    ("m0" = "m" ++ "0" ->
     co_needsRebalancing result = true /\
     exists rr st1,
       rebalanceCellIndices defaultCompare crowdedCells zeroJitter None None tt
       = (Ok rr, st1) /\
       co_events result
       = (events rr ++ [createdEvent sampleCellData index])%list /\
       co_rebalanceCount result = Some (lenL (newIndices rr))).
Proof.
  apply (createCellBetween_between defaultCompare unit sampleCellData
           (sampleCell "c1" "m") (sampleCell "c2" "m0") "m" "m0" crowdedCells
           zeroJitter tt defaultCompare_collates zeroJitter_honoursRange).
  - repeat constructor; eexists; (split; [reflexivity|]); reflexivity.
  - simpl. auto.
  - simpl. auto.
  - reflexivity.
  - reflexivity.
  - reflexivity.
Defined.

(** ** Creating a cell next to one cell *)

Lemma createCellBetween_plain (localeCompare : string -> string -> Z)
    (S : Type) (cellData : CellData)
    (cellBefore cellAfter : option CellReference)
    (allCells : list CellReference) (jp : JitterProvider S) (st st' : S)
    (index : string) :
  isSome cellBefore || isSome cellAfter = true ->
  fractionalIndexBetween (keyOf cellBefore) (keyOf cellAfter) jp st
  = (Ok index, st') ->
  createCellBetween localeCompare cellData cellBefore cellAfter allCells jp st
  = (Ok {| co_events := [createdEvent cellData index];
           co_newCellId := cd_id cellData;
           co_needsRebalancing := false;
           co_rebalanceCount := None |}, st').
Proof.
  intros Hsome Hidx. unfold createCellBetween. cbv zeta.
  assert (Hlast : negb (isSome cellBefore) && negb (isSome cellAfter)
                  && (lenL allCells >? 0) = false).
  { destruct (isSome cellBefore), (isSome cellAfter);
      try reflexivity; discriminate. }
  rewrite Hlast.
  cbv beta delta [fractionalIndexBetweenWithFallback tryCatch bindJ ret throw].
  rewrite Hidx. reflexivity.
Qed.

(** X26.  Creating a cell next to one cell.  With only [cellBefore]
    given, carrying a valid index, [createCellBetween] returns the
    single [v2.CellCreated] event of the new cell, without rebalancing,
    whatever [allCells] holds, and the index of the event is a valid
    index above that of [cellBefore].  With only [cellAfter] given, its
    index valid and not made of zeros only, the same holds with an
    index below that of [cellAfter]. *)
Theorem createCellBetween_one_sided (localeCompare : string -> string -> Z)
    (S : Type) (cellData : CellData) (c : CellReference) (k : string)
    (allCells : list CellReference) (jp : JitterProvider S) (st : S) :
  honoursRange jp ->
  fractionalIndex c = Some k ->
  valid k ->
  (exists index st',
     createCellBetween localeCompare cellData (Some c) None allCells jp st
     = (Ok {| co_events := [createdEvent cellData index];
              co_newCellId := cd_id cellData;
              co_needsRebalancing := false;
              co_rebalanceCount := None |}, st') /\
     valid index /\ slt k index) /\
  ((firstNot "0" k < String.length k)%nat ->
   exists index st',
     createCellBetween localeCompare cellData None (Some c) allCells jp st
     = (Ok {| co_events := [createdEvent cellData index];
              co_newCellId := cd_id cellData;
              co_needsRebalancing := false;
              co_rebalanceCount := None |}, st') /\
     valid index /\ slt index k).
Proof.
  intros Hjp Ek Vk.
  assert (Kc : keyOf (Some c) = Some k)
    by (apply keyOf_indexed; split; [exact Ek | apply valid_nonempty, Vk]).
  split.
  - destruct (fractionalIndexBetween_open_end (Some k) jp st Hjp)
      as (index & st' & Hidx & Vi & Hlt).
    { intros p E. injection E as <-. exact Vk. }
    exists index, st'. split; [|split; [exact Vi | apply Hlt; reflexivity]].
    apply createCellBetween_plain; [reflexivity|].
    rewrite Kc. exact Hidx.
  - intros Hnz.
    destruct (generateKeyBefore_below k Vk Hnz) as (key & Hkey & Hlt & Vkey).
    rewrite <- (generateKeyBetween_before k Vk) in Hkey.
    destruct (fractionalIndexBetween_valid None (Some k) jp st key Hjp Hkey
                Vkey) as (index & st' & Hidx & Vi).
    exists index, st'. split; [|split; [exact Vi|]].
    + apply createCellBetween_plain; [reflexivity|].
      rewrite Kc. exact Hidx.
    + apply fractionalIndexBetween_cases in Hidx.
      destruct Hidx as (key' & Hkey' & Hcase).
      rewrite Hkey in Hkey'. injection Hkey' as <-.
      destruct Hcase as [->|(n & _ & -> & _ & Hb)]; [exact Hlt|].
      apply Hb. apply truthy_nonempty, valid_nonempty, Vk.
Qed.

Lemma createCellBetween_one_sided_witness :
  (exists index st',
     createCellBetween defaultCompare sampleCellData
       (Some (sampleCell "c1" "m")) None crowdedCells zeroJitter tt
     = (Ok {| co_events := [createdEvent sampleCellData index];
              co_newCellId := cd_id sampleCellData;
              co_needsRebalancing := false;
              co_rebalanceCount := None |}, st') /\
     valid index /\ slt "m" index) /\
  ((firstNot "0" "m" < String.length "m")%nat ->
   exists index st',
     createCellBetween defaultCompare sampleCellData None
       (Some (sampleCell "c1" "m")) crowdedCells zeroJitter tt
     = (Ok {| co_events := [createdEvent sampleCellData index];
              co_newCellId := cd_id sampleCellData;
              co_needsRebalancing := false;
              co_rebalanceCount := None |}, st') /\
     valid index /\ slt index "m").
Proof.
  apply (createCellBetween_one_sided defaultCompare unit sampleCellData
           (sampleCell "c1" "m") "m" crowdedCells zeroJitter tt
           zeroJitter_honoursRange); reflexivity.
Defined.

(** ** Where a creation that rebalances puts the new cell *)

Lemma sort_already_sorted (localeCompare : string -> string -> Z)
    (l : list CellReference) :
  collatesIndices localeCompare ->
  Forall validCell l -> StronglySorted cellLt l ->
  sort (byFractionalIndex localeCompare) l = l.
Proof.
  intros Hcol Hval Hs. symmetry.
  apply (sorted_perm_unique cellLt cellLe).
  - intros x y Hxy Hyx. exact (Hyx Hxy).
  - exact Hs.
  - apply (sort_sorted localeCompare Hcol). exact Hval.
  - apply Permutation_sym, sort_perm.
Qed.

(** When every cell is reassigned, cell [i] takes key [i]. *)
Lemma reassigned_all (cs : list CellReference) (ks : list string) :
  List.length (reassigned cs ks) = List.length cs ->
  map snd (reassigned cs ks) = firstn (List.length cs) ks /\
  forall i c k,
    nth_error cs i = Some c -> nth_error ks i = Some k ->
    In (id c, k) (reassigned cs ks).
Proof.
  revert ks. induction cs as [|c cs IH]; intros ks Hlen.
  - split; [reflexivity|]. intros [|i] c k H; discriminate.
  - destruct ks as [|k ks]; [discriminate|].
    pose proof (reassigned_length cs ks) as Hle.
    assert (Hstep : reassigned (c :: cs) (k :: ks)
                    = (id c, k) :: reassigned cs ks).
    { cbn [reassigned] in Hlen |- *.
      destruct (fractionalIndex c) as [old|]; [|reflexivity].
      destruct (String.eqb old k); [|reflexivity].
      cbn [List.length] in Hlen. lia. }
    rewrite Hstep in Hlen |- *. cbn [List.length] in Hlen.
    destruct (IH ks) as [Hsnd Hnth]; [lia|]. split.
    + cbn [map snd List.length firstn]. rewrite Hsnd. reflexivity.
    + intros [|i] c' k' Hc Hk; cbn [nth_error] in Hc, Hk.
      * injection Hc as <-. injection Hk as <-. left. reflexivity.
      * right. exact (Hnth i c' k' Hc Hk).
Qed.

Lemma findIndex_from_app (name : string) (pre post : list CellReference)
    (c : CellReference) (start : Z) :
  ~ In name (map id pre) -> id c = name ->
  findIndex_from (fun x => String.eqb (id x) name) (pre ++ c :: post) start
  = start + lenL pre.
Proof.
  revert start. induction pre as [|x pre IH]; intros start Hfresh Hc.
  - cbn [app findIndex_from]. rewrite Hc, String.eqb_refl.
    unfold lenL. simpl. lia.
  - cbn [app findIndex_from].
    destruct (String.eqb_spec (id x) name) as [E|_].
    + elim Hfresh. left. exact E.
    + rewrite IH; [|intros H; apply Hfresh; right; exact H | exact Hc].
      unfold lenL. cbn [List.length]. lia.
Qed.

(** X11.  Where a creation that rebalances puts the new cell.  Let
    [allCells] be given in increasing order of valid indices, with
    distinct ids, and let [cellBefore] and [cellAfter] be neighbours in
    it.  If [createCellBetween] returns with a [rebalanceCount] equal to
    the number of cells (every cell took a new index), then its events
    hold a [v2.CellMoved] for [cellBefore] and one for [cellAfter], both
    by [system], and the [v2.CellCreated] of the new cell carries a
    valid index strictly between the new indices of the two. *)
Theorem createCellBetween_rebalanced_between
    (localeCompare : string -> string -> Z) (S : Type) (cellData : CellData)
    (pre post : list CellReference) (b a : CellReference)
    (jp : JitterProvider S) (st st' : S) (result : CellOperationResult) :
  collatesIndices localeCompare ->
  honoursRange jp ->
  Forall validCell (pre ++ b :: a :: post) ->
  StronglySorted cellLt (pre ++ b :: a :: post) ->
  NoDup (map id (pre ++ b :: a :: post)) ->
  createCellBetween localeCompare cellData (Some b) (Some a)
    (pre ++ b :: a :: post) jp st = (Ok result, st') ->
  co_rebalanceCount result = Some (lenL (pre ++ b :: a :: post)) ->
  exists kb ka index,
    In (movedEvent b kb (Some "system")) (co_events result) /\
    In (movedEvent a ka (Some "system")) (co_events result) /\
    In (createdEvent cellData index) (co_events result) /\
    slt kb index /\ slt index ka /\ valid index.
Proof.
  intros Hcol Hjp Hval Hsorted Hnd.
  set (allCells := (pre ++ b :: a :: post)%list) in *.
  assert (Hne : allCells <> [])
    by (unfold allCells; destruct pre; discriminate).
  assert (Hpos : positionOf (Some b) (Some a) allCells (lenL allCells)
                 = lenL pre + 1).
  { cbn [positionOf]. unfold findIndex, allCells.
    rewrite (findIndex_from_app (id b) pre (a :: post) b 0); [lia| |reflexivity].
    unfold allCells in Hnd. rewrite map_app in Hnd. cbn [map] in Hnd.
    apply NoDup_remove_2 in Hnd. intros H. apply Hnd.
    apply in_or_app. left. exact H. }
  unfold createCellBetween. cbv zeta. cbn [isSome negb andb].
  rewrite Hpos.
  cbv beta delta [fractionalIndexBetweenWithFallback tryCatch bindJ ret throw].
  destruct (fractionalIndexBetween (keyOf (Some b)) (keyOf (Some a)) jp st)
    as [[plain|message] st1].
  { intros H. injection H as <- _. discriminate. }
  destruct (isCrowdingMessage message && (lenL allCells >? 0)
            && needsRebalancing localeCompare allCells (Some (lenL pre + 1)));
    [|discriminate].
  destruct (rebalance_outcome localeCompare S allCells jp None None st1 Hcol
              Hjp Hne Hnd) as (st2 & keys & Hrun & Hkval & Hroom & Hlen & _);
    [lia|].
  cbv zeta in Hrun, Hlen.
  rewrite (sort_already_sorted localeCompare allCells Hcol Hval Hsorted)
    in Hrun.
  set (rest := skipn (Z.to_nat 2) keys) in *.
  rewrite Hrun. cbv beta iota zeta.
  destruct (calculateInsertionIndexAfterRebalancing (lenL pre + 1) _ jp st2)
    as [[index|message'] st3] eqn:Hcalc; [|discriminate].
  intros H. injection H as <- _.
  cbn [co_events co_rebalanceCount fb_needsRebalancing fb_rebalanceResult
       fb_index newIndices events].
  intros Hcount. injection Hcount as Hcount.
  assert (Hfull : List.length (reassigned allCells rest)
                  = List.length allCells) by (unfold lenL in Hcount; lia).
  destruct (reassigned_all allCells rest Hfull) as [Hsnd Hnth].
  assert (Hrest : Forall valid rest).
  { unfold rest. rewrite <- (firstn_skipn (Z.to_nat 2) keys) in Hkval.
    apply Forall_app in Hkval. tauto. }
  assert (Hrsort : StronglySorted slt rest).
  { apply StronglySorted_skipn.
    apply (StronglySorted_impl roomAbove slt); [apply roomAbove_lt | exact Hroom]. }
  (* the keys at the positions of the two neighbours *)
  assert (Hb_at : nth_error allCells (List.length pre) = Some b).
  { unfold allCells. rewrite nth_error_app2 by lia.
    rewrite Nat.sub_diag. reflexivity. }
  assert (Ha_at : nth_error allCells (Datatypes.S (List.length pre)) = Some a).
  { unfold allCells. rewrite nth_error_app2 by lia.
    replace (Datatypes.S (List.length pre) - List.length pre)%nat with 1%nat by lia.
    reflexivity. }
  assert (Hsize : (Datatypes.S (List.length pre) < List.length allCells)%nat)
    by (apply nth_error_Some; rewrite Ha_at; discriminate).
  destruct (nth_error rest (List.length pre)) as [kb|] eqn:Ekb;
    [|apply nth_error_None in Ekb; lia].
  destruct (nth_error rest (Datatypes.S (List.length pre))) as [ka|] eqn:Eka;
    [|apply nth_error_None in Eka; lia].
  assert (Vkb : valid kb)
    by (rewrite Forall_forall in Hrest; eapply Hrest, nth_error_In, Ekb).
  assert (Vka : valid ka)
    by (rewrite Forall_forall in Hrest; eapply Hrest, nth_error_In, Eka).
  assert (Hlt : slt kb ka).
  { apply (StronglySorted_nth slt rest (List.length pre)
             (Datatypes.S (List.length pre))); [exact Hrsort | lia | exact Ekb | exact Eka]. }
  (* the insertion index is computed between these two keys *)
  unfold calculateInsertionIndexAfterRebalancing in Hcalc. cbv zeta in Hcalc.
  cbn [newIndices] in Hcalc. rewrite Hsnd in Hcalc.
  rewrite (sort_increasing (firstn (List.length allCells) rest))
    in Hcalc by (apply StronglySorted_firstn; exact Hrsort).
  assert (HlenL : lenL (firstn (List.length allCells) rest) = lenL allCells).
  { unfold lenL. rewrite length_firstn. lia. }
  rewrite HlenL in Hcalc.
  pose proof (Zle_0_nat (List.length pre)) as Hp0.
  destruct (Z.eqb_spec (lenL pre + 1) 0) as [E|_]; [unfold lenL in E; lia|].
  destruct (Z.geb_spec (lenL pre + 1) (lenL allCells)) as [E|_];
    [unfold lenL in E; lia|].
  assert (Hat_b : at_ (firstn (List.length allCells) rest) (lenL pre + 1 - 1)
                  = Some kb).
  { unfold at_, lenL.
    destruct (Z.ltb_spec (Z.of_nat (List.length pre) + 1 - 1) 0); [lia|].
    replace (Z.to_nat (Z.of_nat (List.length pre) + 1 - 1))
      with (List.length pre) by lia.
    rewrite nth_error_firstn.
    destruct (Nat.ltb_spec (List.length pre) (List.length allCells));
      [exact Ekb | lia]. }
  assert (Hat_a : at_ (firstn (List.length allCells) rest) (lenL pre + 1)
                  = Some ka).
  { unfold at_, lenL.
    destruct (Z.ltb_spec (Z.of_nat (List.length pre) + 1) 0); [lia|].
    replace (Z.to_nat (Z.of_nat (List.length pre) + 1))
      with (Datatypes.S (List.length pre)) by lia.
    rewrite nth_error_firstn.
    destruct (Nat.ltb_spec (Datatypes.S (List.length pre)) (List.length allCells));
      [exact Eka | lia]. }
  rewrite Hat_b, Hat_a in Hcalc.
  destruct (fractionalIndexBetween_sound kb ka jp st2 st3 index Vkb Vka Hlt
              Hcalc) as (H1 & H2 & Vi).
  exists kb, ka, index.
  assert (Hmoved : forall c k,
             In (id c, k) (reassigned allCells rest) ->
             In (movedEvent c k (Some "system"))
               (movedEvents "system" (reassigned allCells rest)
                ++ [createdEvent cellData index])).
  { intros c k Hin. apply in_or_app. left. unfold movedEvents.
    apply in_map_iff. exists (id c, k). split; [reflexivity | exact Hin]. }
  repeat split; try assumption.
  - apply Hmoved. exact (Hnth _ b kb Hb_at Ekb).
  - apply Hmoved. exact (Hnth _ a ka Ha_at Eka).
  - apply in_or_app. right. left. reflexivity.
Qed.

Lemma createCellBetween_rebalanced_between_witness :
  exists kb ka index,
    In (movedEvent (sampleCell "c1" "m") kb (Some "system"))
      (co_events crowdedCreateResult) /\
    In (movedEvent (sampleCell "c2" "m0") ka (Some "system"))
      (co_events crowdedCreateResult) /\
    In (createdEvent sampleCellData index) (co_events crowdedCreateResult) /\
    slt kb index /\ slt index ka /\ valid index.
Proof.
  apply (createCellBetween_rebalanced_between defaultCompare unit
           sampleCellData [] [sampleCell "c3" "m00"] (sampleCell "c1" "m")
           (sampleCell "c2" "m0") zeroJitter tt tt crowdedCreateResult
           defaultCompare_collates zeroJitter_honoursRange).
  - repeat constructor; eexists; (split; [reflexivity|]); reflexivity.
  - repeat constructor.
  - repeat constructor; simpl; intuition discriminate.
  - vm_compute. reflexivity.
  - reflexivity.
Defined.

(** ** Further properties of the output materializers *)

Section MaterializerExtras.

Variable Any : Type.
Context {js : Coercions Any}.

(** X16.  [selectPrimaryRepresentation] returns the first MIME type of
    the preference list that the representations hold, with its
    container, and [null] exactly when they hold none of the list. *)
Theorem selectPrimaryRepresentation_spec
    (representations : Representations Any) (preferredMimeTypes : list string) :
  match selectPrimaryRepresentation representations preferredMimeTypes with
  | Some (mimeType, container) =>
      exists before after,
        preferredMimeTypes = (before ++ mimeType :: after)%list /\
        Forall (fun m => lookup representations m = None) before /\
        lookup representations mimeType = Some container
  | None =>
      Forall (fun m => lookup representations m = None) preferredMimeTypes
  end.
Proof.
  induction preferredMimeTypes as [|m rest IH]; cbn [selectPrimaryRepresentation];
    [constructor|].
  destruct (lookup representations m) as [container|] eqn:E.
  - exists [], rest. repeat split; [constructor | exact E].
  - destruct (selectPrimaryRepresentation representations rest)
      as [[mimeType container]|].
    + destruct IH as (before & after & -> & Hb & Hm).
      exists (m :: before), after. repeat split; [constructor|]; assumption.
    + constructor; assumption.
Qed.

(** X17.  [CellOutputsCleared] with [wait = false] clears at once:
    committing it deletes every output of the cell and no other row of
    [outputs]; it leaves [output_deltas] and [pendingClears] as they
    are, so an earlier pending clear of the cell stays pending; and it
    records the presence of [clearedBy] at the cell when [clearedBy] is
    not empty. *)
Theorem clear_without_wait (cellId clearedBy : string) (st : State Any) :
  exists st',
    commit (CellOutputsCleared cellId false clearedBy) st = Ok st' /\
    outputsOf cellId st' = [] /\
    outputs st'
    = filter (fun r => negb (String.eqb (o_cellId r) cellId)) (outputs st) /\
    (forall other, other <> cellId ->
                   outputsOf other st' = outputsOf other st) /\
    outputDeltas st' = outputDeltas st /\
    pendingClears st' = pendingClears st /\
    presence st'
    = if truthy (Some clearedBy)
      then (filter (fun r => negb (String.eqb (p_userId r) clearedBy))
              (presence st)
            ++ [{| p_userId := clearedBy; p_cellId := orNull (Some cellId) |}])%list
      else presence st.
Proof.
  assert (Hdel : filter (fun r => negb (matches (cellWhere cellId) r))
                   (outputs st)
                 = filter (fun r => negb (String.eqb (o_cellId r) cellId))
                     (outputs st)).
  { apply filter_ext. intros r. rewrite matches_cellWhere, String.eqb_sym.
    reflexivity. }
  assert (Hown : filter (fun r => String.eqb (o_cellId r) cellId)
                   (filter (fun r => negb (String.eqb (o_cellId r) cellId))
                      (outputs st)) = []).
  { apply filter_none. intros r Hr. apply filter_In in Hr.
    destruct Hr as [_ Hr]. apply negb_true_iff in Hr. exact Hr. }
  assert (Hother : forall other,
             other <> cellId ->
             filter (fun r => String.eqb (o_cellId r) other)
               (filter (fun r => negb (String.eqb (o_cellId r) cellId))
                  (outputs st))
             = filter (fun r => String.eqb (o_cellId r) other) (outputs st)).
  { intros other Hne. rewrite filter_filter_comm. apply filter_all.
    intros r Hr. apply filter_In in Hr. destruct Hr as [_ Hr].
    apply String.eqb_eq in Hr. apply negb_true_iff, String.eqb_neq.
    congruence. }
  unfold commit, outputsOf. cbn [materialize].
  destruct (truthy (Some clearedBy)); cbn [app applyOps applyOp bind];
    eexists; (split; [reflexivity|]);
    cbn [outputs outputDeltas pendingClears presence updatePresence p_userId];
    rewrite Hdel; repeat split; auto.
Qed.


(** *** Primary keys *)

Lemma filter_keeps_keys {Row : Type} (key : Row -> string)
    (keep : Row -> bool) (rows : list Row) :
  NoDup (map key rows) -> NoDup (map key (filter keep rows)).
Proof.
  intros Hnd. induction rows as [|row rows IH]; cbn [filter map];
    [constructor|].
  cbn [map] in Hnd. apply NoDup_cons_iff in Hnd. destruct Hnd as [Hrow Hnd].
  destruct (keep row); cbn [map]; [|apply IH; exact Hnd].
  constructor; [|apply IH; exact Hnd].
  intros Hin. apply Hrow. apply in_map_iff in Hin.
  destruct Hin as (other & E & Hother). apply filter_In in Hother.
  apply in_map_iff. exists other. tauto.
Qed.

Lemma NoDup_map_upsert {A : Type} (key : A -> string) (x : A) (l : list A) :
  NoDup (map key l) ->
  NoDup (map key
           (filter (fun r => negb (String.eqb (key r) (key x))) l ++ [x])%list).
Proof.
  intros H. rewrite map_app. cbn [map].
  apply NoDup_app; [apply filter_keeps_keys; exact H
                   | repeat constructor; intros []|].
  intros k Hin [<-|[]]. apply in_map_iff in Hin.
  destruct Hin as (y & E & Hy). apply filter_In in Hy. destruct Hy as [_ Hy].
  apply negb_true_iff, String.eqb_neq in Hy. congruence.
Qed.

Lemma applyOp_wellKeyed (op : TableOp Any) (st st' : State Any) :
  wellKeyed st -> applyOp op st = Ok st' -> wellKeyed st'.
Proof.
  intros (Ho & Hd & Hp & Hu). destruct op; cbn [applyOp].
  - intros H. injection H as <-. unfold wellKeyed.
    cbn [outputs outputDeltas pendingClears presence]. repeat split; auto.
    apply (NoDup_map_upsert (fun r : OutputRow Any => o_id r)). exact Ho.
  - intros H. injection H as <-. unfold wellKeyed.
    cbn [outputs outputDeltas pendingClears presence]. repeat split; auto.
    apply filter_keeps_keys. exact Ho.
  - intros H. injection H as <-. unfold wellKeyed.
    cbn [outputs outputDeltas pendingClears presence]. repeat split; auto.
    rewrite map_map.
    replace (map (fun x => o_id (if matches w x then setColumns u x else x))
               (outputs st))
      with (map (fun r : OutputRow Any => o_id r) (outputs st)); [exact Ho|].
    apply map_ext. intros r. destruct (matches w r); reflexivity.
  - intros H. injection H as <-. unfold wellKeyed.
    cbn [outputs outputDeltas pendingClears presence]. repeat split; auto.
    apply (NoDup_map_upsert pc_cellId). exact Hp.
  - intros H. injection H as <-. unfold wellKeyed.
    cbn [outputs outputDeltas pendingClears presence]. repeat split; auto.
    apply filter_keeps_keys. exact Hp.
  - destruct (existsb _ (outputDeltas st)) eqn:E; [discriminate|].
    intros H. injection H as <-. unfold wellKeyed.
    cbn [outputs outputDeltas pendingClears presence]. repeat split; auto.
    rewrite map_app. cbn [map].
    apply NoDup_app; [exact Hd | repeat constructor; intros []|].
    intros k Hin [<-|[]]. apply in_map_iff in Hin.
    destruct Hin as (y & Ey & Hy).
    assert (Hex : existsb (fun r => String.eqb (d_id r) (d_id row))
                    (outputDeltas st) = true).
    { apply existsb_exists. exists y. split; [exact Hy|].
      apply String.eqb_eq. exact Ey. }
    congruence.
  - intros H. injection H as <-. unfold wellKeyed.
    cbn [outputs outputDeltas pendingClears presence]. repeat split; auto.
    apply (NoDup_map_upsert p_userId). exact Hu.
Qed.

Lemma applyOps_wellKeyed (ops : list (TableOp Any)) (st st' : State Any) :
  wellKeyed st -> applyOps ops st = Ok st' -> wellKeyed st'.
Proof.
  revert st. induction ops as [|op ops IH]; intros st Hk; cbn [applyOps].
  - intros H. injection H as <-. exact Hk.
  - destruct (applyOp op st) as [st1|m] eqn:E; cbn [bind]; [|discriminate].
    apply IH. exact (applyOp_wellKeyed op st st1 Hk E).
Qed.

(** Operations other than the plain insert into [output_deltas]. *)
Lemma applyOps_total (ops : list (TableOp Any)) (st : State Any) :
  Forall (fun op => forall row, op <> outputDeltas_insert row) ops ->
  exists st', applyOps ops st = Ok st'.
Proof.
  intros H. revert st. induction H as [|op ops Hop _ IH]; intros st;
    cbn [applyOps]; [eauto|].
  destruct op; cbn [applyOp bind]; try apply IH.
  elim (Hop row). reflexivity.
Qed.

Lemma materialize_no_insert (event : OutputEvent Any) (st : State Any) :
  isDeltaAppend event = false ->
  Forall (fun op => forall row, op <> outputDeltas_insert row)
    (materialize event st).
Proof.
  assert (Hpc : forall cellId,
             Forall (fun op : TableOp Any =>
                       forall row, op <> outputDeltas_insert row)
               (pendingClearOps cellId st)).
  { intros cellId. unfold pendingClearOps.
    destruct (selectPendingClear st cellId); repeat constructor; discriminate. }
  assert (Hup : forall d R,
             Forall (fun op : TableOp Any =>
                       forall row, op <> outputDeltas_insert row)
               (updateExistingDisplays d R st)).
  { intros d R. unfold updateExistingDisplays.
    destruct (lenL _ =? 0); [constructor|].
    destruct (selectPrimaryRepresentation _ _) as [[m c]|];
      repeat constructor; discriminate. }
  assert (Hap : forall outputId content,
             Forall (fun op : TableOp Any =>
                       forall row, op <> outputDeltas_insert row)
               (appendOps outputId content st)).
  { intros outputId content. unfold appendOps.
    destruct (hd_error _); repeat constructor; discriminate. }
  destruct event; cbn [isDeltaAppend materialize]; intros Hd;
    try discriminate; auto;
    repeat (apply Forall_app; split); auto;
    try (repeat constructor; discriminate).
  - destruct (truthy displayId); [apply Hup | constructor].
  - destruct wait; repeat constructor; discriminate.
  - destruct (truthy (Some clearedBy)); repeat constructor; discriminate.
Qed.

(** X18.  The materializers respect the primary keys.  From a state in
    which no table holds two rows of the same key, committing any
    output event leads to such a state again; and committing never
    fails, except for a v2 append whose delta id is already stored. *)
Theorem commit_keeps_keys (event : OutputEvent Any) (st : State Any) :
  wellKeyed st ->
  match commit event st with
  | Ok st' => wellKeyed st'
  | Throw message =>
      isDeltaAppend event = true /\
      message = "UNIQUE constraint failed: output_deltas.id"
  end.
Proof.
  intros Hk. destruct (commit event st) as [st'|message] eqn:Ec.
  - exact (applyOps_wellKeyed _ st st' Hk Ec).
  - destruct (isDeltaAppend event) eqn:Ed.
    + split; [reflexivity|].
      destruct event; try discriminate Ed; unfold commit in Ec;
        cbn [materialize applyOps applyOp] in Ec;
        destruct (existsb _ _); cbn [bind] in Ec; congruence.
    + destruct (applyOps_total (materialize event st) st
                  (materialize_no_insert event st Ed)) as (st' & Hst').
      unfold commit in Ec. congruence.
Qed.

(** *** Replaying an event *)

Lemma filter_idem {A : Type} (p : A -> bool) (l : list A) :
  filter p (filter p l) = filter p l.
Proof.
  apply filter_all. intros x Hx. apply filter_In in Hx. tauto.
Qed.

Lemma map_fix {A : Type} (g : A -> A) (l : list A) :
  (forall x, In x l -> g x = x) -> map g l = l.
Proof.
  intros H. rewrite <- (map_id l) at 2. apply map_ext_in. exact H.
Qed.

Lemma upsert_again {A : Type} (key : A -> string) (k : string) (x : A)
    (l : list A) :
  key x = k ->
  (filter (fun r => negb (String.eqb (key r) k))
     (filter (fun r => negb (String.eqb (key r) k)) l ++ [x]) ++ [x])%list
  = (filter (fun r => negb (String.eqb (key r) k)) l ++ [x])%list.
Proof.
  intros <-. rewrite filter_app, filter_idem. cbn [filter].
  rewrite String.eqb_refl. cbn [negb]. rewrite app_nil_r. reflexivity.
Qed.

Lemma applyOps_updateExistingDisplays (d : string)
    (R : Representations Any) (q s : State Any) :
  applyOps (updateExistingDisplays d R q) s
  = Ok {| outputs := map (displayUpdate d R q) (outputs s);
          outputDeltas := outputDeltas s;
          pendingClears := pendingClears s;
          presence := presence s |}.
Proof.
  unfold displayUpdate.
  assert (Hid : Ok s
                = Ok {| outputs := map (fun row => row) (outputs s);
                        outputDeltas := outputDeltas s;
                        pendingClears := pendingClears s;
                        presence := presence s |})
    by (rewrite map_id; f_equal; apply state_eta).
  unfold updateExistingDisplays.
  destruct (lenL (selectOutputs q (displayWhere d)) =? 0); [exact Hid|].
  destruct (selectPrimaryRepresentation R defaultPreferredMimeTypes)
    as [[mimeType container]|]; [reflexivity | exact Hid].
Qed.

Lemma displayUpdate_id (d : string) (R : Representations Any)
    (q : State Any) (r : OutputRow Any) :
  o_id (displayUpdate d R q r) = o_id r.
Proof.
  unfold displayUpdate.
  destruct (updateExistingDisplays d R q) as [|[] ?]; try reflexivity.
  destruct (matches w r); reflexivity.
Qed.

(** A row already reached by the update is left as it is by the same
    update computed on any other state. *)
Lemma displayUpdate_fix (d : string) (R : Representations Any)
    (q q' : State Any) (r : OutputRow Any) :
  In r (outputs q) ->
  displayUpdate d R q' (displayUpdate d R q r) = displayUpdate d R q r.
Proof.
  intros Hin. unfold displayUpdate, updateExistingDisplays.
  destruct (selectPrimaryRepresentation R defaultPreferredMimeTypes)
    as [[mimeType container]|];
    [|destruct (lenL _ =? 0); destruct (lenL _ =? 0); reflexivity].
  destruct (matches (displayWhere d) r) eqn:Em.
  - assert (Hq : (lenL (selectOutputs q (displayWhere d)) =? 0) = false).
    { assert (Hf : In r (selectOutputs q (displayWhere d)))
        by (apply filter_In; auto).
      destruct (selectOutputs q (displayWhere d)); [destruct Hf|].
      unfold lenL. cbn [List.length]. apply Z.eqb_neq. lia. }
    rewrite Hq, Em.
    destruct (lenL (selectOutputs q' (displayWhere d)) =? 0); [reflexivity|].
    rewrite matches_setColumns, Em. reflexivity.
  - destruct (lenL (selectOutputs q (displayWhere d)) =? 0);
      destruct (lenL (selectOutputs q' (displayWhere d)) =? 0);
      rewrite ?Em; reflexivity.
Qed.

Lemma applyOps_displayUpdates (event : OutputEvent Any) (q s : State Any) :
  applyOps (displayUpdates event q) s
  = Ok {| outputs := map (addUpdate event q) (outputs s);
          outputDeltas := outputDeltas s;
          pendingClears := pendingClears s;
          presence := presence s |}.
Proof.
  assert (Hid : Ok s
                = Ok {| outputs := map (fun row => row) (outputs s);
                        outputDeltas := outputDeltas s;
                        pendingClears := pendingClears s;
                        presence := presence s |})
    by (rewrite map_id; f_equal; apply state_eta).
  destruct event; unfold addUpdate; cbn [displayUpdates applyOps];
    try exact Hid.
  destruct (truthy displayId); [|exact Hid].
  apply applyOps_updateExistingDisplays.
Qed.

Lemma addUpdate_id (event : OutputEvent Any) (q : State Any)
    (r : OutputRow Any) :
  o_id (addUpdate event q r) = o_id r.
Proof.
  destruct event; cbn [addUpdate]; try reflexivity.
  destruct (truthy displayId); [apply displayUpdate_id | reflexivity].
Qed.

Lemma addUpdate_fix (event : OutputEvent Any) (q q' : State Any)
    (r : OutputRow Any) :
  In r (outputs q) ->
  addUpdate event q' (addUpdate event q r) = addUpdate event q r.
Proof.
  intros Hin. destruct event; cbn [addUpdate]; try reflexivity.
  destruct (truthy displayId); [apply displayUpdate_fix; exact Hin | reflexivity].
Qed.

Lemma selectPendingClear_after (o : list (OutputRow Any))
    (d : list OutputDeltaRow) (p : list PendingClearRow)
    (u : list PresenceRow) (cellId : string) :
  selectPendingClear
    {| outputs := o; outputDeltas := d;
       pendingClears :=
         filter (fun r => negb (String.eqb (pc_cellId r) cellId)) p;
       presence := u |} cellId = None.
Proof.
  unfold selectPendingClear. cbn [pendingClears].
  apply (find_filter_negb (fun r => String.eqb (pc_cellId r) cellId)).
Qed.

(** The state an output-add event leaves, with the in-place update
    spelled out. *)
Lemma commit_add_formula (event : OutputEvent Any) (row : OutputRow Any)
    (st : State Any) :
  addedRow event = Some row ->
  commit event st
  = Ok {| outputs :=
            (filter (fun r => negb (String.eqb (o_id r) (o_id row)))
               (map (addUpdate event st)
                  (if isSome (selectPendingClear st (o_cellId row))
                   then filter
                          (fun r =>
                             negb (String.eqb (o_cellId row) (o_cellId r)))
                          (outputs st)
                   else outputs st))
             ++ [row])%list;
          outputDeltas := outputDeltas st;
          pendingClears :=
            filter (fun r => negb (String.eqb (pc_cellId r) (o_cellId row)))
                   (pendingClears st);
          presence := presence st |}.
Proof.
  intros Hrow. unfold commit. rewrite (materialize_add Any event row st Hrow).
  rewrite applyOps_app, applyOps_pendingClearOps. cbn [bind].
  rewrite applyOps_app, applyOps_displayUpdates. reflexivity.
Qed.

(** X19.  Replaying an event is harmless, appends apart.  Committing an
    event that is not an append always succeeds, and committing the same
    event once more on the state reached changes nothing: the
    output-add events replace the row of their id, a display update
    finds its rows already updated, and a clear finds nothing left to
    clear (or its pending clear already in place). *)
Theorem replay_is_harmless (event : OutputEvent Any) (st : State Any) :
  isAppend event = false ->
  exists st1, commit event st = Ok st1 /\ commit event st1 = Ok st1.
Proof.
  intros Happ.
  destruct (addedRow event) as [row|] eqn:Hrow.
  - (* the five output-add events *)
    eexists. split; [apply (commit_add_formula event row st Hrow)|].
    rewrite (commit_add_formula event row _ Hrow).
    rewrite selectPendingClear_after.
    cbn [outputs outputDeltas pendingClears presence isSome].
    rewrite filter_idem. do 2 f_equal.
    set (L := if isSome (selectPendingClear st (o_cellId row))
              then filter (fun r => negb (String.eqb (o_cellId row) (o_cellId r)))
                     (outputs st)
              else outputs st).
    assert (HL : forall r, In r L -> In r (outputs st)).
    { intros r. unfold L. destruct (isSome _); [|auto].
      intros Hr. apply filter_In in Hr. tauto. }
    rewrite filter_map_comm by (intros r; rewrite addUpdate_id; reflexivity).
    rewrite filter_app, filter_idem. cbn [filter].
    rewrite String.eqb_refl. cbn [negb]. rewrite app_nil_r. f_equal.
    apply map_fix. intros r Hr. apply filter_In in Hr. destruct Hr as [Hr _].
    apply in_map_iff in Hr. destruct Hr as (r0 & <- & Hr0).
    apply addUpdate_fix, HL, Hr0.
  - destruct event; try discriminate Hrow; try discriminate Happ.
    + (* MultimediaDisplayOutputUpdated *)
      unfold commit. cbn [materialize]. eexists.
      split; [apply applyOps_updateExistingDisplays|].
      rewrite applyOps_updateExistingDisplays.
      cbn [outputs outputDeltas pendingClears presence]. do 2 f_equal.
      apply map_fix. intros r Hr. apply in_map_iff in Hr.
      destruct Hr as (r0 & <- & Hr0). apply displayUpdate_fix, Hr0.
    + (* CellOutputsCleared *)
      unfold commit. cbn [materialize].
      destruct wait, (truthy (Some clearedBy));
        cbn [app applyOps applyOp bind updatePresence];
        eexists; (split; [reflexivity|]);
        cbn [outputs outputDeltas pendingClears presence pc_cellId p_userId];
        repeat (rewrite (upsert_again pc_cellId cellId) by reflexivity);
        repeat (rewrite (upsert_again p_userId clearedBy) by reflexivity);
        rewrite ?filter_idem; reflexivity.
Qed.

End MaterializerExtras.

Lemma commit_keeps_keys_witness :
  match commit (js := stringCoercions) (sampleTerminal "P") stateWithPQ with
  | Ok st' => wellKeyed st'
  | Throw message =>
      isDeltaAppend (sampleTerminal "P") = true /\
      message = "UNIQUE constraint failed: output_deltas.id"
  end.
Proof.
  apply (commit_keeps_keys string (js := stringCoercions)).
  unfold wellKeyed. simpl.
  repeat split; repeat constructor; simpl; intuition discriminate.
Defined.

Lemma replay_is_harmless_witness :
  exists st1,
    commit (js := stringCoercions)
      (MultimediaDisplayOutputAdded "o2" "cell-1" 0 (plainText "v2")
         (Some "d1")) stateWithPending = Ok st1 /\
    commit (js := stringCoercions)
      (MultimediaDisplayOutputAdded "o2" "cell-1" 0 (plainText "v2")
         (Some "d1")) st1 = Ok st1.
Proof.
  apply (replay_is_harmless string (js := stringCoercions)). reflexivity.
Defined.

(** ** The cells table *)

(** *** The index of a v1 position *)





(** *** Replaying a cell event *)

Lemma setCell_idem (u : CellsSet) (r : CellRow) :
  setCell u (setCell u r) = setCell u r.
Proof.
  destruct u as [[] [] [] [] [] []]; reflexivity.
Qed.

Lemma cells_update_idem (u : CellsSet) (name : string) (l : list CellRow) :
  map (fun r => if String.eqb (c_id r) name then setCell u r else r)
    (map (fun r => if String.eqb (c_id r) name then setCell u r else r) l)
  = map (fun r => if String.eqb (c_id r) name then setCell u r else r) l.
Proof.
  rewrite map_map. apply map_ext. intros r.
  destruct (String.eqb (c_id r) name) eqn:E.
  - cbn [setCell c_id]. rewrite E. apply setCell_idem.
  - rewrite E. reflexivity.
Qed.

Lemma filter_twice {A : Type} (p : A -> bool) (l : list A) :
  filter p (filter p l) = filter p l.
Proof.
  induction l as [|x l IH]; cbn [filter]; [reflexivity|].
  destruct (p x) eqn:E; cbn [filter]; rewrite ?E, IH; reflexivity.
Qed.

Lemma presence_again (row : PresenceRow) (l : list PresenceRow) :
  (filter (fun r => negb (String.eqb (p_userId r) (p_userId row)))
     (filter (fun r => negb (String.eqb (p_userId r) (p_userId row))) l
      ++ [row]) ++ [row])%list
  = (filter (fun r => negb (String.eqb (p_userId r) (p_userId row))) l
     ++ [row])%list.
Proof.
  rewrite filter_app, filter_twice. cbn [filter].
  rewrite String.eqb_refl. cbn [negb]. rewrite app_nil_r. reflexivity.
Qed.

Lemma insert_ignore_again (row : CellRow) (l : list CellRow) :
  let l' := if existsb (fun r => String.eqb (c_id r) (c_id row)) l
            then l else (l ++ [row])%list in
  (if existsb (fun r => String.eqb (c_id r) (c_id row)) l'
   then l' else (l' ++ [row])%list) = l'.
Proof.
  cbv zeta.
  destruct (existsb (fun r => String.eqb (c_id r) (c_id row)) l) eqn:E.
  - rewrite E. reflexivity.
  - rewrite existsb_app. cbn [existsb]. rewrite String.eqb_refl.
    rewrite orb_true_r. reflexivity.
Qed.

(** X21.  Replaying a cell event is harmless.  Committing any cell
    event ([v1] or [v2]: creation, move, deletion, changes of source,
    type and visibility, presence) a second time changes nothing.  In
    particular a creation never overwrites: when the table already
    holds a cell of the id, [v2.CellCreated] leaves [cells] as it is,
    whatever index and type the event carries. *)
Theorem cell_replay_is_harmless (bigDigits : Z -> string) :
  (forall event tables,
     commitCell bigDigits event (commitCell bigDigits event tables)
     = commitCell bigDigits event tables) /\
  (forall args tables,
     In (created_id args) (map c_id (t_cells tables)) ->
     t_cells (commitCell bigDigits (CellCreated2 args) tables)
     = t_cells tables) /\
  (forall args tables,
     ~ In (created_id args) (map c_id (t_cells tables)) ->
     t_cells (commitCell bigDigits (CellCreated2 args) tables)
     = (t_cells tables
        ++ [newCellRow (created_id args) (created_cellType args)
              (created_fractionalIndex args) (created_createdBy args)])%list).
Proof.
  assert (Hex : forall name l,
             existsb (fun r => String.eqb (c_id r) name) l = true
             <-> In name (map c_id l)).
  { intros name l. rewrite existsb_exists, in_map_iff.
    split; intros (r & H1 & H2).
    - exists r. apply String.eqb_eq in H2. auto.
    - exists r. split; [exact H2 | apply String.eqb_eq; exact H1]. }
  split; [|split].
  - intros event [cells presence].
    destruct event; unfold commitCell; cbn [materializeCell fold_left];
      unfold presenceOfActor;
      try (destruct (truthy actorId));
      try (destruct (truthy (moved_actorId args)));
      cbn [fold_left applyCellsOp t_cells t_presence c_id newCellRow];
      rewrite ?presence_again, ?cells_update_idem, ?filter_twice;
      try reflexivity.
    all: f_equal; apply (insert_ignore_again (newCellRow _ _ _ _)).
  - intros args tables Hin. unfold commitCell.
    cbn [materializeCell fold_left applyCellsOp t_cells c_id newCellRow].
    apply Hex in Hin. rewrite Hin. reflexivity.
  - intros args tables Hin. unfold commitCell.
    cbn [materializeCell fold_left applyCellsOp t_cells c_id newCellRow].
    destruct (existsb _ (t_cells tables)) eqn:E; [|reflexivity].
    apply Hex in E. contradiction.
Qed.

(** *** Committing the events of the planner *)

Lemma referencesOf_moved (bigDigits : Z -> string) (args : CellMovedArgs)
    (tables : CellTables) :
  referencesOf (commitCell bigDigits (CellMoved2 args) tables)
  = map (fun c => if String.eqb (id c) (moved_id args)
                  then reindexed c (moved_fractionalIndex args) else c)
      (referencesOf tables).
Proof.
  unfold commitCell, referencesOf. cbn [materializeCell fold_left].
  assert (Hp : forall t,
             t_cells (fold_left (fun t op => applyCellsOp op t)
                        (presenceOfActor (moved_actorId args) (moved_id args))
                        t)
             = t_cells t).
  { intros t. unfold presenceOfActor.
    destruct (truthy (moved_actorId args)); reflexivity. }
  rewrite Hp. cbn [applyCellsOp t_cells]. rewrite !map_map.
  apply map_ext. intros r. cbn [referenceOf id].
  destruct (String.eqb (c_id r) (moved_id args)); reflexivity.
Qed.

Lemma withNewIndices_cons (name k : string) (moves : list (string * string))
    (refs : list CellReference) :
  ~ In name (map fst moves) ->
  withNewIndices moves
    (map (fun c => if String.eqb (id c) name then reindexed c k else c) refs)
  = withNewIndices ((name, k) :: moves) refs.
Proof.
  intros Hfresh. unfold withNewIndices. rewrite map_map.
  apply map_ext. intros c. cbn [find fst snd].
  rewrite (String.eqb_sym name (id c)).
  destruct (String.eqb_spec (id c) name) as [E|N].
  - cbn [reindexed id]. rewrite E.
    rewrite find_none_ids; [reflexivity|].
    intros m Hm Em. apply Hfresh. rewrite <- Em. apply in_map. exact Hm.
  - reflexivity.
Qed.

(** Committing the [v2.CellMoved] events of a list of reassignments
    gives every cell named the index paired with it. *)
Lemma commitCells_moves (bigDigits : Z -> string) (actorId : string)
    (moves : list (string * string)) (tables : CellTables) :
  NoDup (map fst moves) ->
  referencesOf
    (commitCells bigDigits (map logged (movedEvents actorId moves)) tables)
  = withNewIndices moves (referencesOf tables).
Proof.
  revert tables. induction moves as [|[name k] moves IH]; intros tables Hnd.
  - unfold withNewIndices. cbn [find]. rewrite map_id. reflexivity.
  - cbn [map fst] in Hnd. apply NoDup_cons_iff in Hnd.
    destruct Hnd as [Hfresh Hnd].
    cbn [movedEvents map logged commitCells fold_left].
    fold (movedEvents actorId moves).
    change (fold_left (fun t event => commitCell bigDigits event t)
              (map logged (movedEvents actorId moves)) ?t)
      with (commitCells bigDigits (map logged (movedEvents actorId moves))
              t).
    rewrite (IH _ Hnd), referencesOf_moved.
    cbn [moved_id moved_fractionalIndex].
    apply withNewIndices_cons. exact Hfresh.
Qed.

Lemma referencesOf_ids (tables : CellTables) :
  map id (referencesOf tables) = map c_id (t_cells tables).
Proof. unfold referencesOf. rewrite map_map. reflexivity. Qed.

Lemma withNewIndices_ids (moves : list (string * string))
    (refs : list CellReference) :
  map id (withNewIndices moves refs) = map id refs.
Proof.
  unfold withNewIndices. rewrite map_map. apply map_ext. intros c.
  destruct (find _ moves); reflexivity.
Qed.

(** X22.  A rebalance, committed.  Let the table hold at least one cell
    (ids being its primary key), every cell with a valid index, and let
    [rebalanceCellIndices] run on the cells of the table ([randomInt] in
    range, the collation ordering valid indices as their code units
    do).  It returns, and once the materializer of [v2.CellMoved] has
    run over its events the table holds the same cell ids in the same
    rows, every cell has a valid index, the cells are in the same order
    by index as before (of two rows the one with the smaller old index
    has the smaller new index, and two rows with the same old index
    take theirs in the order of the rows), and [needsRebalancing] is
    false for them at every insert position. *)
Theorem rebalance_committed (bigDigits : Z -> string)
    (localeCompare : string -> string -> Z)
    (S : Type) (tables : CellTables) (jp : JitterProvider S)
    (actorId : option string) (st : S) :
  collatesIndices localeCompare ->
  honoursRange jp ->
  t_cells tables <> [] ->
  Forall validCell (referencesOf tables) ->
  NoDup (map c_id (t_cells tables)) ->
  exists result st',
    rebalanceCellIndices localeCompare (referencesOf tables) jp actorId None
      st = (Ok result, st') /\
    let tables' := commitCells bigDigits (map logged (events result)) tables in
    map c_id (t_cells tables') = map c_id (t_cells tables) /\
    Forall validCell (referencesOf tables') /\
    map id (sort (byFractionalIndex localeCompare) (referencesOf tables'))
    = map id (sort (byFractionalIndex localeCompare) (referencesOf tables)) /\
    (forall (i j : nat) (c d c' d' : CellReference),
       (i < j)%nat ->
       nth_error (referencesOf tables) i = Some c ->
       nth_error (referencesOf tables) j = Some d ->
       nth_error (referencesOf tables') i = Some c' ->
       nth_error (referencesOf tables') j = Some d' ->
       id c' = id c /\ id d' = id d /\
       (cellLe c d -> cellLt c' d') /\
       (cellLt d c -> cellLt d' c')) /\
    forall insertPosition,
      needsRebalancing localeCompare (referencesOf tables') insertPosition
      = false.
Proof.
  intros Hcol Hjp Hne Hold Hnd.
  assert (Hne' : referencesOf tables <> []).
  { unfold referencesOf. destruct (t_cells tables); [congruence | discriminate]. }
  assert (Hnd' : NoDup (map id (referencesOf tables)))
    by (rewrite referencesOf_ids; exact Hnd).
  destruct (rebalance_outcome localeCompare S (referencesOf tables) jp actorId
              None st Hcol Hjp Hne' Hnd')
    as (st' & keys & Hrun & Hval & Hroom & Hlen & Hsorted); [lia|].
  cbv zeta in Hrun, Hlen, Hsorted.
  set (sorted := sort (byFractionalIndex localeCompare) (referencesOf tables))
    in *.
  set (rest := skipn (Z.to_nat 2) keys) in *.
  assert (Hperm : Permutation sorted (referencesOf tables)) by apply sort_perm.
  assert (Hrest : Forall valid rest).
  { unfold rest. rewrite <- (firstn_skipn (Z.to_nat 2) keys) in Hval.
    apply Forall_app in Hval. tauto. }
  eexists. exists st'. split; [exact Hrun|]. cbv zeta. cbn [events].
  rewrite commitCells_moves.
  2:{ apply reassigned_NoDup. eapply Permutation_NoDup; [|exact Hnd'].
      apply Permutation_map, Permutation_sym, Hperm. }
  assert (Hvalid : Forall validCell
                     (withNewIndices (reassigned sorted rest)
                        (referencesOf tables))).
  { eapply Permutation_Forall; [apply sort_perm|].
    rewrite Hsorted. apply retagged_valid. exact Hrest. }
  split; [|split; [exact Hvalid|split; [|split]]].
  - rewrite <- !referencesOf_ids, commitCells_moves.
    + apply withNewIndices_ids.
    + apply reassigned_NoDup. eapply Permutation_NoDup; [|exact Hnd'].
      apply Permutation_map, Permutation_sym, Hperm.
  - rewrite Hsorted. apply retagged_ids.
    rewrite (Permutation_length Hperm). exact Hlen.
  - apply (reassigned_keeps_order localeCompare (referencesOf tables) rest
             Hcol Hold Hnd'); [|exact Hlen].
    apply StronglySorted_skipn.
    apply (StronglySorted_impl roomAbove slt);
      [apply roomAbove_lt | exact Hroom].
  - intros insertPosition. apply needsRebalancing_room.
    rewrite Hsorted. apply retagged_room; [exact Hrest|].
    apply StronglySorted_skipn, Hroom.
Qed.

(** ** Notebook metadata *)

Lemma find_setMetadata_same (row : MetadataRow)
    (records : list MetadataRow) :
  find (fun r => String.eqb (m_key r) (m_key row)) (setMetadata row records)
  = Some row.
Proof.
  unfold setMetadata.
  apply (find_after_filter (fun r => String.eqb (m_key r) (m_key row))).
  apply String.eqb_refl.
Qed.

Lemma find_setMetadata_other (row : MetadataRow)
    (records : list MetadataRow) (key : string) :
  key <> m_key row ->
  find (fun r => String.eqb (m_key r) key) (setMetadata row records)
  = find (fun r => String.eqb (m_key r) key) records.
Proof.
  intros Hne. unfold setMetadata.
  induction records as [|r records IH]; cbn [filter app find].
  - destruct (String.eqb_spec (m_key row) key); [congruence | reflexivity].
  - destruct (String.eqb_spec (m_key r) (m_key row)) as [E|N]; cbn [negb].
    + destruct (String.eqb_spec (m_key r) key); [congruence | exact IH].
    + cbn [app find]. destruct (String.eqb (m_key r) key); [reflexivity|].
      exact IH.
Qed.

(** X23.  Metadata written is metadata read.  After
    [v1.NotebookMetadataSet] for a key, [getNotebookMetadata] returns
    the value set for that key, whatever the default and whatever was
    stored before, and what it returns for every other key is
    unchanged; after [v1.NotebookTitleChanged] the title of
    [getNotebookInfo] is the new title and its other fields are
    unchanged; after [v1.NotebookInitialized] its title and owner are
    those of the event.  A key never set reads as the default. *)
Theorem metadata_round_trip (records : list MetadataRow) :
  (forall key value defaultValue,
     getNotebookMetadata
       (commitMetadata (NotebookMetadataSet key value) records) key
       defaultValue = value) /\
  (forall key value other defaultValue,
     other <> key ->
     getNotebookMetadata
       (commitMetadata (NotebookMetadataSet key value) records) other
       defaultValue
     = getNotebookMetadata records other defaultValue) /\
  (forall newTitle,
     getNotebookInfo (commitMetadata (NotebookTitleChanged newTitle) records)
     = {| title := newTitle;
          ownerId := ownerId (getNotebookInfo records);
          runtimeType := runtimeType (getNotebookInfo records);
          isPublic := isPublic (getNotebookInfo records) |}) /\
  (forall notebookId newTitle owner,
     getNotebookInfo
       (commitMetadata (NotebookInitialized notebookId newTitle owner) records)
     = {| title := newTitle;
          ownerId := owner;
          runtimeType := runtimeType (getNotebookInfo records);
          isPublic := isPublic (getNotebookInfo records) |}) /\
  (forall key defaultValue,
     ~ In key (map m_key records) ->
     getNotebookMetadata records key defaultValue = defaultValue).
Proof.
  assert (Hsame : forall row rs d,
             getNotebookMetadata (setMetadata row rs) (m_key row) d
             = m_value row).
  { intros row rs d. unfold getNotebookMetadata.
    rewrite find_setMetadata_same. reflexivity. }
  assert (Hother : forall row rs key d,
             key <> m_key row ->
             getNotebookMetadata (setMetadata row rs) key d
             = getNotebookMetadata rs key d).
  { intros row rs key d Hne. unfold getNotebookMetadata.
    rewrite find_setMetadata_other by exact Hne. reflexivity. }
  split; [|split; [|split; [|split]]].
  - intros key value d. unfold commitMetadata.
    cbn [materializeMetadata fold_left].
    apply (Hsame {| m_key := key; m_value := value |}).
  - intros key value other d Hne. unfold commitMetadata.
    cbn [materializeMetadata fold_left].
    apply (Hother {| m_key := key; m_value := value |}). exact Hne.
  - intros newTitle. unfold commitMetadata, getNotebookInfo.
    cbn [materializeMetadata fold_left title ownerId runtimeType isPublic].
    rewrite (Hsame {| m_key := "title"; m_value := newTitle |}).
    rewrite !(Hother {| m_key := "title"; m_value := newTitle |})
      by discriminate.
    reflexivity.
  - intros notebookId newTitle owner. unfold commitMetadata, getNotebookInfo.
    cbn [materializeMetadata fold_left title ownerId runtimeType isPublic].
    rewrite (Hsame {| m_key := "ownerId"; m_value := owner |}).
    rewrite !(Hother {| m_key := "ownerId"; m_value := owner |})
      by discriminate.
    rewrite (Hsame {| m_key := "title"; m_value := newTitle |}).
    rewrite !(Hother {| m_key := "title"; m_value := newTitle |})
      by discriminate.
    reflexivity.
  - intros key d Hfresh. unfold getNotebookMetadata.
    replace (find (fun r => String.eqb (m_key r) key) records) with
      (@None MetadataRow); [reflexivity|].
    symmetry. induction records as [|r rs IH]; [reflexivity|].
    cbn [find]. destruct (String.eqb_spec (m_key r) key) as [E|N].
    + elim Hfresh. left. exact E.
    + apply IH. intros Hin. apply Hfresh. right. exact Hin.
Qed.

Lemma rebalance_committed_witness :
  exists result st',
    rebalanceCellIndices defaultCompare (referencesOf unorderedTable)
      zeroJitter None None tt = (Ok result, st') /\
    let tables' :=
      commitCells noBigDigits (map logged (events result)) unorderedTable in
    map c_id (t_cells tables') = map c_id (t_cells unorderedTable) /\
    Forall validCell (referencesOf tables') /\
    map id (sort (byFractionalIndex defaultCompare) (referencesOf tables'))
    = map id (sort (byFractionalIndex defaultCompare)
                (referencesOf unorderedTable)) /\
    (forall (i j : nat) (c d c' d' : CellReference),
       (i < j)%nat ->
       nth_error (referencesOf unorderedTable) i = Some c ->
       nth_error (referencesOf unorderedTable) j = Some d ->
       nth_error (referencesOf tables') i = Some c' ->
       nth_error (referencesOf tables') j = Some d' ->
       id c' = id c /\ id d' = id d /\
       (cellLe c d -> cellLt c' d') /\
       (cellLt d c -> cellLt d' c')) /\
    forall insertPosition,
      needsRebalancing defaultCompare (referencesOf tables') insertPosition
      = false.
Proof.
  apply (rebalance_committed noBigDigits defaultCompare unit unorderedTable
           zeroJitter None tt defaultCompare_collates
           zeroJitter_honoursRange).
  - discriminate.
  - repeat constructor; eexists; (split; [reflexivity|]); reflexivity.
  - repeat constructor; simpl; intuition discriminate.
Defined.

(** ** Creating and moving against the table *)

Lemma commitCell_created (bigDigits : Z -> string) (args : CellCreatedArgs)
    (tables : CellTables) :
  ~ In (created_id args) (map c_id (t_cells tables)) ->
  t_cells (commitCell bigDigits (CellCreated2 args) tables)
  = (t_cells tables
     ++ [newCellRow (created_id args) (created_cellType args)
           (created_fractionalIndex args) (created_createdBy args)])%list.
Proof.
  intros Hin. unfold commitCell.
  cbn [materializeCell fold_left applyCellsOp t_cells c_id newCellRow].
  destruct (existsb _ (t_cells tables)) eqn:E; [|reflexivity].
  apply existsb_exists in E. destruct E as (r & Hr & E).
  apply String.eqb_eq in E. elim Hin. rewrite <- E. apply in_map. exact Hr.
Qed.

(** X25.  Appending a cell to the table.  With every cell of the table
    carrying a valid index and the id of the new cell not in use,
    [createCellBetween] with neither neighbour given, run on the cells
    of the table (in whatever order the table holds them), returns the
    single [v2.CellCreated] event of the new cell and reports no
    rebalancing; [createCellBetweenAndCommit] returns the id of the new
    cell and commits that event; afterwards the table holds the rows it
    held, unchanged, followed by one row for the new cell, whose index
    is valid and above the index of every other row: the new cell is
    the last one by index. *)
Theorem createCellBetweenAndCommit_appends (bigDigits : Z -> string)
    (localeCompare : string -> string -> Z) (S : Type) (store : CellTables)
    (cellData : CellData) (jp : JitterProvider S) (st : S) :
  collatesIndices localeCompare ->
  honoursRange jp ->
  Forall validCell (referencesOf store) ->
  ~ In (cd_id cellData) (map c_id (t_cells store)) ->
  exists index store' st',
    createCellBetween localeCompare cellData None None (referencesOf store)
      jp st
    = (Ok {| co_events := [createdEvent cellData index];
             co_newCellId := cd_id cellData;
             co_needsRebalancing := false;
             co_rebalanceCount := None |}, st') /\
    createCellBetweenAndCommit bigDigits localeCompare store cellData None
      None (referencesOf store) jp st
    = (Ok (cd_id cellData, store'), st') /\
    t_cells store'
    = (t_cells store
       ++ [newCellRow (cd_id cellData) (cd_cellType cellData) index
             (cd_createdBy cellData)])%list /\
    valid index /\
    Forall (fun row => slt (orEmpty (c_fractionalIndex row)) index)
      (t_cells store).
Proof.
  intros Hcol Hjp Hval Hfresh.
  destruct (createCellBetween_at_end localeCompare S cellData
              (referencesOf store) jp st Hcol Hjp Hval)
    as (index & st' & Hrun & Vi & Habove).
  exists index. eexists. exists st'. split; [exact Hrun|]. split.
  { unfold createCellBetweenAndCommit, bindJ, ret. rewrite Hrun.
    cbn [co_newCellId co_events map logged commitCells fold_left].
    reflexivity. }
  split; [|split; [exact Vi|]].
  - rewrite commitCell_created by exact Hfresh. reflexivity.
  - unfold referencesOf in Habove. rewrite Forall_map in Habove.
    exact Habove.
Qed.

Lemma createCellBetweenAndCommit_appends_witness :
  exists index store' st',
    createCellBetween defaultCompare sampleCellData None None
      (referencesOf crowdedTable) zeroJitter tt
    = (Ok {| co_events := [createdEvent sampleCellData index];
             co_newCellId := cd_id sampleCellData;
             co_needsRebalancing := false;
             co_rebalanceCount := None |}, st') /\
    createCellBetweenAndCommit noBigDigits defaultCompare crowdedTable
      sampleCellData None None (referencesOf crowdedTable) zeroJitter tt
    = (Ok (cd_id sampleCellData, store'), st') /\
    t_cells store'
    = (t_cells crowdedTable
       ++ [newCellRow (cd_id sampleCellData) (cd_cellType sampleCellData)
             index (cd_createdBy sampleCellData)])%list /\
    valid index /\
    Forall (fun row => slt (orEmpty (c_fractionalIndex row)) index)
      (t_cells crowdedTable).
Proof.
  apply (createCellBetweenAndCommit_appends noBigDigits defaultCompare unit
           crowdedTable sampleCellData zeroJitter tt defaultCompare_collates
           zeroJitter_honoursRange).
  - repeat constructor; eexists; (split; [reflexivity|]); reflexivity.
  - simpl. intuition discriminate.
Defined.

(** X27.  Moving a cell, committed.  Let the cell to move carry an
    index, let [cellBefore] and [cellAfter] carry valid indices
    [p < n] with [n] not [p] followed by a single [0], let the index of
    the cell not lie between them already, and let its position in
    [allCells] differ from the position asked for.  Then
    [moveCellBetweenAndCommit] reports a move and commits one
    [v2.CellMoved] event, attributed to the actor given (to [user]
    when none is): afterwards the cell has a valid index strictly
    between [p] and [n], and every other cell of the table is as it
    was. *)
Theorem moveCellBetweenAndCommit_moves (bigDigits : Z -> string)
    (localeCompare : string -> string -> Z) (gtNull ltNull : string -> bool)
    (S : Type) (store : CellTables) (cell b a : CellReference)
    (k p n : string) (allCells : list CellReference)
    (actorId : option string) (jp : JitterProvider S) (st : S) :
  honoursRange jp ->
  indexOfCell cell k ->
  fractionalIndex b = Some p -> fractionalIndex a = Some n ->
  valid p -> valid n -> slt p n -> n <> p ++ "0" ->
  ~ (slt p k /\ slt k n) ->
  findIndex (fun c => String.eqb (id c) (id cell)) allCells
  <> findIndex (fun c => String.eqb (id c) (id b)) allCells + 1 ->
  exists index st',
    moveCellBetweenAndCommit bigDigits localeCompare gtNull ltNull store cell
      (Some b) (Some a) allCells actorId jp st
    = (Ok (true,
           commitCell bigDigits
             (CellMoved2
                {| moved_id := id cell;
                   moved_fractionalIndex := index;
                   moved_actorId :=
                     Some match orNull actorId with
                          | Some x => x
                          | None => "user"
                          end |}) store), st') /\
    slt p index /\ slt index n /\ valid index /\
    referencesOf
      (commitCell bigDigits
         (CellMoved2
            {| moved_id := id cell;
               moved_fractionalIndex := index;
               moved_actorId :=
                 Some match orNull actorId with
                      | Some x => x
                      | None => "user"
                      end |}) store)
    = map (fun c => if String.eqb (id c) (id cell)
                    then reindexed c index else c)
        (referencesOf store).
Proof.
  intros Hjp [Ek Nk] Ep En Vp Vn Hlt Hroom Hout Hpos.
  destruct (generateKeyBetween_spec p n Vp Vn Hlt) as [_ Hok].
  destruct (Hok Hroom) as (key & Hkey & _).
  destruct (fractionalIndexBetween_returns (Some p) (Some n) jp st key Hjp
              Hkey) as (index & st' & Hidx).
  destruct (fractionalIndexBetween_sound p n jp st st' index Vp Vn Hlt Hidx)
    as (H1 & H2 & Vi).
  exists index, st'. split; [|split; [exact H1|split; [exact H2|split]]].
  - assert (Kb : keyOf (Some b) = Some p)
      by (apply keyOf_indexed; split; [exact Ep | apply valid_nonempty, Vp]).
    assert (Ka : keyOf (Some a) = Some n)
      by (apply keyOf_indexed; split; [exact En | apply valid_nonempty, Vn]).
    assert (Hthere : gt_key gtNull k (Some p) && lt_key ltNull k (Some n)
                     = false).
    { cbn [gt_key lt_key]. change (str_gt k p) with (str_lt p k).
      destruct (str_lt p k) eqn:E1; [|reflexivity].
      destruct (str_lt k n) eqn:E2; [|reflexivity].
      elim Hout. split; assumption. }
    assert (Hmove : forall actor,
               moveCellBetween gtNull ltNull cell (Some b) (Some a) actor jp st
               = (Ok (Some (movedEvent cell index actor)), st')).
    { intros actor. unfold moveCellBetween.
      rewrite Ek, (truthy_nonempty k Nk). cbn [negb orEmpty isSome].
      cbv zeta. rewrite Kb, Ka, Hthere. unfold bindJ, ret.
      rewrite Hidx. reflexivity. }
    unfold moveCellBetweenAndCommit, moveCellBetweenWithRebalancing.
    rewrite Ek, (truthy_nonempty k Nk). cbn [negb positionOf]. cbv zeta.
    destruct (Z.eqb_spec
                (findIndex (fun c => String.eqb (id c) (id cell)) allCells)
                (findIndex (fun c => String.eqb (id c) (id b)) allCells + 1))
      as [E|_]; [contradiction|].
    unfold moveCellWithRebalancing. cbv zeta.
    cbv beta delta [bindJ tryCatch ret].
    rewrite Hmove. reflexivity.
  - exact Vi.
  - apply (referencesOf_moved bigDigits
             {| moved_id := id cell; moved_fractionalIndex := index;
                moved_actorId :=
                  Some match orNull actorId with
                       | Some x => x
                       | None => "user"
                       end |}).
Qed.

Lemma moveCellBetweenAndCommit_moves_witness :
  exists index st',
    moveCellBetweenAndCommit noBigDigits defaultCompare (fun _ => false)
      (fun _ => false)
      crowdedTable (sampleCell "c3" "m00") (Some (sampleCell "c0" "a"))
      (Some (sampleCell "c1" "m")) (referencesOf crowdedTable) None
      zeroJitter tt
    = (Ok (true,
           commitCell noBigDigits
             (CellMoved2
                {| moved_id := id (sampleCell "c3" "m00");
                   moved_fractionalIndex := index;
                   moved_actorId :=
                     Some match orNull None with
                          | Some x => x
                          | None => "user"
                          end |}) crowdedTable), st') /\
    slt "a" index /\ slt index "m" /\ valid index /\
    referencesOf
      (commitCell noBigDigits
         (CellMoved2
            {| moved_id := id (sampleCell "c3" "m00");
               moved_fractionalIndex := index;
               moved_actorId :=
                 Some match orNull None with
                      | Some x => x
                      | None => "user"
                      end |}) crowdedTable)
    = map (fun c => if String.eqb (id c) (id (sampleCell "c3" "m00"))
                    then reindexed c index else c)
        (referencesOf crowdedTable).
Proof.
  apply (moveCellBetweenAndCommit_moves noBigDigits defaultCompare
           (fun _ => false)
           (fun _ => false) unit crowdedTable (sampleCell "c3" "m00")
           (sampleCell "c0" "a") (sampleCell "c1" "m") "m00" "a" "m"
           (referencesOf crowdedTable) None zeroJitter tt
           zeroJitter_honoursRange).
  - split; [reflexivity | discriminate].
  - reflexivity.
  - reflexivity.
  - reflexivity.
  - reflexivity.
  - reflexivity.
  - discriminate.
  - intros [_ H]. vm_compute in H. discriminate.
  - vm_compute. discriminate.
Defined.

(** ** MIME types *)

Lemma includesString_In (xs : list string) (x : string) :
  includesString xs x = true <-> In x xs.
Proof.
  unfold includesString. rewrite existsb_exists. split.
  - intros (y & Hy & E). apply String.eqb_eq in E. congruence.
  - intros H. exists x. split; [exact H | apply String.eqb_refl].
Qed.

Lemma selectPrimaryRepresentation_none {Any : Type}
    (representations : Representations Any) (preferred : list string) :
  selectPrimaryRepresentation representations preferred = None
  <-> Forall (fun m => lookup representations m = None) preferred.
Proof.
  induction preferred as [|m rest IH]; cbn [selectPrimaryRepresentation].
  - split; [constructor | reflexivity].
  - destruct (lookup representations m) eqn:E.
    + split; [discriminate|]. intros H. apply Forall_inv in H. congruence.
    + rewrite IH. split; [intros H; constructor; assumption|].
      intros H. inversion H. assumption.
Qed.

(** X24.  The MIME classes and the primary representation.  The five
    classes of known MIME types are disjoint and make up
    [isKnownMimeType]; every Jupyter and every AI tool type is a JSON
    type, every known text type is text-based.  The default priority
    list of [selectPrimaryRepresentation] holds exactly the known MIME
    types that are not AI tool types: representations have a primary
    one exactly when they hold some known MIME type other than an AI
    tool type. *)
Theorem mime_classes_and_primary :
  (forall m,
     isKnownMimeType m
     = isTextMimeType m || isApplicationMimeType m || isImageMimeType m
       || isJupyterMimeType m || isAiToolMimeType m) /\
  (forall m,
     Z.b2z (isTextMimeType m) + Z.b2z (isApplicationMimeType m)
     + Z.b2z (isImageMimeType m) + Z.b2z (isJupyterMimeType m)
     + Z.b2z (isAiToolMimeType m) <= 1) /\
  (forall m,
     isJupyterMimeType m = true \/ isAiToolMimeType m = true ->
     isJsonMimeType m = true) /\
  (forall m, isTextMimeType m = true -> isTextBasedMimeType m = true) /\
  (forall m,
     In m defaultPreferredMimeTypes
     <-> isKnownMimeType m = true /\ isAiToolMimeType m = false) /\
  (forall (Any : Type) (representations : Representations Any),
     selectPrimaryRepresentation representations defaultPreferredMimeTypes
     = None
     <-> forall m, isKnownMimeType m = true -> isAiToolMimeType m = false ->
                   lookup representations m = None).
Proof.
  assert (Hpref : forall m,
             In m defaultPreferredMimeTypes
             <-> isKnownMimeType m = true /\ isAiToolMimeType m = false).
  { intros m. split.
    - intros H. unfold defaultPreferredMimeTypes in H.
      repeat (destruct H as [<-|H]; [split; reflexivity|]). destruct H.
    - intros [Hk Ha]. apply includesString_In in Hk.
      unfold KNOWN_MIME_TYPES, TEXT_MIME_TYPES, APPLICATION_MIME_TYPES,
        IMAGE_MIME_TYPES, JUPYTER_MIME_TYPES, AI_TOOL_MIME_TYPES in Hk.
      cbn [app] in Hk.
      repeat (destruct Hk as [<-|Hk];
              [first [discriminate Ha
                     | unfold defaultPreferredMimeTypes; simpl; tauto]|]).
      destruct Hk. }
  split; [|split; [|split; [|split; [|split]]]].
  - intros m. unfold isKnownMimeType, isTextMimeType, isApplicationMimeType,
      isImageMimeType, isJupyterMimeType, isAiToolMimeType, includesString,
      KNOWN_MIME_TYPES.
    rewrite !existsb_app, !orb_assoc. reflexivity.
  - intros m.
    destruct (isTextMimeType m) eqn:E1.
    { apply includesString_In in E1. unfold TEXT_MIME_TYPES in E1.
      repeat (destruct E1 as [<-|E1]; [vm_compute; discriminate|]).
      destruct E1. }
    destruct (isApplicationMimeType m) eqn:E2.
    { apply includesString_In in E2. unfold APPLICATION_MIME_TYPES in E2.
      repeat (destruct E2 as [<-|E2]; [vm_compute; discriminate|]).
      destruct E2. }
    destruct (isImageMimeType m) eqn:E3.
    { apply includesString_In in E3. unfold IMAGE_MIME_TYPES in E3.
      repeat (destruct E3 as [<-|E3]; [vm_compute; discriminate|]).
      destruct E3. }
    destruct (isJupyterMimeType m) eqn:E4.
    { apply includesString_In in E4. unfold JUPYTER_MIME_TYPES in E4.
      repeat (destruct E4 as [<-|E4]; [vm_compute; discriminate|]).
      destruct E4. }
    destruct (isAiToolMimeType m); vm_compute; discriminate.
  - intros m [H|H]; apply includesString_In in H;
      [unfold JUPYTER_MIME_TYPES in H | unfold AI_TOOL_MIME_TYPES in H];
      repeat (destruct H as [<-|H]; [reflexivity|]); destruct H.
  - intros m H. apply includesString_In in H. unfold TEXT_MIME_TYPES in H.
    repeat (destruct H as [<-|H]; [reflexivity|]). destruct H.
  - exact Hpref.
  - intros Any representations. rewrite selectPrimaryRepresentation_none.
    rewrite Forall_forall. split.
    + intros H m Hk Ha. apply H, Hpref. auto.
    + intros H m Hm. apply Hpref in Hm. apply H; tauto.
Qed.
